(** * kadiyadb core: field index, database orchestrator and wire codec

    A shallow embedding of the Go sources

    - [index/index.go]       (package index: the persistent trie),
    - the database file      (package kadiyadb: epochs, range reads, retention),
    - the generated protocol (package server: the wire codec),

    together with the properties of the specification that are checked
    against them.

    Conventions.  Go integers are [Z] with the wrap-around of their width
    written out where a value can leave the range; [/] and [%] on signed
    integers are [Z.quot] and [Z.rem] (truncation towards zero).  A byte is
    a [Z] in [0, 256).  A Go [map] whose iteration order matters to nobody
    is an association list (the trie children) or a [gmap] (the
    accumulators of the wildcard range read). *)

From stdpp Require Import gmap strings list.
From Stdlib Require Import ZArith Lia.

Set Warnings "-register-all".

(** ** Results of fallible Go code *)

(** A Go call either returns, returns an error value, or panics (index out
    of range, slice bounds out of range, nil dereference). *)
Inductive result (E A : Type) : Type :=
| Ok (a : A)
| Err (e : E)
| Panic.
Arguments Ok {E A} a.
Arguments Err {E A} e.
Arguments Panic {E A}.

Definition is_ok {E A} (r : result E A) : bool :=
  match r with Ok _ => true | _ => false end.

Abbreviation byte := Z.

(** [len(l)] as an [int]. *)
Definition lenZ {A} (l : list A) : Z := Z.of_nat (length l).

(** Fixed-width conversions. *)
Definition wrap_u32 (z : Z) : Z := z mod 2 ^ 32.
Definition wrap_u64 (z : Z) : Z := z mod 2 ^ 64.
Definition wrap_i64 (z : Z) : Z := (z + 2 ^ 63) mod 2 ^ 64 - 2 ^ 63.
Definition wrap_u8 (z : Z) : Z := z mod 2 ^ 8.

Definition max_i64 : Z := 2 ^ 63 - 1.
Definition min_i64 : Z := - 2 ^ 63.
Definition in_i64 (z : Z) : Prop := (min_i64 <= z <= max_i64)%Z.

(* ================================================================== *)
(** ** Package index *)
(* ================================================================== *)

Module Index.

Local Open Scope Z_scope.

Definition PreallocSize : Z := 1024 * 1024 * 25.
Definition PreallocThresh : Z := 1024 * 1024 * 5.
Definition ItemHeaderSize : Z := 4.

(** The error values of the package, and the errors of the collaborators
    ([io.EOF], [io.ErrUnexpectedEOF], a failed grow of the mapped file, a
    failed protobuf (un)marshal). *)
Inductive error : Type :=
| ErrWrite | ErrLoad | ErrROnly | ErrNoWild | ErrNoItem | ErrExists
| ErrEOF | ErrUnexpectedEOF | ErrGrow | ErrProto.

Definition error_eqb (a b : error) : bool :=
  match a, b with
  | ErrWrite, ErrWrite | ErrLoad, ErrLoad | ErrROnly, ErrROnly
  | ErrNoWild, ErrNoWild | ErrNoItem, ErrNoItem | ErrExists, ErrExists
  | ErrEOF, ErrEOF | ErrUnexpectedEOF, ErrUnexpectedEOF
  | ErrGrow, ErrGrow | ErrProto, ErrProto => true
  | _, _ => false
  end.

(** [NoValue = ^uint32(0)]. *)
Definition NoValue : Z := wrap_u32 (Z.lnot 0).

(** [Item] is the protobuf message of the index: the fields and a
    [uint32] value. *)
Record Item : Type := mkItem { Fields : list string; Value : Z }.

(** [type node struct { *Item; children map[string]*node }].  The trie owns
    its nodes, so a pointer to a node is the node. *)
Inductive node : Type :=
  Node { item : Item; children : list (string * node) }.

Record Metrics : Type := mkMetrics {
  Nodes : Z; Items : Z; PutOps : Z; GetOps : Z; OneOps : Z }.

Definition Metrics0 : Metrics := mkMetrics 0 0 0 0 0.

(** *** The children map *)

(** [n, ok := children[k]]. *)
Fixpoint children_get (k : string) (ch : list (string * node)) : option node :=
  match ch with
  | [] => None
  | (k', n) :: tl => if String.eqb k k' then Some n else children_get k tl
  end.

(** [children[k] = n]: an existing key keeps its place, a new one is added. *)
Fixpoint children_set (k : string) (n : node) (ch : list (string * node))
  : list (string * node) :=
  match ch with
  | [] => [(k, n)]
  | (k', n') :: tl =>
      if String.eqb k k' then (k', n) :: tl else (k', n') :: children_set k n tl
  end.

(** *** The memory-mapped file *)

(** Modelled from the spec: package [mmap] is not part of the sources.  The
    spec has the append log in a memory-mapped file, preallocated with
    zeros, that [save] appends to and [load] reads back from the start.  The
    file is an [io.ReadWriter] with one cursor; [Grow n] adds [n] zero bytes
    and fails when the file would exceed what the disk allows ([limit]). *)
Record Map : Type := mkMap { data : list byte; off : nat; limit : Z }.

Definition Map_Size (m : Map) : Z := Z.of_nat (length (data m)).

Definition Map_Reset (m : Map) : Map := mkMap (data m) 0 (limit m).

(** [n] zero bytes. *)
Definition zeros (n : Z) : list byte := replicate (Z.to_nat n) 0.
Arguments zeros : simpl never.

Definition Map_Grow (n : Z) (m : Map) : result error Map :=
  if Map_Size m + n <=? limit m
  then Ok (mkMap (data m ++ zeros n) (off m) (limit m))
  else Err ErrGrow.

(** [Write p]: all of [p] at the cursor when it fits; otherwise what fits
    is written and the write reports an error. *)
Definition Map_Write (p : list byte) (m : Map) : Map * nat * option error :=
  let avail := (length (data m) - off m)%nat in
  if (length p <=? avail)%nat
  then (mkMap (take (off m) (data m) ++ p ++ drop (off m + length p) (data m))
              (off m + length p) (limit m), length p, None)
  else (mkMap (take (off m) (data m) ++ take avail p)
              (off m + avail) (limit m), avail, Some ErrWrite).

(** [Read p] with [len(p) = n]: up to [n] bytes from the cursor; [io.EOF]
    when none is left. *)
Definition Map_Read (n : nat) (m : Map) : Map * list byte * option error :=
  let avail := (length (data m) - off m)%nat in
  if ((0 <? n) && (avail =? 0))%nat
  then (m, [], Some ErrEOF)
  else let k := Nat.min n avail in
       (mkMap (data m) (off m + k) (limit m), take k (drop (off m) (data m)), None).

(** [binary.Write(w, binary.LittleEndian, v)] for a [uint32]. *)
Definition le32 (v : Z) : list byte :=
  [ Z.land v 255; Z.land (Z.shiftr v 8) 255;
    Z.land (Z.shiftr v 16) 255; Z.land (Z.shiftr v 24) 255 ].

Definition le32_decode (bs : list byte) : Z :=
  match bs with
  | [b0; b1; b2; b3] =>
      Z.lor b0 (Z.lor (Z.shiftl b1 8) (Z.lor (Z.shiftl b2 16) (Z.shiftl b3 24)))
  | _ => 0
  end.

(** [binary.Read(r, binary.LittleEndian, &v)] for a [uint32]: [io.ReadFull]
    of four bytes, [io.EOF] when none could be read and
    [io.ErrUnexpectedEOF] when fewer than four could. *)
Definition binary_Read_u32 (m : Map) : Map * result error Z :=
  let '(m', bs, e) := Map_Read 4 m in
  match e with
  | Some e => (m', Err e)
  | None =>
      if (length bs =? 4)%nat then (m', Ok (le32_decode bs))
      else (mkMap (data m') (length (data m')) (limit m'), Err ErrUnexpectedEOF)
  end.

(** *** The index *)

Record index : Type := mkIndex {
  ROnly : bool;          (* opts.ROnly *)
  rootNode : node;
  mmapFile : Map;
  dataSize : Z;
  allocating : bool;
  metrics : Metrics }.

Definition set_root (r : node) (idx : index) : index :=
  mkIndex (ROnly idx) r (mmapFile idx) (dataSize idx) (allocating idx) (metrics idx).
Definition set_mmap (m : Map) (idx : index) : index :=
  mkIndex (ROnly idx) (rootNode idx) m (dataSize idx) (allocating idx) (metrics idx).
Definition set_dataSize (d : Z) (idx : index) : index :=
  mkIndex (ROnly idx) (rootNode idx) (mmapFile idx) d (allocating idx) (metrics idx).
Definition set_allocating (b : bool) (idx : index) : index :=
  mkIndex (ROnly idx) (rootNode idx) (mmapFile idx) (dataSize idx) b (metrics idx).
Definition set_metrics (mt : Metrics) (idx : index) : index :=
  mkIndex (ROnly idx) (rootNode idx) (mmapFile idx) (dataSize idx) (allocating idx) mt.

Definition add_Nodes (d : Z) (m : Metrics) : Metrics :=
  mkMetrics (wrap_i64 (Nodes m + d)) (Items m) (PutOps m) (GetOps m) (OneOps m).
Definition add_Items (d : Z) (m : Metrics) : Metrics :=
  mkMetrics (Nodes m) (wrap_i64 (Items m + d)) (PutOps m) (GetOps m) (OneOps m).
Definition add_PutOps (d : Z) (m : Metrics) : Metrics :=
  mkMetrics (Nodes m) (Items m) (wrap_i64 (PutOps m + d)) (GetOps m) (OneOps m).
Definition add_GetOps (d : Z) (m : Metrics) : Metrics :=
  mkMetrics (Nodes m) (Items m) (PutOps m) (wrap_i64 (GetOps m + d)) (OneOps m).
Definition add_OneOps (d : Z) (m : Metrics) : Metrics :=
  mkMetrics (Nodes m) (Items m) (PutOps m) (GetOps m) (wrap_i64 (OneOps m + d)).

(** [rootNode := &node{Item: &Item{}, children: make(map[string]*node)}]. *)
Definition root0 : node := Node (mkItem [] 0) [].

(** **** One *)

(** The loop of [One]: follow [fields] from [nd]. *)
Fixpoint One_walk (nd : node) (fields : list string) : result error node :=
  match fields with
  | [] => Ok nd
  | v :: rest =>
      if String.eqb v "" then Err ErrNoWild
      else match children_get v (children nd) with
           | None => Err ErrNoItem
           | Some nd' => One_walk nd' rest
           end
  end.

Definition One (fields : list string) (idx : index) : index * result error Item :=
  match One_walk (rootNode idx) fields with
  | Ok nd =>
      if Value (item nd) =? NoValue then (idx, Err ErrNoItem)
      else (set_metrics (add_OneOps 1 (metrics idx)) idx, Ok (item nd))
  | Err e => (idx, Err e)
  | Panic => (idx, Panic)
  end.

(** **** Get *)

(** [find] collects the valued nodes of a sub-tree.  Go iterates a map in an
    unspecified order; the model takes the children in list order. *)
Fixpoint find (root : node) : list Item :=
  (if Value (item root) =? NoValue then [] else [item root])
  ++ flat_map (fun p => find (snd p)) (children root).

(** The first loop of [Get], from position [i] on ([rest] is [fields[i:]]).
    [None]: an edge is missing.  Otherwise the node reached and
    [needsFilter]; the inner loop looks at [fields[j]] for [j] from
    [nfields-1] down to [i]. *)
Fixpoint Get_walk (root : node) (rest : list string) : option (node * bool) :=
  match rest with
  | [] => Some (root, false)
  | v :: tl =>
      if String.eqb v ""
      then Some (root, existsb (fun f => negb (String.eqb f "")) (v :: tl))
      else match children_get v (children root) with
           | None => None
           | Some root' => Get_walk root' tl
           end
  end.

(** The inner loop of the filter, [for j := range item.Fields], from [j] on
    ([rest] is [item.Fields[j:]]).  [fields[j]] panics when [j] is not below
    [len(fields)].  [Ok false] is [continue outer]. *)
Fixpoint filter_item (fields : list string) (j : nat) (rest : list string)
  : result error bool :=
  match rest with
  | [] => Ok true
  | x :: tl =>
      match fields !! j with
      | None => Panic
      | Some fj =>
          if negb (String.eqb fj "") && negb (String.eqb fj x) then Ok false
          else filter_item fields (S j) tl
      end
  end.

(** The outer loop of the filter. *)
Fixpoint filter_items (fields : list string) (items : list Item)
  : result error (list Item) :=
  match items with
  | [] => Ok []
  | it :: tl =>
      match filter_item fields 0 (Fields it) with
      | Panic => Panic
      | Err e => Err e
      | Ok keep =>
          match filter_items fields tl with
          | Ok r => Ok (if keep then it :: r else r)
          | other => other
          end
      end
  end.

Definition Get (fields : list string) (idx : index)
  : index * result error (list Item) :=
  match Get_walk (rootNode idx) fields with
  | None => (set_metrics (add_GetOps 1 (metrics idx)) idx, Ok [])
  | Some (root, needsFilter) =>
      let items := find root in
      if negb needsFilter
      then (set_metrics (add_GetOps 1 (metrics idx)) idx, Ok items)
      else match filter_items fields items with
           | Ok filtered => (set_metrics (add_GetOps 1 (metrics idx)) idx, Ok filtered)
           | Err e => (idx, Err e)
           | Panic => (idx, Panic)
           end
  end.

(** **** add *)

(** The walk of [add] from position [i] on ([rest] is [nd.Fields[i:]], not
    empty).  All but the last field go through the loop over [mfields],
    which creates the missing waypoints; the last one sets or updates the
    leaf.  The result is the updated node and the number of nodes created. *)
Fixpoint add_walk (nd : node) (i : nat) (rest : list string) (root : node)
  : node * Z :=
  match rest with
  | [] => (root, 0)
  | field :: tl =>
      match tl with
      | [] =>
          match children_get field (children root) with
          | Some leaf =>
              (Node (item root)
                 (children_set field
                    (Node (mkItem (Fields (item leaf)) (Value (item nd))) (children leaf))
                    (children root)), 0)
          | None =>
              (Node (item root) (children_set field nd (children root)), 1)
          end
      | _ :: _ =>
          let '(newRoot, created) :=
            match children_get field (children root) with
            | Some n => (n, 0)
            | None => (Node (mkItem (take (S i) (Fields (item nd))) NoValue) [], 1)
            end in
          let '(newRoot', more) := add_walk nd (S i) tl newRoot in
          (Node (item root) (children_set field newRoot' (children root)),
           created + more)
      end
  end.

(** [nd.Fields[:count-1]] panics for [count = 0]. *)
Definition add (nd : node) (idx : index) : index * result error unit :=
  match Fields (item nd) with
  | [] => (idx, Panic)
  | _ :: _ =>
      let '(root', created) := add_walk nd 0 (Fields (item nd)) (rootNode idx) in
      (set_metrics (add_Items 1 (add_Nodes created (metrics idx)))
         (set_root root' idx), Ok tt)
  end.

(** What [One] finds under [g]: the value of the node, [NoValue] when
    there is no node (or no such path). *)
Definition val (g : list string) (root : node) : Z :=
  match One_walk root g with
  | Ok n => Value (item n)
  | _ => NoValue
  end.

(** The steps of a session on a writable index: a [Put], or a run of the
    goroutine that [save] starts. *)
Inductive op : Type :=
| OpPut (fields : list string) (value : Z)
| OpBackground.

Definition items_of (ops : list op) : list Item :=
  flat_map (fun o => match o with OpPut f v => [mkItem f v] | OpBackground => [] end) ops.

(** The value of a [Put] is a [uint32]. *)
Definition op_ok (o : op) : Prop :=
  match o with OpPut _ v => 0 <= v < 2 ^ 32 | OpBackground => True end.

(** The file as [mmap.New] opens it again. *)
Definition reopened (m : Map) : Map := mkMap (data m) 0 (limit m).

(** **** The item codec *)

(** [proto.Marshal] and [proto.Unmarshal] on an [Item]: the generated codec
    of the index package is not part of the sources, it is an interface of
    the model. *)
Class ItemCodec : Type := {
  marshal : Item -> option (list byte);
  unmarshal : list byte -> option Item }.

Section WithCodec.
Context `{ItemCodec}.

(** **** allocate, preallocateIfNeeded *)

Definition allocate (idx : index) : result error index :=
  match Map_Grow PreallocSize (mmapFile idx) with
  | Ok m => Ok (set_mmap m idx)
  | Err e => Err e
  | Panic => Panic
  end.

Definition preallocateIfNeeded (idx : index) : index * result error unit :=
  if Map_Size (mmapFile idx) - dataSize idx <? PreallocThresh
  then match allocate idx with
       | Ok idx' => (set_allocating false idx', Ok tt)
       | Err e => (set_allocating false idx, Err e)
       | Panic => (idx, Panic)
       end
  else (set_allocating false idx, Ok tt).

(** [go idx.preallocateIfNeeded()]: [save] sets [allocating] and starts the
    goroutine; the model runs it as a step of its own, at any later time. *)
Definition background (idx : index) : index :=
  if allocating idx then fst (preallocateIfNeeded idx) else idx.

(** **** save *)

Definition save (nd : node) (idx : index) : index * result error unit :=
  match marshal (item nd) with
  | None => (idx, Err ErrProto)
  | Some itemBytes =>
      let payloadSize := Z.of_nat (length itemBytes) + ItemHeaderSize in
      let forced :=
        if Map_Size (mmapFile idx) - dataSize idx - payloadSize <? 0
        then allocate idx else Ok idx in
      match forced with
      | Err e => (idx, Err e)
      | Panic => (idx, Panic)
      | Ok idx1 =>
          let idx2 :=
            if negb (allocating idx1)
               && (Map_Size (mmapFile idx1) - dataSize idx1 - payloadSize <? PreallocThresh)
            then set_allocating true idx1 else idx1 in
          let idx3 := set_dataSize (wrap_i64 (dataSize idx2 + payloadSize)) idx2 in
          let itemSize := wrap_u32 (Z.of_nat (length itemBytes)) in
          let '(m1, _, e1) := Map_Write (le32 itemSize) (mmapFile idx3) in
          match e1 with
          | Some e => (set_mmap m1 idx3, Err e)
          | None =>
              let '(m2, n, e2) := Map_Write itemBytes m1 in
              match e2 with
              | Some e => (set_mmap m2 idx3, Err e)
              | None =>
                  if wrap_u32 (Z.of_nat n) =? itemSize
                  then (set_mmap m2 idx3, Ok tt)
                  else (set_mmap m2 idx3, Err ErrWrite)
              end
          end
      end
  end.

(** **** load *)

(** The loop of [load]; every turn reads at least the four bytes of a
    header, so [fuel] above the file length is never used up ([None]). *)
Fixpoint load_loop (fuel : nat) (buffrSize : Z) (idx : index)
  : option (index * result error unit) :=
  match fuel with
  | O => None
  | S fuel' =>
      let '(m1, r) := binary_Read_u32 (mmapFile idx) in
      let idx1 := set_mmap m1 idx in
      match r with
      | Panic => Some (idx1, Panic)
      | Err ErrEOF => Some (idx1, Ok tt)
      | Err e => Some (idx1, Err e)
      | Ok itemSize =>
          if itemSize =? 0 then Some (idx1, Ok tt)
          else if itemSize >=? wrap_u32 (buffrSize - dataSize idx1)
          then Some (idx1, Err ErrLoad)
          else
            let '(m2, itemData, e) := Map_Read (Z.to_nat itemSize) m1 in
            let idx2 := set_mmap m2 idx1 in
            match e with
            | Some e => Some (idx2, Err e)
            | None =>
                if negb (wrap_u32 (Z.of_nat (length itemData)) =? itemSize)
                then Some (idx2, Err ErrLoad)
                else match unmarshal itemData with
                     | None => Some (idx2, Err ErrProto)
                     | Some it =>
                         match add (Node it []) idx2 with
                         | (idx3, Ok _) =>
                             load_loop fuel' buffrSize
                               (set_dataSize
                                  (wrap_i64 (dataSize idx3 + (ItemHeaderSize + itemSize)))
                                  idx3)
                         | (idx3, r) => Some (idx3, r)
                         end
                     end
            end
      end
  end.

Definition load (idx : index) : option (index * result error unit) :=
  let buffer := Map_Reset (mmapFile idx) in
  load_loop (S (length (data buffer))) (Map_Size buffer) (set_mmap buffer idx).

(** **** New *)

(** [New] on the file [mfile] that [mmap.New] opened.  A read-only index
    closes the file after the load. *)
Definition New (ronly : bool) (mfile : Map) : option (result error index) :=
  let idx := mkIndex ronly root0 mfile 0 false Metrics0 in
  match load idx with
  | None => None
  | Some (idx1, Ok _) =>
      if ronly then Some (Ok idx1)
      else match preallocateIfNeeded idx1 with
           | (idx2, Ok _) => Some (Ok idx2)
           | (_, Err e) => Some (Err e)
           | (_, Panic) => Some Panic
           end
  | Some (_, Err e) => Some (Err e)
  | Some (_, Panic) => Some Panic
  end.

(** **** Put *)

Definition Put (fields : list string) (value : Z) (idx : index)
  : index * result error unit :=
  if ROnly idx then (idx, Err ErrWrite)
  else if existsb (fun f => String.eqb f "") fields then (idx, Err ErrNoWild)
  else
    let '(idx1, r) := One fields idx in
    match r with
    | Panic => (idx1, Panic)
    | Err ErrNoItem =>
        let nd := Node (mkItem fields value) [] in
        match save nd idx1 with
        | (idx2, Ok _) =>
            match add nd idx2 with
            | (idx3, Ok _) =>
                (set_metrics (add_PutOps 1 (metrics idx3)) idx3, Ok tt)
            | (idx3, r) => (idx3, r)
            end
        | (idx2, r) => (idx2, r)
        end
    | _ => (idx1, Err ErrExists)
    end.

(** The record of [bs], [[u32 LE length][bytes]], lies in the file at
    position [pos]. *)
Definition record_in (bs : list byte) (pos : nat) (m : Map) : Prop :=
  exists pre post,
    data m = pre ++ le32 (wrap_u32 (Z.of_nat (length bs))) ++ bs ++ post
    /\ length pre = pos.

(** What [Put] does once it has reached [save], by the outcome of [save]:
    an error is returned as it is and the trie is the one before; on success
    the trie is still the one before when [add] starts, the record is in the
    file, and [Put] ends with the trie and the result of [add]. *)
Definition Put_after_save (fields : list string) (value : Z) (idx : index) : Prop :=
  let nd := Node (mkItem fields value) [] in
  match save nd (fst (One fields idx)) with
  | (idx2, Err e) =>
      Put fields value idx = (idx2, Err e) /\ rootNode idx2 = rootNode idx
  | (idx2, Panic) =>
      Put fields value idx = (idx2, Panic) /\ rootNode idx2 = rootNode idx
  | (idx2, Ok _) =>
      rootNode idx2 = rootNode idx
      /\ (exists bs, marshal (mkItem fields value) = Some bs
                     /\ record_in bs (off (mmapFile idx)) (mmapFile idx2))
      /\ rootNode (fst (Put fields value idx)) = rootNode (fst (add nd idx2))
      /\ mmapFile (fst (Put fields value idx)) = mmapFile idx2
      /\ snd (Put fields value idx) = snd (add nd idx2)
  end.

(** **** Sessions and the log *)

(** A session in which every [Put] succeeds; [None] when one fails. *)
Fixpoint run (ops : list op) (idx : index) : option index :=
  match ops with
  | [] => Some idx
  | OpPut fields value :: tl =>
      match Put fields value idx with
      | (idx', Ok _) => run tl idx'
      | _ => None
      end
  | OpBackground :: tl => run tl (background idx)
  end.

(** The record of the bytes of an item, and the log of a list of items. *)
Definition record (bs : list byte) : list byte := le32 (lenZ bs) ++ bs.

Fixpoint log_of (its : list Item) : list byte :=
  match its with
  | [] => []
  | it :: tl => default [] (record <$> marshal it) ++ log_of tl
  end.

(** The trie after the [add] of a list of items. *)
Definition trie_of (its : list Item) (root : node) : node :=
  fold_left (fun r it => fst (add_walk (Node it []) 0 (Fields it) r)) its root.

(** An item as [Put] saves it: fields, a [uint32] value, and bytes that are
    not empty and decode to it. *)
Definition item_ok (it : Item) : Prop :=
  Fields it <> [] /\ 0 <= Value it < 2 ^ 32
  /\ exists bs, marshal it = Some bs /\ bs <> [] /\ unmarshal bs = Some it.

(** The index is in step with its file: the file is the log of the items
    [its] followed by zeros, the cursor and [dataSize] are at the end of the
    log, the trie is the one of [its], and the file is within what the disk
    allows. *)
Definition consistent (its : list Item) (idx : index) : Prop :=
  Forall item_ok its
  /\ (exists tail, data (mmapFile idx) = log_of its ++ tail /\ Forall (fun b => b = 0) tail)
  /\ off (mmapFile idx) = length (log_of its)
  /\ dataSize idx = lenZ (log_of its)
  /\ rootNode idx = trie_of its root0
  /\ Map_Size (mmapFile idx) <= limit (mmapFile idx).

(** What is assumed of the item codec: the bytes of an item, when fewer
    than [2^32], decode to it, and an item with fields has bytes. *)
Class ItemLaws : Prop := {
  marshal_unmarshal : forall it bs,
    0 <= Value it < 2 ^ 32 -> marshal it = Some bs -> lenZ bs < 2 ^ 32 ->
    unmarshal bs = Some it;
  marshal_nonempty : forall it bs,
    Fields it <> [] -> marshal it = Some bs -> bs <> [] }.

(** What the reopened index must be: the trie and the data size of the index
    that was closed, and for every put of a value the value under its
    fields.  A writable reopen can also fail in its preallocation. *)
Definition reopens_as (ops : list op) (idx : index) (r : option (result error index))
    (ronly : bool) : Prop :=
  match r with
  | Some (Ok idx_r) =>
      rootNode idx_r = rootNode idx /\ dataSize idx_r = dataSize idx
      /\ forall f v, In (OpPut f v) ops -> v <> NoValue ->
           exists it, snd (One f idx_r) = Ok it /\ Value it = v
  | Some (Err e) => ronly = false /\ e = ErrGrow
  | _ => False
  end.

End WithCodec.

(** **** What the reads observe *)

(** The answer of [One] under [g] in the trie below [root]. *)
Definition One_in (root : node) (g : list string) : result error Item :=
  match One_walk root g with
  | Ok nd => if Value (item nd) =? NoValue then Err ErrNoItem else Ok (item nd)
  | Err e => Err e
  | Panic => Panic
  end.

(** The fields of a query before its first wildcard: the path the first
    loop of [Get] follows. *)
Fixpoint before_wildcard (fields : list string) : list string :=
  match fields with
  | [] => []
  | v :: tl => if String.eqb v "" then [] else v :: before_wildcard tl
  end.

(** An item agrees with a query: on every position that both have, the
    field of the query is the wildcard or the field of the item. *)
Fixpoint matches (fields itf : list string) : bool :=
  match fields, itf with
  | f :: fs, x :: xs => (String.eqb f "" || String.eqb f x) && matches fs xs
  | _, _ => true
  end.

(** The trie below a node reached by the path [p] is well formed: the item
    of every node has the path to the node as its fields, no edge is the
    wildcard, and a node has one child per field. *)
Inductive paths_ok : list string -> node -> Prop :=
| paths_ok_node p it ch :
    Fields it = p ->
    NoDup (map fst ch) ->
    Forall (fun kn => fst kn <> "" /\ paths_ok (p ++ [fst kn]) (snd kn)) ch ->
    paths_ok p (Node it ch).

(** **** The end of the log *)

(** What follows the log in the file ends the replay of [load] without an
    error: nothing (the read of the next header meets [io.EOF]), or the zero
    header of the preallocated space and any bytes after it. *)
Definition ends_log (tail : list byte) : Prop :=
  tail = [] \/ exists rest, tail = 0 :: 0 :: 0 :: 0 :: rest.

(** The bytes [load] reads past the log: the header that ends the replay. *)
Definition gap (tail : list byte) : nat :=
  match tail with [] => 0 | _ :: _ => 4 end.

End Index.

(* ================================================================== *)
(** ** Package kadiyadb: the database *)
(* ================================================================== *)

Module Database.

Local Open Scope Z_scope.

Inductive error : Type :=
| ErrDurRes | ErrFuture | ErrRWEpoch | ErrRange | ErrExists
| ErrEpoch.   (* any error of an epoch: its index, its block store, its files *)

Record Metadata : Type := mkMetadata {
  Path : string;
  Resolution : Z;      (* int64 *)
  Retention : Z;       (* int64 *)
  Duration : Z;        (* int64 *)
  PayloadSize : Z;     (* uint32 *)
  SegmentSize : Z;     (* uint32 *)
  MaxROEpochs : Z;     (* uint32 *)
  MaxRWEpochs : Z }.   (* uint32 *)

(** A [[]byte]: [None] is the nil slice, the zero value of the type. *)
Definition payload : Type := option (list byte).

(** [make([]byte, n)]. *)
Definition make_bytes (n : Z) : payload := Some (replicate (Z.to_nat n) 0).

(** [EpochOptions]; the path [{Path}/epoch_{ts}] is kept as its two
    components. *)
Record EpochOptions : Type := mkEpochOptions {
  EDir : string; ETs : Z; PSize : Z; RSize : Z; SSize : Z; EROnly : bool }.

(** The epoch is a collaborator of the database: an interface.  [EGet]
    returns a [map[*index.Item][][]byte], here the entries in the order the
    [range] over it visits them. *)
Class EpochStore : Type := {
  Epoch : Type;
  NewEpoch : EpochOptions -> result error Epoch;
  EOne : Epoch -> Z -> Z -> list string -> result error (list payload);
  EGet : Epoch -> Z -> Z -> list string
         -> result error (list (Index.Item * list payload)) }.

(** Modelled from the spec: the LRU cache is not part of the sources.  A
    capacity-bounded mapping from [int64] keys to epoch handles, most
    recently used first; [get] moves the key to the front, [add] inserts
    and evicts the least recently used entries beyond the capacity, which
    go to the eviction callback (it closes them). *)
Record Cache (E : Type) : Type := mkCache {
  capacity : nat; entries : list (Z * E) }.
Arguments mkCache {E}.
Arguments capacity {E}.
Arguments entries {E}.

Definition NewCache {E} (n : Z) : Cache E := mkCache (Z.to_nat n) [].

Fixpoint assoc {E} (k : Z) (l : list (Z * E)) : option E :=
  match l with
  | [] => None
  | (k', v) :: tl => if k =? k' then Some v else assoc k tl
  end.

Definition unassoc {E} (k : Z) (l : list (Z * E)) : list (Z * E) :=
  filter (fun p => fst p <> k) l.

Definition Cache_Get {E} (k : Z) (c : Cache E) : Cache E * option E :=
  match assoc k (entries c) with
  | Some v => (mkCache (capacity c) ((k, v) :: unassoc k (entries c)), Some v)
  | None => (c, None)
  end.

Definition Cache_Add {E} (k : Z) (v : E) (c : Cache E) : Cache E * list (Z * E) :=
  let es := (k, v) :: unassoc k (entries c) in
  (mkCache (capacity c) (take (capacity c) es), drop (capacity c) es).

Section WithEpochs.
Context `{EpochStore}.

Record database : Type := mkDatabase {
  metadata : Metadata;
  roepochs : Cache Epoch;
  rwepochs : Cache Epoch;
  recovery : bool;
  closed : bool }.     (* the channel [closed] has been closed *)

(** **** getEpoch *)

(** Which cache an epoch was taken from or put into. *)
Inductive tier : Type := RO | RW.

Definition cache_of (t : tier) (db : database) : Cache Epoch :=
  match t with RO => roepochs db | RW => rwepochs db end.

Definition set_cache (t : tier) (c : Cache Epoch) (db : database) : database :=
  match t with
  | RO => mkDatabase (metadata db) c (rwepochs db) (recovery db) (closed db)
  | RW => mkDatabase (metadata db) (roepochs db) c (recovery db) (closed db)
  end.

(** [getEpoch]; [now] is what [vtimer.Now()] returns.  [%] and [/] panic on
    a zero divisor. *)
Definition getEpoch (now : Z) (ts : Z) (db : database)
  : database * result error Epoch :=
  let md := metadata db in
  if Duration md =? 0 then (db, Panic) else
  let ts := wrap_i64 (ts - Z.rem ts (Duration md)) in
  let now := wrap_i64 (now - Z.rem now (Duration md)) in
  let min := wrap_i64 (now - wrap_i64 (wrap_u32 (MaxRWEpochs md - 1) * Duration md)) in
  let max := wrap_i64 (now + Duration md) in
  if ts >=? max then (db, Err ErrFuture) else
  let ro := ts <? min in
  let ro := if recovery db then false else ro in
  let t := if ro then RO else RW in
  match Cache_Get ts (cache_of t db) with
  | (c, Some epo) => (set_cache t c db, Ok epo)
  | (c, None) =>
      let db := set_cache t c db in
      if Resolution md =? 0 then (db, Panic) else
      let payloadCount := wrap_u32 (Z.quot (Duration md) (Resolution md)) in
      let options :=
        mkEpochOptions (Path md) ts (PayloadSize md) payloadCount (SegmentSize md) ro in
      match NewEpoch options with
      | Err e => (db, Err e)
      | Panic => (db, Panic)
      | Ok epo =>
          (set_cache t (fst (Cache_Add ts epo (cache_of t db))) db, Ok epo)
      end
  end.

(** The admission window in the words of the spec: a timestamp floored to
    the duration is [T - T mod duration]; [min = now - (max_rw_epochs - 1) *
    duration] and [max = now + duration], for the floored [now], in
    unbounded integers. *)
Definition spec_floor (md : Metadata) (t : Z) : Z := t - Z.rem t (Duration md).
Definition spec_min (md : Metadata) (now : Z) : Z :=
  spec_floor md now - (MaxRWEpochs md - 1) * Duration md.
Definition spec_max (md : Metadata) (now : Z) : Z :=
  spec_floor md now + Duration md.

(** The tier an admitted epoch belongs to. *)
Definition spec_tier (db : database) (now ts : Z) : tier :=
  if recovery db then RW
  else if spec_floor (metadata db) ts <? spec_min (metadata db) now then RO else RW.

Definition other (t : tier) : tier := match t with RO => RW | RW => RO end.

(** The epoch at [ts] is served from tier [t]: the other cache is not
    touched; a resident epoch is returned and becomes the most recently
    used; otherwise the epoch is opened, read-only exactly for the tier
    [RO], and added to the cache of [t]. *)
Definition served_from (t : tier) (ts : Z) (db db' : database)
    (r : result error Epoch) : Prop :=
  let md := metadata db in
  cache_of (other t) db' = cache_of (other t) db
  /\ metadata db' = md /\ recovery db' = recovery db
  /\ match assoc ts (entries (cache_of t db)) with
     | Some epo =>
         r = Ok epo
         /\ entries (cache_of t db') = (ts, epo) :: unassoc ts (entries (cache_of t db))
     | None =>
         match NewEpoch (mkEpochOptions (Path md) ts (PayloadSize md)
                           (wrap_u32 (Z.quot (Duration md) (Resolution md)))
                           (SegmentSize md)
                           (match t with RO => true | RW => false end)) with
         | Ok epo =>
             r = Ok epo
             /\ entries (cache_of t db')
                = take (capacity (cache_of t db))
                    ((ts, epo) :: unassoc ts (entries (cache_of t db)))
         | Err e => r = Err e /\ cache_of t db' = cache_of t db
         | Panic => r = Panic
         end
     end.

(** **** Range reads *)

(** [copy(out[a:b], src)]: the slice expression panics unless
    [0 <= a <= b <= len(out)]; [copy] moves [min(b - a, len(src))]
    elements. *)
Definition copy_into {A} (out : list A) (a b : Z) (src : list A)
  : result error (list A) :=
  if (0 <=? a) && (a <=? b) && (b <=? Z.of_nat (length out))
  then let n := Nat.min (Z.to_nat (b - a)) (length src) in
       Ok (take (Z.to_nat a) out ++ take n src ++ drop (Z.to_nat a + n) out)
  else Panic.

(** The trimmed window of the epoch at [ts]. *)
Definition trm (dur start_ end_ epoFirst epoLast ts : Z) : Z * Z :=
  (if ts =? epoFirst then start_ else ts,
   if ts =? epoLast then end_ else wrap_i64 (ts + dur)).

(** The loop of [One], [for ts := epoFirst; ts <= epoLast; ts += dur].
    [None] when [fuel] turns were not enough. *)
Fixpoint One_loop (fuel : nat) (now : Z) (fields : list string)
    (start_ end_ epoFirst epoLast : Z) (ts : Z)
    (out : list payload) (db : database)
  : option (database * result error (list payload)) :=
  if negb (ts <=? epoLast) then Some (db, Ok out) else
  match fuel with
  | O => None
  | S fuel' =>
      let dur := Duration (metadata db) in
      let res := Resolution (metadata db) in
      let next := wrap_i64 (ts + dur) in
      match getEpoch now ts db with
      | (db1, Panic) => Some (db1, Panic)
      | (db1, Err _) =>
          One_loop fuel' now fields start_ end_ epoFirst epoLast next out db1
      | (db1, Ok epo) =>
          let '(trmStart, trmEnd) := trm dur start_ end_ epoFirst epoLast ts in
          let numPoints := Z.quot (wrap_i64 (trmEnd - trmStart)) res in
          let startPos := wrap_u32 (Z.quot (Z.rem trmStart dur) res) in
          let endPos := wrap_u32 (startPos + wrap_u32 numPoints) in
          match EOne epo startPos endPos fields with
          | Panic => Some (db1, Panic)
          | Err _ =>
              One_loop fuel' now fields start_ end_ epoFirst epoLast next out db1
          | Ok res_ =>
              let recStart := Z.quot (wrap_i64 (trmStart - start_)) res in
              let recEnd := Z.quot (wrap_i64 (trmEnd - start_)) res in
              match copy_into out recStart recEnd res_ with
              | Ok out' =>
                  One_loop fuel' now fields start_ end_ epoFirst epoLast next out' db1
              | Err e => Some (db1, Err e)
              | Panic => Some (db1, Panic)
              end
          end
      end
  end.

(** The number of turns of the loop when nothing wraps. *)
Definition turns (dur epoFirst epoLast : Z) : nat :=
  Z.to_nat (Z.quot (epoLast - epoFirst) dur + 1).

(** [One].  [make([][]byte, pcount)] panics when [pcount] is negative; the
    quotient of two [int64] wraps ([MinInt64 / -1] is [MinInt64]). *)
Definition One (now : Z) (start_ end_ : Z) (fields : list string) (db : database)
  : option (database * result error (list payload)) :=
  let md := metadata db in
  let dur := Duration md in
  let res := Resolution md in
  if (res =? 0) then Some (db, Panic) else
  let start_ := wrap_i64 (start_ - Z.rem start_ res) in
  let end_ := wrap_i64 (end_ - Z.rem end_ res) in
  if end_ <=? start_ then Some (db, Err ErrRange) else
  if (dur =? 0) then Some (db, Panic) else
  let epoFirst := wrap_i64 (start_ - Z.rem start_ dur) in
  let epoLast := wrap_i64 (end_ - Z.rem end_ dur) in
  let pcount := wrap_i64 (Z.quot (wrap_i64 (end_ - start_)) res) in
  if pcount <? 0 then Some (db, Panic) else
  let out : list payload := replicate (Z.to_nat pcount) None in
  One_loop (turns dur epoFirst epoLast) now fields start_ end_ epoFirst epoLast
    epoFirst out db.

(** The accumulators of [Get]: [tmpPoints] and [tmpFields]. *)
Record acc : Type := mkAcc {
  tmpPoints : gmap string (list payload);
  tmpFields : gmap string (list string) }.

(** The body of [for item, points := range result].  For a key that is
    new, [make([][]byte, pointCount, pointCount)] panics when [pointCount]
    is negative. *)
Definition Get_item (md : Metadata) (pointCount recStart recEnd : Z)
    (a : acc) (entry : Index.Item * list payload) : result error acc :=
  let '(it, points) := entry in
  let key := String.concat "-" (Index.Fields it) in
  let made : result error (list payload * acc) :=
    match tmpPoints a !! key with
    | Some set => Ok (set, a)
    | None =>
        if pointCount <? 0 then Panic else
        let set := replicate (Z.to_nat pointCount) (make_bytes (PayloadSize md)) in
        Ok (set, mkAcc (<[key := set]> (tmpPoints a))
                       (<[key := Index.Fields it]> (tmpFields a)))
    end in
  match made with
  | Ok (set, a1) =>
      match copy_into set recStart recEnd points with
      | Ok set' => Ok (mkAcc (<[key := set']> (tmpPoints a1)) (tmpFields a1))
      | Err e => Err e
      | Panic => Panic
      end
  | Err e => Err e
  | Panic => Panic
  end.

Fixpoint Get_items (md : Metadata) (pointCount recStart recEnd : Z)
    (a : acc) (entries_ : list (Index.Item * list payload)) : result error acc :=
  match entries_ with
  | [] => Ok a
  | e :: tl =>
      match Get_item md pointCount recStart recEnd a e with
      | Ok a' => Get_items md pointCount recStart recEnd a' tl
      | other => other
      end
  end.

Fixpoint Get_loop (fuel : nat) (now : Z) (fields : list string)
    (start_ end_ epoFirst epoLast pointCount : Z) (ts : Z)
    (a : acc) (db : database)
  : option (database * result error acc) :=
  if negb (ts <=? epoLast) then Some (db, Ok a) else
  match fuel with
  | O => None
  | S fuel' =>
      let dur := Duration (metadata db) in
      let res := Resolution (metadata db) in
      let next := wrap_i64 (ts + dur) in
      match getEpoch now ts db with
      | (db1, Panic) => Some (db1, Panic)
      | (db1, Err _) =>
          Get_loop fuel' now fields start_ end_ epoFirst epoLast pointCount next a db1
      | (db1, Ok epo) =>
          let '(trmStart, trmEnd) := trm dur start_ end_ epoFirst epoLast ts in
          let numPoints := wrap_u32 (Z.quot (wrap_i64 (trmEnd - trmStart)) res) in
          let startPos := wrap_u32 (Z.quot (Z.rem trmStart dur) res) in
          let endPos := wrap_u32 (startPos + numPoints) in
          match EGet epo startPos endPos fields with
          | Panic => Some (db1, Panic)
          | Err _ =>
              Get_loop fuel' now fields start_ end_ epoFirst epoLast pointCount next a db1
          | Ok result_ =>
              let recStart := Z.quot (wrap_i64 (trmStart - start_)) res in
              let recEnd := Z.quot (wrap_i64 (trmEnd - start_)) res in
              match Get_items (metadata db) pointCount recStart recEnd a result_ with
              | Ok a' =>
                  Get_loop fuel' now fields start_ end_ epoFirst epoLast pointCount
                    next a' db1
              | Err e => Some (db1, Err e)
              | Panic => Some (db1, Panic)
              end
          end
      end
  end.

(** The output [map[*index.Item][][]byte] has one entry per key of
    [tmpFields], each under a fresh [*index.Item]: the list of its entries,
    in the order of [map_to_list]. *)
Definition Get_out (a : acc) : list (Index.Item * list payload) :=
  (fun kf => (Index.mkItem (snd kf) 0, default [] (tmpPoints a !! fst kf)))
    <$> map_to_list (tmpFields a).

(** [Get]; [pointCount] is the wrapped quotient, as [pcount] in [One]. *)
Definition Get (now : Z) (start_ end_ : Z) (fields : list string) (db : database)
  : option (database * result error (list (Index.Item * list payload))) :=
  let md := metadata db in
  let dur := Duration md in
  let res := Resolution md in
  if (res =? 0) then Some (db, Panic) else
  let start_ := wrap_i64 (start_ - Z.rem start_ res) in
  let end_ := wrap_i64 (end_ - Z.rem end_ res) in
  if end_ <=? start_ then Some (db, Err ErrRange) else
  if (dur =? 0) then Some (db, Panic) else
  let epoFirst := wrap_i64 (start_ - Z.rem start_ dur) in
  let epoLast := wrap_i64 (end_ - Z.rem end_ dur) in
  let pointCount := wrap_i64 (Z.quot (wrap_i64 (end_ - start_)) res) in
  match Get_loop (turns dur epoFirst epoLast) now fields start_ end_ epoFirst
          epoLast pointCount epoFirst (mkAcc ∅ ∅) db with
  | None => None
  | Some (db', Ok a) => Some (db', Ok (Get_out a))
  | Some (db', Err e) => Some (db', Err e)
  | Some (db', Panic) => Some (db', Panic)
  end.

End WithEpochs.

(** **** The retention loop *)

(** How a Go statement completes: normally, by a [break], or by a
    [return]. *)
Inductive completion : Type := Normal | Break | Return.

(** A [break] that is not labelled ends the innermost [for], [switch] or
    [select]: a [select] whose chosen case ends by [break] completes
    normally. *)
Definition select_completes (c : completion) : completion :=
  match c with Break => Normal | other => other end.

(** Which case of the [select] runs: the receive from [db.closed], ready
    once the channel is closed, or the tick. *)
Inductive ready : Type := ClosedReady | TickReady.

Section Retention.
(** The world [expire] works on (clock, directory, read-only cache). *)
Variable world : Type.
Variable expire : world -> world.

(** [select { case _ = <-db.closed: break; case <-time.Tick(..): expire }]. *)
Definition retention_select (r : ready) (w : world) : world * completion :=
  match r with
  | ClosedReady => (w, select_completes Break)
  | TickReady => (expire w, select_completes Normal)
  end.

(** [for { select {...} }] for at most [fuel] turns; [sched i] is the case
    taken at turn [i].  [Some w]: the loop was left, in world [w]; [None]:
    it is still running after [fuel] turns. *)
Fixpoint retention_loop (fuel : nat) (i : nat) (sched : nat -> ready) (w : world)
  : option world :=
  match fuel with
  | O => None
  | S fuel' =>
      match retention_select (sched i) w with
      | (w', Normal) => retention_loop fuel' (S i) sched w'
      | (w', Break) => Some w'
      | (w', Return) => Some w'
      end
  end.

(** [enforceRetention]: the initial [expire], then the loop; nothing follows
    the loop, so the function returns when the loop is left. *)
Definition enforceRetention (fuel : nat) (sched : nat -> ready) (w : world)
  : option world :=
  retention_loop fuel 0 sched (expire w).

End Retention.

(** **** The accumulators of [Get] *)

(** every series of the accumulator has [pc] slots that satisfy [P], and
    every key with fields has a series *)
Definition acc_ok (P : payload -> Prop) (pc : nat) (a : acc) : Prop :=
  (forall key set, tmpPoints a !! key = Some set -> length set = pc /\ Forall P set)
  /\ (forall key f, tmpFields a !! key = Some f -> is_Some (tmpPoints a !! key)).

(** **** Put *)

Section Writes.
Context `{EpochStore}.
(** [epo.Put(pos, fields, value)] of the epoch. *)
Variable EPut : Epoch -> Z -> list string -> payload -> result error unit.

(** [Put]: the timestamp is floored to the resolution, the epoch is taken
    from [getEpoch], and the point goes to the position of the timestamp in
    the epoch. *)
Definition Put (now ts : Z) (fields : list string) (value : payload) (db : database)
  : database * result error unit :=
  let md := metadata db in
  let dur := Duration md in
  let res := Resolution md in
  if res =? 0 then (db, Panic) else
  let ts := wrap_i64 (ts - Z.rem ts res) in
  match getEpoch now ts db with
  | (db1, Ok epo) =>
      if dur =? 0 then (db1, Panic) else
      let trmStart := wrap_i64 (ts - Z.rem ts dur) in
      let pos := wrap_u32 (Z.quot (wrap_i64 (ts - trmStart)) res) in
      (db1, EPut epo pos fields value)
  | (db1, Err e) => (db1, Err e)
  | (db1, Panic) => (db1, Panic)
  end.

End Writes.

(** **** expire *)

Definition EpochPrefix : string := "epoch_".

(** [strings.HasPrefix(s, p)] and [strings.TrimPrefix(s, p)] in one: the
    rest of [s] after [p] when [s] starts with [p]. *)
Fixpoint strip_prefix (p s : string) : option string :=
  match p, s with
  | EmptyString, _ => Some s
  | String a p', String b s' => if Ascii.eqb a b then strip_prefix p' s' else None
  | String _ _, EmptyString => None
  end.

(** The loop of [strconv.ParseUint] in base 10: every byte is a digit. *)
Fixpoint parse_digits (sofar : Z) (s : string) : option Z :=
  match s with
  | EmptyString => Some sofar
  | String a s' =>
      let n := Z.of_N (Ascii.N_of_ascii a) in
      if (48 <=? n) && (n <=? 57) then parse_digits (sofar * 10 + (n - 48)) s'
      else None
  end.

(** [strconv.ParseInt(s, 10, 64)]: an optional sign, at least one digit,
    a value in the range of [int64]; [None] is any of its errors. *)
Definition ParseInt (s : string) : option Z :=
  match s with
  | EmptyString => None
  | String a rest =>
      let c := Z.of_N (Ascii.N_of_ascii a) in
      let '(neg, ds) :=
        if c =? 43 then (false, rest)          (* '+' *)
        else if c =? 45 then (true, rest)      (* '-' *)
        else (false, s) in
      match ds with
      | EmptyString => None
      | String _ _ =>
          match parse_digits 0 ds with
          | Some un =>
              let n := if neg then - un else un in
              if (min_i64 <=? n) && (n <=? max_i64) then Some n else None
          | None => None
          end
      end
  end.

(** What [ioutil.ReadDir] of the database path returns: the path does not
    exist, another error, or the names of the entries. *)
Inductive ReadDir : Type :=
| DirMissing
| DirError
| DirEntries (names : list string).

(** Modelled from the spec: [del(k)] of the LRU cache removes and returns
    the handle without invoking the eviction callback. *)
Definition Cache_Del {E} (k : Z) (c : Cache E) : Cache E * option E :=
  match assoc k (entries c) with
  | Some v => (mkCache (capacity c) (unassoc k (entries c)), Some v)
  | None => (c, None)
  end.

Section Expire.
Context `{EpochStore}.
(** [epo.Close()] of the epoch, and whether [os.RemoveAll] of the entry
    [name] of the directory [dir] succeeds. *)
Variable EClose : Epoch -> result error unit.
Variable RemoveAll : string -> string -> bool.

(** The loop over the entries.  The state is the database, the names whose
    directory was removed, and [num]. *)
Fixpoint expire_loop (ts : Z) (files : list string) (db : database)
    (removed : list string) (num : Z)
  : database * list string * result error Z :=
  match files with
  | [] => (db, removed, Ok num)
  | fname :: tl =>
      match strip_prefix EpochPrefix fname with
      | None => expire_loop ts tl db removed num
      | Some tsStr =>
          match ParseInt tsStr with
          | None => expire_loop ts tl db removed num
          | Some tsInt =>
              if tsInt >? ts then expire_loop ts tl db removed num
              else
                let '(ro, found) := Cache_Del tsInt (roepochs db) in
                let db1 := set_cache RO ro db in
                let closed :=
                  match found with
                  | Some epo => EClose epo
                  | None => Ok tt
                  end in
                match closed with
                | Panic => (db1, removed, Panic)
                | Err _ => expire_loop ts tl db1 removed num
                | Ok _ =>
                    if RemoveAll (Path (metadata db1)) fname
                    then expire_loop ts tl db1 (removed ++ [fname]) (wrap_i64 (num + 1))
                    else expire_loop ts tl db1 removed num
                end
          end
      end
  end.

(** The cut-off of [expire]: [now - Retention], floored to the duration. *)
Definition cutoff (md : Metadata) (now : Z) : Z :=
  let ts := wrap_i64 (now - Retention md) in
  wrap_i64 (ts - Z.rem ts (Duration md)).

(** [expire]; [now] is what [vtimer.Now()] returns and [dir] what
    [ioutil.ReadDir] does. *)
Definition expire (now : Z) (dir : ReadDir) (db : database)
  : database * list string * result error Z :=
  let md := metadata db in
  if Duration md =? 0 then (db, [], Panic) else
  let ts := cutoff md now in
  match dir with
  | DirMissing => (db, [], Ok 0)
  | DirError => (db, [], Err ErrEpoch)
  | DirEntries files => expire_loop ts files db [] 0
  end.

(** An entry is the directory of an epoch that started at or before [ts]. *)
Definition expired (ts : Z) (fname : string) : bool :=
  match strip_prefix EpochPrefix fname with
  | Some tsStr =>
      match ParseInt tsStr with
      | Some tsInt => negb (tsInt >? ts)
      | None => false
      end
  | None => false
  end.

End Expire.

End Database.

(* ================================================================== *)
(** ** Package server: the generated wire codec *)
(* ================================================================== *)

Module Server.

Local Open Scope Z_scope.

Inductive error : Type :=
| ErrUnexpectedEOF          (* io.ErrUnexpectedEOF *)
| ErrInvalidLengthProtocol
| ErrWireType               (* "proto: wrong wireType ...", "illegal wireType" *)
| ErrChunk.                 (* an error of the codec of database.Chunk *)

(** A Go string is a sequence of bytes. *)
Definition bytes_of_string (s : string) : list byte :=
  map (fun a => Z.of_N (Ascii.N_of_ascii a)) (String.list_ascii_of_string s).
Definition string_of_bytes (bs : list byte) : string :=
  String.string_of_list_ascii (map (fun b => Ascii.ascii_of_N (Z.to_N b)) bs).

(** [len(s)]. *)
Definition len (s : string) : Z := Z.of_nat (String.length s).

(** A [float64] is its IEEE-754 bit pattern, [math.Float64bits].  [x != 0]
    is false for the two zeros only (it is true for a NaN). *)
Definition float64_ne_zero (bits : Z) : bool :=
  negb (bits =? 0) && negb (bits =? 2 ^ 63).

Definition wrap_i32 (z : Z) : Z := (z + 2 ^ 31) mod 2 ^ 32 - 2 ^ 31.

(** *** Encoding primitives *)

(** The loop of [encodeVarintProtocol]; a [uint64] takes at most ten
    turns. *)
Fixpoint encodeVarint_loop (fuel : nat) (v : Z) : list byte :=
  match fuel with
  | O => []
  | S fuel' =>
      if v >=? 2 ^ 7
      then wrap_u8 (Z.lor (Z.land v 127) 128) :: encodeVarint_loop fuel' (Z.shiftr v 7)
      else [wrap_u8 v]
  end.

(** [encodeVarintProtocol(data, offset, v)]: the bytes written at
    [offset]. *)
Definition encodeVarintProtocol (v : Z) : list byte := encodeVarint_loop 10 v.

Definition encodeFixed64Protocol (v : Z) : list byte :=
  [ wrap_u8 v; wrap_u8 (Z.shiftr v 8); wrap_u8 (Z.shiftr v 16);
    wrap_u8 (Z.shiftr v 24); wrap_u8 (Z.shiftr v 32); wrap_u8 (Z.shiftr v 40);
    wrap_u8 (Z.shiftr v 48); wrap_u8 (Z.shiftr v 56) ].

(** The loop of [sovProtocol]. *)
Fixpoint sov_loop (fuel : nat) (n : Z) (x : Z) : Z :=
  match fuel with
  | O => n
  | S fuel' =>
      let n := n + 1 in
      let x := Z.shiftr x 7 in
      if x =? 0 then n else sov_loop fuel' n x
  end.

Definition sovProtocol (x : Z) : Z := sov_loop 10 0 x.

(** *** Decoding primitives *)

(** The varint loop of the decoders, on [data[iNdEx:]]:
    [x |= (uint64(b) & 0x7F) << shift] until a byte below [0x80].  The
    result is the value and the number of bytes read. *)
Fixpoint varint_u64 (shift : Z) (x : Z) (n : Z) (rest : list byte)
  : result error (Z * Z) :=
  match rest with
  | [] => Err ErrUnexpectedEOF
  | b :: tl =>
      let x := Z.lor x (wrap_u64 (Z.shiftl (Z.land b 127) shift)) in
      if b <? 128 then Ok (x, n + 1) else varint_u64 (shift + 7) x (n + 1) tl
  end.

(** The same loop on an [int] or [int64]:
    [x |= (int64(b) & 0x7F) << shift]. *)
Fixpoint varint_i64 (shift : Z) (x : Z) (n : Z) (rest : list byte)
  : result error (Z * Z) :=
  match rest with
  | [] => Err ErrUnexpectedEOF
  | b :: tl =>
      let x := Z.lor x (wrap_i64 (Z.shiftl (Z.land b 127) shift)) in
      if b <? 128 then Ok (x, n + 1) else varint_i64 (shift + 7) x (n + 1) tl
  end.

(** The loops at index [iNdEx] of [data]: the value and the new index. *)
Definition read_u64 (data : list byte) (iNdEx : Z) : result error (Z * Z) :=
  match varint_u64 0 0 0 (drop (Z.to_nat iNdEx) data) with
  | Ok (x, n) => Ok (x, iNdEx + n)
  | Err e => Err e
  | Panic => Panic
  end.

Definition read_i64 (data : list byte) (iNdEx : Z) : result error (Z * Z) :=
  match varint_i64 0 0 0 (drop (Z.to_nat iNdEx) data) with
  | Ok (x, n) => Ok (x, iNdEx + n)
  | Err e => Err e
  | Panic => Panic
  end.

(** [data[a:b]], which panics unless [0 <= a <= b <= len(data)]. *)
Definition slice (data : list byte) (a b : Z) : result error (list byte) :=
  if (0 <=? a) && (a <=? b) && (b <=? Z.of_nat (length data))
  then Ok (take (Z.to_nat (b - a)) (drop (Z.to_nat a) data))
  else Panic.

(** [data[i]] as a [uint64], for an index in range. *)
Definition at_ (data : list byte) (i : Z) : Z := default 0 (data !! Z.to_nat i).

(** The eight bytes of a fixed64 field. *)
Definition read_fixed64 (data : list byte) (iNdEx : Z) : result error (Z * Z) :=
  if iNdEx + 8 >? Z.of_nat (length data) then Err ErrUnexpectedEOF
  else
    let iNdEx := iNdEx + 8 in
    let v := at_ data (iNdEx - 8) in
    let v := Z.lor v (wrap_u64 (Z.shiftl (at_ data (iNdEx - 7)) 8)) in
    let v := Z.lor v (wrap_u64 (Z.shiftl (at_ data (iNdEx - 6)) 16)) in
    let v := Z.lor v (wrap_u64 (Z.shiftl (at_ data (iNdEx - 5)) 24)) in
    let v := Z.lor v (wrap_u64 (Z.shiftl (at_ data (iNdEx - 4)) 32)) in
    let v := Z.lor v (wrap_u64 (Z.shiftl (at_ data (iNdEx - 3)) 40)) in
    let v := Z.lor v (wrap_u64 (Z.shiftl (at_ data (iNdEx - 2)) 48)) in
    let v := Z.lor v (wrap_u64 (Z.shiftl (at_ data (iNdEx - 1)) 56)) in
    Ok (v, iNdEx).

(** A length-delimited string field: [stringLen], [postIndex], the slice. *)
Definition read_string (data : list byte) (iNdEx : Z) : result error (string * Z) :=
  match read_u64 data iNdEx with
  | Ok (stringLen, iNdEx) =>
      let postIndex := wrap_i64 (iNdEx + wrap_i64 stringLen) in
      if postIndex >? Z.of_nat (length data) then Err ErrUnexpectedEOF
      else match slice data iNdEx postIndex with
           | Ok bs => Ok (string_of_bytes bs, postIndex)
           | Err e => Err e
           | Panic => Panic
           end
  | Err e => Err e
  | Panic => Panic
  end.

(** A length-delimited sub-message: [msglen], [postIndex], the slice. *)
Definition read_message (data : list byte) (iNdEx : Z)
  : result error (list byte * Z) :=
  match read_i64 data iNdEx with
  | Ok (msglen, iNdEx) =>
      let postIndex := wrap_i64 (iNdEx + msglen) in
      if msglen <? 0 then Err ErrInvalidLengthProtocol
      else if postIndex >? Z.of_nat (length data) then Err ErrUnexpectedEOF
      else match slice data iNdEx postIndex with
           | Ok bs => Ok (bs, postIndex)
           | Err e => Err e
           | Panic => Panic
           end
  | Err e => Err e
  | Panic => Panic
  end.

(** The wire-type-0 loop of [skipProtocol]: skip to the first byte below
    [0x80]. *)
Fixpoint skip_varint (n : Z) (rest : list byte) : result error Z :=
  match rest with
  | [] => Err ErrUnexpectedEOF
  | b :: tl => if b <? 128 then Ok (n + 1) else skip_varint (n + 1) tl
  end.

(** [skipProtocol(data)] and the loop of its group case, which calls
    [skipProtocol] on [data[start:]].  [None] when [fuel] is used up. *)
Fixpoint skipProtocol (fuel : nat) (data : list byte) : option (result error Z) :=
  match fuel with
  | O => None
  | S fuel' =>
      if (length data =? 0)%nat then Some Panic   (* panic("unreachable") *)
      else
        match read_u64 data 0 with
        | Err e => Some (Err e)
        | Panic => Some Panic
        | Ok (wire, iNdEx) =>
            let wireType := Z.land wire 7 in
            if wireType =? 0 then
              match skip_varint iNdEx (drop (Z.to_nat iNdEx) data) with
              | Ok i => Some (Ok i)
              | Err e => Some (Err e)
              | Panic => Some Panic
              end
            else if wireType =? 1 then Some (Ok (iNdEx + 8))
            else if wireType =? 2 then
              match read_i64 data iNdEx with
              | Ok (length_, iNdEx) =>
                  if length_ <? 0 then Some (Err ErrInvalidLengthProtocol)
                  else Some (Ok (wrap_i64 (iNdEx + length_)))
              | Err e => Some (Err e)
              | Panic => Some Panic
              end
            else if wireType =? 3 then skip_group fuel' data iNdEx
            else if wireType =? 4 then Some (Ok iNdEx)
            else if wireType =? 5 then Some (Ok (iNdEx + 4))
            else Some (Err ErrWireType)
        end
  end
with skip_group (fuel : nat) (data : list byte) (iNdEx : Z)
  : option (result error Z) :=
  match fuel with
  | O => None
  | S fuel' =>
      let start := iNdEx in
      match read_u64 data iNdEx with
      | Err e => Some (Err e)
      | Panic => Some Panic
      | Ok (innerWire, iNdEx) =>
          if Z.land innerWire 7 =? 4 then Some (Ok iNdEx)
          else match skipProtocol fuel' (drop (Z.to_nat start) data) with
               | Some (Ok next) => skip_group fuel' data (start + next)
               | other => other
               end
      end
  end.

(** The [default:] case of every decoder: skip a field that is not
    known. *)
Definition skip_unknown (wire : Z) (data : list byte) (iNdEx : Z)
  : option (result error Z) :=
  let sizeOfWire := sovProtocol wire in
  let iNdEx := iNdEx - sizeOfWire in
  if iNdEx <? 0 then Some Panic
  else
    match skipProtocol (2 * length data + 2) (drop (Z.to_nat iNdEx) data) with
    | None => None
    | Some (Ok skippy) =>
        if skippy <? 0 then Some (Err ErrInvalidLengthProtocol)
        else if iNdEx + skippy >? Z.of_nat (length data) then Some (Err ErrUnexpectedEOF)
        else Some (Ok (iNdEx + skippy))
    | Some (Err e) => Some (Err e)
    | Some Panic => Some Panic
    end.

(** *** The decoding loop *)

(** Every generated [Unmarshal] is the same loop around its own [switch
    fieldNum]: read the tag, split it into [fieldNum] and [wireType], run
    the case, which returns the new index and message. *)
Section Loop.
Context {M : Type}.
Variable cases : Z -> Z -> Z -> list byte -> Z -> M -> option (result error (Z * M)).

Fixpoint unmarshal_loop (fuel : nat) (data : list byte) (iNdEx : Z) (m : M)
  : option (result error M) :=
  if negb (iNdEx <? Z.of_nat (length data)) then Some (Ok m) else
  match fuel with
  | O => None
  | S fuel' =>
      match read_u64 data iNdEx with
      | Err e => Some (Err e)
      | Panic => Some Panic
      | Ok (wire, iNdEx) =>
          let fieldNum := wrap_i32 (Z.shiftr wire 3) in
          let wireType := Z.land wire 7 in
          match cases fieldNum wireType wire data iNdEx m with
          | None => None
          | Some (Ok (iNdEx, m)) => unmarshal_loop fuel' data iNdEx m
          | Some (Err e) => Some (Err e)
          | Some Panic => Some Panic
          end
      end
  end.

(** Every turn reads at least one byte. *)
Definition unmarshal (data : list byte) (m : M) : option (result error M) :=
  unmarshal_loop (S (length data)) data 0 m.

End Loop.

(** The decoding loop on a part of the data.  [steps]: from index [i] and
    message [m], with fuel for the rest of the data, the loop comes to index
    [i'] and message [m'], with fuel for the rest.  [decodes]: the loop
    decodes [part] like that, wherever it lies in data shorter than
    [2^63]. *)
Definition enough (fuel : nat) (data : list byte) (i : Z) : Prop :=
  lenZ data - i < Z.of_nat fuel.

Section Parts.
Context {M : Type}.
Variable cases : Z -> Z -> Z -> list byte -> Z -> M -> option (result error (Z * M)).

Definition steps (data : list byte) (i : Z) (m : M) (i' : Z) (m' : M) : Prop :=
  forall fuel, enough fuel data i ->
    exists fuel', enough fuel' data i'
      /\ unmarshal_loop cases fuel data i m = unmarshal_loop cases fuel' data i' m'.

Definition decodes (part : list byte) (m m' : M) : Prop :=
  forall pre rest, lenZ (pre ++ part ++ rest) < 2 ^ 63 ->
    steps (pre ++ part ++ rest) (lenZ pre) m (lenZ pre + lenZ part) m'.

End Parts.

(** Lifting a case that needs no fuel. *)
Definition ret {A} (r : result error A) : option (result error A) := Some r.

(** [Marshal]: a buffer of [Size()] bytes, [MarshalTo] into it, the first
    [n] bytes of it.  [MarshalTo] is modelled by the bytes it writes; it
    panics when the buffer is too short for them. *)
Definition marshal_with (size : Z) (written : result error (list byte))
  : result error (list byte) :=
  match written with
  | Ok bs => if Z.of_nat (length bs) <=? size then Ok bs else Panic
  | other => other
  end.

(** *** The messages *)

(** The length-delimited string written by the inlined loop of the repeated
    string fields: the tag, [len(s)] as a varint, the bytes. *)
Definition put_string (tag : Z) (s : string) : list byte :=
  tag :: encodeVarintProtocol (len s) ++ bytes_of_string s.

(** A sub-message: the tag, its [Size()] as a varint, its bytes. *)
Definition put_message (tag : Z) (size : Z) (body : result error (list byte))
  : result error (list byte) :=
  match body with
  | Ok bs => Ok (tag :: encodeVarintProtocol size ++ bs)
  | other => other
  end.

(** [for _, msg := range ms { ... }] over sub-messages. *)
Fixpoint put_messages {A} (tag : Z) (size : A -> Z)
    (marshalTo : A -> result error (list byte)) (ms : list A)
  : result error (list byte) :=
  match ms with
  | [] => Ok []
  | msg :: tl =>
      match put_message tag (size msg) (marshalTo msg) with
      | Ok bs =>
          match put_messages tag size marshalTo tl with
          | Ok rest => Ok (bs ++ rest)
          | other => other
          end
      | other => other
      end
  end.

Definition sum_sizes {A} (size : A -> Z) (l : list A) : Z :=
  fold_left (fun n e => let l := size e in n + (1 + l + sovProtocol l)) l 0.

Definition size_strings (l : list string) : Z :=
  fold_left (fun n s => let l := len s in n + (1 + l + sovProtocol l)) l 0.

Module ReqTrack.
Record t : Type := mk { Time : Z; Total : Z; Count : Z; Fields : list string }.
Definition zero : t := mk 0 0 0 [].

Definition MarshalTo (m : t) : result error (list byte) :=
  Ok ((if negb (Time m =? 0) then 8 :: encodeVarintProtocol (Time m) else [])
      ++ (if float64_ne_zero (Total m) then 17 :: encodeFixed64Protocol (Total m) else [])
      ++ (if negb (Count m =? 0) then 24 :: encodeVarintProtocol (Count m) else [])
      ++ flat_map (put_string 34) (Fields m)).

Definition Size (m : t) : Z :=
  (if negb (Time m =? 0) then 1 + sovProtocol (Time m) else 0)
  + (if float64_ne_zero (Total m) then 9 else 0)
  + (if negb (Count m =? 0) then 1 + sovProtocol (Count m) else 0)
  + size_strings (Fields m).

Definition Marshal (m : t) : result error (list byte) :=
  marshal_with (Size m) (MarshalTo m).

Definition cases (fieldNum wireType wire : Z) (data : list byte) (iNdEx : Z) (m : t)
  : option (result error (Z * t)) :=
  if fieldNum =? 1 then
    if negb (wireType =? 0) then ret (Err ErrWireType)
    else match read_u64 data iNdEx with
         | Ok (v, i) => ret (Ok (i, mk v (Total m) (Count m) (Fields m)))
         | Err e => ret (Err e)
         | Panic => ret Panic
         end
  else if fieldNum =? 2 then
    if negb (wireType =? 1) then ret (Err ErrWireType)
    else match read_fixed64 data iNdEx with
         | Ok (v, i) => ret (Ok (i, mk (Time m) v (Count m) (Fields m)))
         | Err e => ret (Err e)
         | Panic => ret Panic
         end
  else if fieldNum =? 3 then
    if negb (wireType =? 0) then ret (Err ErrWireType)
    else match read_u64 data iNdEx with
         | Ok (v, i) => ret (Ok (i, mk (Time m) (Total m) v (Fields m)))
         | Err e => ret (Err e)
         | Panic => ret Panic
         end
  else if fieldNum =? 4 then
    if negb (wireType =? 2) then ret (Err ErrWireType)
    else match read_string data iNdEx with
         | Ok (s, i) => ret (Ok (i, mk (Time m) (Total m) (Count m) (Fields m ++ [s])))
         | Err e => ret (Err e)
         | Panic => ret Panic
         end
  else match skip_unknown wire data iNdEx with
       | Some (Ok i) => Some (Ok (i, m))
       | Some (Err e) => Some (Err e)
       | Some Panic => Some Panic
       | None => None
       end.

Definition Unmarshal (m : t) (data : list byte) : option (result error t) :=
  unmarshal cases data m.
End ReqTrack.

(** The three empty messages share their code. *)
Module Empty.
Inductive t : Type := mk.
Definition zero : t := mk.
Definition MarshalTo (m : t) : result error (list byte) := Ok [].
Definition Size (m : t) : Z := 0.
Definition Marshal (m : t) : result error (list byte) :=
  marshal_with (Size m) (MarshalTo m).
Definition cases (fieldNum wireType wire : Z) (data : list byte) (iNdEx : Z) (m : t)
  : option (result error (Z * t)) :=
  match skip_unknown wire data iNdEx with
  | Some (Ok i) => Some (Ok (i, m))
  | Some (Err e) => Some (Err e)
  | Some Panic => Some Panic
  | None => None
  end.
Definition Unmarshal (m : t) (data : list byte) : option (result error t) :=
  unmarshal cases data m.
End Empty.

Module ResTrack := Empty.
Module ReqSync := Empty.
Module ResSync := Empty.

Module ReqFetch.
Record t : Type := mk { From : Z; To : Z; Fields : list string }.
Definition zero : t := mk 0 0 [].

Definition MarshalTo (m : t) : result error (list byte) :=
  Ok ((if negb (From m =? 0) then 8 :: encodeVarintProtocol (From m) else [])
      ++ (if negb (To m =? 0) then 16 :: encodeVarintProtocol (To m) else [])
      ++ flat_map (put_string 26) (Fields m)).

Definition Size (m : t) : Z :=
  (if negb (From m =? 0) then 1 + sovProtocol (From m) else 0)
  + (if negb (To m =? 0) then 1 + sovProtocol (To m) else 0)
  + size_strings (Fields m).

Definition Marshal (m : t) : result error (list byte) :=
  marshal_with (Size m) (MarshalTo m).

Definition cases (fieldNum wireType wire : Z) (data : list byte) (iNdEx : Z) (m : t)
  : option (result error (Z * t)) :=
  if fieldNum =? 1 then
    if negb (wireType =? 0) then ret (Err ErrWireType)
    else match read_u64 data iNdEx with
         | Ok (v, i) => ret (Ok (i, mk v (To m) (Fields m)))
         | Err e => ret (Err e)
         | Panic => ret Panic
         end
  else if fieldNum =? 2 then
    if negb (wireType =? 0) then ret (Err ErrWireType)
    else match read_u64 data iNdEx with
         | Ok (v, i) => ret (Ok (i, mk (From m) v (Fields m)))
         | Err e => ret (Err e)
         | Panic => ret Panic
         end
  else if fieldNum =? 3 then
    if negb (wireType =? 2) then ret (Err ErrWireType)
    else match read_string data iNdEx with
         | Ok (s, i) => ret (Ok (i, mk (From m) (To m) (Fields m ++ [s])))
         | Err e => ret (Err e)
         | Panic => ret Panic
         end
  else match skip_unknown wire data iNdEx with
       | Some (Ok i) => Some (Ok (i, m))
       | Some (Err e) => Some (Err e)
       | Some Panic => Some Panic
       | None => None
       end.

Definition Unmarshal (m : t) (data : list byte) : option (result error t) :=
  unmarshal cases data m.
End ReqFetch.

(** [database.Chunk] and its generated codec belong to another package: an
    interface of the model.  [Chunk_Unmarshal] decodes into a given
    message, as every generated [Unmarshal] does. *)
Class ChunkCodec : Type := {
  Chunk : Type;
  Chunk_zero : Chunk;
  Chunk_Size : Chunk -> Z;
  Chunk_MarshalTo : Chunk -> result error (list byte);
  Chunk_Unmarshal : Chunk -> list byte -> option (result error Chunk) }.

(** A sub-message case: decode the slice into [sub] and store the result
    with [store]. *)
Definition sub_message {A M} (unm : A -> list byte -> option (result error A))
    (sub : A) (store : A -> M) (data : list byte) (iNdEx : Z)
  : option (result error (Z * M)) :=
  match read_message data iNdEx with
  | Ok (bs, postIndex) =>
      match unm sub bs with
      | None => None
      | Some (Ok a) => Some (Ok (postIndex, store a))
      | Some (Err e) => Some (Err e)
      | Some Panic => Some Panic
      end
  | Err e => Some (Err e)
  | Panic => Some Panic
  end.

Module ResFetch.
Record t `{ChunkCodec} : Type := mk { Chunks : list Chunk }.
Definition zero `{ChunkCodec} : t := mk _ [].

Definition MarshalTo `{ChunkCodec} (m : t) : result error (list byte) :=
  put_messages 10 Chunk_Size Chunk_MarshalTo (Chunks m).

Definition Size `{ChunkCodec} (m : t) : Z := sum_sizes Chunk_Size (Chunks m).

Definition Marshal `{ChunkCodec} (m : t) : result error (list byte) :=
  marshal_with (Size m) (MarshalTo m).

Definition cases `{ChunkCodec} (fieldNum wireType wire : Z) (data : list byte)
    (iNdEx : Z) (m : t) : option (result error (Z * t)) :=
  if fieldNum =? 1 then
    if negb (wireType =? 2) then ret (Err ErrWireType)
    else sub_message Chunk_Unmarshal Chunk_zero
           (fun c => mk _ (Chunks m ++ [c])) data iNdEx
  else match skip_unknown wire data iNdEx with
       | Some (Ok i) => Some (Ok (i, m))
       | Some (Err e) => Some (Err e)
       | Some Panic => Some Panic
       | None => None
       end.

Definition Unmarshal `{ChunkCodec} (m : t) (data : list byte)
  : option (result error t) :=
  unmarshal cases data m.
End ResFetch.

(** An optional sub-message field, [if m.X != nil { ... }]. *)
Definition put_optional {A} (tag : Z) (size : A -> Z)
    (marshalTo : A -> result error (list byte)) (o : option A)
  : result error (list byte) :=
  match o with
  | None => Ok []
  | Some x => put_message tag (size x) (marshalTo x)
  end.

Definition size_optional {A} (size : A -> Z) (o : option A) : Z :=
  match o with
  | None => 0
  | Some x => let l := size x in 1 + l + sovProtocol l
  end.

(** A string field of proto3, [if len(s) > 0 { ... }]. *)
Definition put_string_field (tag : Z) (s : string) : list byte :=
  if len s >? 0 then tag :: encodeVarintProtocol (len s) ++ bytes_of_string s
  else [].

Definition size_string_field (s : string) : Z :=
  let l := len s in if l >? 0 then 1 + l + sovProtocol l else 0.

(** The concatenation of the parts a [MarshalTo] writes one after the
    other; the first error ends it ([return 0, err]). *)
Fixpoint seq_parts (parts : list (result error (list byte)))
  : result error (list byte) :=
  match parts with
  | [] => Ok []
  | Ok bs :: tl =>
      match seq_parts tl with
      | Ok rest => Ok (bs ++ rest)
      | other => other
      end
  | other :: _ => other
  end.

Module Request.
Record t : Type := mk {
  Database : string;
  Track : option ReqTrack.t;
  Fetch : option ReqFetch.t;
  Sync : option ReqSync.t }.
Definition zero : t := mk "" None None None.

Definition MarshalTo (m : t) : result error (list byte) :=
  seq_parts
    [ Ok (put_string_field 10 (Database m));
      put_optional 18 ReqTrack.Size ReqTrack.MarshalTo (Track m);
      put_optional 26 ReqFetch.Size ReqFetch.MarshalTo (Fetch m);
      put_optional 34 ReqSync.Size ReqSync.MarshalTo (Sync m) ].

Definition Size (m : t) : Z :=
  size_string_field (Database m)
  + size_optional ReqTrack.Size (Track m)
  + size_optional ReqFetch.Size (Fetch m)
  + size_optional ReqSync.Size (Sync m).

Definition Marshal (m : t) : result error (list byte) :=
  marshal_with (Size m) (MarshalTo m).

Definition cases (fieldNum wireType wire : Z) (data : list byte) (iNdEx : Z) (m : t)
  : option (result error (Z * t)) :=
  if fieldNum =? 1 then
    if negb (wireType =? 2) then ret (Err ErrWireType)
    else match read_string data iNdEx with
         | Ok (s, i) => ret (Ok (i, mk s (Track m) (Fetch m) (Sync m)))
         | Err e => ret (Err e)
         | Panic => ret Panic
         end
  else if fieldNum =? 2 then
    if negb (wireType =? 2) then ret (Err ErrWireType)
    else sub_message ReqTrack.Unmarshal (default ReqTrack.zero (Track m))
           (fun x => mk (Database m) (Some x) (Fetch m) (Sync m)) data iNdEx
  else if fieldNum =? 3 then
    if negb (wireType =? 2) then ret (Err ErrWireType)
    else sub_message ReqFetch.Unmarshal (default ReqFetch.zero (Fetch m))
           (fun x => mk (Database m) (Track m) (Some x) (Sync m)) data iNdEx
  else if fieldNum =? 4 then
    if negb (wireType =? 2) then ret (Err ErrWireType)
    else sub_message ReqSync.Unmarshal (default ReqSync.zero (Sync m))
           (fun x => mk (Database m) (Track m) (Fetch m) (Some x)) data iNdEx
  else match skip_unknown wire data iNdEx with
       | Some (Ok i) => Some (Ok (i, m))
       | Some (Err e) => Some (Err e)
       | Some Panic => Some Panic
       | None => None
       end.

Definition Unmarshal (m : t) (data : list byte) : option (result error t) :=
  unmarshal cases data m.
End Request.

Module Response.
Record t `{ChunkCodec} : Type := mk {
  Error : string;
  Track : option ResTrack.t;
  Fetch : option ResFetch.t;
  Sync : option ResSync.t }.
Definition zero `{ChunkCodec} : t := mk _ "" None None None.

Definition MarshalTo `{ChunkCodec} (m : t) : result error (list byte) :=
  seq_parts
    [ Ok (put_string_field 10 (Error m));
      put_optional 18 ResTrack.Size ResTrack.MarshalTo (Track m);
      put_optional 26 ResFetch.Size ResFetch.MarshalTo (Fetch m);
      put_optional 34 ResSync.Size ResSync.MarshalTo (Sync m) ].

Definition Size `{ChunkCodec} (m : t) : Z :=
  size_string_field (Error m)
  + size_optional ResTrack.Size (Track m)
  + size_optional ResFetch.Size (Fetch m)
  + size_optional ResSync.Size (Sync m).

Definition Marshal `{ChunkCodec} (m : t) : result error (list byte) :=
  marshal_with (Size m) (MarshalTo m).

Definition cases `{ChunkCodec} (fieldNum wireType wire : Z) (data : list byte)
    (iNdEx : Z) (m : t) : option (result error (Z * t)) :=
  if fieldNum =? 1 then
    if negb (wireType =? 2) then ret (Err ErrWireType)
    else match read_string data iNdEx with
         | Ok (s, i) => ret (Ok (i, mk _ s (Track m) (Fetch m) (Sync m)))
         | Err e => ret (Err e)
         | Panic => ret Panic
         end
  else if fieldNum =? 2 then
    if negb (wireType =? 2) then ret (Err ErrWireType)
    else sub_message ResTrack.Unmarshal (default ResTrack.zero (Track m))
           (fun x => mk _ (Error m) (Some x) (Fetch m) (Sync m)) data iNdEx
  else if fieldNum =? 3 then
    if negb (wireType =? 2) then ret (Err ErrWireType)
    else sub_message ResFetch.Unmarshal (default ResFetch.zero (Fetch m))
           (fun x => mk _ (Error m) (Track m) (Some x) (Sync m)) data iNdEx
  else if fieldNum =? 4 then
    if negb (wireType =? 2) then ret (Err ErrWireType)
    else sub_message ResSync.Unmarshal (default ResSync.zero (Sync m))
           (fun x => mk _ (Error m) (Track m) (Fetch m) (Some x)) data iNdEx
  else match skip_unknown wire data iNdEx with
       | Some (Ok i) => Some (Ok (i, m))
       | Some (Err e) => Some (Err e)
       | Some Panic => Some Panic
       | None => None
       end.

Definition Unmarshal `{ChunkCodec} (m : t) (data : list byte)
  : option (result error t) :=
  unmarshal cases data m.
End Response.

Module RequestBatch.
Record t : Type := mk { Id : Z; Batch : list Request.t }.
Definition zero : t := mk 0 [].

Definition MarshalTo (m : t) : result error (list byte) :=
  seq_parts
    [ Ok (if negb (Id m =? 0) then 8 :: encodeVarintProtocol (wrap_u64 (Id m)) else []);
      put_messages 18 Request.Size Request.MarshalTo (Batch m) ].

Definition Size (m : t) : Z :=
  (if negb (Id m =? 0) then 1 + sovProtocol (wrap_u64 (Id m)) else 0)
  + sum_sizes Request.Size (Batch m).

Definition Marshal (m : t) : result error (list byte) :=
  marshal_with (Size m) (MarshalTo m).

Definition cases (fieldNum wireType wire : Z) (data : list byte) (iNdEx : Z) (m : t)
  : option (result error (Z * t)) :=
  if fieldNum =? 1 then
    if negb (wireType =? 0) then ret (Err ErrWireType)
    else match read_i64 data iNdEx with
         | Ok (v, i) => ret (Ok (i, mk v (Batch m)))
         | Err e => ret (Err e)
         | Panic => ret Panic
         end
  else if fieldNum =? 2 then
    if negb (wireType =? 2) then ret (Err ErrWireType)
    else sub_message Request.Unmarshal Request.zero
           (fun x => mk (Id m) (Batch m ++ [x])) data iNdEx
  else match skip_unknown wire data iNdEx with
       | Some (Ok i) => Some (Ok (i, m))
       | Some (Err e) => Some (Err e)
       | Some Panic => Some Panic
       | None => None
       end.

Definition Unmarshal (m : t) (data : list byte) : option (result error t) :=
  unmarshal cases data m.
End RequestBatch.

Module ResponseBatch.
Record t `{ChunkCodec} : Type := mk { Id : Z; Batch : list Response.t }.
Definition zero `{ChunkCodec} : t := mk _ 0 [].

Definition MarshalTo `{ChunkCodec} (m : t) : result error (list byte) :=
  seq_parts
    [ Ok (if negb (Id m =? 0) then 8 :: encodeVarintProtocol (wrap_u64 (Id m)) else []);
      put_messages 18 Response.Size Response.MarshalTo (Batch m) ].

Definition Size `{ChunkCodec} (m : t) : Z :=
  (if negb (Id m =? 0) then 1 + sovProtocol (wrap_u64 (Id m)) else 0)
  + sum_sizes Response.Size (Batch m).

Definition Marshal `{ChunkCodec} (m : t) : result error (list byte) :=
  marshal_with (Size m) (MarshalTo m).

Definition cases `{ChunkCodec} (fieldNum wireType wire : Z) (data : list byte)
    (iNdEx : Z) (m : t) : option (result error (Z * t)) :=
  if fieldNum =? 1 then
    if negb (wireType =? 0) then ret (Err ErrWireType)
    else match read_i64 data iNdEx with
         | Ok (v, i) => ret (Ok (i, mk _ v (Batch m)))
         | Err e => ret (Err e)
         | Panic => ret Panic
         end
  else if fieldNum =? 2 then
    if negb (wireType =? 2) then ret (Err ErrWireType)
    else sub_message Response.Unmarshal Response.zero
           (fun x => mk _ (Id m) (Batch m ++ [x])) data iNdEx
  else match skip_unknown wire data iNdEx with
       | Some (Ok i) => Some (Ok (i, m))
       | Some (Err e) => Some (Err e)
       | Some Panic => Some Panic
       | None => None
       end.

Definition Unmarshal `{ChunkCodec} (m : t) (data : list byte)
  : option (result error t) :=
  unmarshal cases data m.
End ResponseBatch.

(** *** Well-formed messages *)

(** The values of a [uint64]. *)
Definition u64 (z : Z) : Prop := 0 <= z < 2 ^ 64.

(** A codec of sub-messages is exact on the messages [P] holds of: the
    bytes of a message, when fewer than [2^63], are [Size()] many and decode
    to the message. *)
Definition codec_ok {A} (P : A -> Prop) (size : A -> Z)
    (marshalTo : A -> result error (list byte))
    (unm : A -> list byte -> option (result error A)) (zero : A) : Prop :=
  forall x bs, P x -> marshalTo x = Ok bs -> lenZ bs < 2 ^ 63 ->
    size x = lenZ bs /\ unm zero bs = Some (Ok x).

(** What is assumed of the codec of [database.Chunk]. *)
Class ChunkLaws `{ChunkCodec} : Type := {
  Chunk_wf : Chunk -> Prop;
  Chunk_codec : codec_ok Chunk_wf Chunk_Size Chunk_MarshalTo Chunk_Unmarshal Chunk_zero }.

(** The fields of a message hold values of their Go types, and no
    [float64] field is the negative zero (bit pattern [2^63]). *)
Definition ReqTrack_wf (m : ReqTrack.t) : Prop :=
  u64 (ReqTrack.Time m) /\ u64 (ReqTrack.Total m) /\ ReqTrack.Total m <> 2 ^ 63
  /\ u64 (ReqTrack.Count m).

Definition ReqFetch_wf (m : ReqFetch.t) : Prop :=
  u64 (ReqFetch.From m) /\ u64 (ReqFetch.To m).

Definition Request_wf (m : Request.t) : Prop :=
  (forall x, Request.Track m = Some x -> ReqTrack_wf x)
  /\ (forall x, Request.Fetch m = Some x -> ReqFetch_wf x).

Definition RequestBatch_wf (m : RequestBatch.t) : Prop :=
  in_i64 (RequestBatch.Id m) /\ Forall Request_wf (RequestBatch.Batch m).

Definition ResFetch_wf `{ChunkLaws} (m : ResFetch.t) : Prop :=
  Forall Chunk_wf (ResFetch.Chunks m).

Definition Response_wf `{ChunkLaws} (m : Response.t) : Prop :=
  forall x, Response.Fetch m = Some x -> ResFetch_wf x.

Definition ResponseBatch_wf `{ChunkLaws} (m : ResponseBatch.t) : Prop :=
  in_i64 (ResponseBatch.Id m) /\ Forall Response_wf (ResponseBatch.Batch m).

(** The round trip of one message type: a well-formed message whose
    encoding is shorter than [2^63] bytes is marshalled without error or
    panic, and unmarshalling the bytes into a fresh message gives it back;
    the fresh message is marshalled to no byte. *)
Definition roundtrips {A} (P : A -> Prop)
    (marshalTo marshal_ : A -> result error (list byte))
    (unm : A -> list byte -> option (result error A)) (zero : A) : Prop :=
  (forall m bs, P m -> marshalTo m = Ok bs -> lenZ bs < 2 ^ 63 ->
     marshal_ m = Ok bs /\ unm zero bs = Some (Ok m))
  /\ marshal_ zero = Ok [].

(** *** Fields of other versions, and receivers that are not fresh *)

(** The payload of a field of wire type [wt] as protobuf writes it: a
    varint (0), eight bytes (1), a length and that many bytes (2), four
    bytes (5). *)
Definition payload_of (wt : Z) (payload : list byte) : Prop :=
  (wt = 0 /\ exists v, 0 <= v < 2 ^ 64 /\ payload = encodeVarintProtocol v)
  \/ (wt = 1 /\ length payload = 8%nat)
  \/ (wt = 2 /\ exists bs, payload = encodeVarintProtocol (lenZ bs) ++ bs)
  \/ (wt = 5 /\ length payload = 4%nat).

(** What [ReqFetch.Unmarshal] makes of a receiver [m0] and the fields of
    [m]: a scalar that was written replaces the one of the receiver, the
    repeated fields are appended. *)
Definition ReqFetch_merge (m0 m : ReqFetch.t) : ReqFetch.t :=
  ReqFetch.mk (if ReqFetch.From m =? 0 then ReqFetch.From m0 else ReqFetch.From m)
              (if ReqFetch.To m =? 0 then ReqFetch.To m0 else ReqFetch.To m)
              (ReqFetch.Fields m0 ++ ReqFetch.Fields m).

End Server.

(* ================================================================== *)
(** ** The codec of the index item, and sample states *)
(* ================================================================== *)

Module ItemProto.

Import Server.
Local Open Scope Z_scope.

(** Modelled from the spec: the generated codec of [index.Item] is not part
    of the sources.  The spec has the item bytes produced by the wire codec,
    in the varint and length-delimited format of the network protocol; the
    fields of the struct are numbered in their order, [fields] 1 and
    [value] 2.  It instantiates the interface [Index.ItemCodec] in the
    examples; the theorems on the index hold for every codec. *)
Definition MarshalTo (m : Index.Item) : result error (list byte) :=
  Ok (flat_map (put_string 10) (Index.Fields m)
      ++ (if negb (Index.Value m =? 0)
          then 16 :: encodeVarintProtocol (Index.Value m) else [])).

Definition cases (fieldNum wireType wire : Z) (data : list byte) (iNdEx : Z)
    (m : Index.Item) : option (result error (Z * Index.Item)) :=
  if fieldNum =? 1 then
    if negb (wireType =? 2) then ret (Err ErrWireType)
    else match read_string data iNdEx with
         | Ok (s, i) => ret (Ok (i, Index.mkItem (Index.Fields m ++ [s]) (Index.Value m)))
         | Err e => ret (Err e)
         | Panic => ret Panic
         end
  else if fieldNum =? 2 then
    if negb (wireType =? 0) then ret (Err ErrWireType)
    else match read_u64 data iNdEx with
         | Ok (v, i) => ret (Ok (i, Index.mkItem (Index.Fields m) (wrap_u32 v)))
         | Err e => ret (Err e)
         | Panic => ret Panic
         end
  else match skip_unknown wire data iNdEx with
       | Some (Ok i) => Some (Ok (i, m))
       | Some (Err e) => Some (Err e)
       | Some Panic => Some Panic
       | None => None
       end.

Definition Unmarshal (m : Index.Item) (data : list byte)
  : option (result error Index.Item) :=
  unmarshal cases data m.

#[export] Instance codec : Index.ItemCodec := {|
  Index.marshal m :=
    match MarshalTo m with Ok bs => Some bs | _ => None end;
  Index.unmarshal data :=
    match Unmarshal (Index.mkItem [] 0) data with
    | Some (Ok m) => Some m
    | _ => None
    end |}.

End ItemProto.

Module Samples.

Import Index ItemProto.
Local Open Scope Z_scope.

(** A writable index on a file of [n] zero bytes that cannot grow. *)
Definition fresh (n : nat) : index :=
  mkIndex false root0 (mkMap (replicate n 0) 0 (Z.of_nat n)) 0 false Metrics0.

(** The same index opened read-only. *)
Definition fresh_ro (n : nat) : index :=
  mkIndex true root0 (mkMap (replicate n 0) 0 (Z.of_nat n)) 0 false Metrics0.

(** The index after the given puts. *)
Definition puts (l : list (list string * Z)) (idx : index) : index :=
  fold_left (fun i fv => fst (Put (fst fv) (snd fv) i)) l idx.

(** **** A database *)

(** An epoch store given by its contents: [one ts fields] is the row of the
    field set in the epoch at [ts] when it has one, [get ts] the rows a
    wildcard read of that epoch returns.  The handle of an epoch is its
    options. *)
Definition store (one : Z -> list string -> option (list Database.payload))
    (get : Z -> list (Index.Item * list Database.payload))
  : Database.EpochStore := {|
  Database.Epoch := Database.EpochOptions;
  Database.NewEpoch o := Ok o;
  Database.EOne e s t f :=
    match one (Database.ETs e) f with
    | Some row => Ok (take (Z.to_nat (t - s)) (drop (Z.to_nat s) row))
    | None => Err Database.ErrEpoch
    end;
  Database.EGet e s t f :=
    Ok (map (fun ir => (fst ir, take (Z.to_nat (t - s)) (drop (Z.to_nat s) (snd ir))))
          (get (Database.ETs e))) |}.

(** The metadata of the scenarios of the spec: a point per second, epochs
    of ten seconds, payloads of eight bytes, four epochs per cache. *)
Definition md1 : Database.Metadata :=
  Database.mkMetadata "db" 1000000000 30000000000 10000000000 8 100 4 4.

Definition db1 (st : Database.EpochStore) : Database.database (H := st) :=
  Database.mkDatabase (H := st) md1 (Database.NewCache 4) (Database.NewCache 4)
    false false.

Definition zero8 : Database.payload := Some (replicate 8 0).
Definition ones8 : Database.payload := Some (replicate 8 1).
Definition twos8 : Database.payload := Some (replicate 8 2).

(** The series [host-a, cpu] has a point at second 5 of the epoch at 0 and
    is not known to any other epoch. *)
Definition row_cpu : list Database.payload :=
  replicate 5 zero8 ++ [ones8] ++ replicate 4 zero8.

Definition store_cpu : Database.EpochStore :=
  store (fun ts f =>
           if (ts =? 0) && bool_decide (f = ["host-a"; "cpu"]) then Some row_cpu
           else None)
        (fun _ => []).

(** The epoch at 0 holds the two series [a-b] and [a, b]. *)
Definition row_ab1 : list Database.payload :=
  [zero8; ones8] ++ replicate 8 zero8.
Definition row_ab2 : list Database.payload :=
  [zero8; zero8; twos8] ++ replicate 7 zero8.

Definition store_ab : Database.EpochStore :=
  store (fun _ _ => None)
        (fun ts => if ts =? 0
                   then [(mkItem ["a-b"] 1, row_ab1); (mkItem ["a"; "b"] 2, row_ab2)]
                   else []).

(** **** A session *)

(** Two puts on a file of 64 bytes, the goroutine in between. *)
Definition session : list op :=
  [OpPut ["a"] 1; OpBackground; OpPut ["a"; "b"] 2].

Definition session_end : index :=
  default (fresh 64) (run session (fresh 64)).

(** **** Chunks *)

(** A codec of chunks for the examples: a chunk is its bytes. *)
Definition chunk_bytes : Server.ChunkCodec := {|
  Server.Chunk := list byte;
  Server.Chunk_zero := [];
  Server.Chunk_Size c := lenZ c;
  Server.Chunk_MarshalTo c := Ok c;
  Server.Chunk_Unmarshal _ bs := Some (Ok bs) |}.

(** The batch of scenario S5 of the spec. *)
Definition batch42 : Server.RequestBatch.t :=
  Server.RequestBatch.mk 42
    [Server.Request.mk "db" None
       (Some (Server.ReqFetch.mk 0 10000000000 ["a"])) None].

End Samples.

(* ================================================================== *)
(** * Properties *)
(* ================================================================== *)

(** ** Fixed-width arithmetic *)

Lemma wrap_i64_id z : in_i64 z -> wrap_i64 z = z.
Proof.
  unfold in_i64, wrap_i64, min_i64, max_i64. intros H.
  rewrite Z.mod_small; lia.
Qed.

Lemma wrap_u32_id z : (0 <= z < 2 ^ 32)%Z -> wrap_u32 z = z.
Proof. intros H. unfold wrap_u32. apply Z.mod_small. lia. Qed.

(** ** The field index *)

Module IndexSpec.

Import Index.
Local Open Scope Z_scope.

(** *** Put on a read-only index *)

(** C4.  [Put] on an index opened read-only leaves the index as it is, but
    the error it returns is [ErrWrite] ("number of bytes written doesn't
    match data size"), not [ErrROnly], the error declared for a write on a
    read-only index. *)
Theorem Put_read_only_returns_ErrWrite `{ItemCodec} :
  forall (root : node) (m : Map) (d : Z) (a : bool) (mt : Metrics)
         (fields : list string) (value : Z),
    Put fields value (mkIndex true root m d a mt)
      = (mkIndex true root m d a mt, Err ErrWrite)
    /\ ErrWrite <> ErrROnly.
Proof.
  intros. split; [reflexivity | discriminate].
Qed.

(** *** The post-filter of Get *)

(** C3.  With the item [a, b, c] in the trie, [Get] of [["", "b"]] collects
    it, the filter is active, and [fields[j]] is read at [j = 2] in a list
    of two: the call panics. *)
Theorem Get_filter_index_out_of_range :
  let idx := Samples.puts [(["a"; "b"; "c"], 1)] (Samples.fresh 64) in
  snd (One ["a"; "b"; "c"] idx) = Ok (mkItem ["a"; "b"; "c"] 1)
  /\ snd (Get [""; "b"] idx) = Panic.
Proof. vm_compute. split; reflexivity. Qed.

(** C7.  With [a], [a, x] and [a, x, c] in the trie, [Get] of
    [["a", "", "c"]] filters at depth 2; the items [a] and [a, x], which
    have no field at that depth, are returned with [a, x, c]. *)
Theorem Get_filter_keeps_short_items :
  let idx := Samples.puts [(["a"], 1); (["a"; "x"], 2); (["a"; "x"; "c"], 3);
                           (["a"; "y"; "d"], 4)] (Samples.fresh 64) in
  snd (Get ["a"; ""; "c"] idx)
  = Ok [mkItem ["a"] 1; mkItem ["a"; "x"] 2; mkItem ["a"; "x"; "c"] 3].
Proof. vm_compute. reflexivity. Qed.

(** *** Put: the append comes first *)

Lemma Map_Write_ok p m m' n :
  Map_Write p m = (m', n, None) ->
  (length p <= length (data m) - off m)%nat
  /\ data m' = take (off m) (data m) ++ p ++ drop (off m + length p)%nat (data m)
  /\ off m' = (off m + length p)%nat /\ limit m' = limit m /\ n = length p.
Proof.
  unfold Map_Write.
  destruct (Nat.leb_spec (length p) (length (data m) - off m)) as [Hle|Hgt].
  - intros [= <- <-]. cbn [data off limit]. auto.
  - discriminate.
Qed.

Lemma take_write {A} (d h : list A) (o : nat) :
  (o <= length d)%nat ->
  take (o + length h) (take o d ++ h ++ drop (o + length h) d) = take o d ++ h.
Proof.
  intros Ho. rewrite app_assoc. apply take_app_length'.
  rewrite length_app, length_take. lia.
Qed.

Lemma One_root fields idx : rootNode (fst (One fields idx)) = rootNode idx.
Proof.
  unfold One. destruct (One_walk _ _) as [nd|e|]; cbn [fst]; auto.
  destruct (_ =? _); reflexivity.
Qed.

Lemma One_mmap fields idx : mmapFile (fst (One fields idx)) = mmapFile idx.
Proof.
  unfold One. destruct (One_walk _ _) as [nd|e|]; cbn [fst]; auto.
  destruct (_ =? _); reflexivity.
Qed.

Lemma add_mmap nd idx : mmapFile (fst (add nd idx)) = mmapFile idx.
Proof.
  unfold add. destruct (Fields (item nd)); [reflexivity|].
  destruct (add_walk _ _ _ _). reflexivity.
Qed.

Section WithCodec.
Context `{ItemCodec}.

Lemma allocate_ok idx idx' : allocate idx = Ok idx' ->
  rootNode idx' = rootNode idx /\ dataSize idx' = dataSize idx
  /\ off (mmapFile idx') = off (mmapFile idx)
  /\ limit (mmapFile idx') = limit (mmapFile idx)
  /\ data (mmapFile idx') = data (mmapFile idx) ++ zeros PreallocSize.
Proof.
  unfold allocate, Map_Grow. destruct (_ <=? _); [|discriminate].
  intros [= <-]. cbn [set_mmap rootNode dataSize mmapFile off data limit]. auto.
Qed.

Lemma save_root nd idx : rootNode (fst (save nd idx)) = rootNode idx.
Proof.
  unfold save. destruct (marshal (item nd)) as [bs|]; [|reflexivity].
  set (forced := if _ <? 0 then _ else _).
  assert (Hf : forall idx1, forced = Ok idx1 -> rootNode idx1 = rootNode idx).
  { intros idx1. unfold forced. destruct (_ <? 0).
    - intros Ha. apply allocate_ok in Ha. tauto.
    - intros [= <-]. auto. }
  destruct forced as [idx1| |]; [|reflexivity..].
  specialize (Hf idx1 eq_refl).
  set (idx2 := if _ && _ then _ else _).
  assert (Hr2 : rootNode idx2 = rootNode idx).
  { unfold idx2. destruct (_ && _); cbn [set_allocating rootNode]; auto. }
  destruct (Map_Write (le32 _) _) as [[m1 n1] [e1|]]; [exact Hr2|].
  destruct (Map_Write bs m1) as [[m2 n2] [e2|]]; [exact Hr2|].
  destruct (_ =? _); exact Hr2.
Qed.

Lemma save_ok nd idx idx2 :
  save nd idx = (idx2, Ok tt) ->
  exists bs, marshal (item nd) = Some bs
    /\ record_in bs (off (mmapFile idx)) (mmapFile idx2).
Proof.
  unfold save. destruct (marshal (item nd)) as [bs|]; [|discriminate].
  set (forced := if _ <? 0 then _ else _).
  assert (Hf : forall idx1, forced = Ok idx1 ->
     off (mmapFile idx1) = off (mmapFile idx)).
  { intros idx1. unfold forced. destruct (_ <? 0).
    - intros Ha. apply allocate_ok in Ha. tauto.
    - intros [= <-]. auto. }
  destruct forced as [idx1| |]; [|discriminate..].
  specialize (Hf idx1 eq_refl).
  set (idx2' := if _ && _ then _ else _).
  assert (Hm2 : mmapFile idx2' = mmapFile idx1).
  { unfold idx2'. destruct (_ && _); cbn [set_allocating mmapFile]; auto. }
  cbn [set_dataSize mmapFile]. rewrite Hm2.
  destruct (Map_Write (le32 _) (mmapFile idx1)) as [[m1 n1] [e1|]] eqn:W1;
    [discriminate|].
  destruct (Map_Write bs m1) as [[m2 n2] [e2|]] eqn:W2; [discriminate|].
  destruct (_ =? _); [|discriminate].
  intros [= <-]. cbn [set_mmap mmapFile].
  exists bs. split; [reflexivity|].
  apply Map_Write_ok in W1 as (L1 & D1 & O1 & _ & _).
  apply Map_Write_ok in W2 as (L2 & D2 & O2 & _ & _).
  change (length (le32 (wrap_u32 (Z.of_nat (length bs))))) with 4%nat in *.
  rewrite <- Hf.
  exists (take (off (mmapFile idx1)) (data (mmapFile idx1))),
         (drop (off m1 + length bs)%nat (data m1)).
  split.
  - rewrite D2, O1.
    pose proof (take_write (data (mmapFile idx1))
                  (le32 (wrap_u32 (Z.of_nat (length bs))))
                  (off (mmapFile idx1)) ltac:(lia)) as E.
    change (length (le32 _)) with 4%nat in E.
    rewrite <- D1 in E. rewrite E, <- app_assoc. reflexivity.
  - rewrite length_take. lia.
Qed.

(** C10.  On a writable index, once [Put] has passed its checks (no empty
    field, [One] answers [ErrNoItem]) it calls [save] first: when the append
    fails [Put] returns that error and the trie is the one before the call;
    when it succeeds the record is in the file, the trie is still untouched,
    and only then [add] runs, whose trie and result are those of [Put]. *)
Theorem Put_saves_before_add (fields : list string) (value : Z) (idx : index) :
  ROnly idx = false ->
  existsb (fun f => String.eqb f "") fields = false ->
  snd (One fields idx) = Err ErrNoItem ->
  Put_after_save fields value idx.
Proof.
  intros Hro Hw Hone. unfold Put_after_save, Put. rewrite Hro, Hw.
  destruct (One fields idx) as [idx1 r] eqn:EOne. cbn [fst snd] in *. subst r.
  assert (Hr1 : rootNode idx1 = rootNode idx)
    by (rewrite <- (One_root fields idx), EOne; reflexivity).
  assert (Hm1 : mmapFile idx1 = mmapFile idx)
    by (rewrite <- (One_mmap fields idx), EOne; reflexivity).
  pose proof (save_root (Node (mkItem fields value) []) idx1) as Hs.
  destruct (save _ idx1) as [idx2 [[]|e|]] eqn:ES; cbn [fst] in Hs.
  - split; [congruence|]. split.
    + apply save_ok in ES as (bs & Hb & Hrec). exists bs. rewrite <- Hm1. auto.
    + pose proof (add_mmap (Node (mkItem fields value) []) idx2) as Ha.
      destruct (add _ idx2) as [idx3 [[]|e|]]; cbn [fst snd] in *; auto.
  - split; [reflexivity | congruence].
  - split; [reflexivity | congruence].
Qed.

End WithCodec.

(** The append fails on a full disk: the file is empty and cannot grow. *)
Lemma Put_saves_before_add_witness :
  ROnly (Samples.fresh 0) = false
  /\ existsb (fun f => String.eqb f "") ["a"] = false
  /\ snd (One ["a"] (Samples.fresh 0)) = Err ErrNoItem
  /\ Put_after_save (H := ItemProto.codec) ["a"] 7 (Samples.fresh 0).
Proof.
  split; [reflexivity|]. split; [reflexivity|]. split; [reflexivity|].
  apply (Put_saves_before_add (H := ItemProto.codec) ["a"] 7 (Samples.fresh 0));
    reflexivity.
Defined.

End IndexSpec.

(** ** The wire codec *)

Module ServerSpec.

Import Server.
Local Open Scope Z_scope.

(** *** Bits and varints *)

Lemma land_shiftl_low a b k :
  0 <= k -> 0 <= a < 2 ^ k -> Z.land a (Z.shiftl b k) = 0.
Proof.
  intros Hk Ha. apply Z.bits_inj'. intros n Hn.
  rewrite Z.land_spec, Z.bits_0.
  destruct (Z.lt_ge_cases n k) as [Hlt|Hge].
  - rewrite (Z.shiftl_spec_low _ _ _ Hlt). apply andb_false_r.
  - destruct (Z.eq_dec a 0) as [->|Hne]; [rewrite Z.bits_0; reflexivity|].
    rewrite (Z.bits_above_log2 a n); [reflexivity|lia|].
    apply Z.log2_lt_pow2; [lia|].
    apply Z.lt_le_trans with (2 ^ k); [lia|].
    apply Z.pow_le_mono_r; lia.
Qed.

Lemma lor_shiftl_add a b k :
  0 <= k -> 0 <= a < 2 ^ k -> Z.lor a (Z.shiftl b k) = a + b * 2 ^ k.
Proof.
  intros Hk Ha. rewrite <- Z.add_nocarry_lor by (apply land_shiftl_low; auto).
  rewrite Z.shiftl_mul_pow2 by lia. reflexivity.
Qed.

Lemma land_127 v : Z.land v 127 = v mod 128.
Proof. change 127 with (Z.ones 7). rewrite Z.land_ones by lia. reflexivity. Qed.

Lemma shiftr_7 v : Z.shiftr v 7 = v / 128.
Proof. rewrite Z.shiftr_div_pow2 by lia. reflexivity. Qed.

Lemma cont_byte v : wrap_u8 (Z.lor (Z.land v 127) 128) = v mod 128 + 128.
Proof.
  rewrite land_127. change 128 with (Z.shiftl 1 7) at 2.
  rewrite lor_shiftl_add by (try lia; apply Z.mod_pos_bound; lia).
  unfold wrap_u8. pose proof (Z.mod_pos_bound v 128 ltac:(lia)).
  rewrite Z.mod_small; lia.
Qed.

Lemma lor_term_u64 x v shift :
  0 <= shift -> 0 <= x < 2 ^ shift -> 0 <= v -> v * 2 ^ shift < 2 ^ 64 ->
  Z.lor x (wrap_u64 (Z.shiftl v shift)) = x + v * 2 ^ shift.
Proof.
  intros Hs Hx Hv Hb. unfold wrap_u64.
  rewrite Z.shiftl_mul_pow2 by lia.
  assert (0 <= v * 2 ^ shift) by (apply Z.mul_nonneg_nonneg; lia).
  rewrite Z.mod_small by lia.
  rewrite <- (lor_shiftl_add x v shift) by lia.
  rewrite Z.shiftl_mul_pow2 by lia. reflexivity.
Qed.

Lemma enc_last fuel v : 0 <= v < 128 -> encodeVarint_loop (S fuel) v = [v].
Proof.
  intros Hv. cbn [encodeVarint_loop]. change (2 ^ 7) with 128.
  destruct (Z.geb_spec v 128) as [?|_]; [lia|].
  unfold wrap_u8. rewrite Z.mod_small by lia. reflexivity.
Qed.

Lemma enc_more fuel v : 128 <= v ->
  encodeVarint_loop (S fuel) v = (v mod 128 + 128) :: encodeVarint_loop fuel (v / 128).
Proof.
  intros Hv. cbn [encodeVarint_loop]. change (2 ^ 7) with 128.
  destruct (Z.geb_spec v 128) as [_|?]; [|lia].
  rewrite cont_byte, shiftr_7. reflexivity.
Qed.

Lemma cont_land v : Z.land (v mod 128 + 128) 127 = v mod 128.
Proof.
  rewrite land_127.
  rewrite Z.add_mod, Z.mod_same, Z.add_0_r, !Z.mod_mod by lia. reflexivity.
Qed.

Lemma varint_u64_encode fuel : forall v shift x n rest,
  0 <= v < 2 ^ (7 * Z.of_nat (S fuel)) -> 0 <= shift ->
  v * 2 ^ shift < 2 ^ 64 -> 0 <= x < 2 ^ shift ->
  varint_u64 shift x n (encodeVarint_loop (S fuel) v ++ rest)
  = Ok (x + v * 2 ^ shift, n + Z.of_nat (length (encodeVarint_loop (S fuel) v))).
Proof.
  induction fuel as [|fuel IH]; intros v shift x n rest Hv Hs Hb Hx.
  - change (2 ^ (7 * Z.of_nat 1)) with 128 in Hv.
    rewrite enc_last by lia. cbn [app varint_u64 length].
    rewrite land_127, (Z.mod_small v 128) by lia.
    destruct (Z.ltb_spec v 128) as [_|?]; [|lia].
    rewrite lor_term_u64 by lia. reflexivity.
  - destruct (Z.lt_ge_cases v 128) as [Hlt|Hge].
    + rewrite enc_last by lia. cbn [app varint_u64 length].
      rewrite land_127, (Z.mod_small v 128) by lia.
      destruct (Z.ltb_spec v 128) as [_|?]; [|lia].
      rewrite lor_term_u64 by lia. reflexivity.
    + rewrite enc_more by lia. cbn [app varint_u64].
      pose proof (Z.mod_pos_bound v 128 ltac:(lia)) as Hm.
      rewrite cont_land.
      destruct (Z.ltb_spec (v mod 128 + 128) 128) as [?|_]; [lia|].
      assert (Hp : 0 < 2 ^ shift) by (apply Z.pow_pos_nonneg; lia).
      pose proof (Z.div_mod v 128 ltac:(lia)) as Hdm.
      assert (Hq : 0 <= v / 128) by (apply Z.div_pos; lia).
      assert (Hpow : 2 ^ (shift + 7) = 2 ^ shift * 128)
        by (rewrite Z.pow_add_r by lia; reflexivity).
      rewrite lor_term_u64 by (try lia; nia).
      rewrite IH.
      * f_equal. f_equal; [rewrite Hpow; nia|].
        cbn [length]. lia.
      * split; [lia|].
        apply Z.div_lt_upper_bound; [lia|].
        replace (7 * Z.of_nat (S (S fuel))) with (7 + 7 * Z.of_nat (S fuel)) in Hv by lia.
        rewrite Z.pow_add_r in Hv by lia. change (2 ^ 7) with 128 in Hv. lia.
      * lia.
      * rewrite Hpow. nia.
      * rewrite Hpow. nia.
Qed.

Lemma encodeVarint_u64 v rest :
  0 <= v < 2 ^ 64 ->
  varint_u64 0 0 0 (encodeVarintProtocol v ++ rest)
  = Ok (v, Z.of_nat (length (encodeVarintProtocol v))).
Proof.
  intros Hv. unfold encodeVarintProtocol.
  rewrite (varint_u64_encode 9 v 0 0 0 rest).
  - f_equal. f_equal; lia.
  - change (2 ^ (7 * Z.of_nat 10)) with (2 ^ 70).
    assert (2 ^ 64 < 2 ^ 70) by reflexivity. lia.
  - lia.
  - change (2 ^ 0) with 1. lia.
  - change (2 ^ 0) with 1. lia.
Qed.

Lemma wrap_i64_high z : 2 ^ 63 <= z < 2 ^ 64 -> wrap_i64 z = z - 2 ^ 64.
Proof.
  unfold wrap_i64. change (2 ^ 63) with 9223372036854775808.
  change (2 ^ 64) with 18446744073709551616. intros H.
  Z.div_mod_to_equations. lia.
Qed.

Lemma wrap_i64_low z : - 2 ^ 63 <= z < 2 ^ 63 -> wrap_i64 z = z.
Proof.
  unfold wrap_i64. change (2 ^ 63) with 9223372036854775808.
  change (2 ^ 64) with 18446744073709551616. intros H.
  Z.div_mod_to_equations. lia.
Qed.

Lemma lor_term_i64 x v shift :
  0 <= shift <= 63 -> 0 <= x < 2 ^ shift -> 0 <= v -> v * 2 ^ shift < 2 ^ 64 ->
  Z.lor x (wrap_i64 (Z.shiftl v shift)) = wrap_i64 (x + v * 2 ^ shift).
Proof.
  intros Hs Hx Hv Hb.
  rewrite Z.shiftl_mul_pow2 by lia.
  assert (Hp : 0 < 2 ^ shift) by (apply Z.pow_pos_nonneg; lia).
  assert (H63 : 2 ^ 63 = 2 ^ (63 - shift) * 2 ^ shift)
    by (rewrite <- Z.pow_add_r by lia; f_equal; lia).
  assert (H64 : 2 ^ 64 = 2 ^ (64 - shift) * 2 ^ shift)
    by (rewrite <- Z.pow_add_r by lia; f_equal; lia).
  assert (Hp1 : 0 < 2 ^ (63 - shift)) by (apply Z.pow_pos_nonneg; lia).
  assert (Hp2 : 0 < 2 ^ (64 - shift)) by (apply Z.pow_pos_nonneg; lia).
  assert (Hy : 0 <= v * 2 ^ shift) by (apply Z.mul_nonneg_nonneg; lia).
  destruct (Z.lt_ge_cases (v * 2 ^ shift) (2 ^ 63)) as [Hlo|Hhi].
  - assert (v < 2 ^ (63 - shift)) by nia.
    assert (x + v * 2 ^ shift < 2 ^ 63) by nia.
    rewrite !wrap_i64_low by lia.
    rewrite <- (lor_shiftl_add x v shift) by lia.
    rewrite Z.shiftl_mul_pow2 by lia. reflexivity.
  - assert (v < 2 ^ (64 - shift)) by nia.
    assert (x + v * 2 ^ shift < 2 ^ 64) by nia.
    rewrite !wrap_i64_high by lia.
    replace (v * 2 ^ shift - 2 ^ 64) with ((v - 2 ^ (64 - shift)) * 2 ^ shift) by lia.
    rewrite <- (Z.shiftl_mul_pow2 _ shift) by lia.
    rewrite lor_shiftl_add by lia. lia.
Qed.

Lemma varint_i64_encode fuel : forall v shift x n rest,
  0 <= v < 2 ^ (7 * Z.of_nat (S fuel)) -> 0 <= shift <= 63 ->
  v * 2 ^ shift < 2 ^ 64 -> 0 <= x < 2 ^ shift ->
  varint_i64 shift x n (encodeVarint_loop (S fuel) v ++ rest)
  = Ok (wrap_i64 (x + v * 2 ^ shift),
        n + Z.of_nat (length (encodeVarint_loop (S fuel) v))).
Proof.
  induction fuel as [|fuel IH]; intros v shift x n rest Hv Hs Hb Hx.
  - change (2 ^ (7 * Z.of_nat 1)) with 128 in Hv.
    rewrite enc_last by lia. cbn [app varint_i64 length].
    rewrite land_127, (Z.mod_small v 128) by lia.
    destruct (Z.ltb_spec v 128) as [_|?]; [|lia].
    rewrite lor_term_i64 by lia. reflexivity.
  - destruct (Z.lt_ge_cases v 128) as [Hlt|Hge].
    + rewrite enc_last by lia. cbn [app varint_i64 length].
      rewrite land_127, (Z.mod_small v 128) by lia.
      destruct (Z.ltb_spec v 128) as [_|?]; [|lia].
      rewrite lor_term_i64 by lia. reflexivity.
    + rewrite enc_more by lia. cbn [app varint_i64].
      pose proof (Z.mod_pos_bound v 128 ltac:(lia)) as Hm.
      rewrite cont_land.
      destruct (Z.ltb_spec (v mod 128 + 128) 128) as [?|_]; [lia|].
      assert (Hp : 0 < 2 ^ shift) by (apply Z.pow_pos_nonneg; lia).
      pose proof (Z.div_mod v 128 ltac:(lia)) as Hdm.
      assert (Hq : 0 <= v / 128) by (apply Z.div_pos; lia).
      assert (Hpow : 2 ^ (shift + 7) = 2 ^ shift * 128)
        by (rewrite Z.pow_add_r by lia; reflexivity).
      assert (Hsh : shift + 7 <= 63).
      { destruct (Z.le_gt_cases (shift + 7) 63) as [?|Hgt]; [assumption|exfalso].
        assert (2 ^ 64 <= 2 ^ (shift + 7)) by (apply Z.pow_le_mono_r; lia).
        nia. }
      assert (Hterm : v mod 128 * 2 ^ shift < 2 ^ 63).
      { assert (2 ^ (shift + 7) <= 2 ^ 63) by (apply Z.pow_le_mono_r; lia). nia. }
      rewrite lor_term_i64 by (try lia; nia).
      rewrite wrap_i64_low.
      2:{ assert (0 <= v mod 128 * 2 ^ shift) by nia.
          assert (2 ^ (shift + 7) <= 2 ^ 63) by (apply Z.pow_le_mono_r; lia).
          split; [lia | nia]. }
      rewrite IH.
      * replace (x + v mod 128 * 2 ^ shift + v / 128 * 2 ^ (shift + 7))
          with (x + v * 2 ^ shift) by (rewrite Hpow; nia).
        cbn [length]. do 2 f_equal. lia.
      * split; [lia|].
        apply Z.div_lt_upper_bound; [lia|].
        replace (7 * Z.of_nat (S (S fuel))) with (7 + 7 * Z.of_nat (S fuel)) in Hv by lia.
        rewrite Z.pow_add_r in Hv by lia. change (2 ^ 7) with 128 in Hv. lia.
      * lia.
      * rewrite Hpow. nia.
      * rewrite Hpow. nia.
Qed.

Lemma encodeVarint_i64 v rest :
  0 <= v < 2 ^ 64 ->
  varint_i64 0 0 0 (encodeVarintProtocol v ++ rest)
  = Ok (wrap_i64 v, Z.of_nat (length (encodeVarintProtocol v))).
Proof.
  intros Hv. unfold encodeVarintProtocol.
  rewrite (varint_i64_encode 9 v 0 0 0 rest).
  - rewrite Z.add_0_l, Z.mul_1_r, Z.add_0_l. reflexivity.
  - change (2 ^ (7 * Z.of_nat 10)) with (2 ^ 70).
    assert (2 ^ 64 < 2 ^ 70) by reflexivity. lia.
  - lia.
  - change (2 ^ 0) with 1. lia.
  - change (2 ^ 0) with 1. lia.
Qed.

Lemma wrap_i64_u64 z : in_i64 z -> wrap_i64 (wrap_u64 z) = z.
Proof.
  unfold in_i64, min_i64, max_i64, wrap_i64, wrap_u64.
  change (2 ^ 63) with 9223372036854775808.
  change (2 ^ 64) with 18446744073709551616. intros H.
  Z.div_mod_to_equations. lia.
Qed.

(** sovProtocol is the number of bytes encodeVarintProtocol writes *)
Lemma sov_loop_length fuel : forall v n,
  0 <= v < 2 ^ (7 * Z.of_nat (S fuel)) ->
  sov_loop (S fuel) n v = n + Z.of_nat (length (encodeVarint_loop (S fuel) v)).
Proof.
  induction fuel as [|fuel IH]; intros v n Hv.
  - change (2 ^ (7 * Z.of_nat 1)) with 128 in Hv.
    rewrite enc_last by lia. cbn [sov_loop length].
    rewrite shiftr_7, Z.div_small by lia. reflexivity.
  - destruct (Z.lt_ge_cases v 128) as [Hlt|Hge].
    + rewrite enc_last by lia. cbn [sov_loop length].
      rewrite shiftr_7, Z.div_small by lia. reflexivity.
    + rewrite enc_more by lia.
      remember (S fuel) as f. cbn [sov_loop length]. subst f.
      rewrite shiftr_7.
      assert (0 < v / 128) by (apply Z.div_str_pos; lia).
      destruct (Z.eqb_spec (v / 128) 0) as [?|_]; [lia|].
      rewrite IH; [lia|].
      split; [lia|]. apply Z.div_lt_upper_bound; [lia|].
      replace (7 * Z.of_nat (S (S fuel))) with (7 + 7 * Z.of_nat (S fuel)) in Hv by lia.
      rewrite Z.pow_add_r in Hv by lia. change (2 ^ 7) with 128 in Hv. lia.
Qed.

Lemma sovProtocol_length v : 0 <= v < 2 ^ 64 ->
  sovProtocol v = Z.of_nat (length (encodeVarintProtocol v)).
Proof.
  intros Hv. unfold sovProtocol, encodeVarintProtocol.
  rewrite sov_loop_length; [lia|].
  change (2 ^ (7 * Z.of_nat 10)) with (2 ^ 70).
  assert (2 ^ 64 < 2 ^ 70) by reflexivity. lia.
Qed.

(** *** Reading at a position *)

Lemma string_bytes_roundtrip s : string_of_bytes (bytes_of_string s) = s.
Proof.
  unfold string_of_bytes, bytes_of_string. rewrite map_map.
  rewrite (map_ext _ (fun a => a)).
  - rewrite map_id. apply String.string_of_list_ascii_of_string.
  - intros a. rewrite N2Z.id. apply Ascii.ascii_N_embedding.
Qed.

Lemma length_bytes_of_string s : Z.of_nat (length (bytes_of_string s)) = len s.
Proof.
  unfold bytes_of_string, len. rewrite length_map.
  f_equal. induction s; cbn; auto.
Qed.


Lemma drop_at {A} (pre l : list A) : drop (Z.to_nat (lenZ pre)) (pre ++ l) = l.
Proof. unfold lenZ. rewrite Nat2Z.id. apply drop_app_length. Qed.

Lemma read_u64_at pre v rest :
  0 <= v < 2 ^ 64 ->
  read_u64 (pre ++ encodeVarintProtocol v ++ rest) (lenZ pre)
  = Ok (v, lenZ pre + lenZ (encodeVarintProtocol v)).
Proof.
  intros Hv. unfold read_u64. rewrite drop_at, encodeVarint_u64 by assumption.
  reflexivity.
Qed.

Lemma read_i64_at pre v rest :
  0 <= v < 2 ^ 64 ->
  read_i64 (pre ++ encodeVarintProtocol v ++ rest) (lenZ pre)
  = Ok (wrap_i64 v, lenZ pre + lenZ (encodeVarintProtocol v)).
Proof.
  intros Hv. unfold read_i64. rewrite drop_at, encodeVarint_i64 by assumption.
  reflexivity.
Qed.

Lemma slice_at (pre mid rest : list byte) :
  slice (pre ++ mid ++ rest) (lenZ pre) (lenZ pre + lenZ mid) = Ok mid.
Proof.
  unfold slice, lenZ.
  rewrite !length_app.
  destruct (Z.leb_spec 0 (Z.of_nat (length pre))) as [_|?]; [|lia].
  destruct (Z.leb_spec (Z.of_nat (length pre))
              (Z.of_nat (length pre) + Z.of_nat (length mid))) as [_|?]; [|lia].
  destruct (Z.leb_spec (Z.of_nat (length pre) + Z.of_nat (length mid))
              (Z.of_nat (length pre + (length mid + length rest)))) as [_|?]; [|lia].
  cbn [andb]. rewrite Nat2Z.id, drop_app_length.
  replace (Z.to_nat (Z.of_nat (length pre) + Z.of_nat (length mid) - Z.of_nat (length pre)))
    with (length mid) by lia.
  rewrite take_app_length. reflexivity.
Qed.

Lemma read_string_at pre s rest :
  lenZ (pre ++ encodeVarintProtocol (len s) ++ bytes_of_string s ++ rest) < 2 ^ 63 ->
  read_string (pre ++ encodeVarintProtocol (len s) ++ bytes_of_string s ++ rest) (lenZ pre)
  = Ok (s, lenZ pre + lenZ (encodeVarintProtocol (len s)) + len s).
Proof.
  intros Hlen. unfold read_string.
  assert (Hs : 0 <= len s < 2 ^ 63).
  { unfold lenZ in Hlen. rewrite !length_app in Hlen.
    pose proof (length_bytes_of_string s). unfold len in *. lia. }
  assert (2 ^ 63 < 2 ^ 64) by reflexivity.
  rewrite read_u64_at by lia.
  set (i := lenZ pre + lenZ (encodeVarintProtocol (len s))).
  assert (Hi : i + len s <= lenZ (pre ++ encodeVarintProtocol (len s) ++ bytes_of_string s ++ rest)).
  { unfold i, lenZ. rewrite !length_app.
    pose proof (length_bytes_of_string s). lia. }
  assert (0 <= i) by (unfold i, lenZ; lia).
  rewrite (wrap_i64_low (len s)) by lia.
  rewrite wrap_i64_low by lia.
  fold (lenZ (pre ++ encodeVarintProtocol (len s) ++ bytes_of_string s ++ rest)).
  destruct (Z.gtb_spec (i + len s)
     (lenZ (pre ++ encodeVarintProtocol (len s) ++ bytes_of_string s ++ rest))) as [?|_]; [lia|].
  replace (pre ++ encodeVarintProtocol (len s) ++ bytes_of_string s ++ rest)
    with ((pre ++ encodeVarintProtocol (len s)) ++ bytes_of_string s ++ rest)
    by (rewrite <- app_assoc; reflexivity).
  replace i with (lenZ (pre ++ encodeVarintProtocol (len s)))
    by (unfold i, lenZ; rewrite length_app; lia).
  rewrite <- length_bytes_of_string. fold (lenZ (bytes_of_string s)).
  rewrite slice_at, string_bytes_roundtrip. reflexivity.
Qed.

Lemma read_message_at pre bs rest :
  lenZ (pre ++ encodeVarintProtocol (lenZ bs) ++ bs ++ rest) < 2 ^ 63 ->
  read_message (pre ++ encodeVarintProtocol (lenZ bs) ++ bs ++ rest) (lenZ pre)
  = Ok (bs, lenZ pre + lenZ (encodeVarintProtocol (lenZ bs)) + lenZ bs).
Proof.
  intros Hlen. unfold read_message.
  assert (Hs : 0 <= lenZ bs < 2 ^ 63).
  { unfold lenZ in *. rewrite !length_app in Hlen. lia. }
  assert (2 ^ 63 < 2 ^ 64) by reflexivity.
  rewrite read_i64_at by lia.
  set (i := lenZ pre + lenZ (encodeVarintProtocol (lenZ bs))).
  assert (Hi : i + lenZ bs <= lenZ (pre ++ encodeVarintProtocol (lenZ bs) ++ bs ++ rest)).
  { unfold i, lenZ. rewrite !length_app. lia. }
  assert (0 <= i) by (unfold i, lenZ; lia).
  rewrite (wrap_i64_low (lenZ bs)) by lia.
  rewrite wrap_i64_low by lia.
  destruct (Z.ltb_spec (lenZ bs) 0) as [?|_]; [lia|].
  fold (lenZ (pre ++ encodeVarintProtocol (lenZ bs) ++ bs ++ rest)).
  destruct (Z.gtb_spec (i + lenZ bs)
     (lenZ (pre ++ encodeVarintProtocol (lenZ bs) ++ bs ++ rest))) as [?|_]; [lia|].
  replace (pre ++ encodeVarintProtocol (lenZ bs) ++ bs ++ rest)
    with ((pre ++ encodeVarintProtocol (lenZ bs)) ++ bs ++ rest)
    by (rewrite <- app_assoc; reflexivity).
  replace i with (lenZ (pre ++ encodeVarintProtocol (lenZ bs)))
    by (unfold i, lenZ; rewrite length_app; lia).
  rewrite slice_at. reflexivity.
Qed.

Lemma at_app pre (l : list byte) (k : nat) (c : Z) :
  c = lenZ pre + Z.of_nat k ->
  at_ (pre ++ l) c = default 0 (l !! k).
Proof.
  intros ->. unfold at_, lenZ.
  replace (Z.to_nat (Z.of_nat (length pre) + Z.of_nat k)) with (length pre + k)%nat by lia.
  rewrite lookup_app_r by lia.
  replace (length pre + k - length pre)%nat with k by lia. reflexivity.
Qed.

Lemma byte_of_shift v k : 0 <= k -> wrap_u8 (Z.shiftr v k) = (v / 2 ^ k) mod 256.
Proof. intros. unfold wrap_u8. rewrite Z.shiftr_div_pow2 by lia. reflexivity. Qed.

Lemma fixed64_sum v : 0 <= v < 2 ^ 64 ->
  v mod 256 + (v / 2 ^ 8) mod 256 * 2 ^ 8 + (v / 2 ^ 16) mod 256 * 2 ^ 16
  + (v / 2 ^ 24) mod 256 * 2 ^ 24 + (v / 2 ^ 32) mod 256 * 2 ^ 32
  + (v / 2 ^ 40) mod 256 * 2 ^ 40 + (v / 2 ^ 48) mod 256 * 2 ^ 48
  + (v / 2 ^ 56) mod 256 * 2 ^ 56 = v.
Proof.
  intros Hv.
  change (2 ^ 64) with 18446744073709551616 in Hv.
  change (2 ^ 8) with 256. change (2 ^ 16) with 65536.
  change (2 ^ 24) with 16777216. change (2 ^ 32) with 4294967296.
  change (2 ^ 40) with 1099511627776. change (2 ^ 48) with 281474976710656.
  change (2 ^ 56) with 72057594037927936.
  Z.div_mod_to_equations. lia.
Qed.

Lemma read_fixed64_at pre v rest :
  0 <= v < 2 ^ 64 ->
  read_fixed64 (pre ++ encodeFixed64Protocol v ++ rest) (lenZ pre)
  = Ok (v, lenZ pre + 8).
Proof.
  intros Hv. unfold read_fixed64.
  assert (Hl : lenZ pre + 8 <= Z.of_nat (length (pre ++ encodeFixed64Protocol v ++ rest))).
  { unfold lenZ. rewrite !length_app. cbn [length encodeFixed64Protocol]. lia. }
  destruct (Z.gtb_spec (lenZ pre + 8)
              (Z.of_nat (length (pre ++ encodeFixed64Protocol v ++ rest)))) as [?|_]; [lia|].
  rewrite (at_app pre _ 0), (at_app pre _ 1), (at_app pre _ 2), (at_app pre _ 3),
          (at_app pre _ 4), (at_app pre _ 5), (at_app pre _ 6), (at_app pre _ 7) by lia.
  cbn [encodeFixed64Protocol app lookup list_lookup default from_option].
  rewrite !byte_of_shift by lia.
  change (wrap_u8 v) with (v mod 256).
  pose proof (Z.mod_pos_bound v 256 ltac:(lia)) as B0.
  pose proof (Z.mod_pos_bound (v / 2 ^ 8) 256 ltac:(lia)) as B1.
  pose proof (Z.mod_pos_bound (v / 2 ^ 16) 256 ltac:(lia)) as B2.
  pose proof (Z.mod_pos_bound (v / 2 ^ 24) 256 ltac:(lia)) as B3.
  pose proof (Z.mod_pos_bound (v / 2 ^ 32) 256 ltac:(lia)) as B4.
  pose proof (Z.mod_pos_bound (v / 2 ^ 40) 256 ltac:(lia)) as B5.
  pose proof (Z.mod_pos_bound (v / 2 ^ 48) 256 ltac:(lia)) as B6.
  pose proof (Z.mod_pos_bound (v / 2 ^ 56) 256 ltac:(lia)) as B7.
  rewrite <- (fixed64_sum v Hv) at 9.
  set (b0 := v mod 256) in *. set (b1 := (v / 2 ^ 8) mod 256) in *.
  set (b2 := (v / 2 ^ 16) mod 256) in *. set (b3 := (v / 2 ^ 24) mod 256) in *.
  set (b4 := (v / 2 ^ 32) mod 256) in *. set (b5 := (v / 2 ^ 40) mod 256) in *.
  set (b6 := (v / 2 ^ 48) mod 256) in *. set (b7 := (v / 2 ^ 56) mod 256) in *.
  clearbody b0 b1 b2 b3 b4 b5 b6 b7.
  assert (P8 : 2 ^ 8 = 256) by reflexivity.
  assert (P16 : 2 ^ 16 = 65536) by reflexivity.
  assert (P24 : 2 ^ 24 = 16777216) by reflexivity.
  assert (P32 : 2 ^ 32 = 4294967296) by reflexivity.
  assert (P40 : 2 ^ 40 = 1099511627776) by reflexivity.
  assert (P48 : 2 ^ 48 = 281474976710656) by reflexivity.
  assert (P56 : 2 ^ 56 = 72057594037927936) by reflexivity.
  assert (P64 : 2 ^ 64 = 18446744073709551616) by reflexivity.
  unfold id. rewrite (lor_term_u64 _ b1 8) by lia.
  rewrite (lor_term_u64 _ b2 16) by lia.
  rewrite (lor_term_u64 _ b3 24) by lia.
  rewrite (lor_term_u64 _ b4 32) by lia.
  rewrite (lor_term_u64 _ b5 40) by lia.
  rewrite (lor_term_u64 _ b6 48) by lia.
  rewrite (lor_term_u64 _ b7 56) by lia.
  reflexivity.
Qed.

(** *** The decoding loop *)

Section Steps.
Context {M : Type}.
Variable cases : Z -> Z -> Z -> list byte -> Z -> M -> option (result error (Z * M)).

Local Abbreviation steps := (Server.steps cases).
Local Abbreviation decodes := (Server.decodes cases).



Lemma steps_refl data i m : steps data i m i m.
Proof. intros fuel He. exists fuel. auto. Qed.

Lemma steps_trans data i1 m1 i2 m2 i3 m3 :
  steps data i1 m1 i2 m2 -> steps data i2 m2 i3 m3 -> steps data i1 m1 i3 m3.
Proof.
  intros H1 H2 fuel He. destruct (H1 fuel He) as (f2 & He2 & E2).
  destruct (H2 f2 He2) as (f3 & He3 & E3). exists f3. split; [assumption|congruence].
Qed.

Lemma steps_done data m m' :
  steps data 0 m (lenZ data) m' -> unmarshal cases data m = Some (Ok m').
Proof.
  intros Hs. unfold unmarshal.
  destruct (Hs (S (length data))) as (f & _ & E).
  { unfold enough, lenZ. lia. }
  rewrite E. destruct f; cbn [unmarshal_loop]; fold (lenZ data);
    rewrite Z.ltb_irrefl; reflexivity.
Qed.

Lemma step_one data i m wire i1 i2 m2 :
  0 <= i < lenZ data -> i < i2 ->
  read_u64 data i = Ok (wire, i1) ->
  cases (wrap_i32 (Z.shiftr wire 3)) (Z.land wire 7) wire data i1 m = Some (Ok (i2, m2)) ->
  steps data i m i2 m2.
Proof.
  intros Hi Hlt Hr Hc fuel He. unfold enough in He.
  destruct fuel as [|f]; [lia|]. exists f. split; [unfold enough; lia|].
  cbn [unmarshal_loop]. fold (lenZ data).
  destruct (Z.ltb_spec i (lenZ data)) as [_|?]; [|lia]. cbn [negb].
  rewrite Hr, Hc. reflexivity.
Qed.

(** reading a one-byte tag *)
Lemma read_tag pre tag rest :
  0 <= tag < 128 ->
  read_u64 (pre ++ tag :: rest) (lenZ pre) = Ok (tag, lenZ pre + 1).
Proof.
  intros Ht. assert (2 ^ 64 = 18446744073709551616) by reflexivity.
  pose proof (read_u64_at pre tag rest ltac:(lia)) as R.
  unfold encodeVarintProtocol in R. rewrite (enc_last 9 tag Ht) in R. exact R.
Qed.

Lemma lenZ_app {A} (l k : list A) : lenZ (l ++ k) = lenZ l + lenZ k.
Proof. unfold lenZ. rewrite length_app. lia. Qed.
Lemma lenZ_cons {A} (x : A) (k : list A) : lenZ (x :: k) = 1 + lenZ k.
Proof. unfold lenZ. cbn [length]. lia. Qed.
Lemma lenZ_nonneg {A} (l : list A) : 0 <= lenZ l.
Proof. unfold lenZ. lia. Qed.
Lemma lenZ_nil {A} : lenZ (@nil A) = 0.
Proof. reflexivity. Qed.

Ltac lenZ_norm :=
  repeat (rewrite lenZ_app || rewrite lenZ_cons || rewrite lenZ_nil).

(** a varint field *)
Lemma step_varint tag (set : Z -> M -> M) pre v rest m :
  0 <= tag < 128 ->
  (forall data i m,
      cases (wrap_i32 (Z.shiftr tag 3)) (Z.land tag 7) tag data i m
      = match read_u64 data i with
        | Ok (v, i') => ret (Ok (i', set v m))
        | Err e => ret (Err e)
        | Panic => ret Panic
        end) ->
  0 <= v < 2 ^ 64 ->
  steps (pre ++ (tag :: encodeVarintProtocol v) ++ rest) (lenZ pre) m
        (lenZ pre + lenZ (tag :: encodeVarintProtocol v)) (set v m).
Proof.
  intros Ht Hc Hv. cbn [app].
  eapply step_one.
  - rewrite lenZ_app, lenZ_cons. pose proof (lenZ_nonneg pre).
    pose proof (lenZ_nonneg (encodeVarintProtocol v ++ rest)). lia.
  - rewrite lenZ_cons. pose proof (lenZ_nonneg (encodeVarintProtocol v)). lia.
  - apply read_tag. assumption.
  - rewrite Hc.
    replace (pre ++ tag :: encodeVarintProtocol v ++ rest)
      with ((pre ++ [tag]) ++ encodeVarintProtocol v ++ rest)
      by (rewrite <- app_assoc; reflexivity).
    replace (lenZ pre + 1) with (lenZ (pre ++ [tag]))
      by (rewrite lenZ_app; reflexivity).
    rewrite read_u64_at by assumption. unfold ret.
    do 3 f_equal. lenZ_norm. lia.
Qed.

(** a varint field read as int64 *)
Lemma step_varint_i64 tag (set : Z -> M -> M) pre v rest m :
  0 <= tag < 128 ->
  (forall data i m,
      cases (wrap_i32 (Z.shiftr tag 3)) (Z.land tag 7) tag data i m
      = match read_i64 data i with
        | Ok (v, i') => ret (Ok (i', set v m))
        | Err e => ret (Err e)
        | Panic => ret Panic
        end) ->
  0 <= v < 2 ^ 64 ->
  steps (pre ++ (tag :: encodeVarintProtocol v) ++ rest) (lenZ pre) m
        (lenZ pre + lenZ (tag :: encodeVarintProtocol v)) (set (wrap_i64 v) m).
Proof.
  intros Ht Hc Hv. cbn [app].
  eapply step_one.
  - rewrite lenZ_app, lenZ_cons. pose proof (lenZ_nonneg pre).
    pose proof (lenZ_nonneg (encodeVarintProtocol v ++ rest)). lia.
  - rewrite lenZ_cons. pose proof (lenZ_nonneg (encodeVarintProtocol v)). lia.
  - apply read_tag. assumption.
  - rewrite Hc.
    replace (pre ++ tag :: encodeVarintProtocol v ++ rest)
      with ((pre ++ [tag]) ++ encodeVarintProtocol v ++ rest)
      by (rewrite <- app_assoc; reflexivity).
    replace (lenZ pre + 1) with (lenZ (pre ++ [tag]))
      by (rewrite lenZ_app; reflexivity).
    rewrite read_i64_at by assumption. unfold ret.
    do 3 f_equal. lenZ_norm. lia.
Qed.

(** a fixed64 field *)
Lemma step_fixed64 tag (set : Z -> M -> M) pre v rest m :
  0 <= tag < 128 ->
  (forall data i m,
      cases (wrap_i32 (Z.shiftr tag 3)) (Z.land tag 7) tag data i m
      = match read_fixed64 data i with
        | Ok (v, i') => ret (Ok (i', set v m))
        | Err e => ret (Err e)
        | Panic => ret Panic
        end) ->
  0 <= v < 2 ^ 64 ->
  steps (pre ++ (tag :: encodeFixed64Protocol v) ++ rest) (lenZ pre) m
        (lenZ pre + lenZ (tag :: encodeFixed64Protocol v)) (set v m).
Proof.
  intros Ht Hc Hv. cbn [app].
  eapply step_one.
  - rewrite lenZ_app, lenZ_cons. pose proof (lenZ_nonneg pre).
    pose proof (lenZ_nonneg (encodeFixed64Protocol v ++ rest)). lia.
  - rewrite lenZ_cons. pose proof (lenZ_nonneg (encodeFixed64Protocol v)). lia.
  - apply read_tag. assumption.
  - rewrite Hc.
    replace (pre ++ tag :: encodeFixed64Protocol v ++ rest)
      with ((pre ++ [tag]) ++ encodeFixed64Protocol v ++ rest)
      by (rewrite <- app_assoc; reflexivity).
    replace (lenZ pre + 1) with (lenZ (pre ++ [tag]))
      by (rewrite lenZ_app; reflexivity).
    rewrite read_fixed64_at by assumption. unfold ret.
    do 3 f_equal. lenZ_norm. change (lenZ (encodeFixed64Protocol v)) with 8. lia.
Qed.

(** a string field *)
Lemma step_string tag (set : string -> M -> M) pre s rest m :
  0 <= tag < 128 ->
  (forall data i m,
      cases (wrap_i32 (Z.shiftr tag 3)) (Z.land tag 7) tag data i m
      = match read_string data i with
        | Ok (s, i') => ret (Ok (i', set s m))
        | Err e => ret (Err e)
        | Panic => ret Panic
        end) ->
  lenZ (pre ++ put_string tag s ++ rest) < 2 ^ 63 ->
  steps (pre ++ put_string tag s ++ rest) (lenZ pre) m
        (lenZ pre + lenZ (put_string tag s)) (set s m).
Proof.
  intros Ht Hc Hl. unfold put_string in *. cbn [app] in *.
  eapply step_one.
  - rewrite lenZ_app, lenZ_cons. pose proof (lenZ_nonneg pre).
    pose proof (lenZ_nonneg ((encodeVarintProtocol (len s) ++ bytes_of_string s) ++ rest)). lia.
  - rewrite lenZ_cons.
    pose proof (lenZ_nonneg (encodeVarintProtocol (len s) ++ bytes_of_string s)). lia.
  - apply read_tag. assumption.
  - rewrite Hc.
    replace (pre ++ tag :: (encodeVarintProtocol (len s) ++ bytes_of_string s) ++ rest)
      with ((pre ++ [tag]) ++ encodeVarintProtocol (len s) ++ bytes_of_string s ++ rest) in *
      by (rewrite <- !app_assoc; reflexivity).
    replace (lenZ pre + 1) with (lenZ (pre ++ [tag]))
      by (rewrite lenZ_app; reflexivity).
    rewrite read_string_at by assumption. unfold ret.
    do 3 f_equal. lenZ_norm.
    pose proof (length_bytes_of_string s) as E. fold (lenZ (bytes_of_string s)) in E. lia.
Qed.

(** a sub-message field *)
Lemma step_message {A} tag (unm : A -> list byte -> option (result error A))
    (sub : M -> A) (store : M -> A -> M) pre bs a rest m :
  0 <= tag < 128 ->
  (forall data i m,
      cases (wrap_i32 (Z.shiftr tag 3)) (Z.land tag 7) tag data i m
      = sub_message unm (sub m) (store m) data i) ->
  unm (sub m) bs = Some (Ok a) ->
  lenZ (pre ++ (tag :: encodeVarintProtocol (lenZ bs) ++ bs) ++ rest) < 2 ^ 63 ->
  steps (pre ++ (tag :: encodeVarintProtocol (lenZ bs) ++ bs) ++ rest) (lenZ pre) m
        (lenZ pre + lenZ (tag :: encodeVarintProtocol (lenZ bs) ++ bs)) (store m a).
Proof.
  intros Ht Hc Hu Hl. cbn [app] in *.
  eapply step_one.
  - rewrite lenZ_app, lenZ_cons. pose proof (lenZ_nonneg pre).
    pose proof (lenZ_nonneg ((encodeVarintProtocol (lenZ bs) ++ bs) ++ rest)). lia.
  - rewrite lenZ_cons.
    pose proof (lenZ_nonneg (encodeVarintProtocol (lenZ bs) ++ bs)). lia.
  - apply read_tag. assumption.
  - rewrite Hc. unfold sub_message.
    replace (pre ++ tag :: (encodeVarintProtocol (lenZ bs) ++ bs) ++ rest)
      with ((pre ++ [tag]) ++ encodeVarintProtocol (lenZ bs) ++ bs ++ rest) in *
      by (rewrite <- !app_assoc; reflexivity).
    replace (lenZ pre + 1) with (lenZ (pre ++ [tag]))
      by (rewrite lenZ_app; reflexivity).
    rewrite read_message_at by assumption. rewrite Hu.
    do 3 f_equal. lenZ_norm. lia.
Qed.

(** a repeated string field *)
Lemma steps_strings tag (set : string -> M -> M) :
  0 <= tag < 128 ->
  (forall data i m,
      cases (wrap_i32 (Z.shiftr tag 3)) (Z.land tag 7) tag data i m
      = match read_string data i with
        | Ok (s, i') => ret (Ok (i', set s m))
        | Err e => ret (Err e)
        | Panic => ret Panic
        end) ->
  forall l pre rest m,
  lenZ (pre ++ flat_map (put_string tag) l ++ rest) < 2 ^ 63 ->
  steps (pre ++ flat_map (put_string tag) l ++ rest) (lenZ pre) m
        (lenZ pre + lenZ (flat_map (put_string tag) l))
        (fold_left (fun m s => set s m) l m).
Proof.
  intros Ht Hc. induction l as [|s l IH]; intros pre rest m Hl.
  - cbn [flat_map fold_left]. change (lenZ (@nil byte)) with 0.
    rewrite Z.add_0_r. apply steps_refl.
  - cbn [flat_map fold_left] in *.
    rewrite <- app_assoc in *.
    eapply steps_trans.
    + apply (step_string tag set pre s (flat_map (put_string tag) l ++ rest) m Ht Hc Hl).
    + specialize (IH (pre ++ put_string tag s) rest (set s m)).
      rewrite <- app_assoc in IH. specialize (IH Hl).
      rewrite !lenZ_app in *. rewrite Z.add_assoc. exact IH.
Qed.


(** *** Parts of an encoding *)


Lemma decodes_nil m : decodes [] m m.
Proof.
  intros pre rest _. rewrite lenZ_nil, Z.add_0_r. apply steps_refl.
Qed.

Lemma decodes_app a b m0 m1 m2 :
  decodes a m0 m1 -> decodes b m1 m2 -> decodes (a ++ b) m0 m2.
Proof.
  intros Ha Hb pre rest Hl. rewrite <- app_assoc in *.
  eapply steps_trans; [apply Ha; assumption|].
  specialize (Hb (pre ++ a) rest). rewrite <- app_assoc in Hb.
  specialize (Hb Hl). rewrite lenZ_app in *. rewrite Z.add_assoc. exact Hb.
Qed.

Lemma decodes_all data m m' :
  lenZ data < 2 ^ 63 -> decodes data m m' -> unmarshal cases data m = Some (Ok m').
Proof.
  intros Hl Hd. apply steps_done.
  specialize (Hd [] []). cbn [app] in Hd. rewrite app_nil_r in Hd.
  rewrite lenZ_nil, Z.add_0_l in Hd. auto.
Qed.

Section Fields.
Variable tag : Z.
Hypothesis Htag : 0 <= tag < 128.

Lemma decodes_varint (set : Z -> M -> M) v m :
  (forall data i m,
      cases (wrap_i32 (Z.shiftr tag 3)) (Z.land tag 7) tag data i m
      = match read_u64 data i with
        | Ok (v, i') => ret (Ok (i', set v m))
        | Err e => ret (Err e)
        | Panic => ret Panic
        end) ->
  0 <= v < 2 ^ 64 -> (v = 0 -> set v m = m) ->
  decodes (if negb (v =? 0) then tag :: encodeVarintProtocol v else []) m (set v m).
Proof.
  intros Hc Hv H0. destruct (Z.eqb_spec v 0) as [E|_]; cbn [negb].
  - rewrite (H0 E). apply decodes_nil.
  - intros pre rest _. apply step_varint; assumption.
Qed.

Lemma decodes_varint_i64 (set : Z -> M -> M) v m :
  (forall data i m,
      cases (wrap_i32 (Z.shiftr tag 3)) (Z.land tag 7) tag data i m
      = match read_i64 data i with
        | Ok (v, i') => ret (Ok (i', set v m))
        | Err e => ret (Err e)
        | Panic => ret Panic
        end) ->
  in_i64 v -> (v = 0 -> set v m = m) ->
  decodes (if negb (v =? 0) then tag :: encodeVarintProtocol (wrap_u64 v) else [])
          m (set v m).
Proof.
  intros Hc Hv H0. destruct (Z.eqb_spec v 0) as [E|_]; cbn [negb].
  - rewrite (H0 E). apply decodes_nil.
  - intros pre rest _. rewrite <- (wrap_i64_u64 v Hv) at 3.
    apply step_varint_i64; try assumption.
    unfold wrap_u64. apply Z.mod_pos_bound. reflexivity.
Qed.

Lemma decodes_fixed64 (set : Z -> M -> M) v m :
  (forall data i m,
      cases (wrap_i32 (Z.shiftr tag 3)) (Z.land tag 7) tag data i m
      = match read_fixed64 data i with
        | Ok (v, i') => ret (Ok (i', set v m))
        | Err e => ret (Err e)
        | Panic => ret Panic
        end) ->
  0 <= v < 2 ^ 64 -> (float64_ne_zero v = false -> set v m = m) ->
  decodes (if float64_ne_zero v then tag :: encodeFixed64Protocol v else []) m (set v m).
Proof.
  intros Hc Hv H0. destruct (float64_ne_zero v) eqn:E.
  - intros pre rest _. apply step_fixed64; assumption.
  - rewrite (H0 eq_refl). apply decodes_nil.
Qed.

Lemma decodes_strings (set : string -> M -> M) l m :
  (forall data i m,
      cases (wrap_i32 (Z.shiftr tag 3)) (Z.land tag 7) tag data i m
      = match read_string data i with
        | Ok (s, i') => ret (Ok (i', set s m))
        | Err e => ret (Err e)
        | Panic => ret Panic
        end) ->
  decodes (flat_map (put_string tag) l) m (fold_left (fun m s => set s m) l m).
Proof. intros Hc pre rest Hl. apply steps_strings; assumption. Qed.

Lemma decodes_string_field (set : string -> M -> M) s m :
  (forall data i m,
      cases (wrap_i32 (Z.shiftr tag 3)) (Z.land tag 7) tag data i m
      = match read_string data i with
        | Ok (s, i') => ret (Ok (i', set s m))
        | Err e => ret (Err e)
        | Panic => ret Panic
        end) ->
  (s = "" -> set s m = m) ->
  decodes (put_string_field tag s) m (set s m).
Proof.
  intros Hc H0. unfold put_string_field.
  destruct (Z.gtb_spec (len s) 0) as [Hpos|Hz].
  - intros pre rest Hl. apply (step_string tag set pre s rest m Htag Hc Hl).
  - assert (s = "") as E by (destruct s; [reflexivity | unfold len in Hz; cbn in Hz; lia]).
    rewrite (H0 E). apply decodes_nil.
Qed.

Lemma decodes_message {A} (unm : A -> list byte -> option (result error A))
    (sub : M -> A) (store : M -> A -> M) bs a m :
  (forall data i m,
      cases (wrap_i32 (Z.shiftr tag 3)) (Z.land tag 7) tag data i m
      = sub_message unm (sub m) (store m) data i) ->
  unm (sub m) bs = Some (Ok a) ->
  decodes (tag :: encodeVarintProtocol (lenZ bs) ++ bs) m (store m a).
Proof. intros Hc Hu pre rest Hl. eapply step_message; eassumption. Qed.

End Fields.

End Steps.

(** *** Sizes *)




Ltac lenZ_pos :=
  repeat match goal with
  | |- context [lenZ ?x] =>
      lazymatch goal with
      | _ : 0 <= lenZ x |- _ => fail
      | _ => pose proof (lenZ_nonneg x)
      end
  | _ : context [lenZ ?x] |- _ =>
      lazymatch goal with
      | _ : 0 <= lenZ x |- _ => fail
      | _ => pose proof (lenZ_nonneg x)
      end
  end.

Lemma size_strings_acc tag (Ht : 0 <= tag < 128) l : forall n,
  lenZ (flat_map (put_string tag) l) < 2 ^ 63 ->
  fold_left (fun n s => let l := len s in n + (1 + l + sovProtocol l)) l n
  = n + lenZ (flat_map (put_string tag) l).
Proof.
  induction l as [|s l IH]; intros n Hl; cbn [fold_left flat_map] in *.
  - rewrite lenZ_nil. lia.
  - rewrite lenZ_app in *. pose proof (lenZ_nonneg (flat_map (put_string tag) l)).
    pose proof (lenZ_nonneg (put_string tag s)).
    rewrite IH by lia. cbv zeta.
    unfold put_string in *. rewrite lenZ_cons, lenZ_app in *.
    pose proof (length_bytes_of_string s) as E. fold (lenZ (bytes_of_string s)) in E.
    pose proof (lenZ_nonneg (encodeVarintProtocol (len s))).
    pose proof (lenZ_nonneg (bytes_of_string s)).
    assert (2 ^ 63 < 2 ^ 64) by reflexivity.
    rewrite sovProtocol_length by lia. fold (lenZ (encodeVarintProtocol (len s))). lia.
Qed.

Lemma size_strings_length tag l :
  0 <= tag < 128 ->
  lenZ (flat_map (put_string tag) l) < 2 ^ 63 ->
  size_strings l = lenZ (flat_map (put_string tag) l).
Proof. intros Ht Hl. unfold size_strings. rewrite (size_strings_acc tag Ht) by assumption. lia. Qed.

Lemma size_varint_opt tag v :
  0 <= v < 2 ^ 64 ->
  (if negb (v =? 0) then 1 + sovProtocol v else 0)
  = lenZ (if negb (v =? 0) then tag :: encodeVarintProtocol v else []).
Proof.
  intros Hv. destruct (negb (v =? 0)); [|reflexivity].
  rewrite lenZ_cons, sovProtocol_length by assumption. reflexivity.
Qed.

Lemma size_fixed64_opt tag v :
  (if float64_ne_zero v then 9 else 0)
  = lenZ (if float64_ne_zero v then tag :: encodeFixed64Protocol v else []).
Proof. destruct (float64_ne_zero v); reflexivity. Qed.

Lemma float64_zero v : float64_ne_zero v = false -> v <> 2 ^ 63 -> v = 0.
Proof.
  unfold float64_ne_zero. intros H Hn.
  destruct (Z.eqb_spec v 0) as [?|?]; [assumption|].
  destruct (Z.eqb_spec v (2 ^ 63)) as [?|?]; [contradiction|discriminate].
Qed.

Lemma marshal_with_ok size bs :
  size = lenZ bs -> marshal_with size (Ok bs) = Ok bs.
Proof.
  intros ->. unfold marshal_with. fold (lenZ bs). rewrite Z.leb_refl. reflexivity.
Qed.

(** ** ReqTrack *)

Lemma ReqTrack_fields T To C l : forall f0,
  fold_left (fun m s => ReqTrack.mk (ReqTrack.Time m) (ReqTrack.Total m)
                          (ReqTrack.Count m) (ReqTrack.Fields m ++ [s]))
            l (ReqTrack.mk T To C f0)
  = ReqTrack.mk T To C (f0 ++ l).
Proof.
  induction l as [|s l IH]; intros f0; cbn [fold_left].
  - rewrite app_nil_r. reflexivity.
  - cbn [ReqTrack.Time ReqTrack.Total ReqTrack.Count ReqTrack.Fields].
    rewrite IH, <- app_assoc. reflexivity.
Qed.

Lemma ReqTrack_decodes m bs :
  ReqTrack_wf m -> ReqTrack.MarshalTo m = Ok bs ->
  decodes ReqTrack.cases bs ReqTrack.zero m.
Proof.
  intros (Ht & Hto & Hz & Hc) [= <-].
  destruct m as [T To C F].
  cbn [ReqTrack.Time ReqTrack.Total ReqTrack.Count ReqTrack.Fields] in *.
  apply decodes_app with (m1 := ReqTrack.mk T 0 0 []).
  { apply (decodes_varint ReqTrack.cases 8 ltac:(lia)
             (fun v m => ReqTrack.mk v (ReqTrack.Total m) (ReqTrack.Count m) (ReqTrack.Fields m)));
      [intros; reflexivity | assumption | intros ->; reflexivity]. }
  apply decodes_app with (m1 := ReqTrack.mk T To 0 []).
  { apply (decodes_fixed64 ReqTrack.cases 17 ltac:(lia)
             (fun v m => ReqTrack.mk (ReqTrack.Time m) v (ReqTrack.Count m) (ReqTrack.Fields m)));
      [intros; reflexivity | assumption |].
    intros E. rewrite (float64_zero To E Hz). reflexivity. }
  apply decodes_app with (m1 := ReqTrack.mk T To C []).
  { apply (decodes_varint ReqTrack.cases 24 ltac:(lia)
             (fun v m => ReqTrack.mk (ReqTrack.Time m) (ReqTrack.Total m) v (ReqTrack.Fields m)));
      [intros; reflexivity | assumption | intros ->; reflexivity]. }
  pose proof (ReqTrack_fields T To C F []) as E. cbn [app] in E. rewrite <- E.
  apply (decodes_strings ReqTrack.cases 34 ltac:(lia)
           (fun s m => ReqTrack.mk (ReqTrack.Time m) (ReqTrack.Total m) (ReqTrack.Count m)
                         (ReqTrack.Fields m ++ [s]))).
  intros; reflexivity.
Qed.

Lemma ReqTrack_Size m bs :
  ReqTrack_wf m -> ReqTrack.MarshalTo m = Ok bs -> lenZ bs < 2 ^ 63 ->
  ReqTrack.Size m = lenZ bs.
Proof.
  intros (Ht & Hto & Hz & Hc) [= <-] Hl. unfold ReqTrack.Size.
  rewrite !lenZ_app in *.
  rewrite (size_varint_opt 8), (size_fixed64_opt 17), (size_varint_opt 24) by assumption.
  rewrite (size_strings_length 34); [lia|lia|].
  lenZ_pos. lia.
Qed.

Theorem ReqTrack_roundtrip m bs :
  ReqTrack_wf m -> ReqTrack.MarshalTo m = Ok bs -> lenZ bs < 2 ^ 63 ->
  ReqTrack.Marshal m = Ok bs /\ ReqTrack.Unmarshal ReqTrack.zero bs = Some (Ok m).
Proof.
  intros Hw Hm Hl. split.
  - unfold ReqTrack.Marshal. rewrite Hm. apply marshal_with_ok.
    apply ReqTrack_Size; assumption.
  - apply decodes_all; [assumption|]. apply ReqTrack_decodes; assumption.
Qed.

(** *** Sub-messages *)


Section Sub.
Context {M A : Type}.
Variable cases : Z -> Z -> Z -> list byte -> Z -> M -> option (result error (Z * M)).
Variable tag : Z.
Hypothesis Htag : 0 <= tag < 128.
Variable P : A -> Prop.
Variable size : A -> Z.
Variable marshalTo : A -> result error (list byte).
Variable unm : A -> list byte -> option (result error A).
Variable zero : A.
Hypothesis Hcodec : codec_ok P size marshalTo unm zero.

Lemma decodes_optional (sub : M -> A) (store : M -> A -> M) (o : option A) m part :
  (forall data i m,
      cases (wrap_i32 (Z.shiftr tag 3)) (Z.land tag 7) tag data i m
      = sub_message unm (sub m) (store m) data i) ->
  sub m = zero ->
  (forall x, o = Some x -> P x) ->
  put_optional tag size marshalTo o = Ok part ->
  decodes cases part m (match o with Some x => store m x | None => m end).
Proof.
  intros Hc Hsub HP Hp. destruct o as [x|]; cbn [put_optional] in Hp.
  - unfold put_message in Hp. destruct (marshalTo x) as [bs| |] eqn:Em; try discriminate.
    injection Hp as <-. intros pre rest Hl.
    assert (Hb : lenZ bs < 2 ^ 63).
    { rewrite !lenZ_app, lenZ_cons, lenZ_app in Hl. lenZ_pos. lia. }
    destruct (Hcodec x bs (HP x eq_refl) Em Hb) as [Hs Hu].
    rewrite Hs in *.
    apply (step_message cases tag unm sub store pre bs x rest m Htag Hc); [|assumption].
    rewrite Hsub. exact Hu.
  - injection Hp as <-. apply decodes_nil.
Qed.

Lemma size_optional_length (o : option A) part :
  (forall x, o = Some x -> P x) ->
  put_optional tag size marshalTo o = Ok part -> lenZ part < 2 ^ 63 ->
  size_optional size o = lenZ part.
Proof.
  intros HP Hp Hl. destruct o as [x|]; cbn [put_optional size_optional] in *.
  - unfold put_message in Hp. destruct (marshalTo x) as [bs| |] eqn:Em; try discriminate.
    injection Hp as <-. rewrite lenZ_cons, lenZ_app in *. lenZ_pos.
    destruct (Hcodec x bs (HP x eq_refl) Em ltac:(lia)) as [Hs _].
    cbv zeta. rewrite Hs in *.
    assert (2 ^ 63 < 2 ^ 64) by reflexivity.
    rewrite sovProtocol_length by lia. fold (lenZ (encodeVarintProtocol (lenZ bs))). lia.
  - injection Hp as <-. reflexivity.
Qed.

Lemma decodes_messages (store : M -> A -> M) :
  (forall data i m,
      cases (wrap_i32 (Z.shiftr tag 3)) (Z.land tag 7) tag data i m
      = sub_message unm zero (store m) data i) ->
  forall l m part,
  Forall P l ->
  put_messages tag size marshalTo l = Ok part ->
  decodes cases part m (fold_left store l m).
Proof.
  intros Hc. induction l as [|x l IH]; intros m part HP Hp; cbn [put_messages fold_left] in *.
  - injection Hp as <-. apply decodes_nil.
  - destruct (put_message tag (size x) (marshalTo x)) as [b1| |] eqn:E1; try discriminate.
    destruct (put_messages tag size marshalTo l) as [b2| |] eqn:E2; try discriminate.
    injection Hp as <-. inversion HP as [|? ? Hx Hl']; subst.
    apply decodes_app with (m1 := store m x); [|apply IH; auto].
    apply (decodes_optional (fun _ => zero) store (Some x) m b1 Hc eq_refl);
      [intros ? [= <-]; assumption | exact E1].
Qed.

Lemma sum_sizes_acc l : forall n part,
  Forall P l ->
  put_messages tag size marshalTo l = Ok part -> lenZ part < 2 ^ 63 ->
  fold_left (fun n e => let l := size e in n + (1 + l + sovProtocol l)) l n
  = n + lenZ part.
Proof.
  induction l as [|x l IH]; intros n part HP Hp Hl; cbn [put_messages fold_left] in *.
  - injection Hp as <-. rewrite lenZ_nil. lia.
  - destruct (put_message tag (size x) (marshalTo x)) as [b1| |] eqn:E1; try discriminate.
    destruct (put_messages tag size marshalTo l) as [b2| |] eqn:E2; try discriminate.
    injection Hp as <-. inversion HP as [|? ? Hx Hl']; subst.
    rewrite lenZ_app in *. lenZ_pos.
    rewrite (IH _ b2) by (auto; lia).
    pose proof (size_optional_length (Some x) b1) as Hs.
    cbn [put_optional size_optional] in Hs. cbv zeta in *.
    rewrite Hs; [lia | intros ? [= <-]; assumption | assumption | lia].
Qed.

Lemma sum_sizes_length l part :
  Forall P l ->
  put_messages tag size marshalTo l = Ok part -> lenZ part < 2 ^ 63 ->
  sum_sizes size l = lenZ part.
Proof. intros. unfold sum_sizes. erewrite sum_sizes_acc by eassumption. lia. Qed.

End Sub.

Lemma size_string_field_length tag s :
  lenZ (put_string_field tag s) < 2 ^ 63 ->
  size_string_field s = lenZ (put_string_field tag s).
Proof.
  unfold size_string_field, put_string_field. cbv zeta.
  destruct (len s >? 0); [|reflexivity].
  rewrite lenZ_cons, lenZ_app. intros Hl.
  pose proof (length_bytes_of_string s) as E. fold (lenZ (bytes_of_string s)) in E.
  lenZ_pos. assert (2 ^ 63 < 2 ^ 64) by reflexivity.
  rewrite sovProtocol_length by lia. fold (lenZ (encodeVarintProtocol (len s))). lia.
Qed.

Lemma seq_parts4 a r2 r3 r4 bs :
  seq_parts [Ok a; r2; r3; r4] = Ok bs ->
  exists b c d, r2 = Ok b /\ r3 = Ok c /\ r4 = Ok d /\ bs = a ++ b ++ c ++ d.
Proof.
  cbn [seq_parts]. destruct r2 as [b| |]; try discriminate.
  destruct r3 as [c| |]; try discriminate. destruct r4 as [d| |]; try discriminate.
  intros [= <-]. exists b, c, d. rewrite app_nil_r. auto.
Qed.

Lemma seq_parts2 a r2 bs :
  seq_parts [Ok a; r2] = Ok bs -> exists b, r2 = Ok b /\ bs = a ++ b.
Proof.
  cbn [seq_parts]. destruct r2 as [b| |]; try discriminate.
  intros [= <-]. exists b. rewrite app_nil_r. auto.
Qed.

(** ** The empty messages *)

Lemma Empty_codec : codec_ok (fun _ => True) Empty.Size Empty.MarshalTo Empty.Unmarshal Empty.zero.
Proof.
  intros [] bs _ [= <-] _. split; reflexivity.
Qed.

(** ** ReqTrack, ReqFetch *)

Lemma ReqTrack_codec :
  codec_ok ReqTrack_wf ReqTrack.Size ReqTrack.MarshalTo ReqTrack.Unmarshal ReqTrack.zero.
Proof.
  intros x bs Hw Hm Hl. split; [apply ReqTrack_Size; assumption|].
  apply (ReqTrack_roundtrip x bs Hw Hm Hl).
Qed.

Lemma ReqFetch_fields Fr To l : forall f0,
  fold_left (fun m s => ReqFetch.mk (ReqFetch.From m) (ReqFetch.To m) (ReqFetch.Fields m ++ [s]))
            l (ReqFetch.mk Fr To f0)
  = ReqFetch.mk Fr To (f0 ++ l).
Proof.
  induction l as [|s l IH]; intros f0; cbn [fold_left].
  - rewrite app_nil_r. reflexivity.
  - cbn [ReqFetch.From ReqFetch.To ReqFetch.Fields]. rewrite IH, <- app_assoc. reflexivity.
Qed.

Lemma ReqFetch_codec :
  codec_ok ReqFetch_wf ReqFetch.Size ReqFetch.MarshalTo ReqFetch.Unmarshal ReqFetch.zero.
Proof.
  intros m bs (Hf & Ht) [= <-] Hl. split.
  - unfold ReqFetch.Size. rewrite !lenZ_app in *.
    rewrite (size_varint_opt 8), (size_varint_opt 16) by assumption.
    lenZ_pos. rewrite (size_strings_length 26); lia.
  - apply decodes_all; [assumption|].
    destruct m as [Fr To F]. cbn [ReqFetch.From ReqFetch.To ReqFetch.Fields] in *.
    apply decodes_app with (m1 := ReqFetch.mk Fr 0 []).
    { apply (decodes_varint ReqFetch.cases 8 ltac:(lia)
               (fun v m => ReqFetch.mk v (ReqFetch.To m) (ReqFetch.Fields m)));
        [intros; reflexivity | assumption | intros ->; reflexivity]. }
    apply decodes_app with (m1 := ReqFetch.mk Fr To []).
    { apply (decodes_varint ReqFetch.cases 16 ltac:(lia)
               (fun v m => ReqFetch.mk (ReqFetch.From m) v (ReqFetch.Fields m)));
        [intros; reflexivity | assumption | intros ->; reflexivity]. }
    pose proof (ReqFetch_fields Fr To F []) as E. cbn [app] in E. rewrite <- E.
    apply (decodes_strings ReqFetch.cases 26 ltac:(lia)
             (fun s m => ReqFetch.mk (ReqFetch.From m) (ReqFetch.To m) (ReqFetch.Fields m ++ [s]))).
    intros; reflexivity.
Qed.

(** ** Request *)


Lemma Request_codec :
  codec_ok Request_wf Request.Size Request.MarshalTo Request.Unmarshal Request.zero.
Proof.
  intros m bs (Ht & Hf) Hm Hl. unfold Request.MarshalTo in Hm.
  apply seq_parts4 in Hm as (b & c & d & Hb & Hc & Hd & ->).
  rewrite !lenZ_app in Hl. lenZ_pos. split.
  - unfold Request.Size. rewrite !lenZ_app.
    rewrite (size_string_field_length 10) by lia.
    rewrite (size_optional_length 18 ReqTrack_wf _ _ _ _ ReqTrack_codec _ b Ht Hb) by lia.
    rewrite (size_optional_length 26 ReqFetch_wf _ _ _ _ ReqFetch_codec _ c Hf Hc) by lia.
    rewrite (size_optional_length 34 (fun _ => True) _ _ _ _ Empty_codec _ d) by (auto; lia).
    lia.
  - apply decodes_all; [rewrite !lenZ_app; lia|].
    destruct m as [D T F S]. cbn [Request.Database Request.Track Request.Fetch Request.Sync] in *.
    apply decodes_app with (m1 := Request.mk D None None None).
    { apply (decodes_string_field Request.cases 10 ltac:(lia)
               (fun s m => Request.mk s (Request.Track m) (Request.Fetch m) (Request.Sync m)));
        [intros; reflexivity | intros ->; reflexivity]. }
    apply decodes_app with (m1 := Request.mk D T None None).
    { pose proof (decodes_optional Request.cases 18 ltac:(lia) ReqTrack_wf _ _ _ _ ReqTrack_codec
                    (fun m => default ReqTrack.zero (Request.Track m))
                    (fun m x => Request.mk (Request.Database m) (Some x) (Request.Fetch m) (Request.Sync m))
                    T (Request.mk D None None None) b) as Hd1.
      destruct T; apply Hd1; auto; intros; reflexivity. }
    apply decodes_app with (m1 := Request.mk D T F None).
    { pose proof (decodes_optional Request.cases 26 ltac:(lia) ReqFetch_wf _ _ _ _ ReqFetch_codec
                    (fun m => default ReqFetch.zero (Request.Fetch m))
                    (fun m x => Request.mk (Request.Database m) (Request.Track m) (Some x) (Request.Sync m))
                    F (Request.mk D T None None) c) as Hd1.
      destruct F; apply Hd1; auto; intros; reflexivity. }
    { pose proof (decodes_optional Request.cases 34 ltac:(lia) (fun _ => True) _ _ _ _ Empty_codec
                    (fun m => default ReqSync.zero (Request.Sync m))
                    (fun m x => Request.mk (Request.Database m) (Request.Track m) (Request.Fetch m) (Some x))
                    S (Request.mk D T F None) d) as Hd1.
      destruct S; apply Hd1; auto; intros; reflexivity. }
Qed.

Lemma size_id_opt tag v :
  (if negb (v =? 0) then 1 + sovProtocol (wrap_u64 v) else 0)
  = lenZ (if negb (v =? 0) then tag :: encodeVarintProtocol (wrap_u64 v) else []).
Proof.
  destruct (negb (v =? 0)); [|reflexivity].
  rewrite lenZ_cons, sovProtocol_length; [reflexivity|].
  unfold wrap_u64. apply Z.mod_pos_bound. reflexivity.
Qed.

(** ** RequestBatch *)


Lemma RequestBatch_batch I l : forall b0,
  fold_left (fun m x => RequestBatch.mk (RequestBatch.Id m) (RequestBatch.Batch m ++ [x]))
            l (RequestBatch.mk I b0)
  = RequestBatch.mk I (b0 ++ l).
Proof.
  induction l as [|s l IH]; intros b0; cbn [fold_left].
  - rewrite app_nil_r. reflexivity.
  - cbn [RequestBatch.Id RequestBatch.Batch]. rewrite IH, <- app_assoc. reflexivity.
Qed.

Lemma RequestBatch_codec :
  codec_ok RequestBatch_wf RequestBatch.Size RequestBatch.MarshalTo
    RequestBatch.Unmarshal RequestBatch.zero.
Proof.
  intros m bs (Hi & Hb) Hm Hl. unfold RequestBatch.MarshalTo in Hm.
  apply seq_parts2 in Hm as (b & Hpb & ->).
  rewrite !lenZ_app in Hl. lenZ_pos. split.
  - unfold RequestBatch.Size. rewrite !lenZ_app, (size_id_opt 8).
    rewrite (sum_sizes_length 18 Request_wf _ _ _ _ Request_codec _ b Hb Hpb) by lia.
    reflexivity.
  - apply decodes_all; [rewrite !lenZ_app; lia|].
    destruct m as [I B]. cbn [RequestBatch.Id RequestBatch.Batch] in *.
    apply decodes_app with (m1 := RequestBatch.mk I []).
    { apply (decodes_varint_i64 RequestBatch.cases 8 ltac:(lia)
               (fun v m => RequestBatch.mk v (RequestBatch.Batch m)));
        [intros; reflexivity | assumption | intros ->; reflexivity]. }
    pose proof (RequestBatch_batch I B []) as E. cbn [app] in E. rewrite <- E.
    apply (decodes_messages RequestBatch.cases 18 ltac:(lia) Request_wf _ _ _ _ Request_codec
             (fun m x => RequestBatch.mk (RequestBatch.Id m) (RequestBatch.Batch m ++ [x])));
      [intros; reflexivity | assumption | assumption].
Qed.

(** ** Messages with chunks *)


Section WithChunks.
Context `{ChunkLaws}.


Lemma ResFetch_chunks l : forall b0,
  fold_left (fun (m : ResFetch.t) x => ResFetch.mk _ (ResFetch.Chunks m ++ [x]))
            l (ResFetch.mk _ b0)
  = ResFetch.mk _ (b0 ++ l).
Proof.
  induction l as [|s l IH]; intros b0; cbn [fold_left].
  - rewrite app_nil_r. reflexivity.
  - cbn [ResFetch.Chunks]. rewrite IH, <- app_assoc. reflexivity.
Qed.

Lemma ResFetch_codec :
  codec_ok ResFetch_wf ResFetch.Size ResFetch.MarshalTo ResFetch.Unmarshal ResFetch.zero.
Proof.
  intros m bs Hw Hm Hl. unfold ResFetch.MarshalTo in Hm. split.
  - unfold ResFetch.Size.
    apply (sum_sizes_length 10 Chunk_wf _ _ _ _ Chunk_codec _ bs Hw Hm Hl).
  - apply decodes_all; [assumption|].
    destruct m as [C]. cbn [ResFetch.Chunks] in *.
    pose proof (ResFetch_chunks C []) as E. cbn [app] in E. rewrite <- E.
    apply (decodes_messages ResFetch.cases 10 ltac:(lia) Chunk_wf _ _ _ _ Chunk_codec
             (fun (m : ResFetch.t) x => ResFetch.mk _ (ResFetch.Chunks m ++ [x])));
      [intros; reflexivity | assumption | assumption].
Qed.


Lemma Response_codec :
  codec_ok Response_wf Response.Size Response.MarshalTo Response.Unmarshal Response.zero.
Proof.
  intros m bs Hf Hm Hl. unfold Response.MarshalTo in Hm.
  apply seq_parts4 in Hm as (b & c & d & Hb & Hc & Hd & ->).
  rewrite !lenZ_app in Hl. lenZ_pos. split.
  - unfold Response.Size. rewrite !lenZ_app.
    rewrite (size_string_field_length 10) by lia.
    rewrite (size_optional_length 18 (fun _ => True) _ _ _ _ Empty_codec _ b) by (auto; lia).
    rewrite (size_optional_length 26 ResFetch_wf _ _ _ _ ResFetch_codec _ c Hf Hc) by lia.
    rewrite (size_optional_length 34 (fun _ => True) _ _ _ _ Empty_codec _ d) by (auto; lia).
    lia.
  - apply decodes_all; [rewrite !lenZ_app; lia|].
    destruct m as [D T F S]. cbn [Response.Error Response.Track Response.Fetch Response.Sync] in *.
    apply decodes_app with (m1 := Response.mk _ D None None None).
    { apply (decodes_string_field Response.cases 10 ltac:(lia)
               (fun s (m : Response.t) =>
                  Response.mk _ s (Response.Track m) (Response.Fetch m) (Response.Sync m)));
        [intros; reflexivity | intros ->; reflexivity]. }
    apply decodes_app with (m1 := Response.mk _ D T None None).
    { pose proof (decodes_optional Response.cases 18 ltac:(lia) (fun _ => True) _ _ _ _ Empty_codec
                    (fun m => default ResTrack.zero (Response.Track m))
                    (fun (m : Response.t) x =>
                       Response.mk _ (Response.Error m) (Some x) (Response.Fetch m) (Response.Sync m))
                    T (Response.mk _ D None None None) b) as Hd1.
      destruct T; apply Hd1; auto; intros; reflexivity. }
    apply decodes_app with (m1 := Response.mk _ D T F None).
    { pose proof (decodes_optional Response.cases 26 ltac:(lia) ResFetch_wf _ _ _ _ ResFetch_codec
                    (fun m => default ResFetch.zero (Response.Fetch m))
                    (fun (m : Response.t) x =>
                       Response.mk _ (Response.Error m) (Response.Track m) (Some x) (Response.Sync m))
                    F (Response.mk _ D T None None) c) as Hd1.
      destruct F; apply Hd1; auto; intros; reflexivity. }
    { pose proof (decodes_optional Response.cases 34 ltac:(lia) (fun _ => True) _ _ _ _ Empty_codec
                    (fun m => default ResSync.zero (Response.Sync m))
                    (fun (m : Response.t) x =>
                       Response.mk _ (Response.Error m) (Response.Track m) (Response.Fetch m) (Some x))
                    S (Response.mk _ D T F None) d) as Hd1.
      destruct S; apply Hd1; auto; intros; reflexivity. }
Qed.


Lemma ResponseBatch_batch I l : forall b0,
  fold_left (fun (m : ResponseBatch.t) x =>
               ResponseBatch.mk _ (ResponseBatch.Id m) (ResponseBatch.Batch m ++ [x]))
            l (ResponseBatch.mk _ I b0)
  = ResponseBatch.mk _ I (b0 ++ l).
Proof.
  induction l as [|s l IH]; intros b0; cbn [fold_left].
  - rewrite app_nil_r. reflexivity.
  - cbn [ResponseBatch.Id ResponseBatch.Batch]. rewrite IH, <- app_assoc. reflexivity.
Qed.

Lemma ResponseBatch_codec :
  codec_ok ResponseBatch_wf ResponseBatch.Size ResponseBatch.MarshalTo
    ResponseBatch.Unmarshal ResponseBatch.zero.
Proof.
  intros m bs (Hi & Hb) Hm Hl. unfold ResponseBatch.MarshalTo in Hm.
  apply seq_parts2 in Hm as (b & Hpb & ->).
  rewrite !lenZ_app in Hl. lenZ_pos. split.
  - unfold ResponseBatch.Size. rewrite !lenZ_app, (size_id_opt 8).
    rewrite (sum_sizes_length 18 Response_wf _ _ _ _ Response_codec _ b Hb Hpb) by lia.
    reflexivity.
  - apply decodes_all; [rewrite !lenZ_app; lia|].
    destruct m as [I B]. cbn [ResponseBatch.Id ResponseBatch.Batch] in *.
    apply decodes_app with (m1 := ResponseBatch.mk _ I []).
    { apply (decodes_varint_i64 ResponseBatch.cases 8 ltac:(lia)
               (fun v (m : ResponseBatch.t) => ResponseBatch.mk _ v (ResponseBatch.Batch m)));
        [intros; reflexivity | assumption | intros ->; reflexivity]. }
    pose proof (ResponseBatch_batch I B []) as E. cbn [app] in E. rewrite <- E.
    apply (decodes_messages ResponseBatch.cases 18 ltac:(lia) Response_wf _ _ _ _ Response_codec
             (fun (m : ResponseBatch.t) x =>
                ResponseBatch.mk _ (ResponseBatch.Id m) (ResponseBatch.Batch m ++ [x])));
      [intros; reflexivity | assumption | assumption].
Qed.

End WithChunks.

(** ** The item of the index *)

Lemma Item_fields V l : forall f0,
  fold_left (fun m s => Index.mkItem (Index.Fields m ++ [s]) (Index.Value m))
            l (Index.mkItem f0 V)
  = Index.mkItem (f0 ++ l) V.
Proof.
  induction l as [|s l IH]; intros f0; cbn [fold_left].
  - rewrite app_nil_r. reflexivity.
  - cbn [Index.Fields Index.Value]. rewrite IH, <- app_assoc. reflexivity.
Qed.

Lemma Item_roundtrip (it : Index.Item) bs :
  0 <= Index.Value it < 2 ^ 32 ->
  ItemProto.MarshalTo it = Ok bs -> lenZ bs < 2 ^ 63 ->
  ItemProto.Unmarshal (Index.mkItem [] 0) bs = Some (Ok it).
Proof.
  intros Hv [= <-] Hl. apply decodes_all; [assumption|].
  destruct it as [F V]. cbn [Index.Fields Index.Value] in *.
  apply decodes_app with (m1 := Index.mkItem F 0).
  { pose proof (Item_fields 0 F []) as E. cbn [app] in E. rewrite <- E.
    apply (decodes_strings ItemProto.cases 10 ltac:(lia)
             (fun s m => Index.mkItem (Index.Fields m ++ [s]) (Index.Value m))).
    intros; reflexivity. }
  replace (Index.mkItem F V) with
    ((fun v m => Index.mkItem (Index.Fields m) (wrap_u32 v)) V (Index.mkItem F 0)).
  2:{ cbn [Index.Fields]. rewrite wrap_u32_id by assumption. reflexivity. }
  apply (decodes_varint ItemProto.cases 16 ltac:(lia)
           (fun v m => Index.mkItem (Index.Fields m) (wrap_u32 v))).
  - intros; reflexivity.
  - assert (2 ^ 32 < 2 ^ 64) by reflexivity. lia.
  - intros ->. reflexivity.
Qed.

(** *** The round trip *)

Lemma codec_roundtrips {A} (P : A -> Prop) size marshalTo unm (zero : A) :
  codec_ok P size marshalTo unm zero ->
  marshal_with (size zero) (marshalTo zero) = Ok [] ->
  roundtrips P marshalTo (fun m => marshal_with (size m) (marshalTo m)) unm zero.
Proof.
  intros Hc Hz. split; [|exact Hz].
  intros m bs Hp Hm Hl. destruct (Hc m bs Hp Hm Hl) as [Hs Hu].
  rewrite Hm. split; [apply marshal_with_ok; assumption | assumption].
Qed.

(** C9.  For every message type of the protocol: a message whose fields
    hold values of their Go types and in which no [float64] is the negative
    zero is marshalled to bytes that unmarshal, into a fresh message, to the
    message itself; and the fresh message is marshalled to no byte.  (The
    encodings are shorter than [2^63] bytes, as every Go slice is; the codec
    of the chunks is assumed exact.) *)
Theorem wire_codec_roundtrip `{ChunkLaws} :
  roundtrips ReqTrack_wf ReqTrack.MarshalTo ReqTrack.Marshal ReqTrack.Unmarshal
    ReqTrack.zero
  /\ roundtrips (fun _ => True) Empty.MarshalTo Empty.Marshal Empty.Unmarshal Empty.zero
  /\ roundtrips ReqFetch_wf ReqFetch.MarshalTo ReqFetch.Marshal ReqFetch.Unmarshal
       ReqFetch.zero
  /\ roundtrips ResFetch_wf ResFetch.MarshalTo ResFetch.Marshal ResFetch.Unmarshal
       ResFetch.zero
  /\ roundtrips Request_wf Request.MarshalTo Request.Marshal Request.Unmarshal
       Request.zero
  /\ roundtrips Response_wf Response.MarshalTo Response.Marshal Response.Unmarshal
       Response.zero
  /\ roundtrips RequestBatch_wf RequestBatch.MarshalTo RequestBatch.Marshal
       RequestBatch.Unmarshal RequestBatch.zero
  /\ roundtrips ResponseBatch_wf ResponseBatch.MarshalTo ResponseBatch.Marshal
       ResponseBatch.Unmarshal ResponseBatch.zero.
Proof.
  split; [apply (codec_roundtrips _ _ _ _ _ ReqTrack_codec); reflexivity|].
  split; [apply (codec_roundtrips _ _ _ _ _ Empty_codec); reflexivity|].
  split; [apply (codec_roundtrips _ _ _ _ _ ReqFetch_codec); reflexivity|].
  split; [apply (codec_roundtrips _ _ _ _ _ ResFetch_codec); reflexivity|].
  split; [apply (codec_roundtrips _ _ _ _ _ Request_codec); reflexivity|].
  split; [apply (codec_roundtrips _ _ _ _ _ Response_codec); reflexivity|].
  split; [apply (codec_roundtrips _ _ _ _ _ RequestBatch_codec); reflexivity|].
  apply (codec_roundtrips _ _ _ _ _ ResponseBatch_codec); reflexivity.
Qed.

(** The chunks of the examples are exact. *)
Lemma chunk_bytes_codec :
  codec_ok (fun _ : Chunk (ChunkCodec := Samples.chunk_bytes) => True)
    Chunk_Size Chunk_MarshalTo Chunk_Unmarshal Chunk_zero.
Proof.
  intros c bs _ E _. change (@Ok error (list byte) c = Ok bs) in E. injection E as <-.
  split; reflexivity.
Qed.

#[local] Instance chunk_bytes_laws : ChunkLaws (H := Samples.chunk_bytes) := {|
  Chunk_wf := fun _ => True;
  Chunk_codec := chunk_bytes_codec |}.

(** The batch of scenario S5 goes through the codec. *)
Lemma wire_codec_roundtrip_witness :
  RequestBatch_wf Samples.batch42
  /\ exists bs, RequestBatch.MarshalTo Samples.batch42 = Ok bs
       /\ lenZ bs < 2 ^ 63
       /\ RequestBatch.Marshal Samples.batch42 = Ok bs
       /\ RequestBatch.Unmarshal RequestBatch.zero bs = Some (Ok Samples.batch42).
Proof.
  assert (Hw : RequestBatch_wf Samples.batch42).
  { split; [vm_compute; split; discriminate|].
    constructor; [|constructor]. split; [intros ? [=]|].
    intros x [= <-]. vm_compute. repeat split; discriminate. }
  split; [exact Hw|].
  exists [8; 42; 18; 15; 10; 2; 100; 98; 26; 9; 16; 128; 200; 175; 160; 37; 26; 1; 97].
  assert (Hm : RequestBatch.MarshalTo Samples.batch42
               = Ok [8; 42; 18; 15; 10; 2; 100; 98; 26; 9; 16; 128; 200; 175; 160;
                     37; 26; 1; 97]) by (vm_compute; reflexivity).
  assert (Hl : lenZ [8; 42; 18; 15; 10; 2; 100; 98; 26; 9; 16; 128; 200; 175; 160;
                     37; 26; 1; 97] < 2 ^ 63) by reflexivity.
  split; [exact Hm|]. split; [exact Hl|].
  exact (proj1 (proj1 (proj2 (proj2 (proj2 (proj2 (proj2 (proj2
           (wire_codec_roundtrip (H0 := chunk_bytes_laws)))))))))
           Samples.batch42 _ Hw Hm Hl).
Defined.

(** A [ReqTrack] whose [Total] is the negative zero is marshalled to no byte,
    like the fresh message, and unmarshals to the fresh message, whose
    [Total] is the positive zero. *)
Lemma ReqTrack_negative_zero_not_restored :
  let m := ReqTrack.mk 0 (2 ^ 63) 0 [] in
  u64 (ReqTrack.Time m) /\ u64 (ReqTrack.Total m) /\ u64 (ReqTrack.Count m)
  /\ ReqTrack.Marshal m = Ok []
  /\ ReqTrack.Unmarshal ReqTrack.zero [] = Some (Ok ReqTrack.zero)
  /\ ReqTrack.zero <> m.
Proof.
  cbv zeta. repeat split; try discriminate; try reflexivity.
Qed.

End ServerSpec.

(** ** The append log of the index *)

Module IndexLogSpec.

Import Index IndexSpec.
Local Open Scope Z_scope.

(** *** Reading and writing the file *)


Lemma le32_roundtrip n : 0 <= n < 2 ^ 32 -> le32_decode (le32 n) = n.
Proof.
  intros Hn. unfold le32, le32_decode.
  change 255 with (Z.ones 8). rewrite !Z.land_ones by lia.
  rewrite !Z.shiftr_div_pow2 by lia.
  pose proof (Z.mod_pos_bound n (2 ^ 8) ltac:(lia)) as B0.
  pose proof (Z.mod_pos_bound (n / 2 ^ 8) (2 ^ 8) ltac:(lia)) as B1.
  pose proof (Z.mod_pos_bound (n / 2 ^ 16) (2 ^ 8) ltac:(lia)) as B2.
  pose proof (Z.mod_pos_bound (n / 2 ^ 24) (2 ^ 8) ltac:(lia)) as B3.
  assert (E : n mod 2 ^ 8 + (n / 2 ^ 8) mod 2 ^ 8 * 2 ^ 8
              + ((n / 2 ^ 16) mod 2 ^ 8 * 2 ^ 8 + (n / 2 ^ 24) mod 2 ^ 8 * 2 ^ 16) * 2 ^ 8 = n).
  { change (2 ^ 32) with 4294967296 in Hn.
    change (2 ^ 8) with 256. change (2 ^ 16) with 65536. change (2 ^ 24) with 16777216.
    Z.div_mod_to_equations. lia. }
  set (b0 := n mod 2 ^ 8) in *. set (b1 := (n / 2 ^ 8) mod 2 ^ 8) in *.
  set (b2 := (n / 2 ^ 16) mod 2 ^ 8) in *. set (b3 := (n / 2 ^ 24) mod 2 ^ 8) in *.
  clearbody b0 b1 b2 b3.
  assert (P8 : 2 ^ 8 = 256) by reflexivity. assert (P16 : 2 ^ 16 = 65536) by reflexivity.
  assert (P24 : 2 ^ 24 = 16777216) by reflexivity.
  rewrite (ServerSpec.lor_shiftl_add (b2 ≪ 16) b3 24).
  2: lia.
  2:{ rewrite Z.shiftl_mul_pow2 by lia. lia. }
  rewrite (Z.shiftl_mul_pow2 b2 16) by lia.
  replace (b2 * 2 ^ 16 + b3 * 2 ^ 24) with ((b2 + b3 * 2 ^ 8) * 2 ^ 16) by lia.
  rewrite <- (Z.shiftl_mul_pow2 _ 16) by lia.
  rewrite (ServerSpec.lor_shiftl_add (b1 ≪ 8) _ 16).
  2: lia.
  2:{ rewrite Z.shiftl_mul_pow2 by lia. lia. }
  rewrite (Z.shiftl_mul_pow2 b1 8) by lia.
  replace (b1 * 2 ^ 8 + (b2 + b3 * 2 ^ 8) * 2 ^ 16)
    with ((b1 + b2 * 2 ^ 8 + b3 * 2 ^ 16) * 2 ^ 8) by lia.
  rewrite <- (Z.shiftl_mul_pow2 _ 8) by lia.
  rewrite (ServerSpec.lor_shiftl_add b0 _ 8) by lia.
  lia.
Qed.

Lemma Map_Read_at m pre mid rest :
  data m = pre ++ mid ++ rest -> off m = length pre -> (0 < length mid)%nat ->
  Map_Read (length mid) m = (mkMap (data m) (off m + length mid) (limit m), mid, None).
Proof.
  intros Hd Ho Hm. unfold Map_Read. rewrite Hd, Ho, !length_app.
  replace (length pre + (length mid + length rest) - length pre)%nat
    with (length mid + length rest)%nat by lia.
  destruct (Nat.ltb_spec 0 (length mid)) as [_|?]; [|lia].
  destruct (Nat.eqb_spec (length mid + length rest) 0) as [?|_]; [lia|].
  cbn [andb]. rewrite Nat.min_l by lia.
  rewrite drop_app_length, take_app_length. reflexivity.
Qed.

Lemma Map_Read_eof m n :
  off m = length (data m) -> (0 < n)%nat -> Map_Read n m = (m, [], Some ErrEOF).
Proof.
  intros Ho Hn. unfold Map_Read. rewrite Ho, Nat.sub_diag.
  destruct (Nat.ltb_spec 0 n) as [_|?]; [|lia]. reflexivity.
Qed.

Lemma lenZ_le32 n : length (le32 n) = 4%nat.
Proof. reflexivity. Qed.

Lemma add_allocating nd idx : allocating (fst (add nd idx)) = allocating idx.
Proof.
  unfold add. destruct (Fields (item nd)); [reflexivity|].
  destruct (add_walk _ _ _ _). reflexivity.
Qed.

Section Load.
Context `{ItemCodec}.

Lemma log_of_app its1 its2 : log_of (its1 ++ its2) = log_of its1 ++ log_of its2.
Proof.
  induction its1 as [|it its1 IH]; cbn [log_of app]; [reflexivity|].
  rewrite IH, <- app_assoc. reflexivity.
Qed.

Lemma trie_of_app its1 its2 root :
  trie_of (its1 ++ its2) root = trie_of its2 (trie_of its1 root).
Proof. unfold trie_of. apply fold_left_app. Qed.

Lemma add_ok it idx :
  Fields it <> [] ->
  exists idx', add (Node it []) idx = (idx', Ok tt)
    /\ rootNode idx' = fst (add_walk (Node it []) 0 (Fields it) (rootNode idx))
    /\ mmapFile idx' = mmapFile idx /\ dataSize idx' = dataSize idx
    /\ ROnly idx' = ROnly idx.
Proof.
  intros Hf. unfold add. cbn [item].
  destruct (Fields it) as [|f fs] eqn:E; [contradiction|].
  destruct (add_walk _ _ _ _) as [root' created]. eexists. split; [reflexivity|].
  cbn. auto.
Qed.

Lemma load_loop_replays its : forall fuel idx its0 tail,
  Forall item_ok its ->
  data (mmapFile idx) = log_of its0 ++ log_of its ++ tail ->
  ends_log tail ->
  off (mmapFile idx) = length (log_of its0) ->
  dataSize idx = lenZ (log_of its0) ->
  lenZ (data (mmapFile idx)) < 2 ^ 32 ->
  (length its < fuel)%nat ->
  exists idx',
    load_loop fuel (lenZ (data (mmapFile idx))) idx = Some (idx', Ok tt)
    /\ rootNode idx' = trie_of its (rootNode idx)
    /\ dataSize idx' = lenZ (log_of (its0 ++ its))
    /\ data (mmapFile idx') = data (mmapFile idx)
    /\ off (mmapFile idx') = (length (log_of (its0 ++ its)) + gap tail)%nat
    /\ limit (mmapFile idx') = limit (mmapFile idx)
    /\ ROnly idx' = ROnly idx /\ allocating idx' = allocating idx.
Proof.
  induction its as [|it its IH]; intros fuel idx its0 tail Hok Hd Htl Ho Hds Hsz Hfuel.
  - destruct fuel as [|fuel]; [cbn in Hfuel; lia|].
    cbn [log_of app] in Hd. rewrite app_nil_r. cbn [load_loop trie_of fold_left].
    unfold binary_Read_u32.
    destruct Htl as [->|[rest ->]].
    + rewrite app_nil_r in Hd.
      rewrite Map_Read_eof by (rewrite ?Hd; auto; lia).
      eexists. split; [reflexivity|].
      cbn [set_mmap rootNode dataSize mmapFile ROnly allocating gap].
      rewrite Nat.add_0_r. auto 10.
    + pose proof (Map_Read_at (mmapFile idx) (log_of its0) [0; 0; 0; 0] rest
                    Hd Ho ltac:(cbn [length]; lia)) as R.
      cbn [length] in R. rewrite R.
      cbn [length Nat.eqb le32_decode]. cbn [Z.shiftl Z.lor Z.eqb].
      eexists. split; [reflexivity|].
      cbn [set_mmap rootNode dataSize mmapFile ROnly allocating gap data off limit].
      rewrite Ho. auto 10.
  - destruct fuel as [|fuel]; [cbn in Hfuel; lia|].
    inversion Hok as [|? ? Hit Hok']; subst.
    destruct Hit as (Hf & Hv & bs & Hm & Hne & Hu).
    cbn [log_of] in Hd. rewrite Hm in Hd.
    change (default [] (record <$> Some bs)) with (record bs) in Hd.
    unfold record in Hd. rewrite <- !app_assoc in Hd.
    assert (Hlen : 4 + lenZ bs <= lenZ (data (mmapFile idx)) - lenZ (log_of its0)).
    { rewrite Hd. unfold lenZ. rewrite !length_app, lenZ_le32. lia. }
    assert (Hbs : 0 < lenZ bs < 2 ^ 32).
    { unfold lenZ in *. destruct bs; [contradiction|]. cbn [length] in *. lia. }
    cbn [load_loop]. unfold binary_Read_u32.
    pose proof (Map_Read_at (mmapFile idx) (log_of its0) (le32 (lenZ bs))
                  (bs ++ log_of its ++ tail) Hd Ho ltac:(rewrite lenZ_le32; lia)) as R1.
    rewrite lenZ_le32 in R1. rewrite R1.
    cbn [length Nat.eqb]. rewrite lenZ_le32. cbn [Nat.eqb].
    rewrite le32_roundtrip by lia.
    destruct (Z.eqb_spec (lenZ bs) 0) as [?|_]; [lia|].
    cbn [set_mmap dataSize mmapFile]. rewrite Hds.
    rewrite wrap_u32_id by (unfold lenZ in *; lia).
    destruct (Z.geb_spec (lenZ bs) (lenZ (data (mmapFile idx)) - lenZ (log_of its0)))
      as [?|_]; [lia|].
    set (m1 := mkMap (data (mmapFile idx)) (off (mmapFile idx) + 4) (limit (mmapFile idx))).
    assert (Hd1 : data m1 = (log_of its0 ++ le32 (lenZ bs)) ++ bs ++ log_of its ++ tail).
    { unfold m1. cbn [data]. rewrite Hd, <- app_assoc. reflexivity. }
    assert (Ho1 : off m1 = length (log_of its0 ++ le32 (lenZ bs))).
    { unfold m1. cbn [off]. rewrite length_app, lenZ_le32. lia. }
    pose proof (Map_Read_at m1 _ bs (log_of its ++ tail) Hd1 Ho1
                  ltac:(unfold lenZ in Hbs; lia)) as R2.
    replace (Z.to_nat (lenZ bs)) with (length bs) by (unfold lenZ; lia).
    rewrite R2. fold (lenZ bs).
    rewrite wrap_u32_id by lia. rewrite Z.eqb_refl. cbn [negb].
    rewrite Hu.
    match goal with |- context [add (Node it []) ?i] => set (idx2 := i) end.
    pose proof (add_allocating (Node it []) idx2) as Hal3.
    destruct (add_ok it idx2 Hf) as (idx3 & Ha & Hr3 & Hm3 & Hd3 & Hro3).
    rewrite Ha in Hal3 |- *. cbn [fst] in Hal3.
    set (idx4 := set_dataSize _ idx3).
    assert (Hsame : data (mmapFile idx4) = data (mmapFile idx)).
    { unfold idx4. cbn [set_dataSize mmapFile]. rewrite Hm3. reflexivity. }
    assert (Hlim : limit (mmapFile idx4) = limit (mmapFile idx)).
    { unfold idx4. cbn [set_dataSize mmapFile]. rewrite Hm3. reflexivity. }
    destruct (IH fuel idx4 (its0 ++ [it]) tail Hok')
      as (idx' & Hl & Hr' & Hds' & Hdata' & Hoff' & Hlim' & Hro' & Hal').
    + rewrite Hsame, Hd, log_of_app. cbn [log_of]. rewrite Hm.
      change (default [] (record <$> Some bs)) with (record bs). unfold record.
      rewrite app_nil_r, <- !app_assoc. reflexivity.
    + assumption.
    + unfold idx4. cbn [set_dataSize mmapFile]. rewrite Hm3. unfold idx2. cbn [set_mmap mmapFile off].
      rewrite log_of_app, length_app. cbn [log_of]. rewrite Hm.
      change (default [] (record <$> Some bs)) with (record bs). unfold record.
      rewrite app_nil_r, length_app, lenZ_le32. unfold m1. cbn [off]. lia.
    + unfold idx4. cbn [set_dataSize dataSize]. rewrite Hd3. unfold idx2. cbn [set_mmap dataSize].
      rewrite Hds. unfold ItemHeaderSize.
      rewrite log_of_app. cbn [log_of]. rewrite Hm.
      change (default [] (record <$> Some bs)) with (record bs). unfold record.
      rewrite app_nil_r. unfold lenZ in *. rewrite !length_app, lenZ_le32.
      rewrite wrap_i64_id; [lia|]. unfold in_i64, min_i64, max_i64.
      assert (2 ^ 32 < 2 ^ 63) by reflexivity. lia.
    + rewrite Hsame. assumption.
    + cbn [length] in Hfuel. lia.
    + rewrite Hsame in Hl. exists idx'. split; [exact Hl|].
      split.
      { rewrite Hr'. unfold idx4. cbn [set_dataSize rootNode]. rewrite Hr3.
        unfold idx2. cbn [set_mmap rootNode]. reflexivity. }
      split; [rewrite Hds', <- app_assoc; reflexivity|].
      split; [congruence|].
      split; [rewrite Hoff', <- app_assoc; reflexivity|].
      split; [congruence|].
      split.
      { rewrite Hro'. unfold idx4. cbn [set_dataSize ROnly]. rewrite Hro3. reflexivity. }
      rewrite Hal'. unfold idx4. cbn [set_dataSize allocating]. rewrite Hal3. reflexivity.
Qed.

Lemma load_loop_log its : forall fuel idx its0 tail,
  Forall item_ok its ->
  data (mmapFile idx) = log_of its0 ++ log_of its ++ tail ->
  Forall (fun b => b = 0) tail -> (tail = [] \/ (4 <= length tail)%nat) ->
  off (mmapFile idx) = length (log_of its0) ->
  dataSize idx = lenZ (log_of its0) ->
  lenZ (data (mmapFile idx)) < 2 ^ 32 ->
  (length its < fuel)%nat ->
  exists idx',
    load_loop fuel (lenZ (data (mmapFile idx))) idx = Some (idx', Ok tt)
    /\ rootNode idx' = trie_of its (rootNode idx)
    /\ dataSize idx' = lenZ (log_of (its0 ++ its))
    /\ data (mmapFile idx') = data (mmapFile idx)
    /\ ROnly idx' = ROnly idx.
Proof.
  intros fuel idx its0 tail Hok Hd Ht Htl Ho Hds Hsz Hfuel.
  destruct (load_loop_replays its fuel idx its0 tail Hok Hd)
    as (idx' & Hl & Hr & Hds' & Hdata & _ & _ & Hro & _); try assumption.
  - destruct Htl as [->|Hlen]; [left; reflexivity|right].
    destruct tail as [|t0 [|t1 [|t2 [|t3 tail]]]]; cbn [length] in Hlen; try lia.
    inversion Ht as [|? ? -> Ht1]; subst. inversion Ht1 as [|? ? -> Ht2]; subst.
    inversion Ht2 as [|? ? -> Ht3]; subst. inversion Ht3 as [|? ? -> Ht4]; subst.
    eauto.
  - exists idx'. auto.
Qed.
End Load.

(** *** Put keeps the log and the trie in step *)

Lemma One_dataSize fields idx : dataSize (fst (One fields idx)) = dataSize idx.
Proof.
  unfold One. destruct (One_walk _ _) as [nd|e|]; cbn [fst]; auto.
  destruct (_ =? _); reflexivity.
Qed.

Lemma Forall_zeros n : Forall (fun b => b = 0) (zeros n).
Proof. unfold zeros. apply Forall_replicate. reflexivity. Qed.

Lemma Map_Write_at p m pre tail :
  data m = pre ++ tail -> off m = length pre ->
  forall m' n, Map_Write p m = (m', n, None) ->
    data m' = (pre ++ p) ++ drop (length p) tail
    /\ off m' = length (pre ++ p) /\ limit m' = limit m
    /\ (length p <= length tail)%nat /\ n = length p
    /\ length (data m') = length (data m).
Proof.
  intros Hd Ho m' n W. apply Map_Write_ok in W as (L & D & O & Li & N).
  rewrite Hd, Ho in *. rewrite length_app in L.
  rewrite take_app_length, drop_app_add in D.
  repeat split; auto.
  - rewrite D, <- app_assoc. reflexivity.
  - rewrite O, length_app. reflexivity.
  - lia.
  - rewrite D, !length_app, length_drop. lia.
Qed.

Section Save.
Context `{ItemCodec}.

(** [save] writes the record at the cursor of the file, wherever it is. *)
Lemma save_writes nd idx idx2 pre tail :
  data (mmapFile idx) = pre ++ tail -> off (mmapFile idx) = length pre ->
  0 <= dataSize idx <= lenZ pre ->
  Map_Size (mmapFile idx) <= limit (mmapFile idx) ->
  limit (mmapFile idx) < 2 ^ 32 ->
  save nd idx = (idx2, Ok tt) ->
  exists bs tail',
    marshal (item nd) = Some bs
    /\ data (mmapFile idx2) = (pre ++ record bs) ++ tail'
    /\ (Forall (fun b => b = 0) tail -> Forall (fun b => b = 0) tail')
    /\ off (mmapFile idx2) = length (pre ++ record bs)
    /\ dataSize idx2 = dataSize idx + 4 + lenZ bs
    /\ Map_Size (mmapFile idx2) <= limit (mmapFile idx2)
    /\ limit (mmapFile idx2) = limit (mmapFile idx)
    /\ rootNode idx2 = rootNode idx /\ ROnly idx2 = ROnly idx
    /\ lenZ bs < 2 ^ 32.
Proof.
  intros Hd Ho Hds Hsz Hlim. unfold save.
  destruct (marshal (item nd)) as [bs|]; [|discriminate].
  set (forced := if _ <? 0 then _ else _).
  assert (Hf : forall idx1, forced = Ok idx1 ->
     exists tail1, data (mmapFile idx1) = pre ++ tail1
       /\ (Forall (fun b => b = 0) tail -> Forall (fun b => b = 0) tail1)
       /\ off (mmapFile idx1) = length pre /\ dataSize idx1 = dataSize idx
       /\ Map_Size (mmapFile idx1) <= limit (mmapFile idx1)
       /\ limit (mmapFile idx1) = limit (mmapFile idx)
       /\ rootNode idx1 = rootNode idx /\ ROnly idx1 = ROnly idx).
  { intros idx1. unfold forced. destruct (_ <? 0).
    - unfold allocate, Map_Grow.
      destruct (Z.leb_spec (Map_Size (mmapFile idx) + PreallocSize) (limit (mmapFile idx)))
        as [Hle|?]; [|discriminate].
      intros [= <-]. cbn [set_mmap mmapFile data off limit dataSize rootNode ROnly].
      exists (tail ++ zeros PreallocSize). rewrite Hd, <- app_assoc.
      split; [reflexivity|].
      split; [intros Ht; apply Forall_app; split; [assumption|apply Forall_zeros]|].
      repeat split; auto.
      unfold Map_Size in *. cbn [data]. rewrite Hd in Hle. rewrite !length_app in *.
      unfold zeros. rewrite length_replicate.
      assert (0 <= PreallocSize) by (unfold PreallocSize; lia). lia.
    - intros [= <-]. exists tail. repeat split; auto. }
  destruct forced as [idx1| |]; [|discriminate..].
  destruct (Hf idx1 eq_refl) as (tail1 & Hd1 & Ht1 & Ho1 & Hds1 & Hsz1 & Hl1 & Hr1 & Hro1).
  clear Hf.
  set (idx2' := if _ && _ then _ else _).
  assert (E2 : mmapFile idx2' = mmapFile idx1 /\ dataSize idx2' = dataSize idx1
               /\ rootNode idx2' = rootNode idx1 /\ ROnly idx2' = ROnly idx1).
  { unfold idx2'. destruct (_ && _); cbn; auto. }
  destruct E2 as (Em & Eds & Er & Ero). clearbody idx2'.
  cbn [set_dataSize mmapFile]. rewrite Em.
  destruct (Map_Write (le32 _) (mmapFile idx1)) as [[m1 n1] [e1|]] eqn:W1; [discriminate|].
  destruct (Map_Write bs m1) as [[m2 n2] [e2|]] eqn:W2; [discriminate|].
  destruct (_ =? _); [|discriminate].
  intros [= <-]. cbn [set_mmap set_dataSize mmapFile dataSize rootNode ROnly].
  apply (Map_Write_at _ _ pre tail1 Hd1 Ho1) in W1 as (D1 & O1 & L1 & Le1 & _ & Len1).
  apply (Map_Write_at _ _ _ _ D1 O1) in W2 as (D2 & O2 & L2 & Le2 & _ & Len2).
  rewrite length_drop in Le2. change (length (le32 _)) with 4%nat in *.
  assert (Hbs : lenZ bs < 2 ^ 32).
  { unfold Map_Size, lenZ in *. rewrite Hd1, length_app in Hsz1. lia. }
  rewrite (wrap_u32_id (Z.of_nat (length bs))) in * by (unfold lenZ in Hbs; lia).
  fold (lenZ bs) in *.
  exists bs, (drop (length bs) (drop 4 tail1)).
  split; [reflexivity|]. unfold record.
  split; [rewrite D2, <- !app_assoc; reflexivity|].
  split; [intros Ht; do 2 apply Forall_drop; auto|].
  split; [rewrite O2, <- !app_assoc; reflexivity|].
  split.
  { rewrite Eds, Hds1. unfold ItemHeaderSize, lenZ in *.
    unfold Map_Size in Hsz1. rewrite Hd1, length_app in Hsz1.
    rewrite wrap_i64_id; [lia|]. unfold in_i64, min_i64, max_i64.
    assert (2 ^ 32 < 2 ^ 63) by reflexivity. lia. }
  split; [unfold Map_Size in *; rewrite L2, L1, Len2, Len1; assumption|].
  split; [congruence|]. split; [congruence|]. split; [congruence|assumption].
Qed.

Lemma save_appends nd idx idx2 log tail :
  data (mmapFile idx) = log ++ tail -> Forall (fun b => b = 0) tail ->
  off (mmapFile idx) = length log -> dataSize idx = lenZ log ->
  Map_Size (mmapFile idx) <= limit (mmapFile idx) ->
  limit (mmapFile idx) < 2 ^ 32 ->
  save nd idx = (idx2, Ok tt) ->
  exists bs tail',
    marshal (item nd) = Some bs
    /\ data (mmapFile idx2) = (log ++ record bs) ++ tail'
    /\ Forall (fun b => b = 0) tail'
    /\ off (mmapFile idx2) = length (log ++ record bs)
    /\ dataSize idx2 = lenZ (log ++ record bs)
    /\ Map_Size (mmapFile idx2) <= limit (mmapFile idx2)
    /\ limit (mmapFile idx2) = limit (mmapFile idx)
    /\ rootNode idx2 = rootNode idx /\ ROnly idx2 = ROnly idx
    /\ lenZ bs < 2 ^ 32.
Proof.
  intros Hd Ht Ho Hds Hsz Hlim Hs.
  destruct (save_writes nd idx idx2 log tail Hd Ho) as
    (bs & tail' & Hm & Hd2 & Ht2 & Ho2 & Hds2 & Hsz2 & Hl2 & Hr2 & Hro2 & Hbs);
    try assumption.
  { rewrite Hds. unfold lenZ. lia. }
  exists bs, tail'. do 3 (split; [auto|]). split; [assumption|].
  split; [|auto 6].
  rewrite Hds2, Hds. unfold record, lenZ. rewrite !length_app.
  change (length (le32 _)) with 4%nat. lia.
Qed.

Context {laws : ItemLaws}.

Lemma Put_consistent its idx fields value idx' :
  consistent its idx -> limit (mmapFile idx) < 2 ^ 32 ->
  0 <= value < 2 ^ 32 ->
  Put fields value idx = (idx', Ok tt) ->
  consistent (its ++ [mkItem fields value]) idx'
  /\ limit (mmapFile idx') = limit (mmapFile idx)
  /\ rootNode idx' = fst (add_walk (Node (mkItem fields value) []) 0 fields (rootNode idx))
  /\ snd (One fields idx) = Err ErrNoItem
  /\ existsb (fun f => String.eqb f "") fields = false.
Proof.
  intros (Hok & (tail & Hd & Ht) & Ho & Hds & Hr & Hsz) Hlim Hv. unfold Put.
  destruct (ROnly idx); [discriminate|].
  destruct (existsb _ fields) eqn:Ew; [discriminate|].
  pose proof (One_root fields idx) as R1. pose proof (One_mmap fields idx) as M1.
  pose proof (One_dataSize fields idx) as D1.
  destruct (One fields idx) as [idx1 r]. cbn [fst snd] in *.
  destruct r as [?|[]|]; try discriminate.
  destruct (save _ idx1) as [idx2 rs] eqn:Es.
  destruct rs as [[]| |]; try discriminate.
  apply (save_appends _ _ _ (log_of its) tail) in Es
    as (bs & tail' & Hm & Hd2 & Ht2 & Ho2 & Hds2 & Hsz2 & Hl2 & Hr2 & Hro2 & Hbs);
    try congruence.
  cbn [item] in Hm.
  destruct (add _ idx2) as [idx3 ra] eqn:Ea. destruct ra as [[]| |]; try discriminate.
  intros [= <-].
  assert (Hf : fields <> []).
  { intros ->. unfold add in Ea. cbn in Ea. discriminate. }
  destruct (add_ok (mkItem fields value) idx2 Hf) as (idx3' & Ha & Hr3 & Hm3 & Hd3 & Hro3).
  rewrite Ha in Ea. injection Ea as <-.
  cbn [set_metrics mmapFile rootNode dataSize Fields] in *.
  assert (Hlog : log_of (its ++ [mkItem fields value]) = log_of its ++ record bs).
  { rewrite log_of_app. cbn [log_of]. rewrite Hm.
    change (default [] (record <$> Some bs)) with (record bs).
    rewrite app_nil_r. reflexivity. }
  split; [|split; [congruence|split; [|split; reflexivity]]].
  - unfold consistent. rewrite Hlog. cbn [set_metrics mmapFile rootNode dataSize].
    rewrite Hm3, Hd3, Hr3.
    split.
    { apply Forall_app. split; [assumption|]. constructor; [|constructor].
      split; [assumption|]. split; [assumption|].
      exists bs. split; [assumption|]. split.
      - exact (marshal_nonempty (mkItem fields value) bs Hf Hm).
      - exact (marshal_unmarshal (mkItem fields value) bs Hv Hm Hbs). }
    split; [exists tail'; auto|]. split; [assumption|]. split; [assumption|].
    split; [|assumption].
    rewrite trie_of_app. cbn [trie_of fold_left Fields]. fold (trie_of its root0).
    rewrite Hr2, R1, Hr. reflexivity.
  - rewrite Hr3, Hr2, R1. reflexivity.
Qed.

Lemma background_consistent its idx :
  consistent its idx ->
  consistent its (background idx)
  /\ limit (mmapFile (background idx)) = limit (mmapFile idx)
  /\ rootNode (background idx) = rootNode idx.
Proof.
  intros (Hok & (tail & Hd & Ht) & Ho & Hds & Hr & Hsz).
  unfold background. destruct (allocating idx); [|unfold consistent; eauto 10].
  unfold preallocateIfNeeded. destruct (_ <? _).
  - unfold allocate, Map_Grow.
    destruct (Z.leb_spec (Map_Size (mmapFile idx) + PreallocSize) (limit (mmapFile idx)))
      as [Hle|?]; cbn [fst]; [|unfold consistent; cbn; eauto 10].
    unfold consistent.
    cbn [set_allocating set_mmap mmapFile data off limit dataSize rootNode].
    split; [|split; reflexivity].
    split; [assumption|]. split.
    { exists (tail ++ zeros PreallocSize). rewrite Hd, <- app_assoc.
      split; [reflexivity|]. apply Forall_app. split; [assumption|apply Forall_zeros]. }
    repeat split; auto.
    unfold Map_Size in *. cbn [data]. rewrite length_app.
    unfold zeros. rewrite length_replicate.
    assert (0 <= PreallocSize) by (unfold PreallocSize; lia). lia.
  - cbn [fst]. unfold consistent. cbn. eauto 10.
Qed.

End Save.

(** *** Values in the trie *)


Lemma children_get_set_same k n ch : children_get k (children_set k n ch) = Some n.
Proof.
  induction ch as [|[k' n'] ch IH]; cbn [children_set children_get].
  - rewrite String.eqb_refl. reflexivity.
  - destruct (String.eqb_spec k k') as [->|Hne]; cbn [children_get].
    + rewrite String.eqb_refl. reflexivity.
    + destruct (String.eqb_spec k k'); [contradiction|]. exact IH.
Qed.

Lemma children_get_set_other k k' n ch :
  k <> k' -> children_get k' (children_set k n ch) = children_get k' ch.
Proof.
  intros Hne. induction ch as [|[k0 n0] ch IH]; cbn [children_set children_get].
  - destruct (String.eqb_spec k' k); [congruence|reflexivity].
  - destruct (String.eqb_spec k k0) as [->|Hne0]; cbn [children_get].
    + destruct (String.eqb_spec k' k0); [congruence|reflexivity].
    + destruct (String.eqb_spec k' k0); [reflexivity|exact IH].
Qed.

Lemma val_nil root : val [] root = Value (item root).
Proof. reflexivity. Qed.

Lemma val_cons x gs root :
  val (x :: gs) root =
  if String.eqb x "" then NoValue
  else match children_get x (children root) with
       | Some n => val gs n
       | None => NoValue
       end.
Proof.
  unfold val. cbn [One_walk]. destruct (String.eqb x ""); [reflexivity|].
  destruct (children_get x (children root)); reflexivity.
Qed.

Lemma val_no_children it g : g <> [] -> val g (Node it []) = NoValue.
Proof.
  destruct g as [|x gs]; [contradiction|]. intros _. rewrite val_cons.
  cbn [children children_get]. destruct (String.eqb x ""); reflexivity.
Qed.

Lemma val_children it1 it2 ch g : g <> [] -> val g (Node it1 ch) = val g (Node it2 ch).
Proof. destruct g as [|x gs]; [contradiction|]. intros _. rewrite !val_cons. reflexivity. Qed.

Lemma add_walk_item nd i f root : item (fst (add_walk nd i f root)) = item root.
Proof.
  destruct f as [|field tl]; [reflexivity|]. cbn [add_walk].
  destruct tl as [|t tl'].
  - destruct (children_get field (children root)); reflexivity.
  - destruct (children_get field (children root)); destruct (add_walk _ _ _ _); reflexivity.
Qed.

(** the other field sets keep their value *)
Lemma add_walk_other it f : forall i root g,
  g <> f -> val g (fst (add_walk (Node it []) i f root)) = val g root.
Proof.
  induction f as [|field tl IH]; intros i root g Hne; [reflexivity|].
  destruct g as [|x gs].
  { rewrite !val_nil, add_walk_item. reflexivity. }
  rewrite (val_cons x gs root).
  cbn [add_walk]. destruct tl as [|t tl'].
  - destruct (children_get field (children root)) as [[lit lch]|] eqn:El;
      cbn [fst]; rewrite val_cons; cbn [children];
      destruct (String.eqb x ""); try reflexivity.
    + destruct (String.eqb_spec field x) as [<-|Hx].
      * rewrite children_get_set_same, El. cbn [item children].
        apply val_children. congruence.
      * rewrite children_get_set_other by assumption. reflexivity.
    + destruct (String.eqb_spec field x) as [<-|Hx].
      * rewrite children_get_set_same, El.
        apply val_no_children. congruence.
      * rewrite children_get_set_other by assumption. reflexivity.
  - set (newRoot := match children_get field (children root) with
                    | Some n => (n, 0)
                    | None => (Node (mkItem (take (S i) (Fields (item (Node it [])))) NoValue) [], 1)
                    end).
    destruct newRoot as [nr created] eqn:En.
    specialize (IH (S i) nr).
    destruct (add_walk (Node it []) (S i) (t :: tl') nr) as [nr' more] eqn:Ew.
    cbn [fst] in *. rewrite val_cons. cbn [children].
    destruct (String.eqb x ""); [reflexivity|].
    destruct (String.eqb_spec field x) as [<-|Hx].
    + rewrite children_get_set_same.
      rewrite IH by congruence.
      unfold newRoot in En.
      destruct (children_get field (children root)) as [n|]; injection En as <- <-.
      * reflexivity.
      * destruct gs as [|y gs']; [reflexivity|]. apply val_no_children. discriminate.
    + rewrite children_get_set_other by assumption. reflexivity.
Qed.

(** the field set that was added has the value of the item *)
Lemma add_walk_same it f : forall i root,
  f <> [] -> existsb (fun s => String.eqb s "") f = false ->
  val f (fst (add_walk (Node it []) i f root)) = Value it.
Proof.
  induction f as [|field tl IH]; intros i root Hne Hw; [contradiction|].
  cbn [existsb] in Hw. apply orb_false_elim in Hw as [Hf Htl].
  cbn [add_walk]. destruct tl as [|t tl'].
  - destruct (children_get field (children root)) as [[lit lch]|] eqn:El;
      cbn [fst]; rewrite val_cons, Hf; cbn [children];
      rewrite children_get_set_same; reflexivity.
  - set (newRoot := match children_get field (children root) with
                    | Some n => (n, 0)
                    | None => (Node (mkItem (take (S i) (Fields (item (Node it [])))) NoValue) [], 1)
                    end).
    destruct newRoot as [nr created] eqn:En.
    specialize (IH (S i) nr ltac:(discriminate) Htl).
    destruct (add_walk (Node it []) (S i) (t :: tl') nr) as [nr' more] eqn:Ew.
    cbn [fst] in *. rewrite val_cons, Hf. cbn [children].
    rewrite children_get_set_same. exact IH.
Qed.

Lemma One_val f idx :
  val f (rootNode idx) <> NoValue ->
  exists it, snd (One f idx) = Ok it /\ Value it = val f (rootNode idx).
Proof.
  unfold val, One. destruct (One_walk (rootNode idx) f) as [n|e|]; try congruence.
  intros Hv. destruct (Z.eqb_spec (Value (item n)) NoValue) as [?|_]; [contradiction|].
  eexists. split; reflexivity.
Qed.

Lemma One_noitem_val f idx :
  snd (One f idx) = Err ErrNoItem -> existsb (fun s => String.eqb s "") f = false ->
  val f (rootNode idx) = NoValue.
Proof.
  unfold val, One. destruct (One_walk (rootNode idx) f) as [n|e|]; try reflexivity.
  destruct (Z.eqb_spec (Value (item n)) NoValue) as [?|_]; [auto|discriminate].
Qed.

(** *** Replay *)


Section Replay.
Context `{ItemCodec} {laws : ItemLaws}.

Lemma run_consistent ops : forall idx0 its0 idx,
  consistent its0 idx0 -> limit (mmapFile idx0) < 2 ^ 32 ->
  Forall op_ok ops -> run ops idx0 = Some idx ->
  consistent (its0 ++ items_of ops) idx
  /\ limit (mmapFile idx) = limit (mmapFile idx0)
  /\ (forall f v, In (OpPut f v) ops -> v <> NoValue -> val f (rootNode idx) = v)
  /\ (forall g, val g (rootNode idx0) <> NoValue ->
        val g (rootNode idx) = val g (rootNode idx0)).
Proof.
  induction ops as [|o ops IH]; intros idx0 its0 idx Hc Hl Hok Hrun.
  - injection Hrun as <-. cbn [items_of flat_map]. rewrite app_nil_r.
    split; [assumption|]. split; [reflexivity|]. split; [intros ? ? []|auto].
  - inversion Hok as [|? ? Ho Hok']; subst. destruct o as [f v|]; cbn [run] in Hrun.
    + destruct (Put f v idx0) as [idx1 r] eqn:EP. destruct r as [[]| |]; try discriminate.
      destruct (Put_consistent its0 idx0 f v idx1 Hc Hl Ho EP)
        as (Hc1 & Hl1 & Hr1 & Hone & Hw).
      destruct (IH idx1 (its0 ++ [mkItem f v]) idx Hc1 ltac:(congruence) Hok' Hrun)
        as (Hc' & Hl' & Hv' & Hp').
      assert (Hf : f <> []).
      { destruct Hc1 as (Hitems & _). apply Forall_app in Hitems as [_ Hi].
        inversion Hi as [|? ? (Hfi & _) _]; subst. exact Hfi. }
      assert (Hsame : val f (rootNode idx1) = v).
      { rewrite Hr1. apply (add_walk_same (mkItem f v) f 0 (rootNode idx0) Hf Hw). }
      assert (Hold : val f (rootNode idx0) = NoValue) by (apply One_noitem_val; assumption).
      split; [cbn [items_of flat_map] in *; rewrite <- app_assoc in Hc'; exact Hc'|].
      split; [congruence|]. split.
      * intros f' v' [E|Hin] Hnv.
        -- injection E as <- <-. rewrite Hp' by congruence. exact Hsame.
        -- auto.
      * intros g Hg. assert (g <> f) by congruence.
        assert (E1 : val g (rootNode idx1) = val g (rootNode idx0)).
        { rewrite Hr1. apply add_walk_other. assumption. }
        rewrite Hp' by congruence. exact E1.
    + destruct (background_consistent its0 idx0 Hc) as (Hc1 & Hl1 & Hr1).
      destruct (IH (background idx0) its0 idx Hc1 ltac:(congruence) Hok' Hrun)
        as (Hc' & Hl' & Hv' & Hp').
      split; [exact Hc'|]. split; [congruence|]. split.
      * intros f v [E|Hin] Hnv; [discriminate|auto].
      * intros g Hg. rewrite Hp' by congruence. rewrite Hr1. reflexivity.
Qed.

Lemma log_of_length its : Forall item_ok its -> (length its <= length (log_of its))%nat.
Proof.
  induction 1 as [|it its (Hf & Hv & bs & Hm & Hne & Hu) Hok IH]; [reflexivity|].
  cbn [log_of length]. rewrite Hm.
  change (default [] (record <$> Some bs)) with (record bs).
  unfold record. rewrite !length_app. change (length (le32 _)) with 4%nat. lia.
Qed.

Lemma New_consistent its idx ronly :
  consistent its idx -> limit (mmapFile idx) < 2 ^ 32 ->
  (Map_Size (mmapFile idx) = dataSize idx \/ dataSize idx + 4 <= Map_Size (mmapFile idx)) ->
  match New ronly (reopened (mmapFile idx)) with
  | Some (Ok idx_r) => rootNode idx_r = rootNode idx /\ dataSize idx_r = dataSize idx
  | Some (Err e) => ronly = false /\ e = ErrGrow
  | _ => False
  end.
Proof.
  intros (Hok & (tail & Hd & Ht) & Ho & Hds & Hr & Hsz) Hlim Htail.
  set (idx0 := mkIndex ronly root0
                 (mkMap (data (mmapFile idx)) 0 (limit (mmapFile idx))) 0 false Metrics0).
  unfold New.
  change (load (mkIndex ronly root0 (reopened (mmapFile idx)) 0 false Metrics0))
    with (load_loop (S (length (data (mmapFile idx)))) (lenZ (data (mmapFile idx))) idx0).
  destruct (load_loop_log its (S (length (data (mmapFile idx)))) idx0 [] tail Hok)
    as (idx' & Hl & Hr' & Hds' & Hdata' & Hro').
  - unfold idx0. cbn [mmapFile data log_of app]. exact Hd.
  - assumption.
  - unfold Map_Size in Htail. rewrite Hds, Hd in Htail. unfold lenZ in Htail.
    rewrite length_app in Htail. destruct tail; [left; reflexivity|right].
    cbn [length] in *. lia.
  - reflexivity.
  - reflexivity.
  - unfold idx0. cbn [mmapFile data]. unfold Map_Size, lenZ in *. lia.
  - unfold idx0. cbn [mmapFile data]. rewrite Hd at 1. rewrite length_app.
    pose proof (log_of_length its Hok). lia.
  - unfold idx0 in Hl at 1. cbn [mmapFile data] in Hl. rewrite Hl.
    assert (Hroot : rootNode idx' = rootNode idx) by (rewrite Hr', Hr; reflexivity).
    assert (Hsize : dataSize idx' = dataSize idx) by (rewrite Hds', Hds; reflexivity).
    destruct ronly; [auto|].
    unfold preallocateIfNeeded. destruct (_ <? _).
    + unfold allocate, Map_Grow. destruct (_ <=? _); cbn; auto.
    + cbn. auto.
Qed.

(** A session of successful puts of [uint32] values starts on an index in
    step with its file, on a disk that keeps the file below 4 GiB, and
    leaves the file full or with room for a header.  Then opening the file
    again replays the log without error into the same trie and data size,
    and [One] of the fields of a put returns the value that was put, unless
    that value is [NoValue].  (A writable reopen can fail in its
    preallocation.) *)
Lemma reopen_after_puts (idx0 idx : index) (its0 : list Item) (ops : list op)
    (ronly : bool) :
  consistent its0 idx0 -> limit (mmapFile idx0) < 2 ^ 32 ->
  Forall op_ok ops -> run ops idx0 = Some idx ->
  (Map_Size (mmapFile idx) = dataSize idx \/ dataSize idx + 4 <= Map_Size (mmapFile idx)) ->
  reopens_as ops idx (New ronly (reopened (mmapFile idx))) ronly.
Proof.
  intros Hc Hl Hok Hrun Htail.
  destruct (run_consistent ops idx0 its0 idx Hc Hl Hok Hrun) as (Hc' & Hl' & Hv & _).
  pose proof (New_consistent _ idx ronly Hc' ltac:(congruence) Htail) as HN.
  unfold reopens_as. destruct (New ronly _) as [[idx_r|e|]|]; auto.
  destruct HN as [Hr Hd]. split; [assumption|]. split; [assumption|].
  intros f v Hin Hnv. specialize (Hv f v Hin Hnv).
  destruct (One_val f idx_r) as (it & Ho & Hval).
  - rewrite Hr, Hv. assumption.
  - exists it. split; [assumption|]. rewrite Hval, Hr. assumption.
Qed.

End Replay.

(** *** The codec of the examples *)

#[local] Instance ItemProto_laws : ItemLaws (H := ItemProto.codec).
Proof.
  split.
  - intros it bs Hv Hm Hl. cbn [marshal unmarshal ItemProto.codec] in *.
    destruct (ItemProto.MarshalTo it) as [bs'| |] eqn:E; try discriminate.
    injection Hm as ->.
    rewrite (ServerSpec.Item_roundtrip it bs Hv E); [reflexivity|].
    assert (2 ^ 32 < 2 ^ 63) by reflexivity. lia.
  - intros it bs Hf Hm. cbn [marshal ItemProto.codec] in Hm.
    unfold ItemProto.MarshalTo in Hm. injection Hm as <-.
    destruct (Fields it) as [|f fs]; [contradiction|]. discriminate.
Qed.

(** A put of [NoValue] succeeds, and [One] of its fields after the reopen
    answers [ErrNoItem], not the value that was put. *)
Lemma reopen_loses_NoValue :
  let put := Put (H := ItemProto.codec) ["a"] NoValue (Samples.fresh 64) in
  snd put = Ok tt
  /\ match New (H := ItemProto.codec) true (reopened (mmapFile (fst put))) with
     | Some (Ok idx_r) => snd (One ["a"] idx_r) = Err ErrNoItem
     | _ => False
     end.
Proof. vm_compute. split; reflexivity. Qed.

End IndexLogSpec.

(** ** The database *)

Module DatabaseSpec.

Import Database.
Local Open Scope Z_scope.

(** *** Range reads *)

(** C1.  The series [host-a, cpu] exists in the epoch at 0 only.  [One] over
    [0, 20s) returns twenty slots: the ten of the first epoch, and ten nil
    slices for the second epoch, whose read fails; they are not zero
    payloads of eight bytes. *)
Theorem One_leaves_nil_slots :
  snd <$> One (H := Samples.store_cpu) 25000000000 0 20000000000
            ["host-a"; "cpu"] (Samples.db1 Samples.store_cpu)
  = Some (Ok (Samples.row_cpu ++ replicate 10 None))
  /\ (None : payload) <> make_bytes (PayloadSize Samples.md1).
Proof. split; [vm_compute; reflexivity | discriminate]. Qed.

(** C2.  The epoch at 0 returns the series [a-b] and [a, b].  Both have the
    key ["a-b"]: [Get] over [0, 10s) returns one entry, under the fields of
    the first, with the points of the second copied over those of the
    first. *)
Theorem Get_joins_distinct_field_sets :
  snd <$> Get (H := Samples.store_ab) 25000000000 0 10000000000 [""]
            (Samples.db1 Samples.store_ab)
  = Some (Ok [(Index.mkItem ["a-b"] 0, Samples.row_ab2)])
  /\ ["a-b"] <> ["a"; "b"].
Proof. split; [vm_compute; reflexivity | discriminate]. Qed.

(** *** The retention loop *)

Lemma retention_select_normal {world} (expire : world -> world) r w :
  snd (retention_select world expire r w) = Normal.
Proof. destruct r; reflexivity. Qed.

Lemma retention_loop_runs {world} (expire : world -> world) fuel :
  forall i sched w, retention_loop world expire fuel i sched w = None.
Proof.
  induction fuel as [|fuel IH]; intros i sched w; [reflexivity|].
  cbn [retention_loop].
  pose proof (retention_select_normal expire (sched i) w) as Hn.
  destruct (retention_select world expire (sched i) w) as [w' c].
  cbn [snd] in Hn. subst c. apply IH.
Qed.

(** C5.  Whatever the cases the [select] takes, and so also when the
    channel [closed] is closed and its case is taken at every turn, the loop
    of [enforceRetention] is not left: the [break] ends the [select], and the
    function has not returned after any number of turns. *)
Theorem enforceRetention_never_returns {world} (expire : world -> world) :
  forall (fuel : nat) (sched : nat -> ready) (w : world),
    enforceRetention world expire fuel sched w = None.
Proof. intros. unfold enforceRetention. apply retention_loop_runs. Qed.

(** *** Epoch admission *)

Lemma floor_in_i64 t d : in_i64 t -> 0 < d -> in_i64 (t - Z.rem t d).
Proof.
  unfold in_i64, min_i64, max_i64. intros Ht Hd.
  destruct (Z.le_gt_cases 0 t) as [Hp|Hn].
  - pose proof (Z.rem_bound_pos t d Hp Hd). pose proof (Z.rem_le t d Hp Hd). lia.
  - assert (E : Z.rem t d = - Z.rem (- t) d) by (rewrite Z.rem_opp_l; lia).
    pose proof (Z.rem_bound_pos (- t) d ltac:(lia) Hd).
    pose proof (Z.rem_le (- t) d ltac:(lia) Hd). lia.
Qed.

Section WithEpochs.
Context `{EpochStore}.

Lemma cache_of_set_same t c db : cache_of t (set_cache t c db) = c.
Proof. destruct t; reflexivity. Qed.
Lemma cache_of_set_other t c db :
  cache_of (other t) (set_cache t c db) = cache_of (other t) db.
Proof. destruct t; reflexivity. Qed.
Lemma metadata_set t c db : metadata (set_cache t c db) = metadata db.
Proof. destruct t; reflexivity. Qed.
Lemma recovery_set t c db : recovery (set_cache t c db) = recovery db.
Proof. destruct t; reflexivity. Qed.

(** C8.  For valid metadata and times that do not overflow: with [ts] and
    [now] floored to the duration, [min = now - (MaxRWEpochs - 1) *
    Duration] and [max = now + Duration], [getEpoch] fails with [ErrFuture]
    when [ts >= max]; otherwise the epoch is served from the read-only cache
    and opened read-only when [ts < min], and from the read-write cache and
    opened read-write when [ts >= min] or the database is in recovery
    mode. *)
Theorem getEpoch_admission (now ts : Z) (db : database) :
  let md := metadata db in
  0 < Duration md -> Resolution md <> 0 ->
  1 <= MaxRWEpochs md < 2 ^ 32 ->
  in_i64 now -> in_i64 ts ->
  in_i64 ((MaxRWEpochs md - 1) * Duration md) ->
  in_i64 (spec_min md now) -> in_i64 (spec_max md now) ->
  let '(db', r) := getEpoch now ts db in
  if spec_floor md ts >=? spec_max md now
  then db' = db /\ r = Err ErrFuture
  else served_from (spec_tier db now ts) (spec_floor md ts) db db' r.
Proof.
  intros md Hd Hr Hrw Hnow Hts Hmul Hmin Hmax.
  unfold getEpoch. fold md.
  destruct (Z.eqb_spec (Duration md) 0) as [?|_]; [lia|].
  pose proof (floor_in_i64 ts _ Hts Hd) as Hfts.
  pose proof (floor_in_i64 now _ Hnow Hd) as Hfnow.
  rewrite (wrap_i64_id _ Hfts), (wrap_i64_id _ Hfnow).
  rewrite (wrap_u32_id (MaxRWEpochs md - 1)) by lia.
  rewrite (wrap_i64_id _ Hmul).
  fold (spec_floor md ts). fold (spec_floor md now).
  change (spec_floor md now - (MaxRWEpochs md - 1) * Duration md)
    with (spec_min md now).
  change (spec_floor md now + Duration md) with (spec_max md now).
  rewrite (wrap_i64_id _ Hmin), (wrap_i64_id _ Hmax).
  destruct (spec_floor md ts >=? spec_max md now); [split; reflexivity|].
  set (t := if (if recovery db then false else _) then RO else RW).
  assert (Et : t = spec_tier db now ts).
  { unfold t, spec_tier. fold md. destruct (recovery db); [reflexivity|].
    destruct (_ <? _); reflexivity. }
  assert (Ero : (if recovery db then false else spec_floor md ts <? spec_min md now)
                = match t with RO => true | RW => false end).
  { unfold t. destruct (recovery db); [reflexivity|]. destruct (_ <? _); reflexivity. }
  rewrite Ero. clearbody t. subst t.
  set (t := spec_tier db now ts). set (k := spec_floor md ts).
  unfold Cache_Get, served_from. fold md.
  destruct (assoc k (entries (cache_of t db))) as [epo|] eqn:Ea.
  - rewrite cache_of_set_other, cache_of_set_same, metadata_set, recovery_set.
    cbn [entries]. auto.
  - destruct (Z.eqb_spec (Resolution md) 0) as [?|_]; [contradiction|].
    destruct (NewEpoch _) as [epo|e|].
    + rewrite !cache_of_set_other, !cache_of_set_same, !metadata_set, !recovery_set.
      unfold Cache_Add. cbn [fst entries capacity]. auto 6.
    + rewrite !cache_of_set_other, !cache_of_set_same, !metadata_set, !recovery_set.
      auto 6.
    + rewrite !cache_of_set_other, !metadata_set, !recovery_set. auto.
Qed.

End WithEpochs.

(** At 95s an epoch of second 5 is older than the four read-write epochs. *)
Lemma getEpoch_admission_witness :
  let db := Samples.db1 Samples.store_cpu in
  let md := metadata db in
  0 < Duration md /\ Resolution md <> 0 /\ 1 <= MaxRWEpochs md < 2 ^ 32
  /\ in_i64 95000000000 /\ in_i64 5000000000
  /\ in_i64 ((MaxRWEpochs md - 1) * Duration md)
  /\ in_i64 (spec_min md 95000000000) /\ in_i64 (spec_max md 95000000000)
  /\ (let '(db', r) := getEpoch 95000000000 5000000000 db in
      if spec_floor md 5000000000 >=? spec_max md 95000000000
      then db' = db /\ r = Err ErrFuture
      else served_from (spec_tier db 95000000000 5000000000)
             (spec_floor md 5000000000) db db' r).
Proof.
  intros db md.
  assert (H1 : 0 < Duration md) by reflexivity.
  assert (H2 : Resolution md <> 0) by discriminate.
  assert (H3 : 1 <= MaxRWEpochs md < 2 ^ 32) by (vm_compute; split; [discriminate|reflexivity]).
  assert (H4 : in_i64 95000000000) by (vm_compute; split; discriminate).
  assert (H5 : in_i64 5000000000) by (vm_compute; split; discriminate).
  assert (H6 : in_i64 ((MaxRWEpochs md - 1) * Duration md))
    by (vm_compute; split; discriminate).
  assert (H7 : in_i64 (spec_min md 95000000000)) by (vm_compute; split; discriminate).
  assert (H8 : in_i64 (spec_max md 95000000000)) by (vm_compute; split; discriminate).
  repeat (split; [assumption|]).
  exact (getEpoch_admission 95000000000 5000000000 db H1 H2 H3 H4 H5 H6 H7 H8).
Defined.

End DatabaseSpec.

(* ================================================================== *)
(** ** Package index: what a put changes *)
(* ================================================================== *)

Module IndexTrieSpec.

Import Index IndexSpec IndexLogSpec.
Local Open Scope Z_scope.

Lemma One_One_in g idx : snd (One g idx) = One_in (rootNode idx) g.
Proof.
  unfold One, One_in. destruct (One_walk (rootNode idx) g) as [nd|e|]; try reflexivity.
  destruct (Value (item nd) =? NoValue); reflexivity.
Qed.

Lemma One_in_val g root it : One_in root g = Ok it -> val g root = Value it /\ Value it <> NoValue.
Proof.
  unfold One_in, val. destruct (One_walk root g) as [nd|e|]; try discriminate.
  destruct (Z.eqb_spec (Value (item nd)) NoValue); [discriminate|].
  intros [= <-]. auto.
Qed.

Lemma One_in_cons x gs root :
  One_in root (x :: gs) =
  if String.eqb x "" then Err ErrNoWild
  else match children_get x (children root) with
       | Some n => One_in n gs
       | None => Err ErrNoItem
       end.
Proof.
  unfold One_in. cbn [One_walk]. destruct (String.eqb x ""); [reflexivity|].
  destruct (children_get x (children root)); reflexivity.
Qed.

Lemma One_in_no_children it g :
  g <> [] -> existsb (fun s => String.eqb s "") g = false ->
  One_in (Node it []) g = Err ErrNoItem.
Proof.
  destruct g as [|x gs]; [contradiction|]. intros _ Hw. rewrite One_in_cons.
  cbn [existsb] in Hw. apply orb_false_elim in Hw as [-> _]. reflexivity.
Qed.

Lemma One_in_children it1 it2 ch g :
  g <> [] -> One_in (Node it1 ch) g = One_in (Node it2 ch) g.
Proof. destruct g as [|x gs]; [contradiction|]. intros _. rewrite !One_in_cons. reflexivity. Qed.

(** the other field sets keep their answer *)
Lemma add_walk_One_in_other it f : forall i root g,
  g <> f -> existsb (fun s => String.eqb s "") g = false ->
  One_in (fst (add_walk (Node it []) i f root)) g = One_in root g.
Proof.
  induction f as [|field tl IH]; intros i root g Hne Hw; [reflexivity|].
  destruct g as [|x gs].
  { unfold One_in. cbn [One_walk]. rewrite add_walk_item. reflexivity. }
  cbn [existsb] in Hw. apply orb_false_elim in Hw as [Hx Hgs].
  rewrite (One_in_cons x gs root).
  cbn [add_walk]. destruct tl as [|t tl'].
  - destruct (children_get field (children root)) as [[lit lch]|] eqn:El;
      cbn [fst]; rewrite One_in_cons; cbn [children]; rewrite Hx.
    + destruct (String.eqb_spec field x) as [<-|Hfx].
      * rewrite children_get_set_same, El. cbn [item children].
        apply One_in_children. congruence.
      * rewrite children_get_set_other by assumption. reflexivity.
    + destruct (String.eqb_spec field x) as [<-|Hfx].
      * rewrite children_get_set_same, El.
        apply One_in_no_children; [congruence|assumption].
      * rewrite children_get_set_other by assumption. reflexivity.
  - set (newRoot := match children_get field (children root) with
                    | Some n => (n, 0)
                    | None => (Node (mkItem (take (S i) (Fields (item (Node it [])))) NoValue) [], 1)
                    end).
    destruct newRoot as [nr created] eqn:En.
    specialize (IH (S i) nr).
    destruct (add_walk (Node it []) (S i) (t :: tl') nr) as [nr' more] eqn:Ew.
    cbn [fst] in *. rewrite One_in_cons, Hx. cbn [children].
    destruct (String.eqb_spec field x) as [<-|Hfx].
    + rewrite children_get_set_same.
      rewrite IH by (congruence || assumption).
      unfold newRoot in En.
      destruct (children_get field (children root)) as [n|]; injection En as <- <-.
      * reflexivity.
      * destruct gs as [|y gs'].
        -- unfold One_in. cbn [One_walk item Value]. rewrite Z.eqb_refl. reflexivity.
        -- apply One_in_no_children; [discriminate|assumption].
    + rewrite children_get_set_other by assumption. reflexivity.
Qed.

Lemma One_ROnly fields idx : ROnly (fst (One fields idx)) = ROnly idx.
Proof.
  unfold One. destruct (One_walk _ _) as [nd| |]; try reflexivity.
  destruct (_ =? _); reflexivity.
Qed.

Lemma add_ROnly nd idx : ROnly (fst (add nd idx)) = ROnly idx.
Proof.
  unfold add. destruct (Fields (item nd)); [reflexivity|].
  destruct (add_walk _ _ _ _). reflexivity.
Qed.

Section WithCodec.
Context `{ItemCodec}.

Lemma save_ROnly nd idx : ROnly (fst (save nd idx)) = ROnly idx.
Proof.
  unfold save. destruct (marshal (item nd)) as [bs|]; [|reflexivity].
  set (forced := if _ <? 0 then allocate idx else Ok idx).
  assert (Hf : match forced with Ok i => ROnly i = ROnly idx | _ => True end).
  { unfold forced. destruct (_ <? 0); [|reflexivity].
    unfold allocate. destruct (Map_Grow _ _); try exact I. reflexivity. }
  destruct forced as [idx1| |]; try reflexivity.
  set (idx2 := if _ && _ then set_allocating true idx1 else idx1).
  assert (H2 : ROnly idx2 = ROnly idx).
  { unfold idx2. destruct (_ && _); cbn [set_allocating ROnly]; assumption. }
  destruct (Map_Write (le32 _) _) as [[m1 n1] [e1|]]; [exact H2|].
  destruct (Map_Write bs m1) as [[m2 n2] [e2|]]; [exact H2|].
  destruct (_ =? _); exact H2.
Qed.

(** What a successful [Put] has done. *)
Lemma Put_ok_inv fields value idx idx' :
  Put fields value idx = (idx', Ok tt) ->
  ROnly idx = false
  /\ existsb (fun f => String.eqb f "") fields = false
  /\ snd (One fields idx) = Err ErrNoItem
  /\ fields <> []
  /\ rootNode idx'
     = fst (add_walk (Node (mkItem fields value) []) 0 fields (rootNode idx)).
Proof.
  unfold Put. destruct (ROnly idx); [discriminate|].
  destruct (existsb _ fields) eqn:Hw; [discriminate|].
  pose proof (One_root fields idx) as Hr.
  destruct (One fields idx) as [idx1 r] eqn:E1. cbn [fst snd] in *.
  destruct r as [?|[]|]; try discriminate.
  pose proof (save_root (Node (mkItem fields value) []) idx1) as Hs.
  destruct (save _ idx1) as [idx2 rs] eqn:E2.
  destruct rs as [[]| |]; try discriminate.
  cbn [fst] in Hs.
  destruct (add _ idx2) as [idx3 ra] eqn:Ea. destruct ra as [[]| |]; try discriminate.
  intros [= <-].
  assert (Hf : fields <> []).
  { intros ->. unfold add in Ea. cbn in Ea. discriminate. }
  destruct (IndexLogSpec.add_ok (mkItem fields value) idx2 Hf) as (idx3' & Ha & Hr3 & _).
  rewrite Ha in Ea. injection Ea as <-.
  cbn [set_metrics rootNode Fields] in *.
  repeat split; try assumption; try reflexivity.
  rewrite Hr3, Hs, Hr. reflexivity.
Qed.

Lemma Put_ok_One fields value idx idx' :
  Put fields value idx = (idx', Ok tt) -> value <> NoValue ->
  exists it, snd (One fields idx') = Ok it /\ Value it = value.
Proof.
  intros HP Hv. apply Put_ok_inv in HP as (_ & Hw & _ & Hne & Hr).
  pose proof (add_walk_same (mkItem fields value) fields 0 (rootNode idx) Hne Hw) as Hval.
  rewrite <- Hr in Hval. cbn [Value] in Hval.
  destruct (One_val fields idx') as (it & Ho & Hvi); [congruence|].
  exists it. split; [assumption|congruence].
Qed.

(** X1.  After a [Put] that succeeded, [One] of the same fields returns an
    item with the value that was put, unless that value is [NoValue]. *)
Theorem Put_then_One fields value idx idx' :
  Put fields value idx = (idx', Ok tt) -> value <> NoValue ->
  exists it, snd (One fields idx') = Ok it /\ Value it = value.
Proof. apply Put_ok_One. Qed.

(** X2.  A [Put] that succeeded does not change what [One] answers for any
    other field set without a wildcard: found items stay, missing ones stay
    missing. *)
Theorem Put_keeps_other_answers fields value idx idx' g :
  Put fields value idx = (idx', Ok tt) ->
  g <> fields -> existsb (fun s => String.eqb s "") g = false ->
  snd (One g idx') = snd (One g idx).
Proof.
  intros HP Hg Hw. apply Put_ok_inv in HP as (_ & _ & _ & _ & Hr).
  rewrite !One_One_in, Hr. apply add_walk_One_in_other; assumption.
Qed.

(** X3.  A second [Put] of fields that were put with a value other than
    [NoValue] fails with [ErrExists], whatever its value, and leaves the
    trie, the file and the data size as they are. *)
Theorem Put_again_ErrExists fields value value' idx idx' :
  Put fields value idx = (idx', Ok tt) -> value <> NoValue ->
  exists idx'', Put fields value' idx' = (idx'', Err ErrExists)
    /\ rootNode idx'' = rootNode idx' /\ mmapFile idx'' = mmapFile idx'
    /\ dataSize idx'' = dataSize idx'.
Proof.
  intros HP Hv.
  destruct (Put_ok_One fields value idx idx' HP Hv) as (it & Ho & _).
  pose proof HP as HP'. apply Put_ok_inv in HP' as (Hro & Hw & _ & _ & _).
  assert (Hro' : ROnly idx' = false).
  { revert HP. unfold Put. rewrite Hro, Hw.
    pose proof (One_ROnly fields idx) as R1.
    destruct (One fields idx) as [idx1 r]. cbn [fst] in R1.
    destruct r as [?|[]|]; try discriminate.
    pose proof (save_ROnly (Node (mkItem fields value) []) idx1) as R2.
    destruct (save _ idx1) as [idx2 rs]. cbn [fst] in R2.
    destruct rs as [[]| |]; try discriminate.
    pose proof (add_ROnly (Node (mkItem fields value) []) idx2) as R3.
    destruct (add _ idx2) as [idx3 ra]. cbn [fst] in R3.
    destruct ra as [[]| |]; try discriminate.
    intros [= <-]. cbn [set_metrics ROnly]. congruence. }
  unfold Put. rewrite Hro', Hw.
  pose proof (One_root fields idx') as R1. pose proof (One_mmap fields idx') as M1.
  pose proof (One_dataSize fields idx') as D1.
  destruct (One fields idx') as [idx1 r]. cbn [fst snd] in *. subst r.
  exists idx1. auto.
Qed.

Lemma Put_error_root fields value idx idx' e :
  Put fields value idx = (idx', Err e) -> rootNode idx' = rootNode idx.
Proof.
  unfold Put. destruct (ROnly idx); [intros [= <- _]; reflexivity|].
  destruct (existsb _ fields); [intros [= <- _]; reflexivity|].
  pose proof (One_root fields idx) as Hr.
  destruct (One fields idx) as [idx1 r]. cbn [fst] in Hr.
  assert (Hex : (idx1, @Err error unit ErrExists) = (idx', Err e) -> rootNode idx' = rootNode idx).
  { intros [= <- _]. assumption. }
  destruct r as [?|[]|]; try exact Hex; try discriminate.
  pose proof (save_root (Node (mkItem fields value) []) idx1) as Hs.
  destruct (save _ idx1) as [idx2 rs]. cbn [fst] in Hs.
  destruct rs as [[]|e2|].
  - unfold add. cbn [item Fields]. destruct fields as [|f0 ftl]; [discriminate|].
    destruct (add_walk _ _ _ _). discriminate.
  - intros [= <- _]. congruence.
  - discriminate.
Qed.

(** X4.  A [Put] that returns an error leaves the trie as it was: this
    holds for every error, those of [save] included. *)
Theorem Put_error_keeps_trie fields value idx idx' e :
  Put fields value idx = (idx', Err e) -> rootNode idx' = rootNode idx.
Proof. apply Put_error_root. Qed.

End WithCodec.

(** Witnesses. *)

Lemma Put_then_One_witness :
  let idx' := fst (Put (H := ItemProto.codec) ["a"] 7 (Samples.fresh 64)) in
  Put (H := ItemProto.codec) ["a"] 7 (Samples.fresh 64) = (idx', Ok tt)
  /\ 7 <> NoValue
  /\ exists it, snd (One ["a"] idx') = Ok it /\ Value it = 7.
Proof.
  intros idx'.
  assert (H1 : Put (H := ItemProto.codec) ["a"] 7 (Samples.fresh 64) = (idx', Ok tt))
    by (vm_compute; reflexivity).
  assert (H2 : 7 <> NoValue) by (vm_compute; discriminate).
  split; [exact H1|]. split; [exact H2|].
  exact (Put_then_One (H := ItemProto.codec) ["a"] 7 (Samples.fresh 64) idx' H1 H2).
Defined.

Lemma Put_keeps_other_answers_witness :
  let idx := fst (Put (H := ItemProto.codec) ["b"] 3 (Samples.fresh 64)) in
  let idx' := fst (Put (H := ItemProto.codec) ["b"; "c"] 7 idx) in
  Put (H := ItemProto.codec) ["b"; "c"] 7 idx = (idx', Ok tt)
  /\ ["b"] <> ["b"; "c"]
  /\ existsb (fun s => String.eqb s "") ["b"] = false
  /\ snd (One ["b"] idx') = snd (One ["b"] idx).
Proof.
  intros idx idx'.
  assert (H1 : Put (H := ItemProto.codec) ["b"; "c"] 7 idx = (idx', Ok tt))
    by (vm_compute; reflexivity).
  assert (H2 : ["b"] <> ["b"; "c"]) by discriminate.
  assert (H3 : existsb (fun s => String.eqb s "") ["b"] = false) by reflexivity.
  split; [exact H1|]. split; [exact H2|]. split; [exact H3|].
  exact (Put_keeps_other_answers (H := ItemProto.codec) ["b"; "c"] 7 idx idx' ["b"] H1 H2 H3).
Defined.

Lemma Put_again_ErrExists_witness :
  let idx' := fst (Put (H := ItemProto.codec) ["a"] 7 (Samples.fresh 64)) in
  Put (H := ItemProto.codec) ["a"] 7 (Samples.fresh 64) = (idx', Ok tt)
  /\ 7 <> NoValue
  /\ exists idx'', Put (H := ItemProto.codec) ["a"] 8 idx' = (idx'', Err ErrExists)
       /\ rootNode idx'' = rootNode idx' /\ mmapFile idx'' = mmapFile idx'
       /\ dataSize idx'' = dataSize idx'.
Proof.
  intros idx'.
  assert (H1 : Put (H := ItemProto.codec) ["a"] 7 (Samples.fresh 64) = (idx', Ok tt))
    by (vm_compute; reflexivity).
  assert (H2 : 7 <> NoValue) by (vm_compute; discriminate).
  split; [exact H1|]. split; [exact H2|].
  exact (Put_again_ErrExists (H := ItemProto.codec) ["a"] 7 8 (Samples.fresh 64) idx' H1 H2).
Defined.

Lemma Put_error_keeps_trie_witness :
  let idx' := fst (Put (H := ItemProto.codec) ["a"] 7 (Samples.fresh 0)) in
  Put (H := ItemProto.codec) ["a"] 7 (Samples.fresh 0) = (idx', Err ErrGrow)
  /\ rootNode idx' = rootNode (Samples.fresh 0).
Proof.
  intros idx'.
  assert (H1 : Put (H := ItemProto.codec) ["a"] 7 (Samples.fresh 0) = (idx', Err ErrGrow))
    by (vm_compute; reflexivity).
  split; [exact H1|].
  exact (Put_error_keeps_trie (H := ItemProto.codec) ["a"] 7 (Samples.fresh 0) idx' ErrGrow H1).
Defined.

End IndexTrieSpec.

(* ================================================================== *)
(** ** Package index: reopening the file *)
(* ================================================================== *)

Module IndexReopenSpec.

Import Index IndexSpec IndexLogSpec IndexTrieSpec.
Local Open Scope Z_scope.

Section Reload.
Context `{ItemCodec}.

Lemma load_replays its tail lim ronly :
  Forall item_ok its -> ends_log tail -> lenZ (log_of its ++ tail) < 2 ^ 32 ->
  exists idx1,
    load (mkIndex ronly root0 (mkMap (log_of its ++ tail) 0 lim) 0 false Metrics0)
    = Some (idx1, Ok tt)
    /\ rootNode idx1 = trie_of its root0
    /\ dataSize idx1 = lenZ (log_of its)
    /\ data (mmapFile idx1) = log_of its ++ tail
    /\ off (mmapFile idx1) = (length (log_of its) + gap tail)%nat
    /\ limit (mmapFile idx1) = lim
    /\ ROnly idx1 = ronly /\ allocating idx1 = false.
Proof.
  intros Hok Htl Hsz.
  set (idx0 := mkIndex ronly root0 (mkMap (log_of its ++ tail) 0 lim) 0 false Metrics0).
  change (load idx0)
    with (load_loop (S (length (log_of its ++ tail))) (lenZ (data (mmapFile idx0))) idx0).
  destruct (load_loop_replays its (S (length (log_of its ++ tail))) idx0 [] tail Hok)
    as (idx1 & Hl & Hr & Hds & Hd & Ho & Hlim & Hro & Hal); try reflexivity; try assumption.
  - rewrite length_app. pose proof (log_of_length its Hok). lia.
  - exists idx1. split; [exact Hl|]. auto 10.
Qed.

(** What [New] makes of a file that holds the log of [its]. *)
Lemma New_opens its tail lim ronly :
  Forall item_ok its -> ends_log tail ->
  lenZ (log_of its ++ tail) <= lim -> lim < 2 ^ 32 ->
  match New ronly (mkMap (log_of its ++ tail) 0 lim) with
  | Some (Ok idx) =>
      rootNode idx = trie_of its root0
      /\ dataSize idx = lenZ (log_of its)
      /\ (exists more, data (mmapFile idx) = (log_of its ++ tail) ++ more
                       /\ Forall (fun b => b = 0) more)
      /\ off (mmapFile idx) = (length (log_of its) + gap tail)%nat
      /\ limit (mmapFile idx) = lim
      /\ Map_Size (mmapFile idx) <= lim
      /\ ROnly idx = ronly
      /\ (ronly = false -> PreallocThresh <= Map_Size (mmapFile idx) - dataSize idx)
  | Some (Err e) =>
      ronly = false /\ e = ErrGrow /\ lim < lenZ (log_of its ++ tail) + PreallocSize
  | _ => False
  end.
Proof.
  intros Hok Htl Hsz Hlim.
  destruct (load_replays its tail lim ronly Hok Htl ltac:(lia))
    as (idx1 & Hl & Hr & Hds & Hd & Ho & Hli & Hro & Hal).
  unfold New. rewrite Hl.
  assert (Hsz1 : Map_Size (mmapFile idx1) <= lim).
  { unfold Map_Size. rewrite Hd. exact Hsz. }
  destruct ronly.
  { do 2 (split; [assumption|]).
    split; [exists []; rewrite app_nil_r; auto|].
    do 4 (split; [assumption|]). discriminate. }
  unfold preallocateIfNeeded.
  destruct (Z.ltb_spec (Map_Size (mmapFile idx1) - dataSize idx1) PreallocThresh)
    as [Hlt|Hge].
  - unfold allocate, Map_Grow.
    destruct (Z.leb_spec (Map_Size (mmapFile idx1) + PreallocSize) (limit (mmapFile idx1)))
      as [Hle|Hgt].
    + cbn [set_allocating set_mmap rootNode dataSize mmapFile data off limit ROnly].
      assert (Hlen : Map_Size (mkMap (data (mmapFile idx1) ++ zeros PreallocSize)
                                 (off (mmapFile idx1)) (limit (mmapFile idx1)))
                     = Map_Size (mmapFile idx1) + PreallocSize).
      { unfold Map_Size. cbn [data]. rewrite length_app.
        unfold zeros. rewrite length_replicate.
        assert (0 <= PreallocSize) by (unfold PreallocSize; lia). lia. }
      rewrite Hlen.
      do 2 (split; [assumption|]).
      split; [exists (zeros PreallocSize); rewrite Hd; split; [reflexivity|apply Forall_zeros]|].
      do 2 (split; [assumption|]). split; [lia|]. split; [assumption|].
      intros _. rewrite Hds. unfold Map_Size. rewrite Hd. unfold lenZ.
      rewrite length_app. unfold PreallocSize, PreallocThresh. lia.
    + split; [reflexivity|]. split; [reflexivity|].
      unfold Map_Size in Hgt. rewrite Hd, Hli in Hgt. exact Hgt.
  - cbn [set_allocating rootNode dataSize mmapFile ROnly].
    do 2 (split; [assumption|]).
    split; [exists []; rewrite app_nil_r; auto|].
    do 4 (split; [assumption|]). intros _. lia.
Qed.

(** A successful [Put] has written its record at the cursor. *)
Lemma Put_writes fields value idx idx' pre tail :
  data (mmapFile idx) = pre ++ tail -> off (mmapFile idx) = length pre ->
  0 <= dataSize idx <= lenZ pre ->
  Map_Size (mmapFile idx) <= limit (mmapFile idx) ->
  limit (mmapFile idx) < 2 ^ 32 ->
  Put fields value idx = (idx', Ok tt) ->
  exists bs tail',
    marshal (mkItem fields value) = Some bs
    /\ data (mmapFile idx') = (pre ++ record bs) ++ tail'
    /\ limit (mmapFile idx') = limit (mmapFile idx)
    /\ Map_Size (mmapFile idx') <= limit (mmapFile idx').
Proof.
  intros Hd Ho Hds Hsz Hlim. unfold Put.
  destruct (ROnly idx); [discriminate|].
  destruct (existsb _ fields); [discriminate|].
  pose proof (One_mmap fields idx) as M1. pose proof (One_dataSize fields idx) as D1.
  destruct (One fields idx) as [idx1 r]. cbn [fst snd] in *.
  destruct r as [?|[]|]; try discriminate.
  destruct (save _ idx1) as [idx2 rs] eqn:Es.
  destruct rs as [[]| |]; try discriminate.
  apply (save_writes _ _ _ pre tail) in Es
    as (bs & tail' & Hm & Hd2 & _ & _ & _ & Hsz2 & Hl2 & _); try congruence.
  cbn [item] in Hm.
  pose proof (add_mmap (Node (mkItem fields value) []) idx2) as M3.
  destruct (add _ idx2) as [idx3 ra]. cbn [fst] in M3.
  destruct ra as [[]| |]; try discriminate.
  intros [= <-]. cbn [set_metrics mmapFile]. rewrite M3.
  exists bs, tail'. split; [assumption|]. split; [assumption|].
  split; [congruence|assumption].
Qed.

(** A [Put] of new fields succeeds when the record fits: between
    [dataSize] and the end of the file, so that [save] does not have to grow
    the file, and between the cursor and the end of the file. *)
Lemma Put_succeeds fields value idx bs :
  ROnly idx = false -> fields <> [] ->
  existsb (fun f => String.eqb f "") fields = false ->
  snd (One fields idx) = Err ErrNoItem ->
  marshal (mkItem fields value) = Some bs ->
  dataSize idx + lenZ bs + 4 <= Map_Size (mmapFile idx) ->
  (off (mmapFile idx) + 4 + length bs <= length (data (mmapFile idx)))%nat ->
  exists idx', Put fields value idx = (idx', Ok tt).
Proof.
  intros Hro Hf Hw Hone Hm Hroom Hcur. unfold Put. rewrite Hro, Hw.
  pose proof (One_mmap fields idx) as M1. pose proof (One_dataSize fields idx) as D1.
  destruct (One fields idx) as [idx1 r]. cbn [fst snd] in *. subst r.
  unfold save. cbn [item]. rewrite Hm. rewrite M1, D1.
  fold (lenZ bs). unfold ItemHeaderSize.
  destruct (Z.ltb_spec (Map_Size (mmapFile idx) - dataSize idx - (lenZ bs + 4)) 0)
    as [?|_]; [lia|].
  set (idx2 := if _ && _ then _ else _).
  assert (Em : mmapFile idx2 = mmapFile idx).
  { unfold idx2. destruct (_ && _); cbn [set_allocating mmapFile]; assumption. }
  clearbody idx2.
  cbn [set_dataSize mmapFile]. rewrite Em.
  unfold Map_Write at 1. change (length (le32 _)) with 4%nat.
  destruct (Nat.leb_spec 4 (length (data (mmapFile idx)) - off (mmapFile idx)))
    as [_|?]; [|lia].
  unfold Map_Write. cbn [data off limit].
  rewrite !length_app, length_take, length_drop. change (length (le32 _)) with 4%nat.
  destruct (Nat.leb_spec (length bs)
              (off (mmapFile idx) `min` length (data (mmapFile idx))
               + (4 + (length (data (mmapFile idx)) - (off (mmapFile idx) + 4)))
               - (off (mmapFile idx) + 4))) as [_|?]; [|lia].
  rewrite Z.eqb_refl.
  match goal with |- context [add ?n ?i] => destruct (add_ok (mkItem fields value) i Hf)
    as (idx3 & Ha & _) end.
  rewrite Ha. eexists. reflexivity.
Qed.

(** The file never shrinks. *)
Lemma Map_Write_size p m m' n :
  Map_Write p m = (m', n, None) -> Map_Size m' = Map_Size m.
Proof.
  intros W. apply Map_Write_ok in W as (L & D & _). unfold Map_Size.
  rewrite D, !length_app, length_take, length_drop. lia.
Qed.

Lemma allocate_size idx idx1 :
  allocate idx = Ok idx1 -> Map_Size (mmapFile idx) <= Map_Size (mmapFile idx1).
Proof.
  unfold allocate, Map_Grow. destruct (_ <=? _); [|discriminate].
  intros [= <-]. unfold Map_Size. cbn [set_mmap mmapFile data]. rewrite length_app. lia.
Qed.

Lemma save_size nd idx idx2 :
  save nd idx = (idx2, Ok tt) -> Map_Size (mmapFile idx) <= Map_Size (mmapFile idx2).
Proof.
  unfold save. destruct (marshal (item nd)) as [bs|]; [|discriminate].
  set (forced := if _ <? 0 then _ else _).
  assert (Hf : forall idx1, forced = Ok idx1 ->
                 Map_Size (mmapFile idx) <= Map_Size (mmapFile idx1)).
  { intros idx1. unfold forced. destruct (_ <? 0).
    - apply allocate_size.
    - intros [= <-]. lia. }
  destruct forced as [idx1| |]; [|discriminate..].
  specialize (Hf idx1 eq_refl).
  set (idx2' := if _ && _ then _ else _).
  assert (Em : mmapFile idx2' = mmapFile idx1).
  { unfold idx2'. destruct (_ && _); reflexivity. }
  clearbody idx2'. cbn [set_dataSize mmapFile]. rewrite Em.
  destruct (Map_Write (le32 _) (mmapFile idx1)) as [[m1 n1] [e1|]] eqn:W1; [discriminate|].
  destruct (Map_Write bs m1) as [[m2 n2] [e2|]] eqn:W2; [discriminate|].
  destruct (_ =? _); [|discriminate].
  intros [= <-]. cbn [set_mmap mmapFile].
  apply Map_Write_size in W1, W2. lia.
Qed.

Lemma Put_size fields value idx idx' :
  Put fields value idx = (idx', Ok tt) ->
  Map_Size (mmapFile idx) <= Map_Size (mmapFile idx').
Proof.
  unfold Put. destruct (ROnly idx); [discriminate|].
  destruct (existsb _ fields); [discriminate|].
  pose proof (One_mmap fields idx) as M1.
  destruct (One fields idx) as [idx1 r]. cbn [fst] in M1.
  destruct r as [?|[]|]; try discriminate.
  destruct (save _ idx1) as [idx2 rs] eqn:Es.
  destruct rs as [[]| |]; try discriminate.
  apply save_size in Es.
  pose proof (add_mmap (Node (mkItem fields value) []) idx2) as M3.
  destruct (add _ idx2) as [idx3 ra]. cbn [fst] in M3.
  destruct ra as [[]| |]; try discriminate.
  intros [= <-]. cbn [set_metrics mmapFile]. rewrite M3, <- M1. assumption.
Qed.

Lemma background_size idx :
  Map_Size (mmapFile idx) <= Map_Size (mmapFile (background idx)).
Proof.
  unfold background. destruct (allocating idx); [|lia].
  unfold preallocateIfNeeded. destruct (_ <? _); [|cbn; lia].
  destruct (allocate idx) as [idx1| |] eqn:Ea; cbn [fst set_allocating mmapFile]; try lia.
  apply allocate_size. assumption.
Qed.

Lemma Put_ok_ROnly fields value idx idx' :
  Put fields value idx = (idx', Ok tt) -> ROnly idx' = false.
Proof.
  unfold Put. destruct (ROnly idx) eqn:Hro; [discriminate|].
  destruct (existsb _ fields); [discriminate|].
  pose proof (One_ROnly fields idx) as R1.
  destruct (One fields idx) as [idx1 r]. cbn [fst] in R1.
  destruct r as [?|[]|]; try discriminate.
  pose proof (save_ROnly (Node (mkItem fields value) []) idx1) as R2.
  destruct (save _ idx1) as [idx2 rs]. cbn [fst] in R2.
  destruct rs as [[]| |]; try discriminate.
  pose proof (add_ROnly (Node (mkItem fields value) []) idx2) as R3.
  destruct (add _ idx2) as [idx3 ra]. cbn [fst] in R3.
  destruct ra as [[]| |]; try discriminate.
  intros [= <-]. cbn [set_metrics ROnly]. congruence.
Qed.

Lemma background_ROnly idx : ROnly (background idx) = ROnly idx.
Proof.
  unfold background. destruct (allocating idx); [|reflexivity].
  unfold preallocateIfNeeded. destruct (_ <? _); [|reflexivity].
  unfold allocate. destruct (Map_Grow _ _); reflexivity.
Qed.

(** X29.  A [Put] of fields that are not in the index succeeds on a writable
    index when the fields are not empty and hold no wildcard, the item has
    bytes, and the record fits twice: between [dataSize] and the end of the
    file, so that [save] does not grow the file, and between the cursor of
    the file and its end. *)
Theorem Put_of_new_fields_succeeds fields value idx bs :
  ROnly idx = false -> fields <> [] ->
  existsb (fun f => String.eqb f "") fields = false ->
  snd (One fields idx) = Err ErrNoItem ->
  marshal (mkItem fields value) = Some bs ->
  dataSize idx + lenZ bs + 4 <= Map_Size (mmapFile idx) ->
  (off (mmapFile idx) + 4 + length bs <= length (data (mmapFile idx)))%nat ->
  exists idx', Put fields value idx = (idx', Ok tt).
Proof. apply Put_succeeds. Qed.

End Reload.

Section FirstSession.
Context `{ItemCodec} {laws : ItemLaws}.

(** The index that [New] makes of a new, empty file is in step with it. *)
Lemma New_empty_consistent lim idx0 :
  lim < 2 ^ 32 -> New false (mkMap [] 0 lim) = Some (Ok idx0) ->
  consistent [] idx0 /\ limit (mmapFile idx0) = lim
  /\ PreallocThresh <= Map_Size (mmapFile idx0) - dataSize idx0.
Proof.
  intros Hlim HN.
  destruct (Z.le_gt_cases 0 lim) as [H0|Hneg].
  - pose proof (New_opens [] [] lim false ltac:(constructor) ltac:(left; reflexivity)
                  H0 Hlim) as HO.
    cbn [log_of app] in HO. rewrite HN in HO.
    destruct HO as (Hr & Hds & (more & Hd & Hz) & Ho & Hli & Hsz & _ & Hslack).
    split; [|split; [assumption|auto]].
    unfold consistent. cbn [log_of]. split; [constructor|].
    split; [exists more; auto|]. split; [exact Ho|]. split; [exact Hds|].
    split; [exact Hr|]. rewrite Hli. assumption.
  - exfalso. revert HN. unfold New.
    change (load (mkIndex false root0 (mkMap [] 0 lim) 0 false Metrics0))
      with (Some (mkIndex false root0 (mkMap [] 0 lim) 0 false Metrics0, @Ok error unit tt)).
    unfold preallocateIfNeeded, allocate, Map_Grow, Map_Size.
    cbn [mmapFile data dataSize length limit].
    change (Z.of_nat 0 - 0 <? PreallocThresh) with true. cbv iota.
    destruct (Z.leb_spec (Z.of_nat 0 + PreallocSize) lim) as [Hle|_]; [|discriminate].
    unfold PreallocSize in Hle. lia.
Qed.

(** X28.  Persistence in the first session.  A session of successful puts of
    [uint32] values on the index that [New] makes of a new, empty file,
    below 4 GiB, that leaves the file full or with room for a header: opening
    the file again replays the log into the same trie and data size, and
    [One] of the fields of a put returns the value that was put, unless that
    value is [NoValue].  (A writable reopen can fail in its
    preallocation.) *)
Theorem first_session_persists (lim : Z) (ops : list op) (idx0 idx : index)
    (ronly : bool) :
  lim < 2 ^ 32 -> New false (mkMap [] 0 lim) = Some (Ok idx0) ->
  Forall op_ok ops -> run ops idx0 = Some idx ->
  (Map_Size (mmapFile idx) = dataSize idx \/ dataSize idx + 4 <= Map_Size (mmapFile idx)) ->
  reopens_as ops idx (New ronly (reopened (mmapFile idx))) ronly.
Proof.
  intros Hlim HN Hok Hrun Htail.
  destruct (New_empty_consistent lim idx0 Hlim HN) as (Hc & Hl & _).
  apply (reopen_after_puts idx0 idx [] ops ronly Hc); try assumption. lia.
Qed.

End FirstSession.

Section Lost.
Context `{ItemCodec}.

(** C6.  The put of a session that follows a reopen is lost.  A file holds
    the log of some items and then the zero header of the preallocated
    space.  [New] opens it for writing: the replay of [load] reads that
    header and leaves the cursor of the file four bytes past the end of the
    log.  A [Put] that succeeds writes its record at the cursor, after four
    zero bytes.  [One] finds the item while the index is open; every later
    [New] on the file stops its replay at the zero bytes and gives the trie
    of before the put, in which [One] answers [ErrNoItem]. *)
Theorem put_after_reopen_is_lost (its : list Item) (rest : list byte) (lim : Z)
    (fields : list string) (value : Z) (idx idx' : index) :
  let file := log_of its ++ 0 :: 0 :: 0 :: 0 :: rest in
  Forall item_ok its -> lenZ file <= lim -> lim < 2 ^ 32 ->
  New false (mkMap file 0 lim) = Some (Ok idx) ->
  Put fields value idx = (idx', Ok tt) -> value <> NoValue ->
  (exists it, snd (One fields idx') = Ok it /\ Value it = value)
  /\ (exists idx_r, New true (reopened (mmapFile idx')) = Some (Ok idx_r))
  /\ forall ronly idx_r,
       New ronly (reopened (mmapFile idx')) = Some (Ok idx_r) ->
       rootNode idx_r = rootNode idx /\ snd (One fields idx_r) = Err ErrNoItem.
Proof.
  intros file Hok Hsz Hlim HN HP Hv.
  split; [exact (Put_ok_One fields value idx idx' HP Hv)|].
  assert (Htl : ends_log (0 :: 0 :: 0 :: 0 :: rest)) by (right; eauto).
  pose proof (New_opens its _ lim false Hok Htl Hsz Hlim) as HO.
  fold file in HO. rewrite HN in HO.
  destruct HO as (Hr & Hds & (more & Hd & _) & Ho & Hli & Hsz' & _ & _).
  cbn [gap] in Ho.
  destruct (Put_writes fields value idx idx' (log_of its ++ [0; 0; 0; 0]) (rest ++ more))
    as (bs & tail' & _ & Hd' & Hli' & Hsz''); try assumption.
  - rewrite Hd. unfold file. rewrite <- !app_assoc. reflexivity.
  - rewrite Ho, length_app. reflexivity.
  - rewrite Hds. unfold lenZ. rewrite length_app. lia.
  - lia.
  - lia.
  - assert (Hfile : reopened (mmapFile idx')
              = mkMap (log_of its ++ 0 :: 0 :: 0 :: 0 :: (record bs ++ tail')) 0 lim).
    { unfold reopened. rewrite Hd', Hli', Hli, <- !app_assoc. reflexivity. }
    rewrite Hfile.
    assert (Htl' : ends_log (0 :: 0 :: 0 :: 0 :: (record bs ++ tail'))) by (right; eauto).
    assert (Hsz3 : lenZ (log_of its ++ 0 :: 0 :: 0 :: 0 :: (record bs ++ tail')) <= lim).
    { unfold Map_Size in Hsz''. rewrite Hd', <- !app_assoc in Hsz''.
      cbn [app] in Hsz''. unfold lenZ. lia. }
    apply Put_ok_inv in HP as (_ & _ & Hno & _ & _).
    split.
    + pose proof (New_opens its _ lim true Hok Htl' Hsz3 Hlim) as HO.
      destruct (New true _) as [[idx_r|e|]|]; try contradiction.
      * eauto.
      * destruct HO as [? _]. discriminate.
    + intros ronly idx_r HNr.
      pose proof (New_opens its _ lim ronly Hok Htl' Hsz3 Hlim) as HO.
      rewrite HNr in HO. destruct HO as (Hr' & _).
      split; [congruence|].
      rewrite One_One_in, Hr', <- Hr, <- One_One_in. assumption.
Qed.

End Lost.

(** Witnesses. *)

(** A file of 64 bytes that holds the record of the item [a] with value 1
    and then zeros, on a disk with room for one preallocation: it is opened
    for writing, [Put(["b"], 2)] succeeds, and the file is opened again. *)
Lemma put_after_reopen_is_lost_witness :
  let its := [mkItem ["a"] 1] in
  let file := log_of (H := ItemProto.codec) its ++ 0 :: 0 :: 0 :: 0 :: replicate 51 0 in
  let lim := 64 + PreallocSize in
  exists idx idx',
    Forall (item_ok (H := ItemProto.codec)) its /\ lenZ file <= lim /\ lim < 2 ^ 32
    /\ New (H := ItemProto.codec) false (mkMap file 0 lim) = Some (Ok idx)
    /\ Put (H := ItemProto.codec) ["b"] 2 idx = (idx', Ok tt)
    /\ 2 <> NoValue
    /\ (exists it, snd (One ["b"] idx') = Ok it /\ Value it = 2)
    /\ (exists idx_r,
          New (H := ItemProto.codec) true (reopened (mmapFile idx')) = Some (Ok idx_r))
    /\ forall ronly idx_r,
         New (H := ItemProto.codec) ronly (reopened (mmapFile idx')) = Some (Ok idx_r) ->
         rootNode idx_r = rootNode idx /\ snd (One ["b"] idx_r) = Err ErrNoItem.
Proof.
  intros its file lim.
  assert (H1 : Forall (item_ok (H := ItemProto.codec)) its).
  { constructor; [|constructor].
    split; [discriminate|]. split; [split; [discriminate|reflexivity]|].
    exists [10; 1; 97; 16; 1]. split; [reflexivity|]. split; [discriminate|reflexivity]. }
  assert (H2 : lenZ file <= lim) by (vm_compute; discriminate).
  assert (H3 : lim < 2 ^ 32) by reflexivity.
  assert (H6 : 2 <> NoValue) by (vm_compute; discriminate).
  assert (Htl : ends_log (0 :: 0 :: 0 :: 0 :: replicate 51 0)) by (right; eauto).
  pose proof (New_opens (H := ItemProto.codec) its _ lim false H1 Htl H2 H3) as HO.
  fold file in HO.
  destruct (New (H := ItemProto.codec) false (mkMap file 0 lim)) as [[idx|e|]|] eqn:H4;
    try contradiction.
  2:{ destruct HO as (_ & _ & Hlt). vm_compute in Hlt. discriminate. }
  destruct HO as (Hr & Hds & (more & Hd & _) & Ho & _ & _ & Hro & _).
  change (lenZ (log_of its)) with 9 in Hds.
  change (off (mmapFile idx) = 13%nat) in Ho.
  assert (Hlen : length (data (mmapFile idx)) = (64 + length more)%nat).
  { rewrite Hd, length_app. reflexivity. }
  destruct (Put_succeeds (H := ItemProto.codec) ["b"] 2 idx [10; 1; 98; 16; 2])
    as [idx' H5].
  - exact Hro.
  - discriminate.
  - reflexivity.
  - rewrite One_One_in, Hr. reflexivity.
  - reflexivity.
  - rewrite Hds. unfold Map_Size. rewrite Hlen.
    change (lenZ [10; 1; 98; 16; 2]) with 5. lia.
  - rewrite Ho, Hlen. change (length [10; 1; 98; 16; 2]) with 5%nat. lia.
  - exists idx, idx'. do 3 (split; [assumption|]). split; [reflexivity|].
    split; [exact H5|]. split; [exact H6|].
    exact (put_after_reopen_is_lost (H := ItemProto.codec) its (replicate 51 0) lim
             ["b"] 2 idx idx' H1 H2 H3 H4 H5 H6).
Defined.

(** A put of new fields on a fresh file of 64 bytes. *)
Lemma Put_of_new_fields_succeeds_witness :
  let idx := Samples.fresh 64 in
  let bs := [10; 1; 97; 16; 7] in
  ROnly idx = false /\ ["a"] <> []
  /\ existsb (fun f => String.eqb f "") ["a"] = false
  /\ snd (One ["a"] idx) = Err ErrNoItem
  /\ marshal (ItemCodec := ItemProto.codec) (mkItem ["a"] 7) = Some bs
  /\ dataSize idx + lenZ bs + 4 <= Map_Size (mmapFile idx)
  /\ (off (mmapFile idx) + 4 + length bs <= length (data (mmapFile idx)))%nat
  /\ exists idx', Put (H := ItemProto.codec) ["a"] 7 idx = (idx', Ok tt).
Proof.
  intros idx bs.
  assert (H1 : ROnly idx = false) by reflexivity.
  assert (H2 : ["a"] <> []) by discriminate.
  assert (H3 : existsb (fun f => String.eqb f "") ["a"] = false) by reflexivity.
  assert (H4 : snd (One ["a"] idx) = Err ErrNoItem) by reflexivity.
  assert (H5 : marshal (ItemCodec := ItemProto.codec) (mkItem ["a"] 7) = Some bs)
    by reflexivity.
  assert (H6 : dataSize idx + lenZ bs + 4 <= Map_Size (mmapFile idx))
    by (vm_compute; discriminate).
  assert (H7 : (off (mmapFile idx) + 4 + length bs <= length (data (mmapFile idx)))%nat)
    by (vm_compute; lia).
  do 7 (split; [assumption|]).
  exact (Put_of_new_fields_succeeds (H := ItemProto.codec) ["a"] 7 idx bs
           H1 H2 H3 H4 H5 H6 H7).
Defined.

(** The session of two puts, with the goroutine in between, runs on the
    index that [New] makes of a new file on a disk with room for one
    preallocation. *)
Lemma first_session_runs :
  exists idx0 idx,
    New (H := ItemProto.codec) false (mkMap [] 0 PreallocSize) = Some (Ok idx0)
    /\ run (H := ItemProto.codec) Samples.session idx0 = Some idx
    /\ dataSize idx + 4 <= Map_Size (mmapFile idx).
Proof.
  assert (H1 : PreallocSize < 2 ^ 32) by reflexivity.
  assert (Ht : 64 <= PreallocThresh) by (vm_compute; discriminate).
  pose proof (New_opens (H := ItemProto.codec) [] [] PreallocSize false
                ltac:(constructor) ltac:(left; reflexivity)
                ltac:(vm_compute; discriminate) H1) as HO.
  cbn [log_of app] in HO.
  destruct (New (H := ItemProto.codec) false (mkMap [] 0 PreallocSize))
    as [[idx0|e|]|] eqn:H2; try contradiction.
  2:{ destruct HO as (_ & _ & Hlt). vm_compute in Hlt. discriminate. }
  destruct HO as (_ & _ & _ & _ & _ & _ & Hro0 & _).
  destruct (New_empty_consistent (H := ItemProto.codec) PreallocSize idx0 H1 H2)
    as (Hc0 & Hl0 & Hs0).
  pose proof Hc0 as (_ & _ & Ho0 & Hd0 & Hr0 & _). cbn [log_of length] in Ho0, Hd0.
  change (lenZ []) with 0 in Hd0. change (trie_of [] root0) with root0 in Hr0.
  unfold Map_Size in Hs0.
  (* the first put *)
  destruct (Put_succeeds (H := ItemProto.codec) ["a"] 1 idx0 [10; 1; 97; 16; 1])
    as [idx1 HP1]; try reflexivity; try assumption.
  { discriminate. }
  { rewrite One_One_in, Hr0. reflexivity. }
  { rewrite Hd0. unfold Map_Size. change (lenZ [10; 1; 97; 16; 1]) with 5. lia. }
  { rewrite Ho0. change (length [10; 1; 97; 16; 1]) with 5%nat. lia. }
  destruct (Put_consistent (laws := ItemProto_laws) [] idx0 ["a"] 1 idx1 Hc0 ltac:(lia)
              ltac:(split; [discriminate|reflexivity]) HP1) as (Hc1 & Hl1 & _).
  pose proof (Put_size _ _ _ _ HP1) as Hz1. unfold Map_Size in Hz1.
  (* the goroutine *)
  destruct (background_consistent _ idx1 Hc1) as (Hc2 & Hl2 & _).
  pose proof (background_size idx1) as Hz2. unfold Map_Size in Hz2.
  pose proof Hc2 as (_ & _ & Ho2 & Hd2 & Hr2 & _).
  change (length (log_of ([] ++ [mkItem ["a"] 1]))) with 9%nat in Ho2.
  change (lenZ (log_of ([] ++ [mkItem ["a"] 1]))) with 9 in Hd2.
  (* the second put *)
  destruct (Put_succeeds (H := ItemProto.codec) ["a"; "b"] 2 (background idx1)
              [10; 1; 97; 10; 1; 98; 16; 2])
    as [idx2 HP2]; try reflexivity.
  { rewrite background_ROnly. exact (Put_ok_ROnly _ _ _ _ HP1). }
  { discriminate. }
  { rewrite One_One_in, Hr2. reflexivity. }
  { rewrite Hd2. unfold Map_Size. change (lenZ [10; 1; 97; 10; 1; 98; 16; 2]) with 8. lia. }
  { rewrite Ho2. change (length [10; 1; 97; 10; 1; 98; 16; 2]) with 8%nat. lia. }
  destruct (Put_consistent (laws := ItemProto_laws) _ (background idx1) ["a"; "b"] 2 idx2
              Hc2 ltac:(lia) ltac:(split; [discriminate|reflexivity]) HP2)
    as (Hc3 & Hl3 & _).
  pose proof (Put_size _ _ _ _ HP2) as Hz3. unfold Map_Size in Hz3.
  pose proof Hc3 as (_ & _ & _ & Hd3 & _).
  change (lenZ (log_of (([] ++ [mkItem ["a"] 1]) ++ [mkItem ["a"; "b"] 2]))) with 21 in Hd3.
  exists idx0, idx2. split; [reflexivity|]. split.
  - unfold Samples.session. cbn [run]. rewrite HP1. cbn [run]. rewrite HP2. reflexivity.
  - rewrite Hd3. unfold Map_Size. lia.
Qed.

(** The session of two puts on a new file, then a read-only reopen. *)
Lemma first_session_persists_witness :
  exists idx0 idx,
    PreallocSize < 2 ^ 32
    /\ New (H := ItemProto.codec) false (mkMap [] 0 PreallocSize) = Some (Ok idx0)
    /\ Forall op_ok Samples.session
    /\ run (H := ItemProto.codec) Samples.session idx0 = Some idx
    /\ (Map_Size (mmapFile idx) = dataSize idx
        \/ dataSize idx + 4 <= Map_Size (mmapFile idx))
    /\ reopens_as Samples.session idx
         (New (H := ItemProto.codec) true (reopened (mmapFile idx))) true.
Proof.
  destruct first_session_runs as (idx0 & idx & H2 & H4 & Hs).
  assert (H1 : PreallocSize < 2 ^ 32) by reflexivity.
  assert (H3 : Forall op_ok Samples.session) by (repeat constructor; discriminate).
  assert (H5 : Map_Size (mmapFile idx) = dataSize idx
               \/ dataSize idx + 4 <= Map_Size (mmapFile idx)) by (right; exact Hs).
  exists idx0, idx. do 5 (split; [assumption|]).
  exact (first_session_persists (H := ItemProto.codec) (laws := ItemProto_laws)
           PreallocSize Samples.session idx0 idx true H1 H2 H3 H4 H5).
Defined.

End IndexReopenSpec.

(* ================================================================== *)
(** ** Package index: what Get returns *)
(* ================================================================== *)

Module IndexGetSpec.

Import Index IndexSpec IndexLogSpec IndexTrieSpec.
Local Open Scope Z_scope.

Lemma node_rect' (P : node -> Prop) :
  (forall it ch, Forall (fun kn => P (snd kn)) ch -> P (Node it ch)) ->
  forall n, P n.
Proof.
  intros Hn. fix IH 1. intros [it ch]. apply Hn.
  induction ch as [|[k c] tl IHtl]; constructor; [apply IH|apply IHtl].
Qed.

Lemma find_eq it ch :
  find (Node it ch)
  = (if Value it =? NoValue then [] else [it]) ++ flat_map (fun p => find (snd p)) ch.
Proof. reflexivity. Qed.

Lemma children_get_In k ch n : children_get k ch = Some n -> In (k, n) ch.
Proof.
  induction ch as [|[k' n'] ch IH]; cbn [children_get]; [discriminate|].
  destruct (String.eqb_spec k k') as [->|Hne].
  - intros [= ->]. left. reflexivity.
  - intros Hg. right. auto.
Qed.

Lemma children_get_NoDup k ch n :
  NoDup (map fst ch) -> In (k, n) ch -> children_get k ch = Some n.
Proof.
  induction ch as [|[k' n'] ch IH]; cbn [children_get map fst]; [intros _ []|].
  intros Hnd [Heq|Hin].
  - injection Heq as -> ->. rewrite String.eqb_refl. reflexivity.
  - apply NoDup_cons in Hnd as [Hni Hnd].
    destruct (String.eqb_spec k k') as [->|Hne].
    + exfalso. apply Hni. apply list_elem_of_In.
      change k' with (fst (k', n)). apply in_map. assumption.
    + auto.
Qed.

Lemma find_self n : Value (item n) <> NoValue -> exists rest, find n = item n :: rest.
Proof.
  destruct n as [it ch]. rewrite find_eq. cbn [item].
  destruct (Z.eqb_spec (Value it) NoValue); [contradiction|].
  intros _. eexists. reflexivity.
Qed.

Lemma find_child k c it0 ch it :
  In (k, c) ch -> In it (find c) -> In it (find (Node it0 ch)).
Proof.
  intros Hin Hit. rewrite find_eq. apply in_or_app. right.
  apply in_flat_map. exists (k, c). auto.
Qed.

(** what [One] finds below a node is among what [find] collects there *)
Lemma One_walk_find q : forall n nd,
  One_walk n q = Ok nd -> Value (item nd) <> NoValue -> In (item nd) (find n).
Proof.
  induction q as [|x q IH]; intros n nd; cbn [One_walk].
  - intros [= ->] Hv. destruct (find_self nd Hv) as (rest & ->). left. reflexivity.
  - destruct (String.eqb x ""); [discriminate|].
    destruct (children_get x (children n)) as [c|] eqn:Ec; [|discriminate].
    intros Hw Hv. destruct n as [it0 ch]. cbn [children] in Ec.
    eapply find_child; [apply children_get_In; eassumption|]. eauto.
Qed.

Lemma One_walk_app p : forall q root nd,
  One_walk root (p ++ q) = Ok nd ->
  exists n, One_walk root p = Ok n /\ One_walk n q = Ok nd.
Proof.
  induction p as [|x p IH]; intros q root nd; cbn [app One_walk].
  - intros Hq. eauto.
  - destruct (String.eqb x ""); [discriminate|].
    destruct (children_get x (children root)) as [c|]; [|discriminate].
    apply IH.
Qed.

Lemma One_walk_app_r p : forall q root n,
  One_walk root p = Ok n -> One_walk root (p ++ q) = One_walk n q.
Proof.
  induction p as [|x p IH]; intros q root n; cbn [app One_walk].
  - intros [= ->]. reflexivity.
  - destruct (String.eqb x ""); [discriminate|].
    destruct (children_get x (children root)) as [c|]; [|discriminate].
    apply IH.
Qed.

(** the first loop of [Get] is the walk of [One] along the fields before
    the first wildcard *)
Lemma Get_walk_before fields : forall root,
  Get_walk root fields
  = match One_walk root (before_wildcard fields) with
    | Ok n => Some (n, existsb (fun f => negb (String.eqb f ""))
                         (drop (length (before_wildcard fields)) fields))
    | _ => None
    end.
Proof.
  induction fields as [|v tl IH]; intros root; cbn [Get_walk before_wildcard].
  - reflexivity.
  - destruct (String.eqb v "") eqn:Ev; cbn [One_walk length drop].
    + reflexivity.
    + rewrite Ev. destruct (children_get v (children root)) as [c|]; [|reflexivity].
      apply IH.
Qed.

Lemma before_wildcard_app p w :
  existsb (fun s => String.eqb s "") p = false ->
  match w with [] => True | x :: _ => x = "" end ->
  before_wildcard (p ++ w) = p.
Proof.
  intros Hp Hw. induction p as [|x p IH]; cbn [app before_wildcard].
  - destruct w as [|y w]; [reflexivity|]. subst y. reflexivity.
  - cbn [existsb] in Hp. apply orb_false_elim in Hp as [-> Hp].
    rewrite IH by assumption. reflexivity.
Qed.

Lemma One_walk_no_wildcard p : forall root n,
  One_walk root p = Ok n -> existsb (fun s => String.eqb s "") p = false.
Proof.
  induction p as [|x p IH]; intros root n; cbn [One_walk existsb]; [reflexivity|].
  destruct (String.eqb x ""); [discriminate|].
  destruct (children_get x (children root)) as [c|]; [|discriminate].
  cbn [orb]. apply IH.
Qed.

(** X5.  An item that [One] finds under [p ++ q] is in the result of [Get]
    for the prefix [p] followed by wildcards; when the item is at [p]
    itself ([q] is empty) it is the first of the result. *)
Theorem One_listed_by_prefix_Get (p q w : list string) (it : Item) (idx : index) :
  snd (One (p ++ q) idx) = Ok it ->
  Forall (fun s => s = "") w ->
  exists items, snd (Get (p ++ w) idx) = Ok items /\ In it items
    /\ (q = [] -> exists rest, items = it :: rest).
Proof.
  intros Ho Hw. rewrite One_One_in in Ho. unfold One_in in Ho.
  destruct (One_walk (rootNode idx) (p ++ q)) as [nd| |] eqn:Ewalk; try discriminate.
  destruct (Z.eqb_spec (Value (item nd)) NoValue) as [|Hv]; [discriminate|].
  injection Ho as <-.
  destruct (One_walk_app p q _ _ Ewalk) as (n & Hp & Hq).
  pose proof (One_walk_no_wildcard _ _ _ Hp) as Hnw.
  unfold Get. rewrite Get_walk_before.
  rewrite before_wildcard_app; [|assumption|destruct Hw; auto].
  rewrite Hp, drop_app_length.
  assert (Hf : existsb (fun f => negb (String.eqb f "")) w = false).
  { induction Hw as [|x w -> _ IH]; [reflexivity|]. cbn. exact IH. }
  rewrite Hf. cbn [negb snd]. eexists. split; [reflexivity|]. split.
  - eapply One_walk_find; eassumption.
  - intros ->. cbn [One_walk] in Hq. injection Hq as ->. apply find_self. assumption.
Qed.

(** the loop of the filter on one item that is not longer than the query *)
Lemma filter_item_matches fields : forall rest j,
  (j + length rest <= length fields)%nat ->
  filter_item fields j rest = Ok (matches (drop j fields) rest).
Proof.
  induction rest as [|x rest IH]; intros j Hlen; cbn [filter_item length] in *.
  - destruct (drop j fields); reflexivity.
  - destruct (fields !! j) as [fj|] eqn:Ej.
    2:{ apply lookup_ge_None in Ej. lia. }
    rewrite (drop_S _ _ _ Ej). cbn [matches].
    destruct (String.eqb fj ""); cbn [negb andb orb].
    + apply IH. lia.
    + destruct (String.eqb fj x); cbn [negb andb].
      * apply IH. lia.
      * reflexivity.
Qed.

Lemma filter_items_keeps (fields : list string) (items : list Item) :
  Forall (fun it => (length (Fields it) <= length fields)%nat) items ->
  filter_items fields items
  = Ok (List.filter (fun it => matches fields (Fields it)) items).
Proof.
  induction 1 as [|it items Hit _ IH]; cbn [filter_items List.filter]; [reflexivity|].
  rewrite filter_item_matches by (cbn; lia). rewrite drop_0, IH.
  destruct (matches fields (Fields it)); reflexivity.
Qed.

(** X6.  When no item has more fields than the query, the filter of [Get]
    does not panic and keeps exactly the items that agree with the query on
    every position the item has: a position of the query beyond the end of
    an item is never looked at, so short items pass. *)
Theorem filter_items_keeps_matching (fields : list string) (items : list Item) :
  Forall (fun it => (length (Fields it) <= length fields)%nat) items ->
  filter_items fields items
  = Ok (List.filter (fun it => matches fields (Fields it)) items).
Proof. apply filter_items_keeps. Qed.

(** *** The paths of the trie *)

Lemma paths_ok_root0 : paths_ok [] root0.
Proof. constructor; [reflexivity|constructor|constructor]. Qed.

Lemma children_set_Forall (Q : string * node -> Prop) k n ch :
  Forall Q ch -> Q (k, n) -> Forall Q (children_set k n ch).
Proof.
  intros Hch Hq. induction Hch as [|[k' n'] ch Hx Hch IH]; cbn [children_set].
  - constructor; [assumption|constructor].
  - destruct (String.eqb_spec k k') as [->|Hne]; constructor; assumption.
Qed.

Lemma children_set_keys k n ch x :
  x ∈ map fst (children_set k n ch) -> x = k \/ x ∈ map fst ch.
Proof.
  induction ch as [|[k' n'] ch IH]; cbn [children_set map fst].
  - intros Hin. apply list_elem_of_singleton in Hin. auto.
  - destruct (String.eqb_spec k k') as [->|Hne]; cbn [map fst].
    + auto.
    + intros Hin. apply elem_of_cons in Hin as [->|Hin].
      * right. left.
      * destruct (IH Hin); [auto|]. right. right. assumption.
Qed.

Lemma children_set_NoDup k n ch :
  NoDup (map fst ch) -> NoDup (map fst (children_set k n ch)).
Proof.
  induction ch as [|[k' n'] ch IH]; cbn [children_set map fst]; intros Hnd.
  - apply NoDup_singleton.
  - apply NoDup_cons in Hnd as [Hni Hnd].
    destruct (String.eqb_spec k k') as [->|Hne]; cbn [map fst].
    + apply NoDup_cons. auto.
    + apply NoDup_cons. split; [|auto].
      intros Hin. apply children_set_keys in Hin as [->|Hin]; [congruence|contradiction].
Qed.

Lemma paths_ok_child p it0 ch k c :
  paths_ok p (Node it0 ch) -> children_get k ch = Some c ->
  k <> "" /\ paths_ok (p ++ [k]) c.
Proof.
  intros Hpo Hg. inversion Hpo as [p' it' ch' Hf Hnd Hall]; subst.
  apply children_get_In in Hg.
  rewrite List.Forall_forall in Hall. exact (Hall _ Hg).
Qed.

Lemma paths_ok_set p it0 ch k c :
  paths_ok p (Node it0 ch) -> k <> "" -> paths_ok (p ++ [k]) c ->
  paths_ok p (Node it0 (children_set k c ch)).
Proof.
  intros Hpo Hk Hc. inversion Hpo as [p' it' ch' Hf Hnd Hall]; subst.
  constructor; [reflexivity|apply children_set_NoDup; assumption|].
  apply children_set_Forall; [assumption|]. cbn [fst snd]. auto.
Qed.

(** [add] keeps the trie well formed *)
Lemma add_walk_paths_ok it : forall rest i root p,
  paths_ok p root -> Fields it = p ++ rest -> length p = i ->
  existsb (fun s => String.eqb s "") rest = false ->
  paths_ok p (fst (add_walk (Node it []) i rest root)).
Proof.
  induction rest as [|field tl IH]; intros i root p Hpo Hf Hi Hw; [exact Hpo|].
  cbn [existsb] in Hw. apply orb_false_elim in Hw as [Hfield Htl].
  assert (Hne : field <> "") by (intros ->; discriminate).
  destruct root as [rit ch]. cbn [add_walk children item].
  destruct tl as [|t tl'].
  - destruct (children_get field ch) as [[lit lch]|] eqn:El; cbn [fst item children].
    + apply paths_ok_set; [assumption..|].
      destruct (paths_ok_child _ _ _ _ _ Hpo El) as [_ Hl].
      inversion Hl; subst. constructor; assumption.
    + apply paths_ok_set; [assumption..|].
      constructor; [assumption|constructor|constructor].
  - set (newRoot := match children_get field ch with
                    | Some n => (n, 0)
                    | None => (Node (mkItem (take (S i) (Fields it)) NoValue) [], 1)
                    end).
    assert (Hnr : paths_ok (p ++ [field]) (fst newRoot)).
    { unfold newRoot. destruct (children_get field ch) as [n|] eqn:El; cbn [fst].
      - exact (proj2 (paths_ok_child _ _ _ _ _ Hpo El)).
      - constructor; [|constructor|constructor]. cbn [Fields].
        rewrite Hf, <- Hi.
        change (field :: t :: tl') with ([field] ++ t :: tl').
        rewrite app_assoc.
        replace (S (length p)) with (length (p ++ [field]))
          by (rewrite length_app; cbn; lia).
        apply take_app_length. }
    destruct newRoot as [nr created]. cbn [fst] in Hnr.
    specialize (IH (S i) nr (p ++ [field]) Hnr).
    destruct (add_walk (Node it []) (S i) (t :: tl') nr) as [nr' more].
    cbn [fst] in *. apply paths_ok_set; [assumption..|].
    apply IH; [|rewrite length_app; cbn; lia|assumption].
    rewrite Hf, <- app_assoc. reflexivity.
Qed.

(** every item that [find] collects lies on the path its fields spell *)
Lemma find_path : forall n p, paths_ok p n -> forall it, In it (find n) ->
  exists q nd, Fields it = p ++ q /\ One_walk n q = Ok nd /\ item nd = it
               /\ Value it <> NoValue.
Proof.
  induction n as [it0 ch IH] using node_rect'. intros p Hpo it.
  inversion Hpo as [p' it' ch' Hf Hnd Hall]; subst.
  rewrite find_eq. intros Hin. apply in_app_or in Hin as [Hin|Hin].
  - destruct (Z.eqb_spec (Value it0) NoValue) as [|Hv]; [destruct Hin|].
    destruct Hin as [<-|[]]. exists [], (Node it0 ch).
    rewrite app_nil_r. auto.
  - apply in_flat_map in Hin as ([k c] & Hkc & Hit). cbn [snd] in Hit.
    rewrite List.Forall_forall in IH, Hall.
    destruct (Hall _ Hkc) as [Hk Hc]. cbn [fst snd] in Hk, Hc.
    destruct (IH _ Hkc _ Hc _ Hit) as (q & nd & Hq & Hw & Hi & Hv).
    exists (k :: q), nd. split; [rewrite Hq, <- app_assoc; reflexivity|].
    split; [|auto]. cbn [One_walk children].
    destruct (String.eqb_spec k ""); [contradiction|].
    rewrite (children_get_NoDup k ch c Hnd Hkc). assumption.
Qed.

Section WithCodec.
Context `{ItemCodec}.

Lemma background_root idx :
  ROnly (background idx) = ROnly idx /\ dataSize (background idx) = dataSize idx
  /\ rootNode (background idx) = rootNode idx.
Proof.
  unfold background. destruct (allocating idx); [|auto].
  unfold preallocateIfNeeded. destruct (_ <? _); [|auto].
  unfold allocate. destruct (Map_Grow _ _); auto.
Qed.

Lemma Put_paths_ok fields value idx :
  paths_ok [] (rootNode idx) ->
  paths_ok [] (rootNode (fst (Put fields value idx))).
Proof.
  intros Hpo. destruct (Put fields value idx) as [idx' r] eqn:EP. cbn [fst].
  destruct r as [[]|e|].
  - apply Put_ok_inv in EP as (_ & Hw & _ & _ & ->).
    apply add_walk_paths_ok; auto.
  - rewrite (Put_error_root _ _ _ _ _ EP). assumption.
  - revert EP. unfold Put. destruct (ROnly idx); [discriminate|].
    destruct (existsb _ fields) eqn:Hw; [discriminate|].
    pose proof (One_root fields idx) as Hr.
    destruct (One fields idx) as [idx1 r]. cbn [fst] in Hr.
    destruct r as [?|[]|]; try discriminate.
    + pose proof (save_root (Node (mkItem fields value) []) idx1) as Hs.
      destruct (save _ idx1) as [idx2 rs]. cbn [fst] in Hs.
      destruct rs as [[]|e2|]; try discriminate.
      * unfold add. cbn [item Fields]. destruct fields as [|f0 ftl].
        -- intros [= <-]. congruence.
        -- destruct (add_walk _ _ _ _). discriminate.
      * intros [= <-]. congruence.
    + intros [= <-]. congruence.
Qed.

Lemma run_paths_ok ops : forall idx0 idx,
  paths_ok [] (rootNode idx0) -> run ops idx0 = Some idx -> paths_ok [] (rootNode idx).
Proof.
  induction ops as [|[f v|] ops IH]; intros idx0 idx Hpo; cbn [run].
  - intros [= <-]. assumption.
  - pose proof (Put_paths_ok f v idx0 Hpo) as Hp.
    destruct (Put f v idx0) as [idx1 [[]| |]]; try discriminate. apply IH. exact Hp.
  - apply IH. rewrite (proj2 (proj2 (background_root idx0))). assumption.
Qed.

(** X7.  [Put] keeps the trie well formed ([paths_ok]): every node carries
    the path that leads to it as its fields, no edge is the wildcard, and a
    node has one child per field.  This holds whether [Put] succeeds or
    not. *)
Theorem Put_keeps_paths_ok fields value idx :
  paths_ok [] (rootNode idx) ->
  paths_ok [] (rootNode (fst (Put fields value idx))).
Proof. apply Put_paths_ok. Qed.

End WithCodec.

(** X8.  In a well-formed trie every item that [Get] with the single
    wildcard returns is found by [One] under the item's own fields. *)
Theorem Get_all_found_by_One (idx : index) (items : list Item) (it : Item) :
  paths_ok [] (rootNode idx) ->
  snd (Get [""] idx) = Ok items -> In it items ->
  snd (One (Fields it) idx) = Ok it.
Proof.
  intros Hpo. unfold Get. cbn [Get_walk String.eqb existsb negb orb snd].
  intros [= <-] Hin.
  destruct (find_path _ _ Hpo _ Hin) as (q & nd & Hq & Hw & Hi & Hv).
  cbn [app] in Hq. rewrite One_One_in. unfold One_in. rewrite Hq, Hw, Hi.
  destruct (Z.eqb_spec (Value it) NoValue); [contradiction|reflexivity].
Qed.

Lemma matches_prefix fields : forall itf,
  matches fields itf = true ->
  (length (before_wildcard fields) <= length itf)%nat ->
  exists q, itf = before_wildcard fields ++ q.
Proof.
  induction fields as [|v tl IH]; intros itf; cbn [before_wildcard].
  - intros _ _. exists itf. reflexivity.
  - destruct (String.eqb v "") eqn:Ev.
    + intros _ _. exists itf. reflexivity.
    + destruct itf as [|x xs]; cbn [matches length]; [lia|].
      rewrite Ev. cbn [orb]. intros Hm Hl. apply andb_prop in Hm as [Hx Hm].
      apply String.eqb_eq in Hx as <-.
      destruct (IH xs Hm ltac:(lia)) as (q & ->). exists q. reflexivity.
Qed.

Lemma matches_wildcards w : forall itf,
  existsb (fun f => negb (String.eqb f "")) w = false -> matches w itf = true.
Proof.
  induction w as [|v w IH]; intros itf; [destruct itf; reflexivity|].
  cbn [existsb]. intros Hw. apply orb_false_elim in Hw as [Hv Hw].
  apply negb_false_iff in Hv. destruct itf as [|x xs]; [reflexivity|].
  cbn [matches]. rewrite Hv. cbn [orb andb]. auto.
Qed.

Lemma matches_under fields : forall q,
  existsb (fun f => negb (String.eqb f ""))
    (drop (length (before_wildcard fields)) fields) = false ->
  matches fields (before_wildcard fields ++ q) = true.
Proof.
  induction fields as [|v tl IH]; intros q; cbn [before_wildcard].
  - intros _. destruct q; reflexivity.
  - destruct (String.eqb v "") eqn:Ev; cbn [length drop app].
    + apply matches_wildcards.
    + intros Hw. cbn [matches]. rewrite Ev, String.eqb_refl. cbn [orb andb]. auto.
Qed.

Lemma paths_ok_walk p : forall p0 root n,
  paths_ok p0 root -> One_walk root p = Ok n -> paths_ok (p0 ++ p) n.
Proof.
  induction p as [|x p IH]; intros p0 root n Hpo; cbn [One_walk].
  - intros [= <-]. rewrite app_nil_r. assumption.
  - destruct (String.eqb x ""); [discriminate|].
    destruct root as [it0 ch]. cbn [children].
    destruct (children_get x ch) as [c|] eqn:Ec; [|discriminate].
    intros Hw. destruct (paths_ok_child _ _ _ _ _ Hpo Ec) as [_ Hc].
    specialize (IH _ _ _ Hc Hw). rewrite <- app_assoc in IH. exact IH.
Qed.

(** the items below the node at [p] are the items of the trie whose fields
    start with [p] *)
Lemma find_below root p n it :
  paths_ok [] root -> One_walk root p = Ok n ->
  In it (find n) <-> In it (find root) /\ exists q, Fields it = p ++ q.
Proof.
  intros Hpo Hp. pose proof (paths_ok_walk _ _ _ _ Hpo Hp) as Hn. cbn [app] in Hn.
  split.
  - intros Hin. destruct (find_path _ _ Hn _ Hin) as (q & nd & Hq & Hw & <- & Hv).
    split; [|eauto]. apply (One_walk_find (p ++ q)); [|assumption].
    rewrite (One_walk_app_r _ _ _ _ Hp). assumption.
  - intros [Hin (q & Hq)].
    destruct (find_path _ _ Hpo _ Hin) as (q' & nd & Hq' & Hw & <- & Hv).
    cbn [app] in Hq'. rewrite <- Hq' in Hw. rewrite Hq in Hw.
    destruct (One_walk_app _ _ _ _ Hw) as (n' & Hp' & Hw').
    rewrite Hp in Hp'. injection Hp' as <-.
    eapply One_walk_find; eassumption.
Qed.

(** X9.  What [Get] returns, for a well-formed trie none of whose items has
    more fields than the query: [Get] succeeds, and an item is in the result
    exactly when it is an item of the trie (a node with a value), has at
    least as many fields as the query has before its first wildcard, and
    agrees with the query on every position both have. *)
Theorem Get_lists_matching_items (fields : list string) (idx : index) :
  paths_ok [] (rootNode idx) ->
  Forall (fun it => (length (Fields it) <= length fields)%nat) (find (rootNode idx)) ->
  exists items, snd (Get fields idx) = Ok items
    /\ forall it, In it items <->
         In it (find (rootNode idx))
         /\ (length (before_wildcard fields) <= length (Fields it))%nat
         /\ matches fields (Fields it) = true.
Proof.
  intros Hpo Hlen. set (p := before_wildcard fields).
  assert (Hmiss : forall it,
             (forall n, One_walk (rootNode idx) p <> Ok n) ->
             In it (find (rootNode idx)) -> (length p <= length (Fields it))%nat ->
             matches fields (Fields it) = true -> False).
  { intros it Hno Hin Hl Hm. destruct (matches_prefix _ _ Hm Hl) as (q & Hq).
    destruct (find_path _ _ Hpo _ Hin) as (q' & nd & Hq' & Hw & _).
    cbn [app] in Hq'. rewrite <- Hq' in Hw. rewrite Hq in Hw.
    destruct (One_walk_app _ _ _ _ Hw) as (n' & Hp' & _). exact (Hno _ Hp'). }
  unfold Get. rewrite Get_walk_before. fold p.
  destruct (One_walk (rootNode idx) p) as [n|e|] eqn:Hp.
  - assert (Hsub : forall it, In it (find n) -> In it (find (rootNode idx))).
    { intros it Hin. apply (find_below _ _ _ _ Hpo Hp). assumption. }
    destruct (existsb _ (drop (length p) fields)) eqn:Hf; cbn [negb].
    + rewrite filter_items_keeps.
      2:{ rewrite List.Forall_forall in Hlen |- *. auto. }
      cbn [snd]. eexists. split; [reflexivity|]. intros it.
      rewrite filter_In. rewrite (find_below _ _ _ it Hpo Hp). split.
      * intros [[Hin (q & Hq)] Hm]. split; [assumption|]. split; [|assumption].
        rewrite Hq, length_app. lia.
      * intros (Hin & Hl & Hm). split; [|assumption]. split; [assumption|].
        exact (matches_prefix _ _ Hm Hl).
    + cbn [snd]. eexists. split; [reflexivity|]. intros it.
      rewrite (find_below _ _ _ it Hpo Hp). split.
      * intros [Hin (q & Hq)]. split; [assumption|]. split.
        -- rewrite Hq, length_app. lia.
        -- rewrite Hq. apply matches_under. assumption.
      * intros (Hin & Hl & Hm). split; [assumption|].
        exact (matches_prefix _ _ Hm Hl).
  - cbn [snd]. exists []. split; [reflexivity|]. intros it. split; [intros []|].
    intros (Hin & Hl & Hm). apply (Hmiss it); auto; discriminate.
  - cbn [snd]. exists []. split; [reflexivity|]. intros it. split; [intros []|].
    intros (Hin & Hl & Hm). apply (Hmiss it); auto; discriminate.
Qed.

(** Witnesses. *)

Lemma One_listed_by_prefix_Get_witness :
  snd (One (["a"] ++ ["b"]) Samples.session_end) = Ok (mkItem ["a"; "b"] 2)
  /\ Forall (fun s => s = "") [""]
  /\ exists items, snd (Get (["a"] ++ [""]) Samples.session_end) = Ok items
       /\ In (mkItem ["a"; "b"] 2) items
       /\ (["b"] = [] -> exists rest, items = mkItem ["a"; "b"] 2 :: rest).
Proof.
  assert (H1 : snd (One (["a"] ++ ["b"]) Samples.session_end) = Ok (mkItem ["a"; "b"] 2))
    by (vm_compute; reflexivity).
  assert (H2 : Forall (fun s : string => s = "") [""]) by (constructor; [reflexivity|constructor]).
  split; [exact H1|]. split; [exact H2|].
  exact (One_listed_by_prefix_Get ["a"] ["b"] [""] (mkItem ["a"; "b"] 2)
           Samples.session_end H1 H2).
Defined.

Lemma filter_items_keeps_matching_witness :
  let items := [mkItem ["a"] 1; mkItem ["a"; "x"; "c"] 3; mkItem ["a"; "y"; "d"] 4] in
  Forall (fun it => (length (Fields it) <= length ["a"; ""; "c"])%nat) items
  /\ filter_items ["a"; ""; "c"] items
     = Ok (List.filter (fun it => matches ["a"; ""; "c"] (Fields it)) items).
Proof.
  intros items.
  assert (H1 : Forall (fun it => (length (Fields it) <= length ["a"; ""; "c"])%nat) items).
  { repeat constructor. }
  split; [exact H1|].
  exact (filter_items_keeps_matching ["a"; ""; "c"] items H1).
Defined.

Lemma Put_keeps_paths_ok_witness :
  paths_ok [] (rootNode (Samples.fresh 64))
  /\ paths_ok [] (rootNode (fst (Put (H := ItemProto.codec) ["a"; "b"] 7 (Samples.fresh 64)))).
Proof.
  assert (H1 : paths_ok [] (rootNode (Samples.fresh 64))) by exact paths_ok_root0.
  split; [exact H1|].
  exact (Put_keeps_paths_ok (H := ItemProto.codec) ["a"; "b"] 7 (Samples.fresh 64) H1).
Defined.

Lemma session_end_paths_ok : paths_ok [] (rootNode Samples.session_end).
Proof.
  apply (run_paths_ok (H := ItemProto.codec) Samples.session (Samples.fresh 64)).
  - exact paths_ok_root0.
  - vm_compute. reflexivity.
Qed.

Lemma Get_all_found_by_One_witness :
  let items := [mkItem [] 0; mkItem ["a"] 1; mkItem ["a"; "b"] 2] in
  paths_ok [] (rootNode Samples.session_end)
  /\ snd (Get [""] Samples.session_end) = Ok items
  /\ In (mkItem ["a"; "b"] 2) items
  /\ snd (One (Fields (mkItem ["a"; "b"] 2)) Samples.session_end) = Ok (mkItem ["a"; "b"] 2).
Proof.
  intros items.
  assert (H2 : snd (Get [""] Samples.session_end) = Ok items) by (vm_compute; reflexivity).
  assert (H3 : In (mkItem ["a"; "b"] 2) items) by (right; right; left; reflexivity).
  split; [exact session_end_paths_ok|]. split; [exact H2|]. split; [exact H3|].
  exact (Get_all_found_by_One Samples.session_end items (mkItem ["a"; "b"] 2)
           session_end_paths_ok H2 H3).
Defined.

Lemma Get_lists_matching_items_witness :
  paths_ok [] (rootNode Samples.session_end)
  /\ Forall (fun it => (length (Fields it) <= length [""; "b"])%nat)
       (find (rootNode Samples.session_end))
  /\ exists items, snd (Get [""; "b"] Samples.session_end) = Ok items
       /\ forall it, In it items <->
            In it (find (rootNode Samples.session_end))
            /\ (length (before_wildcard [""; "b"]) <= length (Fields it))%nat
            /\ matches [""; "b"] (Fields it) = true.
Proof.
  assert (H2 : Forall (fun it => (length (Fields it) <= length [""; "b"])%nat)
                 (find (rootNode Samples.session_end))).
  { vm_compute. repeat constructor. }
  split; [exact session_end_paths_ok|]. split; [exact H2|].
  exact (Get_lists_matching_items [""; "b"] Samples.session_end session_end_paths_ok H2).
Defined.

End IndexGetSpec.

(* ================================================================== *)
(** ** Package index: opening a file *)
(* ================================================================== *)

Module IndexOpenSpec.

Import Index IndexSpec IndexLogSpec.
Local Open Scope Z_scope.

Section WithCodec.
Context `{ItemCodec}.

Lemma load_empty ronly limit_ :
  load (mkIndex ronly root0 (mkMap [] 0 limit_) 0 false Metrics0)
  = Some (mkIndex ronly root0 (mkMap [] 0 limit_) 0 false Metrics0, Ok tt).
Proof. reflexivity. Qed.

(** X10.  [New] on an empty file.  Read-only, it gives the empty index on the
    untouched file.  Writable, it fails with the error of the grow when the
    disk has no room for one preallocation, and otherwise gives an index in
    step with a file of [PreallocSize] zero bytes, with no metric counted. *)
Theorem New_on_empty_file (limit_ : Z) :
  New true (mkMap [] 0 limit_)
  = Some (Ok (mkIndex true root0 (mkMap [] 0 limit_) 0 false Metrics0))
  /\ (limit_ < PreallocSize -> New false (mkMap [] 0 limit_) = Some (Err ErrGrow))
  /\ (PreallocSize <= limit_ ->
      exists idx, New false (mkMap [] 0 limit_) = Some (Ok idx)
        /\ consistent [] idx /\ Map_Size (mmapFile idx) = PreallocSize
        /\ metrics idx = Metrics0).
Proof.
  assert (Hp : 0 <= PreallocSize) by (unfold PreallocSize; lia).
  assert (Ht : 0 < PreallocThresh) by (unfold PreallocThresh; lia).
  unfold New. rewrite !load_empty. split; [reflexivity|].
  unfold preallocateIfNeeded, allocate, Map_Grow, Map_Size.
  cbn [mmapFile data dataSize length limit off].
  change (Z.of_nat 0) with 0. rewrite !Z.sub_0_r, !Z.add_0_l.
  destruct (Z.ltb_spec 0 PreallocThresh) as [_|?]; [|lia].
  split.
  - intros Hl. destruct (Z.leb_spec PreallocSize limit_) as [?|_]; [lia|]. reflexivity.
  - intros Hl. destruct (Z.leb_spec PreallocSize limit_) as [_|?]; [|lia].
    eexists. split; [reflexivity|].
    cbn [set_allocating set_mmap mmapFile data metrics app].
    assert (Hlen : Z.of_nat (length (zeros PreallocSize)) = PreallocSize).
    { unfold zeros. rewrite length_replicate. lia. }
    split; [|split; [exact Hlen|reflexivity]].
    unfold consistent.
    cbn [set_allocating set_mmap mmapFile data off limit dataSize rootNode log_of app].
    split; [constructor|]. split.
    { exists (zeros PreallocSize). split; [reflexivity|apply Forall_zeros]. }
    split; [reflexivity|]. split; [reflexivity|]. split; [reflexivity|].
    unfold Map_Size. cbn [set_allocating set_mmap mmapFile data limit]. lia.
Qed.

(** X11.  [New] fails with [ErrLoad] on a file whose first record announces
    a length that reaches the end of the file or beyond, read-only or
    not. *)
Theorem New_rejects_overlong_record (ronly : bool) (n : Z) (rest : list byte)
    (limit_ : Z) :
  4 + lenZ rest <= n -> n < 2 ^ 32 ->
  New ronly (mkMap (le32 n ++ rest) 0 limit_) = Some (Err ErrLoad).
Proof.
  intros Hn Hlt. pose proof (ServerSpec.lenZ_nonneg rest) as Hr.
  assert (P32 : 2 ^ 32 = 4294967296) by reflexivity.
  unfold New, load, Map_Reset. cbn [mmapFile data limit length load_loop set_mmap].
  unfold binary_Read_u32.
  pose proof (Map_Read_at (mkMap (le32 n ++ rest) 0 limit_) [] (le32 n) rest
                eq_refl eq_refl ltac:(cbn; lia)) as R.
  change (length (le32 n)) with 4%nat in R. rewrite R.
  cbn [Nat.eqb length le32]. fold (le32 n).
  rewrite le32_roundtrip by lia.
  cbn [mmapFile dataSize set_mmap data].
  destruct (Z.eqb_spec n 0) as [?|_]; [lia|].
  unfold Map_Size. cbn [data]. fold (lenZ (le32 n ++ rest)).
  rewrite ServerSpec.lenZ_app. change (lenZ (le32 n)) with 4.
  rewrite Z.sub_0_r, wrap_u32_id by lia.
  destruct (Z.geb_spec n (4 + lenZ rest)) as [_|?]; [|lia].
  reflexivity.
Qed.

End WithCodec.

(** Witnesses. *)

Lemma New_rejects_overlong_record_witness :
  4 + lenZ [1; 2] <= 10 /\ 10 < 2 ^ 32
  /\ New (H := ItemProto.codec) true (mkMap (le32 10 ++ [1; 2]) 0 64) = Some (Err ErrLoad).
Proof.
  assert (H1 : 4 + lenZ [1; 2] <= 10) by (vm_compute; discriminate).
  assert (H2 : 10 < 2 ^ 32) by reflexivity.
  split; [exact H1|]. split; [exact H2|].
  exact (New_rejects_overlong_record (H := ItemProto.codec) true 10 [1; 2] 64 H1 H2).
Defined.

End IndexOpenSpec.

(* ================================================================== *)
(** ** Package server: the wire format *)
(* ================================================================== *)

Module ServerWireSpec.

Import Server ServerSpec.
Local Open Scope Z_scope.

Ltac lenZ_norm :=
  repeat (rewrite lenZ_app || rewrite lenZ_cons || rewrite lenZ_nil).

Lemma enc_length_bounds fuel : forall v, 0 <= v ->
  (1 <= length (encodeVarint_loop (S fuel) v) <= S fuel)%nat.
Proof.
  induction fuel as [|fuel IH]; intros v Hv.
  - cbn [encodeVarint_loop]. destruct (v >=? 2 ^ 7); cbn [length encodeVarint_loop]; lia.
  - destruct (Z.lt_ge_cases v 128) as [Hlt|Hge].
    + rewrite enc_last by lia. cbn [length]. lia.
    + rewrite enc_more by lia. cbn [length].
      assert (0 <= v / 128) by (apply Z.div_pos; lia).
      specialize (IH (v / 128) ltac:(lia)). lia.
Qed.

Lemma skip_varint_encode fuel : forall v n rest,
  0 <= v < 2 ^ (7 * Z.of_nat (S fuel)) ->
  skip_varint n (encodeVarint_loop (S fuel) v ++ rest)
  = Ok (n + Z.of_nat (length (encodeVarint_loop (S fuel) v))).
Proof.
  induction fuel as [|fuel IH]; intros v n rest Hv.
  - change (2 ^ (7 * Z.of_nat 1)) with 128 in Hv.
    rewrite enc_last by lia. cbn [app skip_varint length].
    destruct (Z.ltb_spec v 128); [reflexivity|lia].
  - destruct (Z.lt_ge_cases v 128) as [Hlt|Hge].
    + rewrite enc_last by lia. cbn [app skip_varint length].
      destruct (Z.ltb_spec v 128); [reflexivity|lia].
    + rewrite enc_more by lia. cbn [app skip_varint].
      pose proof (Z.mod_pos_bound v 128 ltac:(lia)) as Hm.
      destruct (Z.ltb_spec (v mod 128 + 128) 128) as [?|_]; [lia|].
      rewrite IH.
      * cbn [length]. f_equal. lia.
      * split; [apply Z.div_pos; lia|]. apply Z.div_lt_upper_bound; [lia|].
        replace (7 * Z.of_nat (S (S fuel))) with (7 + 7 * Z.of_nat (S fuel)) in Hv by lia.
        rewrite Z.pow_add_r in Hv by lia. change (2 ^ 7) with 128 in Hv. lia.
Qed.

Lemma skip_varint_at v rest : 0 <= v < 2 ^ 64 ->
  skip_varint 1 (encodeVarintProtocol v ++ rest) = Ok (1 + lenZ (encodeVarintProtocol v)).
Proof.
  intros Hv. unfold encodeVarintProtocol. rewrite skip_varint_encode; [reflexivity|].
  change (2 ^ (7 * Z.of_nat 10)) with (2 ^ 70).
  assert (2 ^ 64 < 2 ^ 70) by reflexivity. lia.
Qed.

Lemma sov_tag tag : 0 <= tag < 128 -> sovProtocol tag = 1.
Proof.
  intros Ht. assert (2 ^ 64 = 18446744073709551616) by reflexivity.
  rewrite sovProtocol_length by lia. unfold encodeVarintProtocol.
  rewrite enc_last by lia. reflexivity.
Qed.

Lemma lenZ_enc_bound v : 0 <= v -> 1 <= lenZ (encodeVarintProtocol v) <= 10.
Proof.
  intros Hv. unfold lenZ, encodeVarintProtocol.
  pose proof (enc_length_bounds 9 v Hv). lia.
Qed.

(** [skipProtocol] on a field of one of the four wire types *)
Lemma skipProtocol_field fuel tag payload rest :
  0 <= tag < 128 -> payload_of (Z.land tag 7) payload ->
  lenZ (tag :: payload ++ rest) < 2 ^ 63 ->
  skipProtocol (S fuel) (tag :: payload ++ rest) = Some (Ok (1 + lenZ payload)).
Proof.
  intros Ht Hp Hl. cbn [skipProtocol length Nat.eqb].
  pose proof (read_tag [] tag (payload ++ rest) Ht) as R. cbn [app] in R.
  change (lenZ []) with 0 in R. rewrite R. cbn [Z.add].
  change (drop (Z.to_nat (0 + 1)) (tag :: payload ++ rest)) with (payload ++ rest).
  destruct Hp as [[-> (v & Hv & ->)]|[[-> Hlen]|[[-> (bs & ->)]|[-> Hlen]]]];
    cbn [Z.eqb Pos.eqb].
  - rewrite skip_varint_at by assumption. reflexivity.
  - unfold lenZ. rewrite Hlen. reflexivity.
  - pose proof (lenZ_nonneg bs) as Hb. pose proof (lenZ_enc_bound (lenZ bs) Hb) as He.
    revert Hl. lenZ_norm. intros Hl. pose proof (lenZ_nonneg rest).
    assert (P63 : 2 ^ 63 = 9223372036854775808) by reflexivity.
    assert (P64 : 2 ^ 64 = 18446744073709551616) by reflexivity.
    pose proof (read_i64_at [tag] (lenZ bs) (bs ++ rest) ltac:(lia)) as Ri.
    cbn [app] in Ri. rewrite <- app_assoc. change (lenZ [tag]) with 1 in Ri.
    change (0 + 1) with 1. rewrite Ri.
    rewrite (wrap_i64_low (lenZ bs)) by lia.
    destruct (Z.ltb_spec (lenZ bs) 0); [lia|].
    rewrite wrap_i64_low by lia. do 2 f_equal. lia.
  - unfold lenZ. rewrite Hlen. reflexivity.
Qed.

Lemma skip_unknown_field tag payload pre rest :
  0 <= tag < 128 -> payload_of (Z.land tag 7) payload ->
  lenZ (pre ++ (tag :: payload) ++ rest) < 2 ^ 63 ->
  skip_unknown tag (pre ++ (tag :: payload) ++ rest) (lenZ pre + 1)
  = Some (Ok (lenZ pre + lenZ (tag :: payload))).
Proof.
  intros Ht Hp Hl. unfold skip_unknown. rewrite sov_tag by assumption.
  replace (lenZ pre + 1 - 1) with (lenZ pre) by lia.
  pose proof (lenZ_nonneg pre). destruct (Z.ltb_spec (lenZ pre) 0); [lia|].
  rewrite drop_at. cbn [app].
  assert (Hl' : lenZ (tag :: payload ++ rest) < 2 ^ 63).
  { revert Hl. cbn [app]. lenZ_norm. lia. }
  replace (2 * length (pre ++ tag :: payload ++ rest) + 2)%nat
    with (S (2 * length (pre ++ tag :: payload ++ rest) + 1))%nat by lia.
  rewrite skipProtocol_field by assumption.
  pose proof (lenZ_nonneg payload). pose proof (lenZ_nonneg rest).
  destruct (Z.ltb_spec (1 + lenZ payload) 0); [lia|].
  fold (lenZ (pre ++ tag :: payload ++ rest)).
  destruct (Z.gtb_spec (lenZ pre + (1 + lenZ payload)) (lenZ (pre ++ tag :: payload ++ rest)))
    as [Hgt|_].
  { revert Hgt. lenZ_norm. lia. }
  do 2 f_equal. lenZ_norm. lia.
Qed.

Section Unknown.
Context {M : Type}.
Variable cases : Z -> Z -> Z -> list byte -> Z -> M -> option (result error (Z * M)).

(** a field that goes to the [default:] case is stepped over *)
Lemma decodes_unknown tag payload m :
  0 <= tag < 128 -> payload_of (Z.land tag 7) payload ->
  (forall data i m,
      cases (wrap_i32 (Z.shiftr tag 3)) (Z.land tag 7) tag data i m
      = match skip_unknown tag data i with
        | Some (Ok i) => Some (Ok (i, m))
        | Some (Err e) => Some (Err e)
        | Some Panic => Some Panic
        | None => None
        end) ->
  decodes cases (tag :: payload) m m.
Proof.
  intros Ht Hp Hc pre rest Hl.
  eapply step_one.
  - revert Hl. cbn [app]. lenZ_norm. pose proof (lenZ_nonneg pre).
    pose proof (lenZ_nonneg payload). pose proof (lenZ_nonneg rest). lia.
  - lenZ_norm. pose proof (lenZ_nonneg payload). lia.
  - cbn [app]. apply read_tag. assumption.
  - rewrite Hc, skip_unknown_field by assumption. reflexivity.
Qed.

End Unknown.

(** the [default:] case of [ReqFetch.Unmarshal] *)
Lemma ReqFetch_default tag data i m :
  32 <= tag < 128 ->
  ReqFetch.cases (wrap_i32 (Z.shiftr tag 3)) (Z.land tag 7) tag data i m
  = match skip_unknown tag data i with
    | Some (Ok i) => Some (Ok (i, m))
    | Some (Err e) => Some (Err e)
    | Some Panic => Some Panic
    | None => None
    end.
Proof.
  intros Ht. rewrite Z.shiftr_div_pow2 by lia. change (2 ^ 3) with 8.
  assert (4 <= tag / 8 < 16) by (split; [apply Z.div_le_lower_bound|apply Z.div_lt_upper_bound]; lia).
  assert (Hw : wrap_i32 (tag / 8) = tag / 8).
  { unfold wrap_i32. change (2 ^ 31) with 2147483648. change (2 ^ 32) with 4294967296.
    rewrite Z.mod_small by lia. lia. }
  rewrite Hw. unfold ReqFetch.cases.
  destruct (Z.eqb_spec (tag / 8) 1); [lia|].
  destruct (Z.eqb_spec (tag / 8) 2); [lia|].
  destruct (Z.eqb_spec (tag / 8) 3); [lia|]. reflexivity.
Qed.

(** decoding the bytes of [m] into a receiver [m0] *)
Lemma ReqFetch_decodes_into m0 m bs :
  ReqFetch_wf m -> ReqFetch.MarshalTo m = Ok bs ->
  decodes ReqFetch.cases bs m0 (ReqFetch_merge m0 m).
Proof.
  intros (Hf & Ht) [= <-].
  destruct m as [Fr To F]. destruct m0 as [Fr0 To0 F0].
  unfold ReqFetch_merge. cbn [ReqFetch.From ReqFetch.To ReqFetch.Fields] in *.
  apply decodes_app
    with (m1 := ReqFetch.mk (if Fr =? 0 then Fr0 else Fr) To0 F0).
  { destruct (Z.eqb_spec Fr 0) as [->|Hne]; cbn [negb].
    - apply decodes_nil.
    - intros pre rest Hl.
      apply (step_varint ReqFetch.cases 8
               (fun v m => ReqFetch.mk v (ReqFetch.To m) (ReqFetch.Fields m)));
        [lia | intros; reflexivity | assumption]. }
  apply decodes_app
    with (m1 := ReqFetch.mk (if Fr =? 0 then Fr0 else Fr) (if To =? 0 then To0 else To) F0).
  { destruct (Z.eqb_spec To 0) as [->|Hne]; cbn [negb].
    - apply decodes_nil.
    - intros pre rest Hl.
      apply (step_varint ReqFetch.cases 16
               (fun v m => ReqFetch.mk (ReqFetch.From m) v (ReqFetch.Fields m)));
        [lia | intros; reflexivity | assumption]. }
  rewrite <- ReqFetch_fields.
  apply (decodes_strings ReqFetch.cases 26 ltac:(lia)
           (fun s m => ReqFetch.mk (ReqFetch.From m) (ReqFetch.To m) (ReqFetch.Fields m ++ [s]))).
  intros; reflexivity.
Qed.

Lemma ReqFetch_merge_zero m : ReqFetch_merge ReqFetch.zero m = m.
Proof.
  destruct m as [Fr To F]. unfold ReqFetch_merge.
  cbn [ReqFetch.From ReqFetch.To ReqFetch.Fields ReqFetch.zero app].
  destruct (Z.eqb_spec Fr 0) as [->|]; destruct (Z.eqb_spec To 0) as [->|]; reflexivity.
Qed.

(** X12.  The varint round trip: the bytes that [encodeVarintProtocol]
    writes for a [uint64] are read back by the decoding loop as the same
    value, at any position of a buffer, and the loop stops right behind
    them; the same holds for an [int64] written as its [uint64] bits. *)
Theorem varint_roundtrip (pre rest : list byte) :
  (forall v, 0 <= v < 2 ^ 64 ->
     read_u64 (pre ++ encodeVarintProtocol v ++ rest) (lenZ pre)
     = Ok (v, lenZ pre + lenZ (encodeVarintProtocol v)))
  /\ (forall v, in_i64 v ->
        read_i64 (pre ++ encodeVarintProtocol (wrap_u64 v) ++ rest) (lenZ pre)
        = Ok (v, lenZ pre + lenZ (encodeVarintProtocol (wrap_u64 v)))).
Proof.
  split; intros v Hv.
  - apply read_u64_at. assumption.
  - rewrite read_i64_at.
    + rewrite wrap_i64_u64 by assumption. reflexivity.
    + unfold wrap_u64. apply Z.mod_pos_bound. reflexivity.
Qed.

(** X13.  [sovProtocol] is the number of bytes [encodeVarintProtocol]
    writes, between 1 and 10 for every [uint64]. *)
Theorem sovProtocol_counts_bytes (v : Z) :
  0 <= v < 2 ^ 64 ->
  sovProtocol v = lenZ (encodeVarintProtocol v) /\ 1 <= sovProtocol v <= 10.
Proof.
  intros Hv. rewrite sovProtocol_length by assumption. split; [reflexivity|].
  apply lenZ_enc_bound. lia.
Qed.

(** X14.  The fixed64 round trip: the eight bytes that
    [encodeFixed64Protocol] writes for a [uint64] are read back as the same
    value, at any position of a buffer. *)
Theorem fixed64_roundtrip (pre rest : list byte) (v : Z) :
  0 <= v < 2 ^ 64 ->
  read_fixed64 (pre ++ encodeFixed64Protocol v ++ rest) (lenZ pre) = Ok (v, lenZ pre + 8).
Proof. apply read_fixed64_at. Qed.

(** X15.  [ReqFetch.Unmarshal] skips a field it does not know: a well-formed
    field with a number from 4 to 15 and wire type 0, 1, 2 or 5, before or
    after the bytes of a message, does not change what is decoded. *)
Theorem ReqFetch_skips_unknown_field (m : ReqFetch.t) (bs : list byte)
    (tag : Z) (payload : list byte) :
  ReqFetch_wf m -> ReqFetch.MarshalTo m = Ok bs ->
  32 <= tag < 128 -> payload_of (Z.land tag 7) payload ->
  lenZ bs + 1 + lenZ payload < 2 ^ 63 ->
  ReqFetch.Unmarshal ReqFetch.zero ((tag :: payload) ++ bs) = Some (Ok m)
  /\ ReqFetch.Unmarshal ReqFetch.zero (bs ++ tag :: payload) = Some (Ok m).
Proof.
  intros Hw Hm Ht Hp Hl.
  pose proof (ReqFetch_decodes_into ReqFetch.zero m bs Hw Hm) as Hd.
  rewrite ReqFetch_merge_zero in Hd.
  assert (Hu : forall m', decodes ReqFetch.cases (tag :: payload) m' m').
  { intros m'. apply decodes_unknown; [lia|assumption|].
    intros. apply ReqFetch_default. assumption. }
  split; apply decodes_all.
  - lenZ_norm. lia.
  - eapply decodes_app; [apply Hu|exact Hd].
  - lenZ_norm. lia.
  - eapply decodes_app; [exact Hd|apply Hu].
Qed.

(** X16.  [ReqFetch.Unmarshal] merges into its receiver: a scalar that the
    bytes carry replaces the one of the receiver, a scalar that was omitted
    (the zero) leaves the receiver's in place, and the [Fields] of the bytes
    are appended to the receiver's. *)
Theorem ReqFetch_Unmarshal_merges (m0 m : ReqFetch.t) (bs : list byte) :
  ReqFetch_wf m -> ReqFetch.MarshalTo m = Ok bs -> lenZ bs < 2 ^ 63 ->
  ReqFetch.Unmarshal m0 bs = Some (Ok (ReqFetch_merge m0 m)).
Proof.
  intros Hw Hm Hl. apply decodes_all; [assumption|].
  apply ReqFetch_decodes_into; assumption.
Qed.

Section Fail.
Context {M : Type}.
Variable cases : Z -> Z -> Z -> list byte -> Z -> M -> option (result error (Z * M)).

(** the loop after a part that decodes *)
Lemma unmarshal_after part rest m0 m1 :
  decodes cases part m0 m1 -> lenZ (part ++ rest) < 2 ^ 63 ->
  exists fuel, enough fuel (part ++ rest) (lenZ part)
    /\ unmarshal cases (part ++ rest) m0
       = unmarshal_loop cases fuel (part ++ rest) (lenZ part) m1.
Proof.
  intros Hd Hl. specialize (Hd [] rest Hl). cbn [app] in Hd.
  change (lenZ []) with 0 in Hd. cbn [Z.add] in Hd.
  destruct (Hd (S (length (part ++ rest)))) as (fuel & He & E).
  { unfold enough, lenZ. lia. }
  exists fuel. split; [assumption|]. exact E.
Qed.

(** a turn of the loop that fails *)
Lemma loop_fails fuel data i m wire i1 (r : result error (Z * M)) :
  0 <= i < lenZ data -> enough fuel data i ->
  read_u64 data i = Ok (wire, i1) ->
  cases (wrap_i32 (Z.shiftr wire 3)) (Z.land wire 7) wire data i1 m = Some r ->
  unmarshal_loop cases fuel data i m
  = match r with
    | Ok (i2, m2) => unmarshal_loop cases (pred fuel) data i2 m2
    | Err e => Some (Err e)
    | Panic => Some Panic
    end.
Proof.
  intros Hi He Hr Hc. unfold enough in He. destruct fuel as [|f]; [lia|].
  cbn [unmarshal_loop pred]. fold (lenZ data).
  destruct (Z.ltb_spec i (lenZ data)) as [_|?]; [|lia]. cbn [negb].
  rewrite Hr, Hc. destruct r as [[i2 m2]| |]; reflexivity.
Qed.

End Fail.

Lemma ReqFetch_wrong_wire tag data i m :
  8 <= tag < 32 -> tag <> 8 -> tag <> 16 -> tag <> 26 ->
  ReqFetch.cases (wrap_i32 (Z.shiftr tag 3)) (Z.land tag 7) tag data i m
  = Some (Err ErrWireType).
Proof.
  intros Ht H8 H16 H26.
  assert (Hc : tag = 9 \/ tag = 10 \/ tag = 11 \/ tag = 12 \/ tag = 13 \/ tag = 14
               \/ tag = 15 \/ tag = 17 \/ tag = 18 \/ tag = 19 \/ tag = 20 \/ tag = 21
               \/ tag = 22 \/ tag = 23 \/ tag = 24 \/ tag = 25 \/ tag = 27 \/ tag = 28
               \/ tag = 29 \/ tag = 30 \/ tag = 31) by lia.
  repeat (destruct Hc as [->|Hc]; [reflexivity|]). subst tag. reflexivity.
Qed.

(** X17.  A known field of [ReqFetch] with another wire type than its own
    ends [Unmarshal] with [ErrWireType], whatever follows it and whatever
    had been decoded before. *)
Theorem ReqFetch_rejects_wrong_wire_type (m0 m : ReqFetch.t) (bs rest : list byte)
    (tag : Z) :
  ReqFetch_wf m -> ReqFetch.MarshalTo m = Ok bs ->
  8 <= tag < 32 -> tag <> 8 -> tag <> 16 -> tag <> 26 ->
  lenZ bs + 1 + lenZ rest < 2 ^ 63 ->
  ReqFetch.Unmarshal m0 (bs ++ tag :: rest) = Some (Err ErrWireType).
Proof.
  intros Hw Hm Ht H8 H16 H26 Hl.
  destruct (unmarshal_after ReqFetch.cases bs (tag :: rest) m0 _
              (ReqFetch_decodes_into m0 m bs Hw Hm)) as (fuel & He & E).
  { lenZ_norm. lia. }
  unfold ReqFetch.Unmarshal. rewrite E.
  rewrite (loop_fails ReqFetch.cases fuel _ _ _ tag (lenZ bs + 1) (Err ErrWireType)).
  - reflexivity.
  - lenZ_norm. pose proof (lenZ_nonneg bs). pose proof (lenZ_nonneg rest). lia.
  - assumption.
  - apply read_tag. lia.
  - apply ReqFetch_wrong_wire; assumption.
Qed.

(** the string field of [ReqFetch] with a length [n] in front of [rest] *)
Lemma ReqFetch_string_case pre n rest m :
  0 <= n < 2 ^ 64 ->
  ReqFetch.cases (wrap_i32 (Z.shiftr 26 3)) (Z.land 26 7) 26
    (pre ++ 26 :: encodeVarintProtocol n ++ rest) (lenZ pre + 1) m
  = let i := lenZ pre + 1 + lenZ (encodeVarintProtocol n) in
    let data := pre ++ 26 :: encodeVarintProtocol n ++ rest in
    let postIndex := wrap_i64 (i + wrap_i64 n) in
    if postIndex >? lenZ data then Some (Err ErrUnexpectedEOF)
    else match slice data i postIndex with
         | Ok s => Some (Ok (postIndex, ReqFetch.mk (ReqFetch.From m) (ReqFetch.To m)
                                          (ReqFetch.Fields m ++ [string_of_bytes s])))
         | Err e => Some (Err e)
         | Panic => Some Panic
         end.
Proof.
  intros Hn. cbv zeta.
  change (ReqFetch.cases (wrap_i32 (Z.shiftr 26 3)) (Z.land 26 7) 26
            (pre ++ 26 :: encodeVarintProtocol n ++ rest) (lenZ pre + 1) m)
    with (match read_string (pre ++ 26 :: encodeVarintProtocol n ++ rest) (lenZ pre + 1) with
          | Ok (s, i) => ret (Ok (i, ReqFetch.mk (ReqFetch.From m) (ReqFetch.To m)
                                       (ReqFetch.Fields m ++ [s])))
          | Err e => ret (Err e)
          | Panic => ret Panic
          end).
  unfold read_string.
  pose proof (read_u64_at (pre ++ [26]) n rest Hn) as R.
  rewrite <- app_assoc in R. cbn [app] in R.
  replace (lenZ (pre ++ [26])) with (lenZ pre + 1) in R by (lenZ_norm; lia).
  rewrite R. fold (lenZ (pre ++ 26 :: encodeVarintProtocol n ++ rest)).
  destruct (_ >? _); [reflexivity|].
  destruct (slice _ _ _); reflexivity.
Qed.

(** X18.  A string of [ReqFetch.Fields] whose announced length goes beyond
    the end of the buffer ends [Unmarshal] with [ErrUnexpectedEOF]. *)
Theorem ReqFetch_string_beyond_buffer (m0 m : ReqFetch.t) (bs rest : list byte) (n : Z) :
  ReqFetch_wf m -> ReqFetch.MarshalTo m = Ok bs ->
  lenZ rest < n -> lenZ bs + n + 11 < 2 ^ 63 ->
  ReqFetch.Unmarshal m0 (bs ++ 26 :: encodeVarintProtocol n ++ rest)
  = Some (Err ErrUnexpectedEOF).
Proof.
  intros Hw Hm Hn Hl.
  pose proof (lenZ_nonneg bs). pose proof (lenZ_nonneg rest).
  assert (P63 : 2 ^ 63 = 9223372036854775808) by reflexivity.
  assert (P64 : 2 ^ 64 = 18446744073709551616) by reflexivity.
  pose proof (lenZ_enc_bound n ltac:(lia)) as He.
  destruct (unmarshal_after ReqFetch.cases bs (26 :: encodeVarintProtocol n ++ rest) m0 _
              (ReqFetch_decodes_into m0 m bs Hw Hm)) as (fuel & Hf & E).
  { lenZ_norm. lia. }
  unfold ReqFetch.Unmarshal. rewrite E.
  rewrite (loop_fails ReqFetch.cases fuel _ _ _ 26 (lenZ bs + 1) (Err ErrUnexpectedEOF)).
  - reflexivity.
  - lenZ_norm. lia.
  - assumption.
  - apply read_tag. lia.
  - rewrite ReqFetch_string_case by lia. cbv zeta.
    rewrite (wrap_i64_low n) by lia. rewrite wrap_i64_low by lia.
    destruct (Z.gtb_spec (lenZ bs + 1 + lenZ (encodeVarintProtocol n) + n)
                (lenZ (bs ++ 26 :: encodeVarintProtocol n ++ rest))) as [_|Hle];
      [reflexivity|].
    revert Hle. lenZ_norm. lia.
Qed.

(** X19.  A string of [ReqFetch.Fields] with an announced length of [2^63]
    or more makes [Unmarshal] panic: the length is a [uint64], so the guard
    [stringLen < 0] never fires, [int(stringLen)] is negative, the end index
    lies before the start index, and the slice expression
    [data[iNdEx:postIndex]] is out of range. *)
Theorem ReqFetch_string_length_overflow_panics (m0 m : ReqFetch.t)
    (bs rest : list byte) (n : Z) :
  ReqFetch_wf m -> ReqFetch.MarshalTo m = Ok bs ->
  2 ^ 63 <= n < 2 ^ 64 -> lenZ bs + lenZ rest + 11 < 2 ^ 63 ->
  ReqFetch.Unmarshal m0 (bs ++ 26 :: encodeVarintProtocol n ++ rest) = Some Panic.
Proof.
  intros Hw Hm Hn Hl.
  pose proof (lenZ_nonneg bs). pose proof (lenZ_nonneg rest).
  assert (P63 : 2 ^ 63 = 9223372036854775808) by reflexivity.
  assert (P64 : 2 ^ 64 = 18446744073709551616) by reflexivity.
  pose proof (lenZ_enc_bound n ltac:(lia)) as He.
  destruct (unmarshal_after ReqFetch.cases bs (26 :: encodeVarintProtocol n ++ rest) m0 _
              (ReqFetch_decodes_into m0 m bs Hw Hm)) as (fuel & Hf & E).
  { lenZ_norm. lia. }
  unfold ReqFetch.Unmarshal. rewrite E.
  rewrite (loop_fails ReqFetch.cases fuel _ _ _ 26 (lenZ bs + 1) Panic).
  - reflexivity.
  - lenZ_norm. lia.
  - assumption.
  - apply read_tag. lia.
  - rewrite ReqFetch_string_case by lia. cbv zeta.
    rewrite (wrap_i64_high n) by lia. rewrite wrap_i64_low by lia.
    destruct (Z.gtb_spec (lenZ bs + 1 + lenZ (encodeVarintProtocol n) + (n - 2 ^ 64))
                (lenZ (bs ++ 26 :: encodeVarintProtocol n ++ rest))) as [Hgt|_].
    { revert Hgt. lenZ_norm. lia. }
    unfold slice.
    destruct (Z.leb_spec (lenZ bs + 1 + lenZ (encodeVarintProtocol n))
                (lenZ bs + 1 + lenZ (encodeVarintProtocol n) + (n - 2 ^ 64))) as [?|_];
      [lia|].
    rewrite andb_false_r. reflexivity.
Qed.

(** Witnesses. *)

Lemma fetch_wf (a b : Z) (f : list string) :
  0 <= a < 2 ^ 64 -> 0 <= b < 2 ^ 64 -> ReqFetch_wf (ReqFetch.mk a b f).
Proof. intros Ha Hb. split; assumption. Qed.

Lemma sovProtocol_counts_bytes_witness :
  0 <= 300 < 2 ^ 64
  /\ sovProtocol 300 = lenZ (encodeVarintProtocol 300) /\ 1 <= sovProtocol 300 <= 10.
Proof.
  assert (H1 : 0 <= 300 < 2 ^ 64) by (split; [discriminate|reflexivity]).
  split; [exact H1|].
  exact (sovProtocol_counts_bytes 300 H1).
Defined.

Lemma fixed64_roundtrip_witness :
  0 <= 4607182418800017408 < 2 ^ 64
  /\ read_fixed64 ([9] ++ encodeFixed64Protocol 4607182418800017408 ++ [16; 1]) (lenZ [9])
     = Ok (4607182418800017408, lenZ [9] + 8).
Proof.
  assert (H1 : 0 <= 4607182418800017408 < 2 ^ 64) by (split; [discriminate|reflexivity]).
  split; [exact H1|].
  exact (fixed64_roundtrip [9] [16; 1] 4607182418800017408 H1).
Defined.

Lemma ReqFetch_skips_unknown_field_witness :
  let m := ReqFetch.mk 0 10000000000 ["a"] in
  let bs := [16; 128; 200; 175; 160; 37; 26; 1; 97] in
  ReqFetch_wf m /\ ReqFetch.MarshalTo m = Ok bs
  /\ 32 <= 40 < 128 /\ payload_of (Z.land 40 7) [7]
  /\ lenZ bs + 1 + lenZ [7] < 2 ^ 63
  /\ ReqFetch.Unmarshal ReqFetch.zero ((40 :: [7]) ++ bs) = Some (Ok m)
  /\ ReqFetch.Unmarshal ReqFetch.zero (bs ++ 40 :: [7]) = Some (Ok m).
Proof.
  intros m bs.
  assert (H1 : ReqFetch_wf m)
    by (apply fetch_wf; split; first [discriminate|reflexivity]).
  assert (H2 : ReqFetch.MarshalTo m = Ok bs) by (vm_compute; reflexivity).
  assert (H3 : 32 <= 40 < 128) by (split; [discriminate|reflexivity]).
  assert (H4 : payload_of (Z.land 40 7) [7]).
  { left. split; [reflexivity|]. exists 7.
    split; [split; [discriminate|reflexivity]|reflexivity]. }
  assert (H5 : lenZ bs + 1 + lenZ [7] < 2 ^ 63) by reflexivity.
  split; [exact H1|]. split; [exact H2|]. split; [exact H3|].
  split; [exact H4|]. split; [exact H5|].
  exact (ReqFetch_skips_unknown_field m bs 40 [7] H1 H2 H3 H4 H5).
Defined.

Lemma ReqFetch_Unmarshal_merges_witness :
  let m0 := ReqFetch.mk 1 2 ["x"] in
  let m := ReqFetch.mk 0 5 ["a"] in
  let bs := [16; 5; 26; 1; 97] in
  ReqFetch_wf m /\ ReqFetch.MarshalTo m = Ok bs /\ lenZ bs < 2 ^ 63
  /\ ReqFetch.Unmarshal m0 bs = Some (Ok (ReqFetch.mk 1 5 ["x"; "a"])).
Proof.
  intros m0 m bs.
  assert (H1 : ReqFetch_wf m)
    by (apply fetch_wf; split; first [discriminate|reflexivity]).
  assert (H2 : ReqFetch.MarshalTo m = Ok bs) by (vm_compute; reflexivity).
  assert (H3 : lenZ bs < 2 ^ 63) by reflexivity.
  split; [exact H1|]. split; [exact H2|]. split; [exact H3|].
  exact (ReqFetch_Unmarshal_merges m0 m bs H1 H2 H3).
Defined.

Lemma ReqFetch_rejects_wrong_wire_type_witness :
  let m := ReqFetch.mk 0 5 ["a"] in
  let bs := [16; 5; 26; 1; 97] in
  ReqFetch_wf m /\ ReqFetch.MarshalTo m = Ok bs
  /\ 8 <= 9 < 32 /\ 9 <> 8 /\ 9 <> 16 /\ 9 <> 26
  /\ lenZ bs + 1 + lenZ [0; 0; 0; 0; 0; 0; 0; 0] < 2 ^ 63
  /\ ReqFetch.Unmarshal ReqFetch.zero (bs ++ 9 :: [0; 0; 0; 0; 0; 0; 0; 0])
     = Some (Err ErrWireType).
Proof.
  intros m bs.
  assert (H1 : ReqFetch_wf m)
    by (apply fetch_wf; split; first [discriminate|reflexivity]).
  assert (H2 : ReqFetch.MarshalTo m = Ok bs) by (vm_compute; reflexivity).
  assert (H3 : 8 <= 9 < 32) by (split; [discriminate|reflexivity]).
  assert (H4 : 9 <> 8) by discriminate.
  assert (H5 : 9 <> 16) by discriminate.
  assert (H6 : 9 <> 26) by discriminate.
  assert (H7 : lenZ bs + 1 + lenZ [0; 0; 0; 0; 0; 0; 0; 0] < 2 ^ 63) by reflexivity.
  split; [exact H1|]. split; [exact H2|]. split; [exact H3|]. split; [exact H4|].
  split; [exact H5|]. split; [exact H6|]. split; [exact H7|].
  exact (ReqFetch_rejects_wrong_wire_type ReqFetch.zero m bs [0; 0; 0; 0; 0; 0; 0; 0] 9
           H1 H2 H3 H4 H5 H6 H7).
Defined.

Lemma ReqFetch_string_beyond_buffer_witness :
  let m := ReqFetch.mk 0 5 ["a"] in
  let bs := [16; 5; 26; 1; 97] in
  ReqFetch_wf m /\ ReqFetch.MarshalTo m = Ok bs
  /\ lenZ [97] < 5 /\ lenZ bs + 5 + 11 < 2 ^ 63
  /\ ReqFetch.Unmarshal ReqFetch.zero (bs ++ 26 :: encodeVarintProtocol 5 ++ [97])
     = Some (Err ErrUnexpectedEOF).
Proof.
  intros m bs.
  assert (H1 : ReqFetch_wf m)
    by (apply fetch_wf; split; first [discriminate|reflexivity]).
  assert (H2 : ReqFetch.MarshalTo m = Ok bs) by (vm_compute; reflexivity).
  assert (H3 : lenZ [97] < 5) by reflexivity.
  assert (H4 : lenZ bs + 5 + 11 < 2 ^ 63) by reflexivity.
  split; [exact H1|]. split; [exact H2|]. split; [exact H3|]. split; [exact H4|].
  exact (ReqFetch_string_beyond_buffer ReqFetch.zero m bs [97] 5 H1 H2 H3 H4).
Defined.

Lemma ReqFetch_string_length_overflow_panics_witness :
  let m := ReqFetch.mk 0 5 ["a"] in
  let bs := [16; 5; 26; 1; 97] in
  ReqFetch_wf m /\ ReqFetch.MarshalTo m = Ok bs
  /\ 2 ^ 63 <= 2 ^ 64 - 1 < 2 ^ 64 /\ lenZ bs + lenZ [97] + 11 < 2 ^ 63
  /\ ReqFetch.Unmarshal ReqFetch.zero
       (bs ++ 26 :: encodeVarintProtocol (2 ^ 64 - 1) ++ [97]) = Some Panic.
Proof.
  intros m bs.
  assert (H1 : ReqFetch_wf m)
    by (apply fetch_wf; split; first [discriminate|reflexivity]).
  assert (H2 : ReqFetch.MarshalTo m = Ok bs) by (vm_compute; reflexivity).
  assert (H3 : 2 ^ 63 <= 2 ^ 64 - 1 < 2 ^ 64) by (split; [discriminate|reflexivity]).
  assert (H4 : lenZ bs + lenZ [97] + 11 < 2 ^ 63) by reflexivity.
  split; [exact H1|]. split; [exact H2|]. split; [exact H3|]. split; [exact H4|].
  exact (ReqFetch_string_length_overflow_panics ReqFetch.zero m bs [97] (2 ^ 64 - 1)
           H1 H2 H3 H4).
Defined.

End ServerWireSpec.

(* ================================================================== *)
(** ** Package kadiyadb: range reads *)
(* ================================================================== *)

Module DatabaseReadSpec.

Import Database DatabaseSpec.
Local Open Scope Z_scope.

Lemma P63 : 2 ^ 63 = 9223372036854775808.
Proof. reflexivity. Qed.

Lemma wrap_i64_small z : 0 <= z <= max_i64 -> wrap_i64 z = z.
Proof.
  intros Hz. apply wrap_i64_id. unfold in_i64, min_i64, max_i64 in *.
  rewrite P63 in *. lia.
Qed.

(** flooring a time that is not negative *)
Lemma floor_nonneg t d : 0 <= t -> 0 < d ->
  0 <= t - Z.rem t d <= t /\ t < t - Z.rem t d + d
  /\ exists q, 0 <= q /\ t - Z.rem t d = q * d.
Proof.
  intros Ht Hd. pose proof (Z.rem_bound_pos t d Ht Hd).
  pose proof (Z.rem_le t d Ht Hd).
  split; [lia|]. split; [lia|]. exists (Z.quot t d).
  split; [apply Z.quot_pos; lia|].
  pose proof (Z.quot_rem' t d). lia.
Qed.

Lemma copy_into_ok {A} (out : list A) a b src :
  0 <= a <= b -> b <= lenZ out ->
  exists out', copy_into out a b src = Ok out' /\ length out' = length out
    /\ forall P : A -> Prop, Forall P out -> Forall P src -> Forall P out'.
Proof.
  intros Hab Hb. unfold copy_into, lenZ in *.
  destruct (Z.leb_spec 0 a); [|lia]. destruct (Z.leb_spec a b); [|lia].
  destruct (Z.leb_spec b (Z.of_nat (length out))); [|lia]. cbn [andb].
  eexists. split; [reflexivity|]. split.
  - rewrite !length_app, length_take, length_take, length_drop. lia.
  - intros P Ho Hs. apply Forall_app. split; [apply Forall_take; assumption|].
    apply Forall_app. split; [apply Forall_take|apply Forall_drop]; assumption.
Qed.

(** the window of every epoch of the loop lies in the output *)
Lemma window_ok res dur s e epoFirst epoLast n f ts :
  0 < res -> 0 < dur -> 0 <= s < e -> 0 <= epoFirst <= s -> s < epoFirst + dur ->
  epoLast <= e -> epoLast = epoFirst + n * dur -> 0 <= f <= n ->
  ts = epoLast - f * dur -> e + dur <= max_i64 ->
  0 <= Z.quot (wrap_i64 (fst (trm dur s e epoFirst epoLast ts) - s)) res
    <= Z.quot (wrap_i64 (snd (trm dur s e epoFirst epoLast ts) - s)) res
  /\ Z.quot (wrap_i64 (snd (trm dur s e epoFirst epoLast ts) - s)) res
     <= Z.quot (wrap_i64 (e - s)) res.
Proof.
  intros Hres Hdur Hse Hf Hfd Hl Hn Hfn Hts Hmax.
  assert (Hts' : ts = epoFirst + (n - f) * dur) by lia.
  assert (Hlo : ts = epoFirst \/ epoFirst + dur <= ts).
  { destruct (Z.eq_dec f n) as [->|Hne]; [left; lia|right].
    assert (1 * dur <= (n - f) * dur) by (apply Z.mul_le_mono_nonneg_r; lia). lia. }
  assert (Hhi : ts = epoLast \/ ts + dur <= epoLast).
  { destruct (Z.eq_dec f 0) as [->|Hne]; [left; lia|right].
    assert (1 * dur <= f * dur) by (apply Z.mul_le_mono_nonneg_r; lia). lia. }
  assert (Hge : epoFirst <= ts).
  { assert (0 <= (n - f) * dur) by (apply Z.mul_nonneg_nonneg; lia). lia. }
  assert (Hle : ts <= epoLast).
  { assert (0 <= f * dur) by (apply Z.mul_nonneg_nonneg; lia). lia. }
  unfold trm. cbn [fst snd].
  rewrite (wrap_i64_small (ts + dur)) by lia.
  set (a := if ts =? epoFirst then s else ts).
  set (b := if ts =? epoLast then e else ts + dur).
  assert (Ha : s <= a) by (unfold a; destruct (Z.eqb_spec ts epoFirst); lia).
  assert (Hb : b <= e) by (unfold b; destruct (Z.eqb_spec ts epoLast); lia).
  assert (Hab : a <= b).
  { unfold a, b. destruct (Z.eqb_spec ts epoFirst); destruct (Z.eqb_spec ts epoLast); lia. }
  rewrite !wrap_i64_small by lia.
  split; [split|].
  - apply Z.quot_pos; lia.
  - apply Z.quot_le_mono; lia.
  - apply Z.quot_le_mono; lia.
Qed.

Section WithEpochs.
Context `{EpochStore}.

Lemma getEpoch_keeps now ts db :
  Duration (metadata db) <> 0 -> Resolution (metadata db) <> 0 ->
  (forall o, NewEpoch o <> Panic) ->
  metadata (fst (getEpoch now ts db)) = metadata db
  /\ snd (getEpoch now ts db) <> Panic.
Proof.
  intros Hd Hr Hn. unfold getEpoch.
  destruct (Z.eqb_spec (Duration (metadata db)) 0) as [?|_]; [contradiction|].
  destruct (_ >=? _); [split; [reflexivity|discriminate]|].
  set (t := if (if recovery db then false else _) then RO else RW). clearbody t.
  unfold Cache_Get. destruct (assoc _ _) as [epo|]; cbn [fst snd].
  - rewrite metadata_set. split; [reflexivity|discriminate].
  - destruct (Z.eqb_spec (Resolution (metadata db)) 0) as [?|_]; [contradiction|].
    destruct (NewEpoch _) as [epo|e|] eqn:En; cbn [fst snd]; rewrite ?metadata_set.
    + split; [reflexivity|discriminate].
    + split; [reflexivity|discriminate].
    + exfalso. exact (Hn _ En).
Qed.

(** the loop of [One] runs through and keeps the length of the output *)
Lemma One_loop_total now fields md s e epoFirst epoLast n :
  0 < Resolution md -> 0 < Duration md -> 0 <= s < e ->
  0 <= epoFirst <= s -> s < epoFirst + Duration md -> epoLast <= e ->
  epoLast = epoFirst + n * Duration md -> e + Duration md <= max_i64 ->
  (forall o, NewEpoch o <> Panic) -> (forall ep a b f, EOne ep a b f <> Panic) ->
  forall fuel ts out db,
    metadata db = md -> Z.of_nat fuel <= n + 1 ->
    ts = epoLast - (Z.of_nat fuel - 1) * Duration md ->
    lenZ out = Z.quot (wrap_i64 (e - s)) (Resolution md) ->
    exists db' out',
      One_loop fuel now fields s e epoFirst epoLast ts out db = Some (db', Ok out')
      /\ length out' = length out.
Proof.
  intros Hres Hdur Hse Hf Hfd Hl Hn Hmax HnoN HnoE.
  induction fuel as [|fuel IH]; intros ts out db Hmd Hfuel Hts Hout.
  - cbn [One_loop]. destruct (Z.leb_spec ts epoLast) as [Hle|_]; [cbn in Hts; lia|].
    cbn [negb]. eauto.
  - assert (Hts' : ts = epoLast - Z.of_nat fuel * Duration md) by lia.
    assert (Hge : 0 <= Z.of_nat fuel * Duration md) by (apply Z.mul_nonneg_nonneg; lia).
    assert (Hlo : epoFirst <= ts).
    { assert (0 <= (n - Z.of_nat fuel) * Duration md) by (apply Z.mul_nonneg_nonneg; lia).
      lia. }
    cbn [One_loop]. destruct (Z.leb_spec ts epoLast) as [_|?]; [|lia]. cbn [negb].
    rewrite Hmd.
    destruct (getEpoch_keeps now ts db) as [Hk Hp];
      [rewrite Hmd; lia | rewrite Hmd; lia | assumption |].
    rewrite (wrap_i64_small (ts + Duration md)) by lia.
    assert (Hnext : forall out1 db1, metadata db1 = md -> length out1 = length out ->
              exists db' out',
                One_loop fuel now fields s e epoFirst epoLast (ts + Duration md) out1 db1
                = Some (db', Ok out') /\ length out' = length out).
    { intros out1 db1 Hm1 Hl1.
      destruct (IH (ts + Duration md) out1 db1 Hm1) as (db' & out' & E & L);
        [lia | lia | unfold lenZ in *; congruence |].
      exists db', out'. split; [assumption|congruence]. }
    destruct (getEpoch now ts db) as [db1 r]. cbn [fst snd] in Hk, Hp.
    rewrite Hmd in Hk.
    destruct r as [epo|err|]; [|apply Hnext; auto|contradiction].
    pose proof (window_ok (Resolution md) (Duration md) s e epoFirst epoLast n
                  (Z.of_nat fuel) ts Hres Hdur Hse Hf Hfd Hl Hn ltac:(lia) Hts' Hmax)
      as [[W1 W2] W3].
    destruct (trm (Duration md) s e epoFirst epoLast ts) as [trmStart trmEnd].
    cbn [fst snd] in W1, W2, W3.
    pose proof (HnoE epo
                  (wrap_u32 (Z.quot (Z.rem trmStart (Duration md)) (Resolution md)))
                  (wrap_u32
                     (wrap_u32 (Z.quot (Z.rem trmStart (Duration md)) (Resolution md))
                      + wrap_u32 (Z.quot (wrap_i64 (trmEnd - trmStart)) (Resolution md))))
                  fields) as HE.
    destruct (EOne _ _ _ _) as [row|err|]; [|apply Hnext; auto|contradiction].
    destruct (copy_into_ok out _ _ row (conj W1 W2) ltac:(lia)) as (out1 & -> & L1 & _).
    apply Hnext; auto.
Qed.

(** X21.  For a window of times that are not negative, with epochs that do
    not panic, [One] returns (the loop ends, no slice expression leaves its
    bounds) and its output has one slot per point of the floored window,
    whatever the epochs answer. *)
Theorem One_fills_window (now start end_ : Z) (fields : list string) (db : database) :
  let md := metadata db in
  0 < Resolution md -> 0 < Duration md ->
  0 <= start -> 0 <= end_ -> end_ + Duration md <= max_i64 ->
  (forall o, NewEpoch o <> Panic) -> (forall ep a b f, EOne ep a b f <> Panic) ->
  let s := start - Z.rem start (Resolution md) in
  let e := end_ - Z.rem end_ (Resolution md) in
  s < e ->
  exists db' out,
    One now start end_ fields db = Some (db', Ok out)
    /\ lenZ out = Z.quot (e - s) (Resolution md).
Proof.
  intros md Hres Hdur Hs He Hmax HnoN HnoE s e Hse.
  destruct (floor_nonneg start _ Hs Hres) as (Hs1 & _ & _).
  destruct (floor_nonneg end_ _ He Hres) as (He1 & _ & _).
  fold s in Hs1. fold e in He1.
  destruct (floor_nonneg s _ ltac:(lia) Hdur) as (Hf1 & Hf2 & qs & Hqs & Eqs).
  destruct (floor_nonneg e _ ltac:(lia) Hdur) as (Hl1 & Hl2 & qe & Hqe & Eqe).
  set (epoFirst := s - Z.rem s (Duration md)) in *.
  set (epoLast := e - Z.rem e (Duration md)) in *.
  assert (Hq : qs <= qe).
  { destruct (Z.le_gt_cases qs qe) as [|Hgt]; [assumption|exfalso].
    assert ((qe + 1) * Duration md <= qs * Duration md)
      by (apply Z.mul_le_mono_nonneg_r; lia). lia. }
  assert (En : epoLast = epoFirst + (qe - qs) * Duration md) by lia.
  unfold One. fold md. cbv zeta.
  destruct (Z.eqb_spec (Resolution md) 0) as [?|_]; [lia|].
  fold s. fold e.
  rewrite (wrap_i64_small s), (wrap_i64_small e) by lia.
  destruct (Z.leb_spec e s) as [?|_]; [lia|].
  destruct (Z.eqb_spec (Duration md) 0) as [?|_]; [lia|].
  fold epoFirst. fold epoLast.
  rewrite (wrap_i64_small epoFirst), (wrap_i64_small epoLast) by lia.
  assert (Hpc : 0 <= Z.quot (e - s) (Resolution md) <= e - s).
  { split; [apply Z.quot_pos; lia|]. apply Z.quot_le_upper_bound; nia. }
  rewrite (wrap_i64_small (e - s)) by lia.
  rewrite (wrap_i64_small (Z.quot (e - s) (Resolution md))) by lia.
  destruct (Z.ltb_spec (Z.quot (e - s) (Resolution md)) 0) as [?|_]; [lia|].
  assert (Et : turns (Duration md) epoFirst epoLast = Z.to_nat (qe - qs + 1)).
  { unfold turns. replace (epoLast - epoFirst) with ((qe - qs) * Duration md) by lia.
    rewrite Z.quot_mul by lia. reflexivity. }
  rewrite Et.
  destruct (One_loop_total now fields md s e epoFirst epoLast (qe - qs)
              Hres Hdur ltac:(lia) ltac:(lia) Hf2 ltac:(lia) En ltac:(lia) HnoN HnoE
              (Z.to_nat (qe - qs + 1)) epoFirst
              (replicate (Z.to_nat (Z.quot (e - s) (Resolution md))) None)
              db eq_refl) as (db' & out & E & L).
  - lia.
  - rewrite Z2Nat.id by lia. lia.
  - unfold lenZ. rewrite length_replicate, Z2Nat.id, wrap_i64_small by lia. reflexivity.
  - exists db', out. split; [exact E|].
    unfold lenZ. rewrite L, length_replicate, Z2Nat.id by lia. reflexivity.
Qed.

(** X20.  [One] and [Get] answer [ErrRange], without touching the database,
    when the end of the window floored to the resolution is not after the
    floored start. *)
Theorem range_reads_reject_empty_window (now start end_ : Z) (fields : list string)
    (db : database) :
  let md := metadata db in
  0 < Resolution md -> in_i64 start -> in_i64 end_ ->
  end_ - Z.rem end_ (Resolution md) <= start - Z.rem start (Resolution md) ->
  One now start end_ fields db = Some (db, Err ErrRange)
  /\ Get now start end_ fields db = Some (db, Err ErrRange).
Proof.
  intros md Hres Hs He Hle.
  pose proof (floor_in_i64 start _ Hs Hres) as Hfs.
  pose proof (floor_in_i64 end_ _ He Hres) as Hfe.
  unfold One, Get. fold md. cbv zeta.
  destruct (Z.eqb_spec (Resolution md) 0) as [?|_]; [lia|].
  rewrite (wrap_i64_id _ Hfs), (wrap_i64_id _ Hfe).
  destruct (Z.leb_spec (end_ - Z.rem end_ (Resolution md))
              (start - Z.rem start (Resolution md))) as [_|?]; [|lia].
  split; reflexivity.
Qed.

(** *** The accumulators of [Get] *)

Lemma Get_item_ok P md pointCount recStart recEnd a entry :
  0 <= recStart <= recEnd -> recEnd <= pointCount ->
  P (make_bytes (PayloadSize md)) -> Forall P (snd entry) ->
  acc_ok P (Z.to_nat pointCount) a ->
  exists a', Get_item md pointCount recStart recEnd a entry = Ok a'
    /\ acc_ok P (Z.to_nat pointCount) a'.
Proof.
  intros Hab Hb Hz Hp [Hpts Hfs]. destruct entry as [it points]. cbn [snd] in Hp.
  unfold Get_item.
  set (key := String.concat "-" (Index.Fields it)).
  destruct (tmpPoints a !! key) as [set|] eqn:Ek.
  - destruct (Hpts key set Ek) as [Hlen Hset].
    destruct (copy_into_ok set recStart recEnd points Hab) as (set' & -> & L & F).
    { unfold lenZ. rewrite Hlen. lia. }
    eexists. split; [reflexivity|]. split; cbn [tmpPoints tmpFields].
    + intros k st. destruct (decide (k = key)) as [->|Hne].
      * rewrite lookup_insert_eq. intros [= <-]. split; [congruence|auto].
      * rewrite lookup_insert_ne by congruence. apply Hpts.
    + intros k f Hk. destruct (decide (k = key)) as [->|Hne].
      * rewrite lookup_insert_eq. eauto.
      * rewrite lookup_insert_ne by congruence. eapply Hfs; eassumption.
  - destruct (Z.ltb_spec pointCount 0) as [?|_]; [lia|].
    set (set0 := replicate (Z.to_nat pointCount) (make_bytes (PayloadSize md))).
    destruct (copy_into_ok set0 recStart recEnd points Hab) as (set' & -> & L & F).
    { unfold lenZ, set0. rewrite length_replicate. lia. }
    eexists. split; [reflexivity|]. split; cbn [tmpPoints tmpFields].
    + intros k st. destruct (decide (k = key)) as [->|Hne].
      * rewrite lookup_insert_eq. intros [= <-]. split.
        -- rewrite L. unfold set0. apply length_replicate.
        -- apply F; [|assumption]. unfold set0. apply Forall_replicate. assumption.
      * rewrite !lookup_insert_ne by congruence. apply Hpts.
    + intros k f. destruct (decide (k = key)) as [->|Hne].
      * intros _. rewrite lookup_insert_eq. eauto.
      * rewrite !lookup_insert_ne by congruence. apply Hfs.
Qed.

Lemma Get_items_ok P md pointCount recStart recEnd rows : forall a,
  0 <= recStart <= recEnd -> recEnd <= pointCount ->
  P (make_bytes (PayloadSize md)) -> Forall (fun ir => Forall P (snd ir)) rows ->
  acc_ok P (Z.to_nat pointCount) a ->
  exists a', Get_items md pointCount recStart recEnd a rows = Ok a'
    /\ acc_ok P (Z.to_nat pointCount) a'.
Proof.
  induction rows as [|row rows IH]; intros a Hab Hb Hz Hrows Ha; cbn [Get_items].
  - eauto.
  - apply Forall_cons in Hrows as [Hrow Hrows].
    destruct (Get_item_ok P md pointCount recStart recEnd a row Hab Hb Hz Hrow Ha)
      as (a1 & -> & Ha1).
    apply IH; assumption.
Qed.

Lemma Get_out_ok P pc a :
  acc_ok P pc a ->
  Forall (fun ir => length (snd ir) = pc /\ Forall P (snd ir)) (Get_out a).
Proof.
  intros [Hpts Hfs]. unfold Get_out. apply Forall_fmap. apply Forall_forall.
  intros [k f] Hin. apply elem_of_map_to_list in Hin. cbn [fst snd].
  destruct (Hfs k f Hin) as [set Hset]. unfold compose. cbn [fst snd].
  rewrite Hset. cbn [default].
  exact (Hpts k set Hset).
Qed.

(** the loop of [Get] runs through and keeps the accumulators in order *)
Lemma Get_loop_total P now fields md s e epoFirst epoLast n :
  0 < Resolution md -> 0 < Duration md -> 0 <= s < e ->
  0 <= epoFirst <= s -> s < epoFirst + Duration md -> epoLast <= e ->
  epoLast = epoFirst + n * Duration md -> e + Duration md <= max_i64 ->
  (forall o, NewEpoch o <> Panic) -> (forall ep a b f, EGet ep a b f <> Panic) ->
  P (make_bytes (PayloadSize md)) ->
  (forall ep a b f rows, EGet ep a b f = Ok rows ->
     Forall (fun ir => Forall P (snd ir)) rows) ->
  let pc := Z.quot (wrap_i64 (e - s)) (Resolution md) in
  forall fuel ts a db,
    metadata db = md -> Z.of_nat fuel <= n + 1 ->
    ts = epoLast - (Z.of_nat fuel - 1) * Duration md ->
    acc_ok P (Z.to_nat pc) a ->
    exists db' a',
      Get_loop fuel now fields s e epoFirst epoLast pc ts a db = Some (db', Ok a')
      /\ acc_ok P (Z.to_nat pc) a'.
Proof.
  intros Hres Hdur Hse Hf Hfd Hl Hn Hmax HnoN HnoE Hz Hrows pc.
  induction fuel as [|fuel IH]; intros ts a db Hmd Hfuel Hts Ha.
  - cbn [Get_loop]. destruct (Z.leb_spec ts epoLast) as [Hle|_]; [cbn in Hts; lia|].
    cbn [negb]. eauto.
  - assert (Hts' : ts = epoLast - Z.of_nat fuel * Duration md) by lia.
    assert (Hge : 0 <= Z.of_nat fuel * Duration md) by (apply Z.mul_nonneg_nonneg; lia).
    assert (Hlo : epoFirst <= ts).
    { assert (0 <= (n - Z.of_nat fuel) * Duration md) by (apply Z.mul_nonneg_nonneg; lia).
      lia. }
    cbn [Get_loop]. destruct (Z.leb_spec ts epoLast) as [_|?]; [|lia]. cbn [negb].
    rewrite Hmd.
    destruct (getEpoch_keeps now ts db) as [Hk Hp];
      [rewrite Hmd; lia | rewrite Hmd; lia | assumption |].
    rewrite (wrap_i64_small (ts + Duration md)) by lia.
    assert (Hnext : forall a1 db1, metadata db1 = md -> acc_ok P (Z.to_nat pc) a1 ->
              exists db' a',
                Get_loop fuel now fields s e epoFirst epoLast pc (ts + Duration md) a1 db1
                = Some (db', Ok a') /\ acc_ok P (Z.to_nat pc) a').
    { intros a1 db1 Hm1 Ha1. apply IH; [assumption|lia|lia|assumption]. }
    destruct (getEpoch now ts db) as [db1 r]. cbn [fst snd] in Hk, Hp.
    rewrite Hmd in Hk.
    destruct r as [epo|err|]; [|apply Hnext; auto|contradiction].
    pose proof (window_ok (Resolution md) (Duration md) s e epoFirst epoLast n
                  (Z.of_nat fuel) ts Hres Hdur Hse Hf Hfd Hl Hn ltac:(lia) Hts' Hmax)
      as [[W1 W2] W3].
    destruct (trm (Duration md) s e epoFirst epoLast ts) as [trmStart trmEnd].
    cbn [fst snd] in W1, W2, W3.
    destruct (EGet _ _ _ _) as [rows|err|] eqn:EG;
      [|apply Hnext; auto|exfalso; exact (HnoE _ _ _ _ EG)].
    destruct (Get_items_ok P md pc _ _ rows a (conj W1 W2) W3 Hz (Hrows _ _ _ _ _ EG) Ha)
      as (a1 & -> & Ha1).
    apply Hnext; auto.
Qed.

(** X22.  Under the same conditions [Get] returns, and every series of its
    output has one payload per point of the floored window; a property that
    holds of the zero payload and of every payload the epochs return holds
    of every payload of the output (so no slot is nil). *)
Theorem Get_fills_rows (P : payload -> Prop) (now start end_ : Z)
    (fields : list string) (db : database) :
  let md := metadata db in
  0 < Resolution md -> 0 < Duration md ->
  0 <= start -> 0 <= end_ -> end_ + Duration md <= max_i64 ->
  (forall o, NewEpoch o <> Panic) -> (forall ep a b f, EGet ep a b f <> Panic) ->
  P (make_bytes (PayloadSize md)) ->
  (forall ep a b f rows, EGet ep a b f = Ok rows ->
     Forall (fun ir => Forall P (snd ir)) rows) ->
  let s := start - Z.rem start (Resolution md) in
  let e := end_ - Z.rem end_ (Resolution md) in
  s < e ->
  exists db' out,
    Get now start end_ fields db = Some (db', Ok out)
    /\ Forall (fun ir => lenZ (snd ir) = Z.quot (e - s) (Resolution md)
                        /\ Forall P (snd ir)) out.
Proof.
  intros md Hres Hdur Hs He Hmax HnoN HnoE Hz Hrows s e Hse.
  destruct (floor_nonneg start _ Hs Hres) as (Hs1 & _ & _).
  destruct (floor_nonneg end_ _ He Hres) as (He1 & _ & _).
  fold s in Hs1. fold e in He1.
  destruct (floor_nonneg s _ ltac:(lia) Hdur) as (Hf1 & Hf2 & qs & Hqs & Eqs).
  destruct (floor_nonneg e _ ltac:(lia) Hdur) as (Hl1 & Hl2 & qe & Hqe & Eqe).
  set (epoFirst := s - Z.rem s (Duration md)) in *.
  set (epoLast := e - Z.rem e (Duration md)) in *.
  assert (Hq : qs <= qe).
  { destruct (Z.le_gt_cases qs qe) as [|Hgt]; [assumption|exfalso].
    assert ((qe + 1) * Duration md <= qs * Duration md)
      by (apply Z.mul_le_mono_nonneg_r; lia). lia. }
  assert (En : epoLast = epoFirst + (qe - qs) * Duration md) by lia.
  unfold Get. fold md. cbv zeta.
  destruct (Z.eqb_spec (Resolution md) 0) as [?|_]; [lia|].
  fold s. fold e.
  rewrite (wrap_i64_small s), (wrap_i64_small e) by lia.
  destruct (Z.leb_spec e s) as [?|_]; [lia|].
  destruct (Z.eqb_spec (Duration md) 0) as [?|_]; [lia|].
  fold epoFirst. fold epoLast.
  rewrite (wrap_i64_small epoFirst), (wrap_i64_small epoLast) by lia.
  assert (Hpc : 0 <= Z.quot (e - s) (Resolution md) <= e - s).
  { split; [apply Z.quot_pos; lia|]. apply Z.quot_le_upper_bound; nia. }
  assert (Ew : wrap_i64 (e - s) = e - s) by (apply wrap_i64_small; lia).
  rewrite (wrap_i64_small (Z.quot (wrap_i64 (e - s)) (Resolution md)))
    by (rewrite Ew; lia).
  assert (Et : turns (Duration md) epoFirst epoLast = Z.to_nat (qe - qs + 1)).
  { unfold turns. replace (epoLast - epoFirst) with ((qe - qs) * Duration md) by lia.
    rewrite Z.quot_mul by lia. reflexivity. }
  rewrite Et.
  destruct (Get_loop_total P now fields md s e epoFirst epoLast (qe - qs)
              Hres Hdur ltac:(lia) ltac:(lia) Hf2 ltac:(lia) En ltac:(lia) HnoN HnoE
              Hz Hrows (Z.to_nat (qe - qs + 1)) epoFirst (mkAcc ∅ ∅) db eq_refl)
    as (db' & a & E & Ha).
  - lia.
  - rewrite Z2Nat.id by lia. lia.
  - split; cbn [tmpPoints tmpFields]; intros k x; rewrite lookup_empty; discriminate.
  - rewrite E. exists db', (Get_out a). split; [reflexivity|].
    apply Get_out_ok in Ha. rewrite Ew in Ha.
    eapply Forall_impl; [exact Ha|]. cbn beta. intros ir [L F]. split; [|assumption].
    unfold lenZ. rewrite L, Z2Nat.id by lia. reflexivity.
Qed.

End WithEpochs.

(** Witnesses. *)

Lemma store_NewEpoch one get o : NewEpoch (EpochStore := Samples.store one get) o <> Panic.
Proof. discriminate. Qed.

Lemma store_EOne one get ep a b f : EOne (EpochStore := Samples.store one get) ep a b f <> Panic.
Proof. cbn [EOne Samples.store]. destruct (one _ f); discriminate. Qed.

Lemma store_EGet one get ep a b f : EGet (EpochStore := Samples.store one get) ep a b f <> Panic.
Proof. discriminate. Qed.

Lemma store_ab_rows ep a b f rows :
  EGet (EpochStore := Samples.store_ab) ep a b f = Ok rows ->
  Forall (fun ir => Forall (fun p : payload => p <> None) (snd ir)) rows.
Proof.
  intros [= <-]. destruct (ETs ep =? 0); [|constructor].
  repeat (constructor; [cbn [snd]; apply Forall_take, Forall_drop;
                        repeat (constructor; [discriminate|]); constructor|]).
  constructor.
Qed.

Lemma range_reads_reject_empty_window_witness :
  let db := Samples.db1 Samples.store_cpu in
  let md := metadata db in
  0 < Resolution md /\ in_i64 10000000000 /\ in_i64 5000000000
  /\ 5000000000 - Z.rem 5000000000 (Resolution md)
     <= 10000000000 - Z.rem 10000000000 (Resolution md)
  /\ One 25000000000 10000000000 5000000000 ["host-a"; "cpu"] db = Some (db, Err ErrRange)
  /\ Get 25000000000 10000000000 5000000000 ["host-a"; "cpu"] db = Some (db, Err ErrRange).
Proof.
  intros db md.
  assert (H1 : 0 < Resolution md) by reflexivity.
  assert (H2 : in_i64 10000000000) by (vm_compute; split; discriminate).
  assert (H3 : in_i64 5000000000) by (vm_compute; split; discriminate).
  assert (H4 : 5000000000 - Z.rem 5000000000 (Resolution md)
               <= 10000000000 - Z.rem 10000000000 (Resolution md))
    by (vm_compute; discriminate).
  do 4 (split; [assumption|]).
  exact (range_reads_reject_empty_window 25000000000 10000000000 5000000000
           ["host-a"; "cpu"] db H1 H2 H3 H4).
Defined.

Lemma One_fills_window_witness :
  let db := Samples.db1 Samples.store_cpu in
  let md := metadata db in
  let s := 0 - Z.rem 0 (Resolution md) in
  let e := 20000000000 - Z.rem 20000000000 (Resolution md) in
  0 < Resolution md /\ 0 < Duration md /\ 0 <= 0 /\ 0 <= 20000000000
  /\ 20000000000 + Duration md <= max_i64
  /\ s < e
  /\ exists db' out,
       One 25000000000 0 20000000000 ["host-a"; "cpu"] db = Some (db', Ok out)
       /\ lenZ out = Z.quot (e - s) (Resolution md).
Proof.
  intros db md s e.
  assert (H1 : 0 < Resolution md) by reflexivity.
  assert (H2 : 0 < Duration md) by reflexivity.
  assert (H3 : 0 <= 0) by discriminate.
  assert (H4 : 0 <= 20000000000) by discriminate.
  assert (H5 : 20000000000 + Duration md <= max_i64) by (vm_compute; discriminate).
  assert (H6 : s < e) by reflexivity.
  do 6 (split; [assumption|]).
  exact (One_fills_window 25000000000 0 20000000000 ["host-a"; "cpu"] db H1 H2 H3 H4 H5
           (store_NewEpoch _ _) (store_EOne _ _) H6).
Defined.

Lemma Get_fills_rows_witness :
  let db := Samples.db1 Samples.store_ab in
  let md := metadata db in
  let P := fun p : payload => p <> None in
  let s := 0 - Z.rem 0 (Resolution md) in
  let e := 20000000000 - Z.rem 20000000000 (Resolution md) in
  0 < Resolution md /\ 0 < Duration md /\ 0 <= 0 /\ 0 <= 20000000000
  /\ 20000000000 + Duration md <= max_i64
  /\ P (make_bytes (PayloadSize md))
  /\ s < e
  /\ exists db' out,
       Get 25000000000 0 20000000000 [""] db = Some (db', Ok out)
       /\ Forall (fun ir => lenZ (snd ir) = Z.quot (e - s) (Resolution md)
                           /\ Forall P (snd ir)) out.
Proof.
  intros db md P s e.
  assert (H1 : 0 < Resolution md) by reflexivity.
  assert (H2 : 0 < Duration md) by reflexivity.
  assert (H3 : 0 <= 0) by discriminate.
  assert (H4 : 0 <= 20000000000) by discriminate.
  assert (H5 : 20000000000 + Duration md <= max_i64) by (vm_compute; discriminate).
  assert (H6 : P (make_bytes (PayloadSize md))) by discriminate.
  assert (H7 : s < e) by reflexivity.
  do 7 (split; [assumption|]).
  exact (Get_fills_rows P 25000000000 0 20000000000 [""] db H1 H2 H3 H4 H5
           (store_NewEpoch _ _) (store_EGet _ _) H6 store_ab_rows H7).
Defined.

End DatabaseReadSpec.

(* ================================================================== *)
(** ** Package kadiyadb: writes and the epoch caches *)
(* ================================================================== *)

Module DatabaseWriteSpec.

Import Database DatabaseSpec DatabaseReadSpec.
Local Open Scope Z_scope.

Section WithEpochs.
Context `{EpochStore}.
Variable EPut : Epoch -> Z -> list string -> payload -> result error unit.

(** X23.  [Put] floors the timestamp to the resolution, asks [getEpoch] for
    the epoch of the floored timestamp and writes at the position of that
    timestamp in the epoch: the position lies within the epoch, and the
    start of the epoch plus position times resolution is the floored
    timestamp.  An error of [getEpoch] is returned as it is. *)
Theorem Put_position (now ts : Z) (fields : list string) (value : payload)
    (db : database) :
  let md := metadata db in
  let res := Resolution md in
  let dur := Duration md in
  0 < res -> 0 < dur -> Z.rem dur res = 0 -> Z.quot dur res <= 2 ^ 32 ->
  0 <= ts <= max_i64 ->
  let ts' := ts - Z.rem ts res in
  let pos := Z.quot (Z.rem ts' dur) res in
  Put EPut now ts fields value db
  = match getEpoch now ts' db with
    | (db1, Ok epo) => (db1, EPut epo pos fields value)
    | (db1, Err e) => (db1, Err e)
    | (db1, Panic) => (db1, Panic)
    end
  /\ 0 <= pos < Z.quot dur res
  /\ ts' = (ts' - Z.rem ts' dur) + pos * res.
Proof.
  intros md res dur Hres Hdur Hmul Hcount Hts ts' pos.
  destruct (floor_nonneg ts res ltac:(lia) Hres) as (Hf & _ & q & Hq & Eq).
  fold ts' in Hf, Eq.
  pose proof (Z.rem_bound_pos ts' dur ltac:(lia) Hdur) as Hr.
  pose proof (Z.rem_le ts' dur ltac:(lia) Hdur) as Hrl.
  (* the duration and the offset in the epoch are multiples of the resolution *)
  pose proof (Z.quot_rem' dur res) as Ed. rewrite Hmul in Ed.
  set (k := Z.quot dur res) in *.
  pose proof (Z.quot_rem' ts' dur) as Et.
  set (m := Z.quot ts' dur) in *.
  assert (Er : Z.rem ts' dur = (q - m * k) * res) by nia.
  assert (Epos : pos = q - m * k).
  { unfold pos. rewrite Er. apply Z.quot_mul. lia. }
  assert (Hpos : 0 <= pos < k).
  { rewrite Epos. split; nia. }
  split; [|split; [exact Hpos|rewrite Epos; lia]].
  unfold Put. fold md. fold res. fold dur. cbv zeta.
  destruct (Z.eqb_spec res 0) as [?|_]; [lia|].
  fold ts'. rewrite (wrap_i64_small ts') by lia.
  destruct (getEpoch now ts' db) as [db1 [epo|e|]]; try reflexivity.
  destruct (Z.eqb_spec dur 0) as [?|_]; [lia|].
  rewrite (wrap_i64_small (ts' - Z.rem ts' dur)) by lia.
  replace (ts' - (ts' - Z.rem ts' dur)) with (Z.rem ts' dur) by lia.
  rewrite (wrap_i64_small (Z.rem ts' dur)) by lia.
  fold pos. rewrite wrap_u32_id; [reflexivity|]. lia.
Qed.

(** X24.  In recovery mode [getEpoch] never reads or changes the cache of
    read-only epochs, and the mode stays on. *)
Theorem getEpoch_recovery_keeps_ro_cache (now ts : Z) (db : database) :
  recovery db = true ->
  roepochs (fst (getEpoch now ts db)) = roepochs db
  /\ recovery (fst (getEpoch now ts db)) = true.
Proof.
  intros Hrec. unfold getEpoch. rewrite Hrec.
  destruct (_ =? 0); [auto|]. destruct (_ >=? _); [auto|].
  unfold Cache_Get. cbn [cache_of].
  destruct (assoc _ _) as [epo|]; cbn [fst set_cache roepochs recovery]; [auto|].
  destruct (_ =? 0); cbn [fst set_cache roepochs recovery]; [auto|].
  destruct (NewEpoch _); cbn [fst set_cache roepochs recovery]; auto.
Qed.

Lemma assoc_head {E} k (v : E) l : assoc k ((k, v) :: l) = Some v.
Proof. cbn [assoc]. rewrite Z.eqb_refl. reflexivity. Qed.

(** X25.  With caches of capacity at least one, the epoch that [getEpoch]
    has returned is returned again by the next [getEpoch] for the same
    timestamp at the same time: it is served from the cache. *)
Theorem getEpoch_reuses_resident_epoch (now ts : Z) (db db1 : database) (epo : Epoch) :
  (0 < capacity (roepochs db))%nat -> (0 < capacity (rwepochs db))%nat ->
  getEpoch now ts db = (db1, Ok epo) ->
  snd (getEpoch now ts db1) = Ok epo.
Proof.
  intros Hro Hrw. unfold getEpoch at 1.
  destruct (Z.eqb_spec (Duration (metadata db)) 0) as [?|Hd]; [discriminate|].
  set (k := wrap_i64 (ts - Z.rem ts (Duration (metadata db)))).
  set (now' := wrap_i64 (now - Z.rem now (Duration (metadata db)))).
  set (mn := wrap_i64 (now' - wrap_i64 (wrap_u32 (MaxRWEpochs (metadata db) - 1)
                                        * Duration (metadata db)))).
  destruct (k >=? wrap_i64 (now' + Duration (metadata db))) eqn:Efut; [discriminate|].
  set (ro := if recovery db then false else k <? mn).
  set (t := if ro then RO else RW).
  assert (Hcap : (0 < capacity (cache_of t db))%nat) by (destruct t; assumption).
  intros E.
  assert (Hdb1 : metadata db1 = metadata db /\ recovery db1 = recovery db
                 /\ exists rest, entries (cache_of t db1) = (k, epo) :: rest).
  { revert E. unfold Cache_Get.
    destruct (assoc k (entries (cache_of t db))) as [epo'|].
    - intros [= <- <-]. rewrite metadata_set, recovery_set, cache_of_set_same.
      cbn [entries]. eauto.
    - destruct (_ =? 0); [discriminate|].
      destruct (NewEpoch _) as [epo'| |]; try discriminate.
      intros [= <- <-]. rewrite !metadata_set, !recovery_set, !cache_of_set_same.
      unfold Cache_Add. cbn [fst entries capacity].
      destruct (capacity (cache_of t db)) as [|c]; [lia|]. cbn [take]. eauto. }
  destruct Hdb1 as (Hm & Hr & rest & Hent).
  unfold getEpoch. rewrite Hm, Hr.
  destruct (Z.eqb_spec (Duration (metadata db)) 0) as [?|_]; [contradiction|].
  fold k. fold now'. fold mn. rewrite Efut. fold ro. fold t.
  unfold Cache_Get. rewrite Hent, assoc_head. reflexivity.
Qed.

End WithEpochs.

(** Witnesses. *)

Lemma Put_position_witness :
  let db := Samples.db1 Samples.store_cpu in
  let EPut := fun (_ : Epoch) (_ : Z) (_ : list string) (_ : payload) =>
                @Ok error unit tt in
  let md := metadata db in
  let res := Resolution md in
  let dur := Duration md in
  let ts' := 5500000000 - Z.rem 5500000000 res in
  let pos := Z.quot (Z.rem ts' dur) res in
  0 < res /\ 0 < dur /\ Z.rem dur res = 0 /\ Z.quot dur res <= 2 ^ 32
  /\ 0 <= 5500000000 <= max_i64
  /\ Put EPut 6000000000 5500000000 ["host-a"; "cpu"] Samples.ones8 db
     = match getEpoch 6000000000 ts' db with
       | (db1, Ok epo) => (db1, EPut epo pos ["host-a"; "cpu"] Samples.ones8)
       | (db1, Err e) => (db1, Err e)
       | (db1, Panic) => (db1, Panic)
       end
  /\ 0 <= pos < Z.quot dur res
  /\ ts' = (ts' - Z.rem ts' dur) + pos * res.
Proof.
  intros db EPut md res dur ts' pos.
  assert (H1 : 0 < res) by reflexivity.
  assert (H2 : 0 < dur) by reflexivity.
  assert (H3 : Z.rem dur res = 0) by reflexivity.
  assert (H4 : Z.quot dur res <= 2 ^ 32) by (vm_compute; discriminate).
  assert (H5 : 0 <= 5500000000 <= max_i64) by (vm_compute; split; discriminate).
  do 5 (split; [assumption|]).
  exact (Put_position EPut 6000000000 5500000000 ["host-a"; "cpu"] Samples.ones8 db
           H1 H2 H3 H4 H5).
Defined.

Lemma getEpoch_recovery_keeps_ro_cache_witness :
  let db := mkDatabase (H := Samples.store_cpu) Samples.md1 (NewCache 4) (NewCache 4)
              true false in
  recovery db = true
  /\ roepochs (fst (getEpoch 95000000000 5000000000 db)) = roepochs db
  /\ recovery (fst (getEpoch 95000000000 5000000000 db)) = true.
Proof.
  intros db.
  assert (H1 : recovery db = true) by reflexivity.
  split; [assumption|].
  exact (getEpoch_recovery_keeps_ro_cache 95000000000 5000000000 db H1).
Defined.

Lemma getEpoch_reuses_resident_epoch_witness :
  let db := Samples.db1 Samples.store_cpu in
  let db1 := fst (getEpoch 95000000000 5000000000 db) in
  let epo := mkEpochOptions "db" 0 8 10 100 true in
  (0 < capacity (roepochs db))%nat /\ (0 < capacity (rwepochs db))%nat
  /\ getEpoch 95000000000 5000000000 db = (db1, Ok epo)
  /\ snd (getEpoch 95000000000 5000000000 db1) = Ok epo.
Proof.
  intros db db1 epo.
  assert (H1 : (0 < capacity (roepochs db))%nat) by (vm_compute; lia).
  assert (H2 : (0 < capacity (rwepochs db))%nat) by (vm_compute; lia).
  assert (H3 : getEpoch 95000000000 5000000000 db = (db1, Ok epo))
    by (vm_compute; reflexivity).
  do 3 (split; [assumption|]).
  exact (getEpoch_reuses_resident_epoch 95000000000 5000000000 db db1 epo H1 H2 H3).
Defined.

End DatabaseWriteSpec.

(* ================================================================== *)
(** ** Package kadiyadb: expiry *)
(* ================================================================== *)

Module DatabaseExpireSpec.

Import Database DatabaseSpec DatabaseReadSpec.
Local Open Scope Z_scope.

Section WithEpochs.
Context `{EpochStore}.
Variable EClose : Epoch -> result error unit.
Variable RemoveAll : string -> string -> bool.

Lemma expire_loop_safe ts : forall files db removed num db' removed' r,
  expire_loop EClose RemoveAll ts files db removed num = (db', removed', r) ->
  rwepochs db' = rwepochs db /\ metadata db' = metadata db
  /\ recovery db' = recovery db
  /\ exists more, removed' = removed ++ more
       /\ Forall (fun name => In name files /\ expired ts name = true) more
       /\ (lenZ removed + lenZ files <= max_i64 -> num = lenZ removed ->
           forall n, r = Ok n -> n = lenZ removed').
Proof.
  induction files as [|fname tl IH]; intros db removed num db' removed' r;
    cbn [expire_loop].
  - intros [= <- <- <-]. repeat split. exists []. rewrite app_nil_r.
    split; [reflexivity|]. split; [constructor|]. intros _ -> n [= <-]. reflexivity.
  - assert (Hskip : expire_loop EClose RemoveAll ts tl db removed num = (db', removed', r) ->
              rwepochs db' = rwepochs db /\ metadata db' = metadata db
              /\ recovery db' = recovery db
              /\ exists more, removed' = removed ++ more
                   /\ Forall (fun name => In name (fname :: tl) /\ expired ts name = true) more
                   /\ (lenZ removed + lenZ (fname :: tl) <= max_i64 -> num = lenZ removed ->
                       forall n, r = Ok n -> n = lenZ removed')).
    { intros E. destruct (IH _ _ _ _ _ _ E) as (R1 & R2 & R3 & more & -> & F & N).
      repeat split; try assumption. exists more. split; [reflexivity|]. split.
      - eapply Forall_impl; [exact F|]. cbn beta. intros x [Hi He]. split; [right|]; assumption.
      - intros Hl Hn. apply N; [|assumption]. revert Hl. unfold lenZ. cbn [length]. lia. }
    unfold expired at 1.
    destruct (strip_prefix EpochPrefix fname) as [tsStr|] eqn:Ep; [|exact Hskip].
    destruct (ParseInt tsStr) as [tsInt|] eqn:Ei; [|exact Hskip].
    destruct (tsInt >? ts) eqn:Egt; [exact Hskip|].
    destruct (Cache_Del tsInt (roepochs db)) as [ro found].
    set (db1 := set_cache RO ro db).
    assert (Hdb1 : rwepochs db1 = rwepochs db /\ metadata db1 = metadata db
                   /\ recovery db1 = recovery db) by (repeat split).
    destruct Hdb1 as (D1 & D2 & D3).
    assert (Hexp : expired ts fname = true).
    { unfold expired. rewrite Ep, Ei, Egt. reflexivity. }
    assert (Hkeep : expire_loop EClose RemoveAll ts tl db1 removed num = (db', removed', r) ->
              rwepochs db' = rwepochs db /\ metadata db' = metadata db
              /\ recovery db' = recovery db
              /\ exists more, removed' = removed ++ more
                   /\ Forall (fun name => In name (fname :: tl) /\ expired ts name = true) more
                   /\ (lenZ removed + lenZ (fname :: tl) <= max_i64 -> num = lenZ removed ->
                       forall n, r = Ok n -> n = lenZ removed')).
    { intros E. destruct (IH _ _ _ _ _ _ E) as (R1 & R2 & R3 & more & -> & F & N).
      split; [congruence|]. split; [congruence|]. split; [congruence|].
      exists more. split; [reflexivity|]. split.
      - eapply Forall_impl; [exact F|]. cbn beta. intros x [Hi He]. split; [right|]; assumption.
      - intros Hl Hn. apply N; [|assumption]. revert Hl. unfold lenZ. cbn [length]. lia. }
    destruct (match found with Some epo => EClose epo | None => Ok tt end) as [[]|e|].
    + destruct (RemoveAll (Path (metadata db1)) fname); [|exact Hkeep].
      intros E. destruct (IH _ _ _ _ _ _ E) as (R1 & R2 & R3 & more & -> & F & N).
      split; [congruence|]. split; [congruence|]. split; [congruence|].
      exists (fname :: more). split; [rewrite <- app_assoc; reflexivity|]. split.
      * constructor; [split; [left; reflexivity|assumption]|].
        eapply Forall_impl; [exact F|]. cbn beta. intros x [Hi He]. split; [right|]; assumption.
      * intros Hl Hn. apply N.
        -- revert Hl. unfold lenZ. rewrite length_app. cbn [length]. lia.
        -- subst num. rewrite wrap_i64_small.
           ++ unfold lenZ. rewrite length_app. cbn [length]. lia.
           ++ revert Hl. unfold lenZ. cbn [length]. lia.
    + exact Hkeep.
    + intros [= <- <- <-]. split; [assumption|]. split; [assumption|]. split; [assumption|].
      exists []. rewrite app_nil_r. split; [reflexivity|]. split; [constructor|].
      intros _ _ n. discriminate.
Qed.

(** X26.  [expire] removes only directories of expired epochs: every name
    it removes is an entry of the directory that parses as [epoch_<ts>]
    with [ts] at or before the cut-off.  It never touches the cache of
    read-write epochs or the metadata, and the number it returns is the
    number of directories removed. *)
Theorem expire_removes_only_expired (now : Z) (dir : ReadDir) (db db' : database)
    (removed : list string) (r : result error Z) :
  expire EClose RemoveAll now dir db = (db', removed, r) ->
  rwepochs db' = rwepochs db /\ metadata db' = metadata db
  /\ Forall (fun name => expired (cutoff (metadata db) now) name = true
                         /\ exists files, dir = DirEntries files /\ In name files)
       removed
  /\ forall files n, dir = DirEntries files -> lenZ files <= max_i64 -> r = Ok n ->
       n = lenZ removed.
Proof.
  unfold expire. destruct (Duration (metadata db) =? 0).
  { intros [= <- <- <-]. repeat split; [constructor|]. discriminate. }
  destruct dir as [| |files].
  - intros [= <- <- <-]. repeat split; [constructor|]. discriminate.
  - intros [= <- <- <-]. repeat split; [constructor|]. discriminate.
  - intros E. destruct (expire_loop_safe _ _ _ _ _ _ _ _ E)
      as (R1 & R2 & _ & more & -> & F & N).
    cbn [app] in *. split; [assumption|]. split; [assumption|]. split.
    + eapply Forall_impl; [exact F|]. cbn beta. intros x [Hi He]. split; [assumption|].
      exists files. auto.
    + intros files' n [= <-] Hl Hr. apply N; [|reflexivity|assumption].
      change (lenZ []) with 0. lia.
Qed.

Lemma expire_loop_exact ts :
  (forall epo, EClose epo = Ok tt) -> (forall d name, RemoveAll d name = true) ->
  forall files db removed num,
  exists db',
    expire_loop EClose RemoveAll ts files db removed num
    = (db', removed ++ List.filter (expired ts) files,
       Ok (Nat.iter (length (List.filter (expired ts) files))
             (fun n => wrap_i64 (n + 1)) num)).
Proof.
  intros Hc Hr. induction files as [|fname tl IH]; intros db removed num;
    cbn [expire_loop List.filter].
  - exists db. rewrite app_nil_r. reflexivity.
  - destruct (expired ts fname) eqn:Ex; unfold expired in Ex;
      destruct (strip_prefix EpochPrefix fname) as [tsStr|]; try discriminate Ex;
      try apply IH;
      destruct (ParseInt tsStr) as [tsInt|]; try discriminate Ex; try apply IH;
      destruct (tsInt >? ts); try discriminate Ex; try apply IH.
    destruct (Cache_Del tsInt (roepochs db)) as [ro found].
    assert (Hcl : match found with Some epo => EClose epo | None => Ok tt end = Ok tt)
      by (destruct found; auto).
    rewrite Hcl, Hr.
    destruct (IH (set_cache RO ro db) (removed ++ [fname]) (wrap_i64 (num + 1)))
      as (db' & ->).
    exists db'. rewrite <- app_assoc. cbn [app length]. rewrite Nat.iter_succ_r.
    reflexivity.
Qed.

Lemma iter_count k : forall num, 0 <= num -> num + Z.of_nat k <= max_i64 ->
  Nat.iter k (fun n => wrap_i64 (n + 1)) num = num + Z.of_nat k.
Proof.
  induction k as [|k IH]; intros num Hn Hk; [cbn; lia|].
  rewrite Nat.iter_succ_r, IH.
  - rewrite wrap_i64_small by lia. lia.
  - rewrite wrap_i64_small by lia. lia.
  - rewrite wrap_i64_small by lia. lia.
Qed.

(** X27.  When closing an epoch and removing a directory succeed, [expire]
    removes every expired epoch directory, in the order of the listing, and
    returns their number. *)
Theorem expire_removes_all_expired (now : Z) (files : list string) (db : database) :
  Duration (metadata db) <> 0 -> lenZ files <= max_i64 ->
  (forall epo, EClose epo = Ok tt) -> (forall d name, RemoveAll d name = true) ->
  let gone := List.filter (expired (cutoff (metadata db) now)) files in
  exists db', expire EClose RemoveAll now (DirEntries files) db
              = (db', gone, Ok (lenZ gone)).
Proof.
  intros Hd Hl Hc Hr gone. unfold expire.
  destruct (Z.eqb_spec (Duration (metadata db)) 0) as [?|_]; [contradiction|].
  destruct (expire_loop_exact (cutoff (metadata db) now) Hc Hr files db [] 0)
    as (db' & ->).
  exists db'. cbn [app]. fold gone. rewrite iter_count; [reflexivity|lia|].
  pose proof (filter_length (expired (cutoff (metadata db) now)) files) as Hf.
  fold gone in Hf. unfold lenZ in Hl. lia.
Qed.

End WithEpochs.

(** Witnesses. *)

(** Retention of 30 s at second 100: the cut-off is second 70. *)
Lemma expire_removes_only_expired_witness :
  let db := Samples.db1 Samples.store_cpu in
  let EClose := fun _ : Epoch => @Ok error unit tt in
  let RemoveAll := fun _ _ : string => true in
  let dir := DirEntries ["epoch_0"; "epoch_10000000000"; "epoch_60000000000";
                         "epoch_90000000000"; "metadata"] in
  let removed := ["epoch_0"; "epoch_10000000000"; "epoch_60000000000"] in
  expire EClose RemoveAll 100000000000 dir db = (db, removed, Ok 3)
  /\ rwepochs db = rwepochs db /\ metadata db = metadata db
  /\ Forall (fun name => expired (cutoff (metadata db) 100000000000) name = true
                         /\ exists files, dir = DirEntries files /\ In name files)
       removed
  /\ forall files n, dir = DirEntries files -> lenZ files <= max_i64 -> @Ok error Z 3 = Ok n ->
       n = lenZ removed.
Proof.
  intros db EClose RemoveAll dir removed.
  assert (H1 : expire EClose RemoveAll 100000000000 dir db = (db, removed, Ok 3))
    by (vm_compute; reflexivity).
  split; [assumption|].
  exact (expire_removes_only_expired EClose RemoveAll 100000000000 dir db db removed
           (Ok 3) H1).
Defined.

Lemma expire_removes_all_expired_witness :
  let db := Samples.db1 Samples.store_cpu in
  let EClose := fun _ : Epoch => @Ok error unit tt in
  let RemoveAll := fun _ _ : string => true in
  let files := ["epoch_0"; "epoch_10000000000"; "epoch_60000000000";
                "epoch_90000000000"; "metadata"] in
  let gone := List.filter (expired (cutoff (metadata db) 100000000000)) files in
  Duration (metadata db) <> 0 /\ lenZ files <= max_i64
  /\ (forall epo, EClose epo = Ok tt) /\ (forall d name, RemoveAll d name = true)
  /\ exists db', expire EClose RemoveAll 100000000000 (DirEntries files) db
                 = (db', gone, Ok (lenZ gone)).
Proof.
  intros db EClose RemoveAll files gone.
  assert (H1 : Duration (metadata db) <> 0) by discriminate.
  assert (H2 : lenZ files <= max_i64) by (vm_compute; discriminate).
  assert (H3 : forall epo, EClose epo = Ok tt) by reflexivity.
  assert (H4 : forall d name, RemoveAll d name = true) by reflexivity.
  do 4 (split; [assumption|]).
  exact (expire_removes_all_expired EClose RemoveAll 100000000000 files db H1 H2 H3 H4).
Defined.

End DatabaseExpireSpec.
